(** * SILMem2Reg: promotion of stack allocations to SSA registers

    A shallow embedding of [lib/SILOptimizer/Transforms/SILMem2Reg.cpp].

    The SIL container (instructions, basic blocks, use lists, builders) and
    the dominance analysis live outside that file.  They are represented
    here by a small arena-style IR: instructions and block arguments are
    named by numbers, a function is an ordered list of blocks, and use
    lists are recomputed from the operands.  Assertions of the source are
    failures of the [option] monad.  The LLVM statistics counters
    ([NumInstRemoved] and friends) and debug output are not represented. *)

From stdpp Require Import base option list gmap.

#[local] Set Warnings "-register-all".

(** ** Values, types and instructions *)

Module SIL.

(** A [SILValue] is the result of an instruction, a block argument, or the
    undefined placeholder [SILUndef::get].  The null [SILValue()] of the
    source is [None : option SILValue]. *)
Inductive SILValue :=
| SILUndef
| ValueOf (id : nat).

#[global] Instance SILValue_eq_dec : EqDecision SILValue.
Proof. solve_decision. Defined.

(** Lowered types, as far as the pass inspects them: tuples (the empty
    tuple is [Void]) and everything else, which is either loadable or
    address-only. *)
Inductive SILType :=
| TupleType (elts : list SILType)
| NominalType (loadable : bool).

Fixpoint isLoadable (ty : SILType) : bool :=
  match ty with
  | TupleType elts =>
      (fix all (l : list SILType) : bool :=
         match l with
         | [] => true
         | t :: r => isLoadable t && all r
         end) elts
  | NominalType l => l
  end.

Definition isVoid (ty : SILType) : bool :=
  match ty with
  | TupleType [] => true
  | _ => false
  end.

Inductive LoadOwnershipQualifier :=
| LoadUnqualified | LoadTake | LoadCopy | LoadTrivial.

Inductive StoreOwnershipQualifier :=
| StoreUnqualified | StoreInit | StoreAssign | StoreTrivial.

#[global] Instance LoadOwnershipQualifier_eq_dec : EqDecision LoadOwnershipQualifier.
Proof. solve_decision. Defined.

#[global] Instance StoreOwnershipQualifier_eq_dec : EqDecision StoreOwnershipQualifier.
Proof. solve_decision. Defined.

(** The instruction kinds the pass distinguishes, those it creates, and
    [OtherInst] for any other user of a value.  A terminator lists its
    successor edges, each with the branch arguments sent along it. *)
Inductive InstKind :=
| AllocStackInst (elementType : SILType)
| LoadInst (op : SILValue) (qual : LoadOwnershipQualifier)
| StoreInst (src dest : SILValue) (qual : StoreOwnershipQualifier)
| StructElementAddrInst (op : SILValue) (field : nat)
| TupleElementAddrInst (op : SILValue) (field : nat)
| UncheckedAddrCastInst (op : SILValue)
| DeallocStackInst (op : SILValue)
| DebugValueAddrInst (op : SILValue) (varInfo : nat)
| DebugValueInst (op : SILValue) (varInfo : nat)
| DestroyAddrInst (op : SILValue)
| DestroyValueInst (op : SILValue)
| CopyValueInst (op : SILValue)
| BeginBorrowInst (op : SILValue)
| EndBorrowInst (op : SILValue)
| StructExtractInst (op : SILValue) (field : nat)
| TupleExtractInst (op : SILValue) (field : nat)
| UncheckedBitwiseCastInst (op : SILValue)
| TupleInst (elts : list SILValue)
| TermInst (edges : list (nat * list SILValue))
| OtherInst (ops : list SILValue).

Record SILInstruction := mkInst {
  instID : nat;
  kind : InstKind
}.

Record SILBasicBlock := mkBlock {
  blockID : nat;
  arguments : list nat;
  insts : list SILInstruction
}.

(** [nextID] is the next unused value number; builders draw from it. *)
Record SILFunction := mkFunction {
  blocks : list SILBasicBlock;
  nextID : nat
}.

Definition getOperands (k : InstKind) : list SILValue :=
  match k with
  | AllocStackInst _ => []
  | LoadInst op _ => [op]
  | StoreInst src dest _ => [src; dest]
  | StructElementAddrInst op _ => [op]
  | TupleElementAddrInst op _ => [op]
  | UncheckedAddrCastInst op => [op]
  | DeallocStackInst op => [op]
  | DebugValueAddrInst op _ => [op]
  | DebugValueInst op _ => [op]
  | DestroyAddrInst op => [op]
  | DestroyValueInst op => [op]
  | CopyValueInst op => [op]
  | BeginBorrowInst op => [op]
  | EndBorrowInst op => [op]
  | StructExtractInst op _ => [op]
  | TupleExtractInst op _ => [op]
  | UncheckedBitwiseCastInst op => [op]
  | TupleInst elts => elts
  | TermInst edges => flat_map snd edges
  | OtherInst ops => ops
  end.

Definition mapOperands (f : SILValue → SILValue) (k : InstKind) : InstKind :=
  match k with
  | AllocStackInst ty => AllocStackInst ty
  | LoadInst op q => LoadInst (f op) q
  | StoreInst src dest q => StoreInst (f src) (f dest) q
  | StructElementAddrInst op n => StructElementAddrInst (f op) n
  | TupleElementAddrInst op n => TupleElementAddrInst (f op) n
  | UncheckedAddrCastInst op => UncheckedAddrCastInst (f op)
  | DeallocStackInst op => DeallocStackInst (f op)
  | DebugValueAddrInst op v => DebugValueAddrInst (f op) v
  | DebugValueInst op v => DebugValueInst (f op) v
  | DestroyAddrInst op => DestroyAddrInst (f op)
  | DestroyValueInst op => DestroyValueInst (f op)
  | CopyValueInst op => CopyValueInst (f op)
  | BeginBorrowInst op => BeginBorrowInst (f op)
  | EndBorrowInst op => EndBorrowInst (f op)
  | StructExtractInst op n => StructExtractInst (f op) n
  | TupleExtractInst op n => TupleExtractInst (f op) n
  | UncheckedBitwiseCastInst op => UncheckedBitwiseCastInst (f op)
  | TupleInst elts => TupleInst (map f elts)
  | TermInst edges => TermInst (map (λ e, (e.1, map f e.2)) edges)
  | OtherInst ops => OtherInst (map f ops)
  end.

(** [I->getOperand(0)] *)
Definition getOperand0 (k : InstKind) : option SILValue := head (getOperands k).

(** The result of an instruction as a value. *)
Definition asValue (Inst : SILInstruction) : SILValue := ValueOf (instID Inst).

Definition valueEqb (a b : SILValue) : bool := bool_decide (a = b).

(** [isa<UncheckedAddrCastInst>(I) || isa<StructElementAddrInst>(I) ||
    isa<TupleElementAddrInst>(I)] *)
Definition isAddrProjection (k : InstKind) : bool :=
  match k with
  | UncheckedAddrCastInst _ | StructElementAddrInst _ _
  | TupleElementAddrInst _ _ => true
  | _ => false
  end.

(** [isa<StructElementAddrInst>(I) || isa<TupleElementAddrInst>(I)] *)
Definition isFieldProjection (k : InstKind) : bool :=
  match k with
  | StructElementAddrInst _ _ | TupleElementAddrInst _ _ => true
  | _ => false
  end.

(** ** The IR container

    The IR container (section 6 of the specification: block list,
    instruction list per block with insert and erase, use list per value,
    predecessor and successor edges, terminator replacement, block
    parameter append and erase) is not part of the pass's source file. *)

(** Modelled from the spec: the instructions of the function in program
    order, each with the number of its block (the block list and the
    instruction list per block are not in the source file). *)
Definition allInsts (F : SILFunction) : list (nat * SILInstruction) :=
  flat_map (λ B, map (λ Inst, (blockID B, Inst)) (insts B)) (blocks F).

(** Modelled from the spec: the instruction numbered [id] and its
    block; instruction handles of the source are numbers here. *)
Definition findInst (F : SILFunction) (id : nat) : option (nat * SILInstruction) :=
  List.find (λ p, instID p.2 =? id) (allInsts F).

(** Modelled from the spec: [V->getDefiningInstruction()], which is not
    in the source file. *)
Definition definingInst (F : SILFunction) (v : SILValue) : option SILInstruction :=
  match v with
  | SILUndef => None
  | ValueOf id => snd <$> findInst F id
  end.

(** Modelled from the spec: [I->getParent()], which is not in the source
    file. *)
Definition getParent (F : SILFunction) (id : nat) : option nat :=
  fst <$> findInst F id.

(** Modelled from the spec: the block numbered [b] of the block list. *)
Definition findBlock (F : SILFunction) (b : nat) : option SILBasicBlock :=
  List.find (λ B, blockID B =? b) (blocks F).

Definition mapBlocks (f : SILBasicBlock → SILBasicBlock) (F : SILFunction) : SILFunction :=
  mkFunction (map f (blocks F)) (nextID F).

Definition mapInsts (f : SILInstruction → SILInstruction) (F : SILFunction) : SILFunction :=
  mapBlocks (λ B, mkBlock (blockID B) (arguments B) (map f (insts B))) F.

(** Modelled from the spec: [I->eraseFromParent()], the erase operation
    of the instruction lists, which is not in the source file. *)
Definition eraseFromParent (F : SILFunction) (id : nat) : SILFunction :=
  mapBlocks (λ B, mkBlock (blockID B) (arguments B)
                    (List.filter (λ Inst, negb (instID Inst =? id)) (insts B))) F.

Fixpoint insertBeforeIn (pos : nat) (new : SILInstruction) (l : list SILInstruction)
  : list SILInstruction :=
  match l with
  | [] => []
  | Inst :: r => if instID Inst =? pos then new :: Inst :: r
              else Inst :: insertBeforeIn pos new r
  end.

Fixpoint insertAfterIn (pos : nat) (new : SILInstruction) (l : list SILInstruction)
  : list SILInstruction :=
  match l with
  | [] => []
  | Inst :: r => if instID Inst =? pos then Inst :: new :: r
              else Inst :: insertAfterIn pos new r
  end.

(** Modelled from the spec: the insert operation of the instruction
    lists, as [SILBuilder] (not in the source file) uses it.  A builder
    positioned at instruction [pos] creates an instruction of kind [k]
    just before it; the new instruction's result is returned. *)
Definition createBefore (F : SILFunction) (pos : nat) (k : InstKind)
  : SILFunction * SILValue :=
  let new := mkInst (nextID F) k in
  (mkFunction
     (map (λ B, mkBlock (blockID B) (arguments B) (insertBeforeIn pos new (insts B)))
          (blocks F))
     (S (nextID F)),
   ValueOf (nextID F)).

(** Modelled from the spec: the insert operation again, for
    [B.setInsertionPoint(std::next(I->getIterator()))] followed by a
    create. *)
Definition createAfter (F : SILFunction) (pos : nat) (k : InstKind)
  : SILFunction * SILValue :=
  let new := mkInst (nextID F) k in
  (mkFunction
     (map (λ B, mkBlock (blockID B) (arguments B) (insertAfterIn pos new (insts B)))
          (blocks F))
     (S (nextID F)),
   ValueOf (nextID F)).

Definition substValue (old new v : SILValue) : SILValue :=
  if decide (v = old) then new else v.

(** Modelled from the spec: [V->replaceAllUsesWith(New)], which is not in
    the source file. *)
Definition replaceAllUsesWith (F : SILFunction) (old new : SILValue) : SILFunction :=
  mapInsts (λ Inst, mkInst (instID Inst) (mapOperands (substValue old new) (kind Inst))) F.

(** Modelled from the spec: the use list of [v] (not in the source
    file): one entry per operand that refers to [v], each with the block
    of its user, in program order. *)
Definition getUsers (F : SILFunction) (v : SILValue) : list (nat * SILInstruction) :=
  flat_map (λ p, map (λ _, p) (List.filter (valueEqb v) (getOperands (kind p.2))))
           (allInsts F).

(** Modelled from the spec: [V->use_empty()] on the use list. *)
Definition use_empty (F : SILFunction) (v : SILValue) : bool :=
  match getUsers F v with
  | [] => true
  | _ => false
  end.

Definition instCount (F : SILFunction) : nat := length (allInsts F).

(** Modelled from the spec: the successor edges of the terminator,
    [BB->getSuccessors()], which is not in the source file. *)
Definition getEdges (B : SILBasicBlock) : list (nat * list SILValue) :=
  flat_map (λ Inst, match kind Inst with TermInst edges => edges | _ => [] end) (insts B).

Definition getSuccessors (F : SILFunction) (b : nat) : list nat :=
  match findBlock F b with
  | Some B => map fst (getEdges B)
  | None => []
  end.

(** Modelled from the spec: the predecessor edges,
    [BB->getPredecessorBlocks()] (not in the source file): one entry per
    incoming edge. *)
Definition getPredecessorBlocks (F : SILFunction) (b : nat) : list nat :=
  flat_map (λ B, map (λ _, blockID B)
                     (List.filter (λ e, e.1 =? b) (getEdges B)))
           (blocks F).

(** Modelled from the spec: [BB->pred_empty()] on the predecessor
    edges. *)
Definition pred_empty (F : SILFunction) (b : nat) : bool :=
  match getPredecessorBlocks F b with
  | [] => true
  | _ => false
  end.

(** Modelled from the spec: the block parameters,
    [BB->getArgument(BB->getNumArguments() - 1)]. *)
Definition getLastArgument (F : SILFunction) (b : nat) : option SILValue :=
  B ← findBlock F b; ValueOf <$> last (arguments B).

(** Modelled from the spec: block parameter append,
    [BB->createPhiArgument(Ty, OwnershipKind::Owned)], which is not in the
    source file. *)
Definition createPhiArgument (F : SILFunction) (b : nat) : SILFunction :=
  mkFunction
    (map (λ B, if blockID B =? b
               then mkBlock (blockID B) (arguments B ++ [nextID F]) (insts B)
               else B) (blocks F))
    (S (nextID F)).

(** Modelled from the spec: terminator replacement,
    [addArgumentToBranch(Val, Dest, TI)] (not in the source file) followed
    by [TI->eraseFromParent()]: the terminator of [pred] is replaced by one
    that passes [val] as an additional argument on its edges to [dest]. *)
Definition addArgumentToBranch (F : SILFunction) (val : SILValue) (dest pred : nat)
  : SILFunction :=
  mapBlocks (λ B,
    if blockID B =? pred
    then mkBlock (blockID B) (arguments B)
           (map (λ Inst, match kind Inst with
                      | TermInst edges =>
                          mkInst (instID Inst)
                            (TermInst (map (λ e, if e.1 =? dest
                                                 then (e.1, e.2 ++ [val]) else e)
                                           edges))
                      | _ => Inst
                      end) (insts B))
    else B) F.

(** Modelled from the spec: block parameter erase,
    [erasePhiArgument(Block, Block->getNumArguments() - 1)] (not in the
    source file): the last argument of the block goes, and with it the
    last branch argument on every edge into the block. *)
Definition erasePhiArgument (F : SILFunction) (b : nat) : SILFunction :=
  mapBlocks (λ B,
    mkBlock (blockID B)
      (if blockID B =? b then removelast (arguments B) else arguments B)
      (map (λ Inst, match kind Inst with
                 | TermInst edges =>
                     mkInst (instID Inst)
                       (TermInst (map (λ e, if e.1 =? b
                                            then (e.1, removelast e.2) else e)
                                      edges))
                 | _ => Inst
                 end) (insts B))) F.

(** Modelled from the spec: [eraseUsesOfInstruction(inst)], which is not
    in the source file: every user of the instruction's
    result is erased, after its own users have been erased in the same
    way.  The recursion follows def-use edges, which are acyclic in SSA
    form; [fuel] bounds its depth. *)
Fixpoint eraseUsesOfValue (fuel : nat) (F : SILFunction) (v : SILValue) : SILFunction :=
  match fuel with
  | 0 => F
  | S n =>
      fold_left (λ F' p, eraseFromParent (eraseUsesOfValue n F' (asValue p.2))
                                         (instID p.2))
                (getUsers F v) F
  end.

Definition eraseUsesOfInstruction (F : SILFunction) (id : nat) : SILFunction :=
  eraseUsesOfValue (instCount F) F (ValueOf id).

End SIL.

Import SIL.

(** ** Use trees

    The capture and write-only analyses recurse through the users of
    address projections.  [UseTree] is that part of the use graph unfolded
    from one user: the user, the block it sits in, and the users of its
    result. *)
Inductive UseTree :=
| UseNode (parent : nat) (Inst : SILInstruction) (users : list UseTree).

Definition useParent (U : UseTree) : nat :=
  match U with UseNode p _ _ => p end.

Definition useInst (U : UseTree) : SILInstruction :=
  match U with UseNode _ i _ => i end.

Definition useUsers (U : UseTree) : list UseTree :=
  match U with UseNode _ _ us => us end.

(** The use list of [v] in [F], each user with its own users.  Use-def
    chains are acyclic in SSA form, so a depth of [instCount F] unfolds
    them completely. *)
Fixpoint useTreesOf (fuel : nat) (F : SILFunction) (v : SILValue) : list UseTree :=
  match fuel with
  | 0 => []
  | S n => map (λ p, UseNode p.1 p.2 (useTreesOf n F (asValue p.2))) (getUsers F v)
  end.

Definition getUses (F : SILFunction) (v : SILValue) : list UseTree :=
  useTreesOf (instCount F) F v.

(** ** Capture analysis *)

(** [II->getParent() != singleBlock] resets [singleBlock] to null. *)
Definition checkSingleBlock (parent : nat) (singleBlock : option nat) : option nat :=
  if decide (Some parent = singleBlock) then singleBlock else None.

(** [isAddressForLoad(I, singleBlock, hasGuaranteedOwnership)]; the two
    reference parameters are returned next to the result. *)
Fixpoint isAddressForLoad (U : UseTree) (singleBlock : option nat)
    (hasGuaranteedOwnership : bool) : bool * option nat * bool :=
  match U with
  | UseNode _ Inst users =>
      match kind Inst with
      | LoadInst _ qual =>
          if hasGuaranteedOwnership && bool_decide (qual = LoadTake)
          then (false, singleBlock, hasGuaranteedOwnership)
          else (true, singleBlock, hasGuaranteedOwnership)
      | _ =>
          if negb (isAddrProjection (kind Inst))
          then (false, singleBlock, hasGuaranteedOwnership)
          else
            let hasGuaranteedOwnership :=
              if isFieldProjection (kind Inst) then true
              else hasGuaranteedOwnership in
            (fix loop (us : list UseTree) (singleBlock : option nat)
                      (hasGuaranteedOwnership : bool) {struct us}
               : bool * option nat * bool :=
               match us with
               | [] => (true, singleBlock, hasGuaranteedOwnership)
               | II :: rest =>
                   let singleBlock := checkSingleBlock (useParent II) singleBlock in
                   let '(r, singleBlock, hasGuaranteedOwnership) :=
                     isAddressForLoad II singleBlock hasGuaranteedOwnership in
                   if r then loop rest singleBlock hasGuaranteedOwnership
                   else (false, singleBlock, hasGuaranteedOwnership)
               end) users singleBlock hasGuaranteedOwnership
      end
  end.

(** The loop over the users of a projection, named for the proofs. *)
Fixpoint isAddressForLoad_users (us : list UseTree) (singleBlock : option nat)
    (hasGuaranteedOwnership : bool) : bool * option nat * bool :=
  match us with
  | [] => (true, singleBlock, hasGuaranteedOwnership)
  | II :: rest =>
      let singleBlock := checkSingleBlock (useParent II) singleBlock in
      let '(r, singleBlock, hasGuaranteedOwnership) :=
        isAddressForLoad II singleBlock hasGuaranteedOwnership in
      if r then isAddressForLoad_users rest singleBlock hasGuaranteedOwnership
      else (false, singleBlock, hasGuaranteedOwnership)
  end.

(** [isDeadAddrProjection(I)] *)
Fixpoint isDeadAddrProjection (U : UseTree) : bool :=
  match U with
  | UseNode _ Inst users =>
      if negb (isAddrProjection (kind Inst)) then false
      else
        (fix loop (us : list UseTree) : bool :=
           match us with
           | [] => true
           | II :: rest => if negb (isDeadAddrProjection II) then false else loop rest
           end) users
  end.

(** An allocation as the pass sees it: the [alloc_stack] instruction, the
    block it is in, and its use list. *)
Record AllocStack := mkAlloc {
  allocID : nat;
  allocParent : nat;
  allocElementType : SILType;
  allocUses : list UseTree
}.

Definition allocValue (ASI : AllocStack) : SILValue := ValueOf (allocID ASI).

(** The body of the loop of [isCaptured] for one user [II]: [None] when
    the user captures the allocation, otherwise the updated
    [singleBlock]. *)
Definition isCaptured_user (ASI : AllocStack) (II : UseTree) (singleBlock : option nat)
  : option (option nat) :=
  let singleBlock := checkSingleBlock (useParent II) singleBlock in
  let '(isLoad, singleBlock, _) := isAddressForLoad II singleBlock false in
  if isLoad then Some singleBlock
  else
    match kind (useInst II) with
    | StoreInst _ dest _ =>
        if bool_decide (dest = allocValue ASI) then Some singleBlock else None
    | DeallocStackInst _ | DebugValueAddrInst _ _ => Some singleBlock
    | DestroyAddrInst _ =>
        if isLoadable (allocElementType ASI) then Some singleBlock else None
    | _ => None
    end.

Fixpoint isCaptured_loop (ASI : AllocStack) (uses : list UseTree)
    (singleBlock : option nat) : option (option nat) :=
  match uses with
  | [] => Some singleBlock
  | II :: rest =>
      match isCaptured_user ASI II singleBlock with
      | Some singleBlock => isCaptured_loop ASI rest singleBlock
      | None => None
      end
  end.

(** [isCaptured(ASI, inSingleBlock)]: the result and the final value of
    the reference parameter [inSingleBlock], which is written only when
    no user captures the allocation. *)
Definition isCaptured (ASI : AllocStack) (inSingleBlock : bool) : bool * bool :=
  match isCaptured_loop ASI (allocUses ASI) (Some (allocParent ASI)) with
  | None => (true, inSingleBlock)
  | Some singleBlock => (false, bool_decide (singleBlock ≠ None))
  end.

(** [MemoryToRegisters::isWriteOnlyAllocation(ASI)].  [isAllocStack]
    answers [isa<AllocStackInst>(SI->getSrc())]. *)
Fixpoint isWriteOnlyAllocation (isAllocStack : SILValue → bool) (uses : list UseTree)
  : bool :=
  match uses with
  | [] => true
  | II :: rest =>
      let storeOk :=
        match kind (useInst II) with
        | StoreInst src _ _ => negb (isAllocStack src)
        | _ => false
        end in
      if storeOk then isWriteOnlyAllocation isAllocStack rest
      else
        match kind (useInst II) with
        | DeallocStackInst _ | DebugValueAddrInst _ _ =>
            isWriteOnlyAllocation isAllocStack rest
        | _ =>
            if isDeadAddrProjection II then isWriteOnlyAllocation isAllocStack rest
            else false
        end
  end.

(** [collectLoads(I, Loads)]: the loads appended to [Loads]. *)
Fixpoint collectLoads (U : UseTree) : list SILInstruction :=
  match U with
  | UseNode _ Inst users =>
      match kind Inst with
      | LoadInst _ _ => [Inst]
      | _ =>
          if negb (isAddrProjection (kind Inst)) then []
          else
            (fix loop (us : list UseTree) : list SILInstruction :=
               match us with
               | [] => []
               | II :: rest => collectLoads II ++ loop rest
               end) users
      end
  end.

(** The scan of the constructor [StackAllocationPromoter]: the
    deallocation recorded in [DSI], null as soon as a second one is
    seen. *)
Fixpoint findDealloc (uses : list UseTree) (DSI : option UseTree) : option UseTree :=
  match uses with
  | [] => DSI
  | UI :: rest =>
      match kind (useInst UI) with
      | DeallocStackInst _ =>
          match DSI with
          | Some _ => None
          | None => findDealloc rest (Some UI)
          end
      | _ => findDealloc rest DSI
      end
  end.

(** ** Rewriting primitives *)

Inductive OwnershipKind :=
| OwnershipNone | OwnershipUnowned | OwnershipOwned | OwnershipGuaranteed.

#[global] Instance OwnershipKind_eq_dec : EqDecision OwnershipKind.
Proof. solve_decision. Defined.

(** Assertions of the source fail the computation. *)
Definition assert (b : bool) : option unit := if b then Some () else None.

Section Pass.

(** [F->hasOwnership()] and [V.getOwnershipKind()] are answered by the
    ownership model of SIL, which the pass only queries. *)
Variable hasOwnership : bool.
Variable getOwnershipKind : SILFunction → SILValue → OwnershipKind.

(** Modelled from the spec: [SILBuilder::emitBeginBorrowOperation] is not
    in the pass's file; it wraps a non-trivially owned value in a borrow
    and returns any other value unchanged. *)
Definition emitBeginBorrowOperation (F : SILFunction) (pos : nat) (v : SILValue)
  : SILFunction * SILValue :=
  if negb hasOwnership
     || bool_decide (getOwnershipKind F v = OwnershipNone)
     || bool_decide (getOwnershipKind F v = OwnershipGuaranteed)
  then (F, v)
  else createBefore F pos (BeginBorrowInst v).

(** Modelled from the spec: [Projection::createObjectProjection] is not in
    the pass's file; it extracts from a value what the address projection
    selects from an address. *)
Definition createObjectProjection (F : SILFunction) (pos : nat) (proj : InstKind)
    (v : SILValue) : SILFunction * SILValue :=
  match proj with
  | StructElementAddrInst _ n => createBefore F pos (StructExtractInst v n)
  | TupleElementAddrInst _ n => createBefore F pos (TupleExtractInst v n)
  | _ => createBefore F pos (UncheckedBitwiseCastInst v)
  end.

(** The first loop of [replaceLoad]: the projections between the load's
    operand and the allocation, innermost first.  The walk follows
    operands towards their definitions; [fuel] bounds its length. *)
Fixpoint collectProjections (fuel : nat) (F : SILFunction) (ASI op : SILValue)
  : option (list SILInstruction) :=
  if decide (op = ASI) then Some []
  else
    match fuel with
    | 0 => None
    | S n =>
        D ← definingInst F op;
        _ ← assert (isAddrProjection (kind D));
        next ← getOperand0 (kind D);
        rest ← collectProjections n F ASI next;
        Some (D :: rest)
    end.

(** The second loop of [replaceLoad], over the projections from the
    allocation outwards: the projected value and the borrows opened on
    the way. *)
Fixpoint projectValue (F : SILFunction) (pos : nat) (projections : list SILInstruction)
    (val : SILValue) (borrowedVals : list SILValue)
  : SILFunction * SILValue * list SILValue :=
  match projections with
  | [] => (F, val, borrowedVals)
  | projection :: rest =>
      let '(F, val, borrowedVals) :=
        if isFieldProjection (kind projection)
        then
          let '(F', opVal) := emitBeginBorrowOperation F pos val in
          if bool_decide (opVal ≠ val) then (F', opVal, borrowedVals ++ [opVal])
          else (F', val, borrowedVals)
        else (F, val, borrowedVals) in
      let '(F, val) := createObjectProjection F pos (kind projection) val in
      projectValue F pos rest val borrowedVals
  end.

(** The last loop of [replaceLoad]: projections left without users are
    erased, from the load's operand towards the allocation. *)
Fixpoint eraseDeadProjections (fuel : nat) (F : SILFunction) (ASI op : SILValue)
  : option SILFunction :=
  if bool_decide (op ≠ ASI) && use_empty F op
  then
    match fuel with
    | 0 => None
    | S n =>
        D ← definingInst F op;
        _ ← assert (isAddrProjection (kind D));
        next ← getOperand0 (kind D);
        eraseDeadProjections n (eraseFromParent F (instID D)) ASI next
    end
  else Some F.

(** [replaceLoad(LI, val, ASI)] *)
Definition replaceLoad (F : SILFunction) (LI : SILInstruction) (val ASI : SILValue)
  : option SILFunction :=
  match kind LI with
  | LoadInst op qual =>
      projections ← collectProjections (instCount F) F ASI op;
      let '(F, val, borrowedVals) :=
        projectValue F (instID LI) (rev projections) val [] in
      F ←
        (if bool_decide (qual = LoadCopy)
         then
           let '(F, copy) := createBefore F (instID LI) (CopyValueInst val) in
           Some (replaceAllUsesWith F (asValue LI) copy)
         else
           _ ← assert (negb hasOwnership
                       || bool_decide (getOwnershipKind F val ≠ OwnershipGuaranteed));
           Some (replaceAllUsesWith F (asValue LI) val));
      let F := fold_left (λ F borrowedVal,
                            (createBefore F (instID LI) (EndBorrowInst borrowedVal)).1)
                         borrowedVals F in
      let F := eraseFromParent F (instID LI) in
      eraseDeadProjections (instCount F) F ASI op
  | _ => None
  end.

(** [replaceDestroy(DAI, NewValue)]; [Ty] is the type of the destroyed
    address.  Modelled from the spec: [emitLoweredDestroyValue] is not in
    the pass's file; it emits the release of the value, nothing for the
    empty tuple. *)
Definition replaceDestroy (F : SILFunction) (DAI : SILInstruction) (Ty : SILType)
    (NewValue : option SILValue) : option SILFunction :=
  _ ← assert (isLoadable Ty);
  _ ← assert (bool_decide (NewValue ≠ None) || isVoid Ty);
  let F := match NewValue with
           | Some v => (createBefore F (instID DAI) (DestroyValueInst v)).1
           | None => F
           end in
  Some (eraseFromParent F (instID DAI)).

(** [promoteDebugValueAddr(DVAI, Value, B)]; [Ty] is the type of the
    annotated address. *)
Definition promoteDebugValueAddr (F : SILFunction) (DVAI : SILInstruction)
    (Ty : SILType) (Value : SILValue) : option SILFunction :=
  _ ← assert (isLoadable Ty);
  match kind DVAI with
  | DebugValueAddrInst _ varInfo =>
      if existsb (λ p, match kind p.2 with
                       | DebugValueInst _ v => v =? varInfo
                       | _ => false
                       end) (getUsers F Value)
      then Some (eraseFromParent F (instID DVAI))
      else
        let F := (createBefore F (instID DVAI) (DebugValueInst Value varInfo)).1 in
        Some (eraseFromParent F (instID DVAI))
  | _ => None
  end.

(** The while loop of [isLoadFromStack]. *)
Fixpoint isProjectionOf (fuel : nat) (F : SILFunction) (ASI op : SILValue) : bool :=
  if decide (op = ASI) then true
  else
    match fuel with
    | 0 => false
    | S n =>
        match definingInst F op with
        | Some D =>
            if negb (isAddrProjection (kind D)) then false
            else
              match getOperand0 (kind D) with
              | Some next => isProjectionOf n F ASI next
              | None => false
              end
        | None => false
        end
    end.

(** [isLoadFromStack(I, ASI)] *)
Definition isLoadFromStack (F : SILFunction) (Inst : SILInstruction) (ASI : SILValue)
  : bool :=
  match kind Inst with
  | LoadInst op _ => isProjectionOf (instCount F) F ASI op
  | _ => false
  end.

(** [SI->setOwnershipQualifier(Q)] *)
Definition setOwnershipQualifier (F : SILFunction) (id : nat)
    (q : StoreOwnershipQualifier) : SILFunction :=
  mapInsts (λ Inst, if instID Inst =? id
                    then match kind Inst with
                         | StoreInst src dest _ => mkInst (instID Inst) (StoreInst src dest q)
                         | _ => Inst
                         end
                    else Inst) F.

(** A [for] loop over the instructions of a block, as both scans write
    it: the instructions are visited in the order the block had when the
    loop started, each looked up in the function as it is by then; the
    body answers whether to [break]. *)
Fixpoint forEachInst {S : Type} (body : S → nat → option (S * bool)) (st : S)
    (ids : list nat) : option S :=
  match ids with
  | [] => Some st
  | id :: rest =>
      '(st, stop) ← body st id;
      if stop : bool then Some st else forEachInst body st rest
  end.

Definition blockInstIDs (F : SILFunction) (b : nat) : list nat :=
  match findBlock F b with
  | Some B => map instID (insts B)
  | None => []
  end.

(** ** The promoter of one allocation *)

(** The allocation as an instruction of [F]. *)
Definition getAllocStack (F : SILFunction) (id : nat) : option AllocStack :=
  '(parent, Inst) ← findInst F id;
  match kind Inst with
  | AllocStackInst ty => Some (mkAlloc id parent ty (getUses F (ValueOf id)))
  | _ => None
  end.

(** The two locals of the loop of [promoteAllocationInBlock], with the
    function being rewritten. *)
Record BlockScan := mkScan {
  scanF : SILFunction;
  RunningVal : option SILValue;
  LastStore : option nat
}.

(** The body of the loop of [promoteAllocationInBlock] for the
    instruction named [id]. *)
Definition promoteAllocationInBlock_body (ASI : AllocStack) (st : BlockScan) (id : nat)
  : option (BlockScan * bool) :=
  let F := scanF st in
  match findInst F id with
  | None => Some (st, false)
  | Some (_, Inst) =>
      if isLoadFromStack F Inst (allocValue ASI) then
        match RunningVal st, kind Inst with
        | Some rv, _ =>
            F ← replaceLoad F Inst rv (allocValue ASI);
            Some (mkScan F (RunningVal st) (LastStore st), false)
        | None, LoadInst op qual =>
            if bool_decide (op = allocValue ASI) && bool_decide (qual ≠ LoadCopy)
            then Some (mkScan F (Some (asValue Inst)) (LastStore st), false)
            else Some (st, false)
        | None, _ => Some (st, false)
        end
      else
        match kind Inst with
        | StoreInst src dest qual =>
            if bool_decide (dest ≠ allocValue ASI) then Some (st, false)
            else
              let F :=
                if bool_decide (qual = StoreAssign) then
                  let F :=
                    match RunningVal st with
                    | Some rv => (createBefore F id (DestroyValueInst rv)).1
                    | None =>
                        let '(F, newLoad) :=
                          createBefore F id (LoadInst (allocValue ASI) LoadTake) in
                        (createBefore F id (DestroyValueInst newLoad)).1
                    end in
                  setOwnershipQualifier F id StoreInit
                else F in
              let F :=
                match LastStore st with
                | Some last => eraseFromParent F last
                | None => F
                end in
              Some (mkScan F (Some src) (Some id), false)
        | DebugValueAddrInst op _ =>
            match RunningVal st with
            | Some rv =>
                if bool_decide (op = allocValue ASI) then
                  F ← promoteDebugValueAddr F Inst (allocElementType ASI) rv;
                  Some (mkScan F (RunningVal st) (LastStore st), false)
                else Some (st, false)
            | None => Some (st, false)
            end
        | DestroyAddrInst op =>
            match RunningVal st with
            | Some rv =>
                if bool_decide (op = allocValue ASI) then
                  F ← replaceDestroy F Inst (allocElementType ASI) (Some rv);
                  Some (mkScan F (RunningVal st) (LastStore st), false)
                else Some (st, false)
            | None => Some (st, false)
            end
        | DestroyValueInst op =>
            if bool_decide (Some op = RunningVal st)
            then Some (mkScan F (RunningVal st) None, false)
            else Some (st, false)
        | DeallocStackInst op =>
            Some (st, bool_decide (op = allocValue ASI))
        | _ => Some (st, false)
        end
  end.

(** [StackAllocationPromoter::promoteAllocationInBlock(BB)]: the rewritten
    function and the returned [LastStore]. *)
Definition promoteAllocationInBlock (ASI : AllocStack) (F : SILFunction) (BB : nat)
  : option (SILFunction * option nat) :=
  st ← forEachInst (promoteAllocationInBlock_body ASI) (mkScan F None None)
                   (blockInstIDs F BB);
  Some (scanF st, LastStore st).

(** [createValueForEmptyTuple(ty, insertionPoint)] *)
Fixpoint createValueForEmptyTuple (F : SILFunction) (ty : SILType) (insertionPoint : nat)
  : option (SILFunction * SILValue) :=
  match ty with
  | TupleType elts =>
      '(F, elements) ←
        (fix each (F : SILFunction) (l : list SILType)
           : option (SILFunction * list SILValue) :=
           match l with
           | [] => Some (F, [])
           | elementTy :: r =>
               '(F, v) ← createValueForEmptyTuple F elementTy insertionPoint;
               '(F, vs) ← each F r;
               Some (F, v :: vs)
           end) F elts;
      Some (createBefore F insertionPoint (TupleInst elements))
  | NominalType _ => None
  end.

(** The last statement of the loop of [removeSingleBlockAllocation]:
    address projections without users are erased, each followed by the
    definition of its operand. *)
Fixpoint eraseDeadAddrInsts (fuel : nat) (F : SILFunction) (addrInst : option SILInstruction)
  : SILFunction :=
  match fuel, addrInst with
  | S n, Some Inst =>
      if use_empty F (asValue Inst) && isAddrProjection (kind Inst)
      then
        let op := getOperand0 (kind Inst) in
        let F := eraseFromParent F (instID Inst) in
        eraseDeadAddrInsts n F (op ≫= definingInst F)
      else F
  | _, _ => F
  end.

(** The body of the loop of [removeSingleBlockAllocation]; the state is
    the function and [RunningVal]. *)
Definition removeSingleBlockAllocation_body (ASI : AllocStack)
    (st : SILFunction * option SILValue) (id : nat)
  : option (SILFunction * option SILValue * bool) :=
  let '(F, RunningVal) := st in
  match findInst F id with
  | None => Some (st, false)
  | Some (_, Inst) =>
      if isLoadFromStack F Inst (allocValue ASI) then
        '(F, rv) ←
          match RunningVal with
          | Some rv => Some (F, rv)
          | None => createValueForEmptyTuple F (allocElementType ASI) id
          end;
        F ← replaceLoad F Inst rv (allocValue ASI);
        Some (F, Some rv, false)
      else
        let fallThrough := Some (eraseDeadAddrInsts (instCount F) F (Some Inst),
                                 RunningVal, false) in
        match kind Inst with
        | StoreInst src dest qual =>
            if bool_decide (dest = allocValue ASI) then
              F ←
                (if bool_decide (qual = StoreAssign) then
                   rv ← RunningVal;
                   Some (createBefore F id (DestroyValueInst rv)).1
                 else Some F);
              Some (eraseFromParent F id, Some src, false)
            else fallThrough
        | DebugValueAddrInst op _ =>
            if bool_decide (op = allocValue ASI) then
              match RunningVal with
              | Some rv =>
                  F ← promoteDebugValueAddr F Inst (allocElementType ASI) rv;
                  Some (F, RunningVal, false)
              | None =>
                  _ ← assert (isVoid (allocElementType ASI));
                  Some (eraseFromParent F id, RunningVal, false)
              end
            else Some (st, false)
        | DestroyAddrInst op =>
            if bool_decide (op = allocValue ASI) then
              F ← replaceDestroy F Inst (allocElementType ASI) RunningVal;
              Some (F, RunningVal, false)
            else Some (st, false)
        | DeallocStackInst op =>
            if bool_decide (op = allocValue ASI)
            then Some (eraseFromParent F id, RunningVal, true)
            else fallThrough
        | _ => fallThrough
        end
  end.

(** [MemoryToRegisters::removeSingleBlockAllocation(ASI)] *)
Definition removeSingleBlockAllocation (F : SILFunction) (ASI : AllocStack)
  : option SILFunction :=
  st ← forEachInst (removeSingleBlockAllocation_body ASI) (F, None)
                   (blockInstIDs F (allocParent ASI));
  Some st.1.

(** ** Dominance

    The dominator tree is computed elsewhere; the pass queries it.  A
    node carries its block and its immediate dominator, so the walk
    towards the root is structural; the children of a node and the two
    dominance relations are answered by the analysis. *)
Inductive DomTreeNode :=
| DomNode (block : nat) (IDom : option DomTreeNode).

Definition getBlock (N : DomTreeNode) : nat :=
  match N with DomNode b _ => b end.

Definition getIDom (N : DomTreeNode) : option DomTreeNode :=
  match N with DomNode _ d => d end.

Record DominanceInfo := mkDominanceInfo {
  getNode : nat → option DomTreeNode;
  getRootNode : DomTreeNode;
  getChildren : DomTreeNode → list DomTreeNode;
  dominates : nat → nat → bool;
  properlyDominates : nat → nat → bool
}.

(** Two node pointers are equal when they are the node of one block. *)
Definition sameNode (A B : DomTreeNode) : bool := getBlock A =? getBlock B.

(** [DomTreeLevels[Node]]: a node without an entry reads as level 0. *)
Definition levelOf (DomTreeLevels : gmap nat nat) (N : DomTreeNode) : nat :=
  default 0 (DomTreeLevels !! getBlock N).

(** The loop of [computeDomTreeLevels]; the head of [Worklist] is its
    back.  Every node of the tree is popped once, which [fuel] bounds. *)
Fixpoint computeDomTreeLevels_loop (fuel : nat) (DT : DominanceInfo)
    (Worklist : list DomTreeNode) (DomTreeLevels : gmap nat nat) : gmap nat nat :=
  match fuel, Worklist with
  | S n, Node :: Worklist =>
      let ChildLevel := levelOf DomTreeLevels Node + 1 in
      let '(DomTreeLevels, Worklist) :=
        fold_left (λ acc CI, (<[getBlock CI := ChildLevel]> acc.1, CI :: acc.2))
                  (getChildren DT Node) (DomTreeLevels, Worklist) in
      computeDomTreeLevels_loop n DT Worklist DomTreeLevels
  | _, _ => DomTreeLevels
  end.

(** [computeDomTreeLevels(DT, DomTreeLevels)] *)
Definition computeDomTreeLevels (fuel : nat) (DT : DominanceInfo) : gmap nat nat :=
  let Root := getRootNode DT in
  computeDomTreeLevels_loop fuel DT [Root] (<[getBlock Root := 0]> ∅).

(** ** Placement of the phi blocks *)

(** [StackAllocationPromoter]: the allocation, its deallocation if it is
    the only one, the dominator tree and its levels. *)
Record StackAllocationPromoter := mkPromoter {
  ASI : AllocStack;
  DSI : option UseTree;
  DT : DominanceInfo;
  DomTreeLevels : gmap nat nat
}.

(** The constructor. *)
Definition newStackAllocationPromoter (Asi : AllocStack) (Di : DominanceInfo)
    (Levels : gmap nat nat) : StackAllocationPromoter :=
  mkPromoter Asi (findDealloc (allocUses Asi) None) Di Levels.

(** The locals of [promoteAllocationToPhi] that the placement loop
    updates: the priority queue, the visited nodes and the phi blocks. *)
Record Placement := mkPlacement {
  PQ : list (DomTreeNode * nat);
  Visited : gset nat;
  PhiBlocks : list nat
}.

(** Modelled from the spec: [llvm::less_second], the order of
    [NodePriorityQueue], is not in the source file: entries are compared
    by their level. *)
Definition less_second (x y : DomTreeNode * nat) : bool := x.2 <? y.2.

(** Modelled from the spec: [std::priority_queue] is not in the source
    file.  The queue is its underlying vector, kept as a binary heap the
    way [std::push_heap] and [std::pop_heap] of libstdc++ keep it, so
    that entries of one level come out in the order they do there.

    [std::__push_heap(first, holeIndex, topIndex, value, comp)]: the
    hole moves up while its parent is less than [value]. *)
Fixpoint push_heap_loop (fuel : nat) (c : list (DomTreeNode * nat))
    (holeIndex topIndex : nat) (value : DomTreeNode * nat) : list (DomTreeNode * nat) :=
  let parent := (holeIndex - 1) / 2 in
  match fuel, c !! parent with
  | S n, Some p =>
      if (topIndex <? holeIndex) && less_second p value
      then push_heap_loop n (<[holeIndex := p]> c) parent topIndex value
      else <[holeIndex := value]> c
  | _, _ => <[holeIndex := value]> c
  end.

(** Modelled from the spec: [PQ.push(x)], that is [c.push_back(x)] and
    [std::push_heap(c.begin(), c.end(), comp)]. *)
Definition pqPush (c : list (DomTreeNode * nat)) (x : DomTreeNode * nat)
  : list (DomTreeNode * nat) :=
  push_heap_loop (S (length c)) (c ++ [x]) (length c) 0 x.

(** Modelled from the spec: the loop of [std::__adjust_heap(first,
    holeIndex, len, value, comp)]: the hole moves down to the greater
    child, the right one when the two are equal.  At the head of the
    loop [secondChild] is [holeIndex]. *)
Fixpoint adjust_heap_loop (fuel : nat) (c : list (DomTreeNode * nat))
    (holeIndex secondChild len : nat) : list (DomTreeNode * nat) * nat * nat :=
  match fuel with
  | S n =>
      if secondChild <? (len - 1) / 2
      then
        let secondChild := 2 * (secondChild + 1) in
        match c !! secondChild, c !! (secondChild - 1) with
        | Some r, Some l =>
            let secondChild := if less_second r l then secondChild - 1 else secondChild in
            let moved := if less_second r l then l else r in
            adjust_heap_loop n (<[holeIndex := moved]> c) secondChild secondChild len
        | _, _ => (c, holeIndex, secondChild)
        end
      else (c, holeIndex, secondChild)
  | 0 => (c, holeIndex, secondChild)
  end.

(** Modelled from the spec: [std::__adjust_heap]: after the loop, a last
    node with a left child only gives up that child, and [value] is
    pushed up from the hole. *)
Definition adjust_heap (c : list (DomTreeNode * nat)) (holeIndex len : nat)
    (value : DomTreeNode * nat) : list (DomTreeNode * nat) :=
  let topIndex := holeIndex in
  let '(c, holeIndex, secondChild) := adjust_heap_loop len c holeIndex holeIndex len in
  let '(c, holeIndex) :=
    if Nat.even len && (secondChild =? (len - 2) / 2)
    then
      let secondChild := 2 * (secondChild + 1) in
      match c !! (secondChild - 1) with
      | Some l => (<[holeIndex := l]> c, secondChild - 1)
      | None => (c, holeIndex)
      end
    else (c, holeIndex) in
  push_heap_loop (S holeIndex) c holeIndex topIndex value.

(** Modelled from the spec: [PQ.pop()], that is [std::pop_heap(c.begin(),
    c.end(), comp)] and [c.pop_back()]: with more than one entry, the
    last entry is taken out as [value], the hole at the front is
    filled from below, and [value] is put back. *)
Definition pqPop (c : list (DomTreeNode * nat)) : list (DomTreeNode * nat) :=
  let len := length c - 1 in
  match c !! len with
  | Some value => if 1 <? length c then adjust_heap (take len c) 0 len value else []
  | None => []
  end.

(** Modelled from the spec: [PQ.top()] with [PQ.pop()], for a queue that
    is not empty: the front of the vector and the queue without it. *)
Definition popTop (PQ : list (DomTreeNode * nat))
  : option (DomTreeNode * nat * list (DomTreeNode * nat)) :=
  match PQ with
  | [] => None
  | top :: _ => Some (top, pqPop PQ)
  end.

(** [PhiBlocks.insert(Succ)] on a set vector: [true] when newly inserted. *)
Definition insertBlock (Blocks : list nat) (b : nat) : list nat * bool :=
  if bool_decide (b ∈ Blocks) then (Blocks, false) else (Blocks ++ [b], true).

(** The body of the loop over the successors of [Node].  The node of the
    successor is dereferenced unchecked by the source: a successor
    outside the tree fails. *)
Definition visitSuccessor (P : StackAllocationPromoter) (Node : DomTreeNode)
    (RootLevel : nat) (st : Placement) (Succ : nat) : option Placement :=
  SuccNode ← getNode (DT P) Succ;
  if match getIDom SuccNode with
     | Some d => sameNode d Node
     | None => false
     end
  then Some st
  else
    let SuccLevel := levelOf (DomTreeLevels P) SuccNode in
    if RootLevel <? SuccLevel then Some st
    else if bool_decide (getBlock SuccNode ∈ Visited st) then Some st
    else
      let st := mkPlacement (PQ st) ({[getBlock SuccNode]} ∪ Visited st) (PhiBlocks st) in
      if negb (dominates (DT P) (allocParent (ASI P)) (getBlock SuccNode)) then Some st
      else if match DSI P with
              | Some D => properlyDominates (DT P) (useParent D) (getBlock SuccNode)
              | None => false
              end
      then Some st
      else
        let '(Blocks, inserted) := insertBlock (PhiBlocks st) Succ in
        if inserted
        then Some (mkPlacement (pqPush (PQ st) (SuccNode, SuccLevel)) (Visited st) Blocks)
        else Some st.

Fixpoint visitSuccessors (P : StackAllocationPromoter) (Node : DomTreeNode)
    (RootLevel : nat) (st : Placement) (Succs : list nat) : option Placement :=
  match Succs with
  | [] => Some st
  | Succ :: rest =>
      st ← visitSuccessor P Node RootLevel st Succ;
      visitSuccessors P Node RootLevel st rest
  end.

(** The inner loop: the walk of the dominator subtree of the root.  The
    head of [Worklist] is its back.  [fuel] bounds the number of nodes
    popped; running out of it gives no result. *)
Fixpoint walkSubtree (fuel : nat) (F : SILFunction) (P : StackAllocationPromoter)
    (RootLevel : nat) (Worklist : list DomTreeNode) (st : Placement)
  : option Placement :=
  match Worklist with
  | [] => Some st
  | Node :: Worklist =>
      match fuel with
      | 0 => None
      | S n =>
          st ← visitSuccessors P Node RootLevel st (getSuccessors F (getBlock Node));
          let Worklist :=
            fold_left (λ wl CI, if bool_decide (getBlock CI ∈ Visited st) then wl
                                else CI :: wl)
                      (getChildren (DT P) Node) Worklist in
          walkSubtree n F P RootLevel Worklist st
      end
  end.

(** The outer loop, over the priority queue. *)
Fixpoint placePhis (fuel : nat) (F : SILFunction) (P : StackAllocationPromoter)
    (st : Placement) : option Placement :=
  match popTop (PQ st) with
  | None => Some st
  | Some (RootPair, rest) =>
      match fuel with
      | 0 => None
      | S n =>
          st ← walkSubtree (S (length (blocks F))) F P RootPair.2 [RootPair.1]
                 (mkPlacement rest (Visited st) (PhiBlocks st));
          placePhis n F P st
      end
  end.

(** The first loop of [promoteAllocationToPhi]: the blocks of the stores
    among the users of the allocation seed the priority queue. *)
Fixpoint seedQueue (P : StackAllocationPromoter) (uses : list UseTree)
    (PQ : list (DomTreeNode * nat)) : list (DomTreeNode * nat) :=
  match uses with
  | [] => PQ
  | II :: rest =>
      match kind (useInst II), getNode (DT P) (useParent II) with
      | StoreInst _ _ _, Some Node =>
          seedQueue P rest (pqPush PQ (Node, levelOf (DomTreeLevels P) Node))
      | _, _ => seedQueue P rest PQ
      end
  end.

(** The placement part of [promoteAllocationToPhi]: the phi blocks in the
    order they were accepted.  [uses] is the use list of the allocation
    after pruning. *)
Definition computePhiBlocks (fuel : nat) (F : SILFunction) (P : StackAllocationPromoter)
    (uses : list UseTree) : option (list nat) :=
  st ← placePhis fuel F P (mkPlacement (seedQueue P uses []) ∅ []);
  Some (PhiBlocks st).

(** ** Live-in and live-out values *)

(** The source of the store that [LastStoreInBlock] records for a block:
    [it != end()] and [dyn_cast_or_null<StoreInst>(it->second)] give
    [St->getSrc()]. *)
Definition recordedStoreSrc (F : SILFunction) (LastStoreInBlock : gmap nat (option nat))
    (BB : nat) : option SILValue :=
  match LastStoreInBlock !! BB with
  | Some (Some St) =>
      match findInst F St with
      | Some (_, mkInst _ (StoreInst src _ _)) => Some src
      | _ => None
      end
  | _ => None
  end.

(** The loop of [getLiveOutValue], from a node towards the root.  The
    result of the function is never null; [None] is the failure of
    [getArgument] on a block without arguments. *)
Fixpoint getLiveOutValue_from (F : SILFunction) (LastStoreInBlock : gmap nat (option nat))
    (PhiBlocks : list nat) (Node : DomTreeNode) : option SILValue :=
  match Node with
  | DomNode BB IDom =>
      match recordedStoreSrc F LastStoreInBlock BB with
      | Some src => Some src
      | None =>
          if bool_decide (BB ∈ PhiBlocks) then getLastArgument F BB
          else
            match IDom with
            | Some Next => getLiveOutValue_from F LastStoreInBlock PhiBlocks Next
            | None => Some SILUndef
            end
      end
  end.

(** [StackAllocationPromoter::getLiveOutValue(PhiBlocks, StartBB)] *)
Definition getLiveOutValue (F : SILFunction) (P : StackAllocationPromoter)
    (LastStoreInBlock : gmap nat (option nat)) (PhiBlocks : list nat) (StartBB : nat)
  : option SILValue :=
  match getNode (DT P) StartBB with
  | Some Node => getLiveOutValue_from F LastStoreInBlock PhiBlocks Node
  | None => Some SILUndef
  end.

(** [StackAllocationPromoter::getLiveInValue(PhiBlocks, BB)] *)
Definition getLiveInValue (F : SILFunction) (P : StackAllocationPromoter)
    (LastStoreInBlock : gmap nat (option nat)) (PhiBlocks : list nat) (BB : nat)
  : option SILValue :=
  if bool_decide (BB ∈ PhiBlocks) then getLastArgument F BB
  else
    match getNode (DT P) BB with
    | None => Some SILUndef
    | Some Node =>
        if pred_empty F BB then Some SILUndef
        else
          IDom ← getIDom Node;
          getLiveOutValue F P LastStoreInBlock PhiBlocks (getBlock IDom)
    end.

(** ** Fixing branches and uses *)

(** [StackAllocationPromoter::fixPhiPredBlock(PhiBlocks, Dest, Pred)] *)
Definition fixPhiPredBlock (F : SILFunction) (P : StackAllocationPromoter)
    (LastStoreInBlock : gmap nat (option nat)) (PhiBlocks : list nat) (Dest Pred : nat)
  : option SILFunction :=
  Def ← getLiveOutValue F P LastStoreInBlock PhiBlocks Pred;
  Some (addArgumentToBranch F Def Dest Pred).

(** A loop whose body may fail. *)
Fixpoint foldM {A S : Type} (body : S → A → option S) (st : S) (l : list A) : option S :=
  match l with
  | [] => Some st
  | x :: rest => st ← body st x; foldM body st rest
  end.

(** The body of the first loop of [fixBranchesAndUses], for the user
    named [id] of the allocation. *)
Definition fixUse (P : StackAllocationPromoter) (LastStoreInBlock : gmap nat (option nat))
    (PhiBlocks : list nat) (F : SILFunction) (id : nat) : option SILFunction :=
  match findInst F id with
  | None => Some F
  | Some (BB, Inst) =>
      let collectedLoads :=
        collectLoads (UseNode BB Inst (getUses F (asValue Inst))) in
      F ← foldM (λ F LI,
                   BB ← getParent F (instID LI);
                   Def ← getLiveInValue F P LastStoreInBlock PhiBlocks BB;
                   replaceLoad F LI Def (allocValue (ASI P)))
                F collectedLoads;
      match collectedLoads with
      | _ :: _ => Some F
      | [] =>
          match kind Inst with
          | DebugValueAddrInst _ _ =>
              Def ← getLiveInValue F P LastStoreInBlock PhiBlocks BB;
              promoteDebugValueAddr F Inst (allocElementType (ASI P)) Def
          | DestroyAddrInst _ =>
              Def ← getLiveInValue F P LastStoreInBlock PhiBlocks BB;
              replaceDestroy F Inst (allocElementType (ASI P)) (Some Def)
          | _ => Some F
          end
      end
  end.

(** [StackAllocationPromoter::fixBranchesAndUses(PhiBlocks)] *)
Definition fixBranchesAndUses (F : SILFunction) (P : StackAllocationPromoter)
    (LastStoreInBlock : gmap nat (option nat)) (PhiBlocks : list nat)
  : option SILFunction :=
  F ← foldM (fixUse P LastStoreInBlock PhiBlocks) F
            (map (λ p, instID p.2) (getUsers F (allocValue (ASI P))));
  F ← foldM (λ F Block,
               foldM (λ F PBB, fixPhiPredBlock F P LastStoreInBlock PhiBlocks Block PBB)
                     F (getPredecessorBlocks F Block))
            F PhiBlocks;
  foldM (λ F Block,
           phiArg ← getLastArgument F Block;
           Some (if use_empty F phiArg then erasePhiArgument F Block else F))
        F PhiBlocks.

(** [StackAllocationPromoter::addBlockArguments(PhiBlocks)] *)
Definition addBlockArguments (F : SILFunction) (PhiBlocks : list nat) : SILFunction :=
  fold_left createPhiArgument PhiBlocks F.

(** [StackAllocationPromoter::pruneAllocStackUsage()]: the function and
    [LastStoreInBlock]. *)
Definition pruneAllocStackUsage (F : SILFunction) (P : StackAllocationPromoter)
  : option (SILFunction * gmap nat (option nat)) :=
  let Blocks := fold_left (λ Blocks p, (insertBlock Blocks p.1).1)
                          (getUsers F (allocValue (ASI P))) [] in
  foldM (λ st Block,
           '(F, SI) ← promoteAllocationInBlock (ASI P) st.1 Block;
           Some (F, <[Block := SI]> st.2))
        (F, ∅) Blocks.

(** [StackAllocationPromoter::promoteAllocationToPhi()].  The priority
    queue is popped once per seeded store and once per phi block, which
    bounds the outer loop. *)
Definition promoteAllocationToPhi (F : SILFunction) (P : StackAllocationPromoter)
    (LastStoreInBlock : gmap nat (option nat)) : option SILFunction :=
  PhiBlocks ← computePhiBlocks (S (instCount F + length (blocks F))) F P
                (getUses F (allocValue (ASI P)));
  let F := addBlockArguments F PhiBlocks in
  fixBranchesAndUses F P LastStoreInBlock PhiBlocks.

(** [StackAllocationPromoter::run()] *)
Definition StackAllocationPromoter_run (F : SILFunction) (P : StackAllocationPromoter)
  : option SILFunction :=
  '(F, LastStoreInBlock) ← pruneAllocStackUsage F P;
  promoteAllocationToPhi F P LastStoreInBlock.

(** ** The orchestrator *)

(** [isa<AllocStackInst>(V)] *)
Definition isAllocStackValue (F : SILFunction) (v : SILValue) : bool :=
  match definingInst F v with
  | Some (mkInst _ (AllocStackInst _)) => true
  | _ => false
  end.

(** [MemoryToRegisters::promoteSingleAllocation(alloc, DomTreeLevels)]:
    the function afterwards and the returned flag. *)
Definition promoteSingleAllocation (F : SILFunction) (Dt : DominanceInfo)
    (alloc : AllocStack) (Levels : gmap nat nat) : option (SILFunction * bool) :=
  let '(captured, inSingleBlock) := isCaptured alloc false in
  if captured then Some (F, false)
  else if isWriteOnlyAllocation (isAllocStackValue F) (allocUses alloc)
  then Some (eraseUsesOfInstruction F (allocID alloc), true)
  else if inSingleBlock then
    F ← removeSingleBlockAllocation F alloc;
    if negb (use_empty F (allocValue alloc))
    then Some ((createAfter F (allocID alloc) (DeallocStackInst (allocValue alloc))).1, true)
    else Some (F, true)
  else
    F ← StackAllocationPromoter_run F (newStackAllocationPromoter alloc Dt Levels);
    _ ← assert (isWriteOnlyAllocation (isAllocStackValue F) (getUses F (allocValue alloc)));
    Some (eraseUsesOfInstruction F (allocID alloc), true).

(** The body of the loops of [MemoryToRegisters::run] for the
    instruction named [id]; the state is the function and [Changed]. *)
Definition run_body (Dt : DominanceInfo) (Levels : gmap nat nat)
    (st : SILFunction * bool) (id : nat) : option (SILFunction * bool) :=
  let '(F, Changed) := st in
  match getAllocStack F id with
  | None => Some st
  | Some ASI =>
      '(F, promoted) ← promoteSingleAllocation F Dt ASI Levels;
      if promoted : bool then
        let F := if use_empty F (allocValue ASI) then eraseFromParent F id else F in
        Some (F, true)
      else Some (F, Changed)
  end.

(** [MemoryToRegisters::run()]: the function afterwards and [Changed].
    The loops visit every instruction of every block in program order;
    the pass creates no [alloc_stack], so the instructions present at
    the start are the ones a visit can promote. *)
Definition run (F : SILFunction) (Dt : DominanceInfo) : option (SILFunction * bool) :=
  let Levels := computeDomTreeLevels (S (length (blocks F))) Dt in
  foldM (run_body Dt Levels) (F, false) (map (λ p, instID p.2) (allInsts F)).

End Pass.

(** * Specification vocabulary *)

(** ** Induction over use trees *)

Section UseTreeInd.
Variable P : UseTree → Prop.
Hypothesis step : ∀ p Inst us, Forall P us → P (UseNode p Inst us).

Fixpoint UseTree_nested_ind (U : UseTree) : P U :=
    match U with
    | UseNode p Inst us =>
        step p Inst us
          ((fix all (l : list UseTree) : Forall P l :=
              match l with
              | [] => Forall_nil_2 P
              | U' :: r => Forall_cons_2 P U' r (UseTree_nested_ind U') (all r)
              end) us)
    end.
End UseTreeInd.

Section SILTypeInd.
Variable P : SILType → Prop.
Hypothesis tuple_step : ∀ elts, Forall P elts → P (TupleType elts).
Hypothesis nominal_step : ∀ l, P (NominalType l).

Fixpoint SILType_nested_ind (ty : SILType) : P ty :=
  match ty with
  | TupleType elts =>
      tuple_step elts
        ((fix all (l : list SILType) : Forall P l :=
            match l with
            | [] => Forall_nil_2 P
            | t :: r => Forall_cons_2 P t r (SILType_nested_ind t) (all r)
            end) elts)
  | NominalType l => nominal_step l
  end.
End SILTypeInd.

(** ** Capture through a field projection *)

(** [reachesTakeLoad g U]: below the user [U] of an address, through
    address projections only, there is a [load [take]], and either [g]
    holds or one of these projections selects a field of a struct or
    tuple. *)
Inductive reachesTakeLoad : bool → UseTree → Prop :=
| reach_load p Inst us op :
    kind Inst = LoadInst op LoadTake →
    reachesTakeLoad true (UseNode p Inst us)
| reach_proj g p Inst us U :
    isAddrProjection (kind Inst) = true →
    U ∈ us →
    reachesTakeLoad (if isFieldProjection (kind Inst) then true else g) U →
    reachesTakeLoad g (UseNode p Inst us).


(** ** Blocks visited by the capture analysis *)

(** The block of a user of the allocation and, through address
    projections, the blocks of the users the analysis descends to. *)
Fixpoint visitedBlocks (U : UseTree) : list nat :=
  match U with
  | UseNode p Inst us =>
      p :: (if isAddrProjection (kind Inst) then flat_map visitedBlocks us else [])
  end.

(** [singleBlock] after the parent checks of the listed blocks. *)
Definition checkBlocks (blocks : list nat) (singleBlock : option nat) : option nat :=
  fold_left (λ s p, checkSingleBlock p s) blocks singleBlock.

(** ** Accepted phi blocks *)

Definition isDeallocUse (U : UseTree) : bool :=
  match kind (useInst U) with
  | DeallocStackInst _ => true
  | _ => false
  end.

(** The deallocations among the users of the allocation. *)
Definition deallocUses (alloc : AllocStack) : list UseTree :=
  List.filter isDeallocUse (allocUses alloc).

(** The two conditions of acceptance of a block [b] as a phi block. *)
Definition accepted (P : StackAllocationPromoter) (b : nat) : Prop :=
  dominates (DT P) (allocParent (ASI P)) b = true ∧
  ∀ D, DSI P = Some D → properlyDominates (DT P) (useParent D) b = false.

(** The dominator tree names each node by its block. *)
Definition nodesNamedByBlock (Di : DominanceInfo) : Prop :=
  ∀ b N, getNode Di b = Some N → getBlock N = b.

(** The invariant of the placement loop: every phi block collected so
    far passed the two conditions. *)
Definition placementInv (P : StackAllocationPromoter) (st : Placement) : Prop :=
  ∀ b, b ∈ PhiBlocks st → accepted P b.

(** The node of the immediate dominator of a node is the node the tree
    gives for its block. *)
Definition idomCoherent (Di : DominanceInfo) : Prop :=
  ∀ b N D, getNode Di b = Some N → getIDom N = Some D →
           getNode Di (getBlock D) = Some D.

(** ** The allocation instruction in the function *)

(** The [alloc_stack] numbered [a] is in block [p] of [F], and [a] is
    below the numbers the builders will hand out. *)
Definition allocPresent (a p : nat) (ty : SILType) (F : SILFunction) : Prop :=
  findInst F a = Some (p, mkInst a (AllocStackInst ty)) ∧ a < nextID F.

(** The first instruction numbered [id] in a list. *)
Definition findIn (id : nat) (l : list SILInstruction) : option SILInstruction :=
  List.find (λ Inst, instID Inst =? id) l.

(** [std::next(I->getIterator())]: the instruction that follows the
    instruction numbered [id] in its block. *)
Fixpoint nextIn (id : nat) (l : list SILInstruction) : option SILInstruction :=
  match l with
  | Inst :: r => if instID Inst =? id then head r else nextIn id r
  | [] => None
  end.

Fixpoint nextInstIn (id : nat) (Bs : list SILBasicBlock) : option SILInstruction :=
  match Bs with
  | B :: r => if existsb (λ Inst, instID Inst =? id) (insts B)
              then nextIn id (insts B) else nextInstIn id r
  | [] => None
  end.

Definition nextInst (F : SILFunction) (id : nat) : option SILInstruction :=
  nextInstIn id (blocks F).

(** ** Well-formed numbering and the view of a slot *)

Definition instIDs (F : SILFunction) : list nat :=
  map (λ p, instID p.2) (allInsts F).

(** Instructions are numbered apart, below [nextID], and so are the
    blocks. *)
Definition wfIDs (F : SILFunction) : Prop :=
  NoDup (instIDs F) ∧ ∀ p, p ∈ allInsts F → instID p.2 < nextID F.

Definition wfBlocks (F : SILFunction) : Prop :=
  NoDup (map blockID (blocks F)).

(** The instructions of the block numbered [b]. *)
Definition instsIn (F : SILFunction) (b : nat) : list SILInstruction :=
  map snd (List.filter (λ p, p.1 =? b) (allInsts F)).

(** The shape of the functions that rewrite instruction lists block by
    block. *)
Definition mapLists (h : list SILInstruction → list SILInstruction) (n' : nat)
    (F : SILFunction) : SILFunction :=
  mkFunction (map (λ B, mkBlock (blockID B) (arguments B) (h (insts B))) (blocks F)) n'.

(** What an instruction is with respect to the slot [a]: its operands
    other than the slot's address are forgotten, and so is the
    qualifier of a store. *)
Definition slotOperand (a : nat) (v : SILValue) : SILValue :=
  if decide (v = ValueOf a) then ValueOf a else SILUndef.

Definition slotView (a : nat) (k : InstKind) : InstKind :=
  match mapOperands (slotOperand a) k with
  | StoreInst src dest _ => StoreInst src dest StoreInit
  | k' => k'
  end.

(** A store to the slot, a store of the slot's address as a value, a
    load directly from the slot that is not a [load [copy]], a
    deallocation of the slot, a [destroy_value]. *)
Definition isSlotStore (a : nat) (k : InstKind) : bool :=
  match k with
  | StoreInst _ dest _ => bool_decide (dest = ValueOf a)
  | _ => false
  end.

Definition storesSlotAddress (a : nat) (k : InstKind) : bool :=
  match k with
  | StoreInst src _ _ => bool_decide (src = ValueOf a)
  | _ => false
  end.

Definition isSlotLoad (a : nat) (k : InstKind) : bool :=
  match k with
  | LoadInst op qual => bool_decide (op = ValueOf a) && bool_decide (qual ≠ LoadCopy)
  | _ => false
  end.

Definition isSlotDealloc (a : nat) (k : InstKind) : bool :=
  match k with
  | DeallocStackInst op => bool_decide (op = ValueOf a)
  | _ => false
  end.

(** Loads and stores, whatever their address. *)
Definition isLoad (k : InstKind) : bool :=
  match k with
  | LoadInst _ _ => true
  | _ => false
  end.

Definition isStore (k : InstKind) : bool :=
  match k with
  | StoreInst _ _ _ => true
  | _ => false
  end.

Definition isDestroyValue (k : InstKind) : bool :=
  match k with
  | DestroyValueInst _ => true
  | _ => false
  end.

(** Kinds that are neither loads, stores, deallocations nor
    allocations. *)
Definition inert (k : InstKind) : bool :=
  match k with
  | LoadInst _ _ | StoreInst _ _ _ | DeallocStackInst _ | AllocStackInst _ => false
  | _ => true
  end.

(** [F'] comes from [F] by rewriting for the slot [a]: an instruction of
    [F'] is an instruction of [F] in the same block, under the same
    number and with the same view, or it is new, numbered from
    [nextID F] on, and its number and view satisfy [N]. *)
Definition evolves (a : nat) (N : nat → InstKind → Prop) (F F' : SILFunction) : Prop :=
  nextID F ≤ nextID F' ∧
  (wfIDs F → wfIDs F') ∧
  ∀ p Inst', (p, Inst') ∈ allInsts F' →
    (∃ Inst, (p, Inst) ∈ allInsts F ∧ instID Inst' = instID Inst ∧
             slotView a (kind Inst') = slotView a (kind Inst)) ∨
    (nextID F ≤ instID Inst' ∧ N (instID Inst') (slotView a (kind Inst'))).

(** No use of the slot follows a deallocation of the slot in block [b]. *)
Definition quietAfterDealloc (a b : nat) (F : SILFunction) : Prop :=
  ∀ pre D post, instsIn F b = pre ++ D :: post →
    isSlotDealloc a (kind D) = true →
    ∀ Inst, Inst ∈ post →
      isSlotStore a (kind Inst) = false ∧ isSlotLoad a (kind Inst) = false.

(** New instructions are inert. *)
Definition inertN (_ : nat) (v : InstKind) : Prop := inert v = true.

(** No instruction of [F] is numbered [x]. *)
Definition erased (x : nat) (F : SILFunction) : Prop :=
  ∀ q Inst, (q, Inst) ∈ allInsts F → instID Inst ≠ x.

(** New instructions are no stores to the slot, no stores of its
    address and no deallocations of it. *)
Definition noStoreN (a : nat) (_ : nat) (v : InstKind) : Prop :=
  isSlotStore a v = false ∧ storesSlotAddress a v = false ∧ isSlotDealloc a v = false.

(** ** The invariant of the pruning scan

    The scan of block [BB] for the slot [a] visits the numbers [ids0];
    [rest] are those still to come. *)

(** What holds of the function throughout. *)
Record ScanStatic (a BB : nat) (ids0 : list nat) (F : SILFunction) : Prop := {
  static_wf : wfIDs F;
  static_src : ∀ q Inst, (q, Inst) ∈ allInsts F → storesSlotAddress a (kind Inst) = false;
  static_old : ∀ id, id ∈ ids0 → id < nextID F;
  static_label : ∀ q Inst, (q, Inst) ∈ allInsts F → instID Inst ∈ ids0 → q = BB;
  static_quiet :
    ∀ D pre post, (BB, D) ∈ allInsts F → isSlotDealloc a (kind D) = true →
      ids0 = pre ++ instID D :: post →
      ∀ Inst, (BB, Inst) ∈ allInsts F → instID Inst ∈ post →
        isSlotStore a (kind Inst) = false ∧ isSlotLoad a (kind Inst) = false
}.

(** The stores to the slot in [BB] are still to come, or are the
    retained store. *)
Definition storeInv (a BB : nat) (rest : list nat) (LS : option nat) (F : SILFunction)
  : Prop :=
  ∀ Inst, (BB, Inst) ∈ allInsts F → isSlotStore a (kind Inst) = true →
          instID Inst ∈ rest ∨ LS = Some (instID Inst).

(** The loads from the slot in [BB] that do not copy are still to come,
    or are the one load [FL] that made the running value known. *)
Definition loadInv (a BB : nat) (rest : list nat) (FL : option nat) (F : SILFunction)
  : Prop :=
  ∀ Inst, (BB, Inst) ∈ allInsts F → isSlotLoad a (kind Inst) = true →
          instID Inst ∈ rest ∨ FL = Some (instID Inst).

Record ScanInv (a p : nat) (ty : SILType) (BB : nat) (ids0 : list nat) (dvfree : bool)
    (st : BlockScan) (pre rest : list nat) : Prop := {
  inv_split : ids0 = pre ++ rest;
  inv_static : ScanStatic a BB ids0 (scanF st);
  inv_alloc : allocPresent a p ty (scanF st);
  inv_rv : ∀ r, RunningVal st = Some r → r ≠ ValueOf a;
  inv_ls : ∀ ls, LastStore st = Some ls → ls ≠ a;
  inv_dv : dvfree = true → storeInv a BB rest (LastStore st) (scanF st);
  inv_load : ∃ FL, (RunningVal st = None → FL = None) ∧
                   loadInv a BB rest FL (scanF st)
}.

(** No instruction numbered [id] is a store to or a load from the slot. *)
Definition notSlotAt (a : nat) (F : SILFunction) (id : nat) : Prop :=
  ∀ q Inst, (q, Inst) ∈ allInsts F → instID Inst = id →
            isSlotStore a (kind Inst) = false ∧ isSlotLoad a (kind Inst) = false.

(** What the store case of the scan may create: inert instructions and,
    when the running value is unknown, the [load [take]] numbered
    [n]. *)
Definition storeCaseN (a n : nat) (RV : option SILValue) (i : nat) (v : InstKind) : Prop :=
  inert v = true ∨ (i = n ∧ RV = None ∧ v = LoadInst (ValueOf a) LoadTake).

(** ** Loads and stores left in a block *)

(** The loads from the slot that do not copy, and the stores to the
    slot, in block [b]. *)
Definition slotLoads (a : nat) (F : SILFunction) (b : nat) : list SILInstruction :=
  List.filter (λ Inst, isSlotLoad a (kind Inst)) (instsIn F b).

Definition slotStores (a : nat) (F : SILFunction) (b : nat) : list SILInstruction :=
  List.filter (λ Inst, isSlotStore a (kind Inst)) (instsIn F b).

(** All loads directly from the slot in block [b], whatever their
    qualifier. *)
Definition directLoads (a : nat) (F : SILFunction) (b : nat) : list SILInstruction :=
  List.filter (λ Inst, match kind Inst with
                       | LoadInst op _ => bool_decide (op = ValueOf a)
                       | _ => false
                       end) (instsIn F b).

(** ** Blocks the scan does not visit *)

(** The kinds the invariants of the scan look at. *)
Definition relevant (a : nat) (k : InstKind) : bool :=
  isSlotStore a k || isSlotLoad a k || isSlotDealloc a k || isDestroyValue k.

(** [thinned a l l']: the list [l'] is [l] with some instructions that
    are not relevant to the slot removed, and the others kept in order
    under their number and view. *)
Inductive thinned (a : nat) : list SILInstruction → list SILInstruction → Prop :=
| thinned_nil : thinned a [] []
| thinned_keep Inst Inst' l l' :
    instID Inst' = instID Inst →
    slotView a (kind Inst') = slotView a (kind Inst) →
    thinned a l l' →
    thinned a (Inst :: l) (Inst' :: l')
| thinned_drop Inst l l' :
    relevant a (kind Inst) = false →
    thinned a l l' →
    thinned a (Inst :: l) l'.

(** Block [b] of [F'] is block [b] of [F], thinned. *)
Definition thinsBlock (a b : nat) (F F' : SILFunction) : Prop :=
  wfBlocks F → wfBlocks F' ∧ thinned a (instsIn F b) (instsIn F' b).

(** No instruction of block [b] is numbered [id]. *)
Definition noIdIn (b id : nat) (F : SILFunction) : Prop :=
  ∀ Inst, (b, Inst) ∈ allInsts F → instID Inst ≠ id.

(** Any new instruction will do. *)
Definition anyN (_ : nat) (_ : InstKind) : Prop := True.

(** The position [pos] of a builder is outside block [b], and is an old
    number. *)
Definition outside (b pos : nat) (F : SILFunction) : Prop :=
  noIdIn b pos F ∧ pos < nextID F.

(** ** The pruning phase *)

(** The address of the slot is nowhere stored as a value. *)
Definition noStoredAddress (a : nat) (F : SILFunction) : Prop :=
  ∀ q Inst, (q, Inst) ∈ allInsts F → storesSlotAddress a (kind Inst) = false.

(** The values the slot [a] may come to hold during the pruning of
    [F]: what a store of [F] puts into the slot, what a load of [F]
    yields, and the results of the instructions the pass creates, which
    are numbered from [nextID F] on. *)
Definition heldBy (a : nat) (F : SILFunction) (v : SILValue) : bool :=
  existsb (λ p : nat * SILInstruction,
             match kind p.2 with
             | StoreInst src dest _ =>
                 bool_decide (dest = ValueOf a) && bool_decide (src = v)
             | LoadInst _ _ => bool_decide (asValue p.2 = v)
             | _ => false
             end) (allInsts F)
  || match v with
     | ValueOf n => nextID F <=? n
     | SILUndef => false
     end.

(** A [destroy_value] of a value in [held]. *)
Definition destroysHeld (held : SILValue → bool) (k : InstKind) : bool :=
  match k with
  | DestroyValueInst x => held x
  | _ => false
  end.

(** Block [b] has no [destroy_value] of a value the slot may hold. *)
Definition noHeldDestroy (a : nat) (F : SILFunction) (b : nat) : Prop :=
  ∀ Inst, Inst ∈ instsIn F b → destroysHeld (heldBy a F) (kind Inst) = false.

(** What a rewriting may do to an instruction as far as the values in
    [held] go: only a load becomes a load and only a store a store, a
    [destroy_value] of a value outside [held] keeps its operand, and the
    source of a store to the slot stays in [held]. *)
Definition heldKinds (a : nat) (held : SILValue → bool) (k k' : InstKind) : Prop :=
  (isLoad k' = true → isLoad k = true) ∧
  (isStore k' = true → isStore k = true) ∧
  (∀ x', k' = DestroyValueInst x' →
         ∃ x, k = DestroyValueInst x ∧ (held x = false → x' = x)) ∧
  (∀ src' qual', k' = StoreInst src' (ValueOf a) qual' →
         ∃ src qual, k = StoreInst src (ValueOf a) qual ∧
                     (held src = true → held src' = true)).

(** From [F] to [F'], instructions are rewritten within [heldKinds];
    the new ones are no stores. *)
Definition heldStep (a : nat) (held : SILValue → bool) (F F' : SILFunction) : Prop :=
  nextID F ≤ nextID F' ∧
  ∀ q Inst', (q, Inst') ∈ allInsts F' →
    (nextID F ≤ instID Inst' ∧ isStore (kind Inst') = false) ∨
    (∃ Inst, (q, Inst) ∈ allInsts F ∧ instID Inst = instID Inst' ∧
             heldKinds a held (kind Inst) (kind Inst')).

(** In [F], numbered from [n0] on at least, the results of the loads
    and the sources of the stores to the slot are in [held]. *)
Record HeldFun (a : nat) (held : SILValue → bool) (n0 : nat) (F : SILFunction)
  : Prop := {
  held_next : n0 ≤ nextID F;
  held_loads : ∀ q Inst, (q, Inst) ∈ allInsts F → isLoad (kind Inst) = true →
                         held (asValue Inst) = true;
  held_stores : ∀ q Inst src qual, (q, Inst) ∈ allInsts F →
                  kind Inst = StoreInst src (ValueOf a) qual → held src = true
}.

(** What holds of a scan with respect to [held]: the running value is
    in [held], and when the block is [protected], no [destroy_value]
    still to come destroys a value in [held]. *)
Record HeldInv (a : nat) (held : SILValue → bool) (n0 : nat) (protected : bool)
    (st : BlockScan) (rest : list nat) : Prop := {
  held_fun : HeldFun a held n0 (scanF st);
  held_old : ∀ id, id ∈ rest → id < nextID (scanF st);
  held_rv : ∀ r, RunningVal st = Some r → held r = true;
  held_dv : protected = true →
            ∀ q Inst, (q, Inst) ∈ allInsts (scanF st) → instID Inst ∈ rest →
                      destroysHeld held (kind Inst) = false
}.

(** The step of the scan at [id] does not forget a retained store: if
    [id] names a [destroy_value] of the running value, no store is
    retained at that point. *)
Definition keepsLastStore (st : BlockScan) (id : nat) : Prop :=
  ∀ q Inst x, findInst (scanF st) id = Some (q, Inst) →
              kind Inst = DestroyValueInst x → RunningVal st = Some x →
              LastStore st = None.

(** The loop [forEachInst body st ids] comes to the instruction [id] in
    the state [st'], with [rest'] still to visit after it. *)
Inductive scanVisits {S : Type} (body : S → nat → option (S * bool))
  : S → list nat → S → nat → list nat → Prop :=
| visits_here st id rest : scanVisits body st (id :: rest) st id rest
| visits_later st id rest st1 st' id' rest' :
    body st id = Some (st1, false) →
    scanVisits body st1 rest st' id' rest' →
    scanVisits body st (id :: rest) st' id' rest'.

(** The scan of block [BB] of [F] by [promoteAllocationInBlock] never
    forgets a retained store. *)
Definition lastStoreKept (hasOwnership : bool)
    (getOwnershipKind : SILFunction → SILValue → OwnershipKind)
    (alloc : AllocStack) (F : SILFunction) (BB : nat) : Prop :=
  ∀ st id rest,
    scanVisits (promoteAllocationInBlock_body hasOwnership getOwnershipKind alloc)
               (mkScan F None None) (blockInstIDs F BB) st id rest →
    keepsLastStore st id.

(** [id] names a [destroy_value] of the running value. *)
Definition destroysRunningVal (st : BlockScan) (id : nat) : Prop :=
  ∃ q Inst x, findInst (scanF st) id = Some (q, Inst) ∧
              kind Inst = DestroyValueInst x ∧ RunningVal st = Some x.

(** The step of the scan at [id] forgets a retained store: [id] names a
    [destroy_value] of the running value while a store is retained. *)
Definition forgetsLastStore (st : BlockScan) (id : nat) : Prop :=
  destroysRunningVal st id ∧ ∃ last, LastStore st = Some last.

(** [id] names a store to the slot. *)
Definition storesToSlot (alloc : AllocStack) (st : BlockScan) (id : nat) : Prop :=
  ∃ q Inst src qual, findInst (scanF st) id = Some (q, Inst) ∧
                     kind Inst = StoreInst src (allocValue alloc) qual.

(** The scan of block [BB] of [F] by [promoteAllocationInBlock] forgets
    a retained store at a [destroy_value] of the running value and
    comes to a store to the slot later on. *)
Definition storeAfterForgetting (hasOwnership : bool)
    (getOwnershipKind : SILFunction → SILValue → OwnershipKind)
    (alloc : AllocStack) (F : SILFunction) (BB : nat) : Prop :=
  ∃ st1 id1 rest1 st1' st2 id2 rest2,
    scanVisits (promoteAllocationInBlock_body hasOwnership getOwnershipKind alloc)
               (mkScan F None None) (blockInstIDs F BB) st1 id1 rest1 ∧
    forgetsLastStore st1 id1 ∧
    promoteAllocationInBlock_body hasOwnership getOwnershipKind alloc st1 id1
      = Some (st1', false) ∧
    scanVisits (promoteAllocationInBlock_body hasOwnership getOwnershipKind alloc)
               st1' rest1 st2 id2 rest2 ∧
    storesToSlot alloc st2 id2.

(** [pruneAllocStackUsage], started on [F], scans block [b] when the
    function has become [Fb]. *)
Definition scannedIn (hasOwnership : bool)
    (getOwnershipKind : SILFunction → SILValue → OwnershipKind)
    (F : SILFunction) (P : StackAllocationPromoter) (b : nat) (Fb : SILFunction)
  : Prop :=
  ∃ pre post LastStoreInBlock,
    fold_left (λ Blocks p, (insertBlock Blocks p.1).1)
              (getUsers F (allocValue (ASI P))) [] = pre ++ b :: post ∧
    foldM (λ (st : SILFunction * gmap nat (option nat)) Block,
             '(F, SI) ← promoteAllocationInBlock hasOwnership getOwnershipKind
                          (ASI P) st.1 Block;
             Some (F, <[Block := SI]> st.2))
          (F, ∅) pre = Some (Fb, LastStoreInBlock).

(** The scan of block [b] by [pruneAllocStackUsage], started on [F],
    forgets a retained store and comes to a store to the slot later
    on. *)
Definition storesAfterForgetting (hasOwnership : bool)
    (getOwnershipKind : SILFunction → SILValue → OwnershipKind)
    (F : SILFunction) (P : StackAllocationPromoter) (b : nat) : Prop :=
  ∃ Fb, scannedIn hasOwnership getOwnershipKind F P b Fb ∧
        storeAfterForgetting hasOwnership getOwnershipKind (ASI P) Fb b.

(** Block [b] of [F] holds at most one load from the slot that does not
    copy, and at most one store to the slot when [kept b] holds. *)
Definition prunedBlock (a : nat) (kept : nat → Prop) (F : SILFunction) (b : nat) : Prop :=
  length (slotLoads a F b) ≤ 1 ∧
  (kept b → length (slotStores a F b) ≤ 1).

(** The state of the pruning phase that started from [F0], once the
    blocks [scanned] have been scanned. *)
Record PhaseInv (a p : nat) (ty : SILType) (F0 : SILFunction) (kept : nat → Prop)
    (scanned : list nat) (F : SILFunction) : Prop := {
  phase_wf : wfIDs F;
  phase_blocks : wfBlocks F;
  phase_alloc : allocPresent a p ty F;
  phase_src : noStoredAddress a F;
  phase_held : HeldFun a (heldBy a F0) (nextID F0) F;
  phase_step : heldStep a (heldBy a F0) F0 F;
  phase_todo : ∀ b, b ∉ scanned → thinned a (instsIn F0 b) (instsIn F b);
  phase_scanned : ∀ b, b ∈ scanned → prunedBlock a kept F b
}.

(** ** Slots a run leaves in place *)


(** * Further vocabulary *)

(** ** Users the capture analysis does not tolerate *)

(** A user of the allocation that is no address for loads is tolerated
    when it stores into the allocation, deallocates it, annotates it, or
    destroys it and the type is loadable. *)
Definition capturingKind (alloc : AllocStack) (k : InstKind) : bool :=
  match k with
  | StoreInst _ dest _ => bool_decide (dest ≠ allocValue alloc)
  | DeallocStackInst _ | DebugValueAddrInst _ _ => false
  | DestroyAddrInst _ => negb (isLoadable (allocElementType alloc))
  | _ => true
  end.

(** ** Kinds of instructions in a use tree *)


(** ** The shape of the phi blocks *)

(** The phi blocks collected so far are listed once, have a node in the
    dominator tree, and are successors of a block of [F]. *)
Definition placementShape (F : SILFunction) (P : StackAllocationPromoter)
    (Blocks : list nat) : Prop :=
  NoDup Blocks ∧
  ∀ b, b ∈ Blocks →
    is_Some (getNode (DT P) b) ∧ ∃ pred, b ∈ getSuccessors F pred.

(** ** Empty tuples *)

(** The empty tuple and the tuples of such: types built from tuples
    alone. *)
Fixpoint onlyTuples (ty : SILType) : bool :=
  match ty with
  | TupleType elts => forallb onlyTuples elts
  | NominalType _ => false
  end.

(** The loop of [createValueForEmptyTuple] over the element types. *)
Fixpoint createValuesForEmptyTuples (F : SILFunction) (elts : list SILType)
    (insertionPoint : nat) : option (SILFunction * list SILValue) :=
  match elts with
  | [] => Some (F, [])
  | elementTy :: r =>
      '(F, v) ← createValueForEmptyTuple F elementTy insertionPoint;
      '(F, vs) ← createValuesForEmptyTuples F r insertionPoint;
      Some (F, v :: vs)
  end.

Definition isTuple (k : InstKind) : bool :=
  match k with
  | TupleInst _ => true
  | _ => false
  end.

(** [F'] is [F] with new [tuple] instructions. *)
Definition newTuples (F F' : SILFunction) : Prop :=
  ∀ q Inst, (q, Inst) ∈ allInsts F' →
    (q, Inst) ∈ allInsts F ∨ (nextID F ≤ instID Inst ∧ isTuple (kind Inst) = true).

(** ** Instructions that stay *)

(** [k'] is [k] with other operands, the address of the slot [a] left
    where it was. *)
Definition sameUpToOperands (a : nat) (k k' : InstKind) : Prop :=
  ∃ f : SILValue → SILValue, f (ValueOf a) = ValueOf a ∧ k' = mapOperands f k.

(** The operation of an instruction, its operands and the qualifier of
    a store forgotten; a [load [take]] counts apart from the other
    loads. *)
Definition opcode (k : InstKind) : nat :=
  match k with
  | AllocStackInst _ => 0
  | LoadInst _ LoadTake => 1
  | LoadInst _ _ => 20
  | StoreInst _ _ _ => 2
  | StructElementAddrInst _ _ => 3
  | TupleElementAddrInst _ _ => 4
  | UncheckedAddrCastInst _ => 5
  | DeallocStackInst _ => 6
  | DebugValueAddrInst _ _ => 7
  | DebugValueInst _ _ => 8
  | DestroyAddrInst _ => 9
  | DestroyValueInst _ => 10
  | CopyValueInst _ => 11
  | BeginBorrowInst _ => 12
  | EndBorrowInst _ => 13
  | StructExtractInst _ _ => 14
  | TupleExtractInst _ _ => 15
  | UncheckedBitwiseCastInst _ => 16
  | TupleInst _ => 17
  | TermInst _ => 18
  | OtherInst _ => 19
  end.

(** The kinds of instructions the pass creates. *)
Definition isCreatedKind (k : InstKind) : bool :=
  match k with
  | LoadInst _ LoadTake
  | DeallocStackInst _ | DebugValueInst _ _ | DestroyValueInst _ | CopyValueInst _
  | BeginBorrowInst _ | EndBorrowInst _ | StructExtractInst _ _ | TupleExtractInst _ _
  | UncheckedBitwiseCastInst _ | TupleInst _ => true
  | _ => false
  end.

(** Where the instructions of [F'] come from: an instruction of [F] of
    the same block, number and operation, or a new number and a kind the
    pass creates. *)
Definition comesFrom (F F' : SILFunction) : Prop :=
  ∀ q Inst', (q, Inst') ∈ allInsts F' →
    (∃ Inst, (q, Inst) ∈ allInsts F ∧ instID Inst' = instID Inst ∧
             opcode (kind Inst') = opcode (kind Inst)) ∨
    (nextID F ≤ instID Inst' ∧ isCreatedKind (kind Inst') = true).

(** A rewriting from [F] to [F'] keeps the instruction numbered [x]
    when its kind is in the class [C]: numbers stay in use, nothing
    comes from elsewhere, unique numbering is kept, and [x] names an
    instruction of the same block and the same kind up to operands. *)
Definition keeps (a : nat) (C : InstKind → Prop) (x : nat) (F F' : SILFunction) : Prop :=
  nextID F ≤ nextID F' ∧
  comesFrom F F' ∧
  (wfIDs F →
   wfIDs F' ∧
   ∀ q k, C k → findInst F x = Some (q, mkInst x k) →
     ∃ k', findInst F' x = Some (q, mkInst x k') ∧ sameUpToOperands a k k').

(** The classes of the allocation and of the stores into the slot that
    are not [store [assign]]. *)
Definition isAllocKind (k : InstKind) : Prop :=
  ∃ ty, k = AllocStackInst ty.

Definition isInitStoreTo (a : nat) (k : InstKind) : Prop :=
  ∃ src qual, k = StoreInst src (ValueOf a) qual ∧ qual ≠ StoreAssign.

(** ** The store a scan retains *)

(** What holds of [LastStore] during the scan of [promoteAllocationInBlock]
    for the slot [a], after the numbers [visited]: it names a visited
    instruction that is still in the function and is a store into the
    slot, not a [store [assign]]. *)
Record lastStoreInv (a p : nat) (ty : SILType) (st : BlockScan) (visited : list nat)
  : Prop := {
  ls_wf : wfIDs (scanF st);
  ls_alloc : allocPresent a p ty (scanF st);
  ls_store : ∀ ls, LastStore st = Some ls →
               ls ∈ visited ∧
               ∃ q k, findInst (scanF st) ls = Some (q, mkInst ls k) ∧ isInitStoreTo a k
}.

(** ** The state of the pruning phase *)

(** What holds of the function and of [LastStoreInBlock] during
    [pruneAllocStackUsage], started from [F0], for the slot [a]: every
    recorded store is in the function, in the block it is recorded for,
    and is a store into the slot that is not a [store [assign]]. *)
Record pruneInv (a p : nat) (ty : SILType) (F0 F : SILFunction)
    (LastStoreInBlock : gmap nat (option nat)) : Prop := {
  pr_wf : wfIDs F;
  pr_alloc : allocPresent a p ty F;
  pr_next : nextID F0 ≤ nextID F;
  pr_from : comesFrom F0 F;
  pr_stores : ∀ b ls, LastStoreInBlock !! b = Some (Some ls) →
                ∃ k, findInst F ls = Some (b, mkInst ls k) ∧ isInitStoreTo a k
}.

(** The empty class of instructions. *)
Definition noKind (_ : InstKind) : Prop := False.

(** ** What a promotion preserves *)


(** ** Uses of a value *)

(** No instruction of [F] has [v] among its operands. *)
Definition noUseOf (v : SILValue) (F : SILFunction) : Prop :=
  ∀ q Inst, (q, Inst) ∈ allInsts F → v ∉ getOperands (kind Inst).

(** A value that an instruction created from [n] on defines. *)
Definition definedFrom (n : nat) (v : SILValue) : Prop :=
  ∃ m, v = ValueOf m ∧ n ≤ m.

(** ** The debug values of a variable *)

(** [debug_value] of [Value] for the variable [varInfo]. *)
Definition isDebugValueOf (Value : SILValue) (varInfo : nat) (k : InstKind) : bool :=
  match k with
  | DebugValueInst op v => bool_decide (op = Value) && (v =? varInfo)
  | _ => false
  end.

Definition debugValuesOf (F : SILFunction) (Value : SILValue) (varInfo : nat)
  : list (nat * SILInstruction) :=
  List.filter (λ p, isDebugValueOf Value varInfo (kind p.2)) (allInsts F).

(** * Example functions *)

(** A function without ownership: every value has ownership kind none. *)
Definition noOwnership (_ : SILFunction) (_ : SILValue) : OwnershipKind := OwnershipNone.

Definition loadableTy : SILType := NominalType true.

(** The dominator tree of a diamond: block 0 dominates blocks 1, 2, 3. *)
Definition node0 : DomTreeNode := DomNode 0 None.
Definition node1 : DomTreeNode := DomNode 1 (Some node0).
Definition node2 : DomTreeNode := DomNode 2 (Some node0).
Definition node3 : DomTreeNode := DomNode 3 (Some node0).

Definition diamondDT : DominanceInfo :=
  mkDominanceInfo
    (λ b, match b with
          | 0 => Some node0 | 1 => Some node1 | 2 => Some node2 | 3 => Some node3
          | _ => None
          end)
    node0
    (λ N, match getBlock N with 0 => [node1; node2; node3] | _ => [] end)
    (λ x y, (x =? y) || (x =? 0))
    (λ x y, negb (x =? y) && (x =? 0)).

(** [%20 = alloc_stack] in block 0; block 1 stores [%10], block 2 stores
    [%11]; block 3 loads a copy, uses it and deallocates. *)
Definition diamond : SILFunction :=
  mkFunction
    [ mkBlock 0 [10; 11]
        [ mkInst 20 (AllocStackInst loadableTy);
          mkInst 21 (TermInst [(1, []); (2, [])]) ];
      mkBlock 1 []
        [ mkInst 22 (StoreInst (ValueOf 10) (ValueOf 20) StoreInit);
          mkInst 23 (TermInst [(3, [])]) ];
      mkBlock 2 []
        [ mkInst 24 (StoreInst (ValueOf 11) (ValueOf 20) StoreInit);
          mkInst 25 (TermInst [(3, [])]) ];
      mkBlock 3 []
        [ mkInst 26 (LoadInst (ValueOf 20) LoadCopy);
          mkInst 27 (OtherInst [ValueOf 26]);
          mkInst 28 (DeallocStackInst (ValueOf 20));
          mkInst 29 (TermInst []) ] ]
    30.

Definition diamondAlloc : AllocStack :=
  mkAlloc 20 0 loadableTy (getUses diamond (ValueOf 20)).

Definition diamondPromoter : StackAllocationPromoter :=
  newStackAllocationPromoter diamondAlloc diamondDT
    (computeDomTreeLevels 5 diamondDT).


(** The diamond with a further block 4 that nothing reaches: it stores
    [%12] and branches to block 3.  Block 4 has no node in the dominator
    tree. *)
Definition diamondUnreachable : SILFunction :=
  mkFunction
    (blocks diamond ++
     [ mkBlock 4 [12]
         [ mkInst 30 (StoreInst (ValueOf 12) (ValueOf 20) StoreInit);
           mkInst 31 (TermInst [(3, [])]) ] ])
    32.

Definition unreachableAlloc : AllocStack :=
  mkAlloc 20 0 loadableTy (getUses diamondUnreachable (ValueOf 20)).

Definition unreachablePromoter : StackAllocationPromoter :=
  newStackAllocationPromoter unreachableAlloc diamondDT
    (computeDomTreeLevels 5 diamondDT).

(** [LastStoreInBlock] after pruning [diamondUnreachable]. *)
Definition unreachableLastStores : gmap nat (option nat) :=
  <[4 := Some 30]> (<[3 := None]> (<[2 := Some 24]> (<[1 := Some 22]> ∅))).

(** One block of a slot promoted across blocks: the stored value [%10]
    is taken out and destroyed, then the slot is read again. *)
Definition destroyThenLoad : SILFunction :=
  mkFunction
    [ mkBlock 0 [10] [ mkInst 20 (AllocStackInst loadableTy);
                       mkInst 21 (TermInst [(1, [])]) ];
      mkBlock 1 []
        [ mkInst 22 (StoreInst (ValueOf 10) (ValueOf 20) StoreInit);
          mkInst 23 (LoadInst (ValueOf 20) LoadTake);
          mkInst 24 (DestroyValueInst (ValueOf 23));
          mkInst 25 (LoadInst (ValueOf 20) LoadTake);
          mkInst 26 (OtherInst [ValueOf 25]);
          mkInst 27 (TermInst []) ] ]
    30.

Definition destroyThenLoadAlloc : AllocStack :=
  mkAlloc 20 0 loadableTy (getUses destroyThenLoad (ValueOf 20)).

(** [destroyThenLoad] after the scan of block 1: the second load was
    replaced by [%10], the value the [destroy_value] destroyed. *)
Definition destroyThenLoadScanned : SILFunction :=
  mkFunction
    [ mkBlock 0 [10] [ mkInst 20 (AllocStackInst loadableTy);
                       mkInst 21 (TermInst [(1, [])]) ];
      mkBlock 1 []
        [ mkInst 22 (StoreInst (ValueOf 10) (ValueOf 20) StoreInit);
          mkInst 24 (DestroyValueInst (ValueOf 10));
          mkInst 26 (OtherInst [ValueOf 10]);
          mkInst 27 (TermInst []) ] ]
    30.

(** A slot whose field is taken: [load [take]] through
    [struct_element_addr]. *)
Definition takeField : SILFunction :=
  mkFunction
    [ mkBlock 0 [10]
        [ mkInst 20 (AllocStackInst loadableTy);
          mkInst 21 (StoreInst (ValueOf 10) (ValueOf 20) StoreInit);
          mkInst 22 (StructElementAddrInst (ValueOf 20) 0);
          mkInst 23 (LoadInst (ValueOf 22) LoadTake);
          mkInst 24 (DeallocStackInst (ValueOf 20));
          mkInst 25 (TermInst []) ] ]
    30.

Definition takeFieldAlloc : AllocStack :=
  mkAlloc 20 0 loadableTy (getUses takeField (ValueOf 20)).

Definition takeFieldUse : UseTree :=
  UseNode 0 (mkInst 22 (StructElementAddrInst (ValueOf 20) 0))
    [UseNode 0 (mkInst 23 (LoadInst (ValueOf 22) LoadTake)) []].

(** A slot allocated in block 0 and used in block 1 only. *)
Definition usedElsewhere : SILFunction :=
  mkFunction
    [ mkBlock 0 [10] [ mkInst 20 (AllocStackInst loadableTy);
                       mkInst 21 (TermInst [(1, [])]) ];
      mkBlock 1 []
        [ mkInst 22 (StoreInst (ValueOf 10) (ValueOf 20) StoreInit);
          mkInst 23 (LoadInst (ValueOf 20) LoadTake);
          mkInst 24 (OtherInst [ValueOf 23]);
          mkInst 25 (DeallocStackInst (ValueOf 20));
          mkInst 26 (TermInst []) ] ]
    30.

Definition usedElsewhereAlloc : AllocStack :=
  mkAlloc 20 0 loadableTy (getUses usedElsewhere (ValueOf 20)).

(** A slot that is read again after its deallocation, all in one
    block. *)
Definition loadAfterDealloc : SILFunction :=
  mkFunction
    [ mkBlock 0 [10]
        [ mkInst 20 (AllocStackInst loadableTy);
          mkInst 21 (StoreInst (ValueOf 10) (ValueOf 20) StoreInit);
          mkInst 22 (LoadInst (ValueOf 20) LoadTake);
          mkInst 23 (OtherInst [ValueOf 22]);
          mkInst 24 (DeallocStackInst (ValueOf 20));
          mkInst 25 (LoadInst (ValueOf 20) LoadTake);
          mkInst 26 (TermInst []) ] ]
    30.

Definition loadAfterDeallocAlloc : AllocStack :=
  mkAlloc 20 0 loadableTy (getUses loadAfterDealloc (ValueOf 20)).

(** [loadAfterDealloc] after the single-block elimination, before the
    deallocation is put back. *)
Definition loadAfterDeallocEliminated : SILFunction :=
  mkFunction
    [ mkBlock 0 [10]
        [ mkInst 20 (AllocStackInst loadableTy);
          mkInst 23 (OtherInst [ValueOf 10]);
          mkInst 25 (LoadInst (ValueOf 20) LoadTake);
          mkInst 26 (TermInst []) ] ]
    30.



(** A slot used in two blocks.  Block 1 copies it out twice; block 2
    stores [%10], takes it out again and destroys it, then stores
    [%11]. *)
Definition copiesAndStores : SILFunction :=
  mkFunction
    [ mkBlock 0 [10; 11; 12]
        [ mkInst 20 (AllocStackInst loadableTy);
          mkInst 21 (StoreInst (ValueOf 12) (ValueOf 20) StoreInit);
          mkInst 22 (TermInst [(1, [])]) ];
      mkBlock 1 []
        [ mkInst 23 (LoadInst (ValueOf 20) LoadCopy);
          mkInst 24 (LoadInst (ValueOf 20) LoadCopy);
          mkInst 25 (OtherInst [ValueOf 23; ValueOf 24]);
          mkInst 26 (TermInst [(2, [])]) ];
      mkBlock 2 []
        [ mkInst 27 (LoadInst (ValueOf 20) LoadTake);
          mkInst 28 (DestroyValueInst (ValueOf 27));
          mkInst 29 (StoreInst (ValueOf 10) (ValueOf 20) StoreInit);
          mkInst 30 (LoadInst (ValueOf 20) LoadTake);
          mkInst 31 (DestroyValueInst (ValueOf 30));
          mkInst 32 (StoreInst (ValueOf 11) (ValueOf 20) StoreInit);
          mkInst 33 (DeallocStackInst (ValueOf 20));
          mkInst 34 (TermInst []) ] ]
    40.

Definition copiesAndStoresAlloc : AllocStack :=
  mkAlloc 20 0 loadableTy (getUses copiesAndStores (ValueOf 20)).

Definition copiesAndStoresPromoter : StackAllocationPromoter :=
  newStackAllocationPromoter copiesAndStoresAlloc diamondDT
    (computeDomTreeLevels 5 diamondDT).

(** [copiesAndStores] after pruning. *)
Definition copiesAndStoresPruned : SILFunction :=
  mkFunction
    [ mkBlock 0 [10; 11; 12]
        [ mkInst 20 (AllocStackInst loadableTy);
          mkInst 21 (StoreInst (ValueOf 12) (ValueOf 20) StoreInit);
          mkInst 22 (TermInst [(1, [])]) ];
      mkBlock 1 []
        [ mkInst 23 (LoadInst (ValueOf 20) LoadCopy);
          mkInst 24 (LoadInst (ValueOf 20) LoadCopy);
          mkInst 25 (OtherInst [ValueOf 23; ValueOf 24]);
          mkInst 26 (TermInst [(2, [])]) ];
      mkBlock 2 []
        [ mkInst 27 (LoadInst (ValueOf 20) LoadTake);
          mkInst 28 (DestroyValueInst (ValueOf 27));
          mkInst 29 (StoreInst (ValueOf 10) (ValueOf 20) StoreInit);
          mkInst 31 (DestroyValueInst (ValueOf 10));
          mkInst 32 (StoreInst (ValueOf 11) (ValueOf 20) StoreInit);
          mkInst 33 (DeallocStackInst (ValueOf 20));
          mkInst 34 (TermInst []) ] ]
    40.

(** A slot written and read twice in block 1. *)
Definition twoStores : SILFunction :=
  mkFunction
    [ mkBlock 0 [10; 11]
        [ mkInst 20 (AllocStackInst loadableTy);
          mkInst 21 (TermInst [(1, [])]) ];
      mkBlock 1 []
        [ mkInst 22 (StoreInst (ValueOf 10) (ValueOf 20) StoreInit);
          mkInst 23 (LoadInst (ValueOf 20) LoadTake);
          mkInst 24 (OtherInst [ValueOf 23]);
          mkInst 25 (StoreInst (ValueOf 11) (ValueOf 20) StoreInit);
          mkInst 26 (LoadInst (ValueOf 20) LoadCopy);
          mkInst 27 (OtherInst [ValueOf 26]);
          mkInst 28 (TermInst [(2, [])]) ];
      mkBlock 2 []
        [ mkInst 29 (DeallocStackInst (ValueOf 20));
          mkInst 30 (TermInst []) ] ]
    40.

Definition twoStoresAlloc : AllocStack :=
  mkAlloc 20 0 loadableTy (getUses twoStores (ValueOf 20)).

(** [twoStores] after the scan of block 1: the second store is the one
    left. *)
Definition twoStoresScanned : SILFunction :=
  mkFunction
    [ mkBlock 0 [10; 11]
        [ mkInst 20 (AllocStackInst loadableTy);
          mkInst 21 (TermInst [(1, [])]) ];
      mkBlock 1 []
        [ mkInst 24 (OtherInst [ValueOf 10]);
          mkInst 25 (StoreInst (ValueOf 11) (ValueOf 20) StoreInit);
          mkInst 40 (CopyValueInst (ValueOf 11));
          mkInst 27 (OtherInst [ValueOf 40]);
          mkInst 28 (TermInst [(2, [])]) ];
      mkBlock 2 []
        [ mkInst 29 (DeallocStackInst (ValueOf 20));
          mkInst 30 (TermInst []) ] ]
    41.

Definition twoStoresPromoter : StackAllocationPromoter :=
  newStackAllocationPromoter twoStoresAlloc diamondDT
    (computeDomTreeLevels 5 diamondDT).

(** Block 1 stores to the slot twice, with a [destroy_value] of a
    value the slot never holds in between. *)
Definition storesAroundDestroy : SILFunction :=
  mkFunction
    [ mkBlock 0 [10; 11; 12]
        [ mkInst 20 (AllocStackInst loadableTy);
          mkInst 21 (TermInst [(1, [])]) ];
      mkBlock 1 []
        [ mkInst 22 (StoreInst (ValueOf 10) (ValueOf 20) StoreInit);
          mkInst 23 (DestroyValueInst (ValueOf 12));
          mkInst 24 (StoreInst (ValueOf 11) (ValueOf 20) StoreInit);
          mkInst 25 (LoadInst (ValueOf 20) LoadTake);
          mkInst 26 (OtherInst [ValueOf 25]);
          mkInst 27 (TermInst [(2, [])]) ];
      mkBlock 2 []
        [ mkInst 28 (DeallocStackInst (ValueOf 20));
          mkInst 29 (TermInst []) ] ]
    40.

Definition storesAroundDestroyAlloc : AllocStack :=
  mkAlloc 20 0 loadableTy (getUses storesAroundDestroy (ValueOf 20)).

Definition storesAroundDestroyPromoter : StackAllocationPromoter :=
  newStackAllocationPromoter storesAroundDestroyAlloc diamondDT
    (computeDomTreeLevels 5 diamondDT).

(** [storesAroundDestroy] after pruning: the second store is the one
    left in block 1. *)
Definition storesAroundDestroyPruned : SILFunction :=
  mkFunction
    [ mkBlock 0 [10; 11; 12]
        [ mkInst 20 (AllocStackInst loadableTy);
          mkInst 21 (TermInst [(1, [])]) ];
      mkBlock 1 []
        [ mkInst 23 (DestroyValueInst (ValueOf 12));
          mkInst 24 (StoreInst (ValueOf 11) (ValueOf 20) StoreInit);
          mkInst 26 (OtherInst [ValueOf 11]);
          mkInst 27 (TermInst [(2, [])]) ];
      mkBlock 2 []
        [ mkInst 28 (DeallocStackInst (ValueOf 20));
          mkInst 29 (TermInst []) ] ]
    40.



(** A slot that is only written: a store, a chain of address
    projections that nothing reads, and the deallocation. *)
Definition writeOnly : SILFunction :=
  mkFunction
    [ mkBlock 0 [10]
        [ mkInst 20 (AllocStackInst loadableTy);
          mkInst 21 (StoreInst (ValueOf 10) (ValueOf 20) StoreInit);
          mkInst 22 (StructElementAddrInst (ValueOf 20) 0);
          mkInst 23 (TupleElementAddrInst (ValueOf 22) 1);
          mkInst 24 (DeallocStackInst (ValueOf 20));
          mkInst 25 (TermInst []) ] ]
    30.

Definition deadField : UseTree :=
  UseNode 0 (mkInst 22 (StructElementAddrInst (ValueOf 20) 0))
    [UseNode 0 (mkInst 23 (TupleElementAddrInst (ValueOf 22) 1)) []].

(** A slot that is read in block 1 and never written. *)
Definition neverStored : SILFunction :=
  mkFunction
    [ mkBlock 0 []
        [ mkInst 20 (AllocStackInst loadableTy);
          mkInst 21 (TermInst [(1, [])]) ];
      mkBlock 1 []
        [ mkInst 22 (LoadInst (ValueOf 20) LoadCopy);
          mkInst 23 (OtherInst [ValueOf 22]);
          mkInst 24 (DeallocStackInst (ValueOf 20));
          mkInst 25 (TermInst []) ] ]
    30.

Definition neverStoredAlloc : AllocStack :=
  mkAlloc 20 0 loadableTy (getUses neverStored (ValueOf 20)).

Definition neverStoredPromoter : StackAllocationPromoter :=
  newStackAllocationPromoter neverStoredAlloc diamondDT
    (computeDomTreeLevels 5 diamondDT).

(** [LastStoreInBlock] after the pruning of [copiesAndStores] and of
    [twoStores]. *)
Definition copiesAndStoresLastStores : gmap nat (option nat) :=
  <[2 := Some 32]> (<[1 := None]> (<[0 := Some 21]> ∅)).

Definition twoStoresLastStores : gmap nat (option nat) :=
  <[2 := None]> (<[1 := Some 25]> ∅).

(** A field of the slot is read and the value read is used. *)
Definition fieldRead : SILFunction :=
  mkFunction
    [ mkBlock 0 [10]
        [ mkInst 20 (AllocStackInst loadableTy);
          mkInst 21 (StoreInst (ValueOf 10) (ValueOf 20) StoreInit);
          mkInst 22 (StructElementAddrInst (ValueOf 20) 0);
          mkInst 23 (LoadInst (ValueOf 22) LoadTake);
          mkInst 24 (OtherInst [ValueOf 23]);
          mkInst 25 (DeallocStackInst (ValueOf 20));
          mkInst 26 (TermInst []) ] ]
    30.

(** [fieldRead] after [replaceLoad] of the load by the stored [%10]:
    the field is extracted from the value, and the projection, left
    without users, is gone with the load. *)
Definition fieldReadReplaced : SILFunction :=
  mkFunction
    [ mkBlock 0 [10]
        [ mkInst 20 (AllocStackInst loadableTy);
          mkInst 21 (StoreInst (ValueOf 10) (ValueOf 20) StoreInit);
          mkInst 30 (StructExtractInst (ValueOf 10) 0);
          mkInst 24 (OtherInst [ValueOf 30]);
          mkInst 25 (DeallocStackInst (ValueOf 20));
          mkInst 26 (TermInst []) ] ]
    31.

(** A slot with two [debug_value_addr] for the variable 7. *)
Definition debugged : SILFunction :=
  mkFunction
    [ mkBlock 0 [10]
        [ mkInst 20 (AllocStackInst loadableTy);
          mkInst 21 (StoreInst (ValueOf 10) (ValueOf 20) StoreInit);
          mkInst 22 (DebugValueAddrInst (ValueOf 20) 7);
          mkInst 23 (DebugValueAddrInst (ValueOf 20) 7);
          mkInst 24 (DeallocStackInst (ValueOf 20));
          mkInst 25 (TermInst []) ] ]
    30.

(** [debugged] after the first [debug_value_addr] was promoted to a
    [debug_value] of the stored [%10]. *)
Definition debuggedPromoted : SILFunction :=
  mkFunction
    [ mkBlock 0 [10]
        [ mkInst 20 (AllocStackInst loadableTy);
          mkInst 21 (StoreInst (ValueOf 10) (ValueOf 20) StoreInit);
          mkInst 30 (DebugValueInst (ValueOf 10) 7);
          mkInst 23 (DebugValueAddrInst (ValueOf 20) 7);
          mkInst 24 (DeallocStackInst (ValueOf 20));
          mkInst 25 (TermInst []) ] ]
    31.
(** * Properties *)

Lemma isAddressForLoad_unfold U singleBlock g :
  isAddressForLoad U singleBlock g =
  match kind (useInst U) with
  | LoadInst _ qual =>
      if g && bool_decide (qual = LoadTake)
      then (false, singleBlock, g) else (true, singleBlock, g)
  | _ =>
      if negb (isAddrProjection (kind (useInst U)))
      then (false, singleBlock, g)
      else isAddressForLoad_users (useUsers U) singleBlock
             (if isFieldProjection (kind (useInst U)) then true else g)
  end.
Proof.
  destruct U as [p Inst us]; simpl.
  assert (Hloop : ∀ sb h,
    (fix loop (us : list UseTree) (singleBlock : option nat)
              (hasGuaranteedOwnership : bool) {struct us} :=
       match us with
       | [] => (true, singleBlock, hasGuaranteedOwnership)
       | II :: rest =>
           let singleBlock := checkSingleBlock (useParent II) singleBlock in
           let '(r, singleBlock, hasGuaranteedOwnership) :=
             isAddressForLoad II singleBlock hasGuaranteedOwnership in
           if r then loop rest singleBlock hasGuaranteedOwnership
           else (false, singleBlock, hasGuaranteedOwnership)
       end) us sb h = isAddressForLoad_users us sb h).
  { induction us as [|U' r IH]; intros sb h; simpl; [done|].
    destruct (isAddressForLoad U' _ h) as [[[] sb'] h']; [apply IH|done]. }
  destruct (kind Inst); simpl; rewrite ?Hloop; done.
Qed.

(** The ownership flag, once set, stays set. *)
Lemma isAddressForLoad_flag U :
  ∀ singleBlock, (isAddressForLoad U singleBlock true).2 = true.
Proof.
  induction U as [p Inst us IH] using UseTree_nested_ind; intros sb.
  rewrite isAddressForLoad_unfold; simpl.
  assert (Hus : ∀ sb, (isAddressForLoad_users us sb true).2 = true).
  { clear sb. induction IH as [|U' r HU' _ IHr]; intros sb; simpl; [done|].
    specialize (HU' (checkSingleBlock (useParent U') sb)).
    destruct (isAddressForLoad U' _ true) as [[[] sb'] h']; simpl in *; subst; auto. }
  destruct (kind Inst); simpl; try done;
    try (destruct (bool_decide _); done);
    try (destruct (isFieldProjection _); apply Hus); apply Hus.
Qed.

Lemma isAddressForLoad_users_false us :
  ∀ U g, U ∈ us →
    (∀ h sb, (g = true → h = true) → (isAddressForLoad U sb h).1.1 = false) →
    ∀ h sb, (g = true → h = true) → (isAddressForLoad_users us sb h).1.1 = false.
Proof.
  induction us as [|U0 r IH]; intros U g Hin HU h sb Hh; [by apply elem_of_nil in Hin|].
  simpl.
  destruct (isAddressForLoad U0 (checkSingleBlock (useParent U0) sb) h)
    as [[res sb'] h'] eqn:E.
  destruct res; [|done].
  apply elem_of_cons in Hin as [->|Hin].
  - specialize (HU h (checkSingleBlock (useParent U0) sb) Hh). by rewrite E in HU.
  - apply (IH U g Hin HU). intros Hg. specialize (Hh Hg); subst h.
    pose proof (isAddressForLoad_flag U0 (checkSingleBlock (useParent U0) sb)) as Hf.
    by rewrite E in Hf.
Qed.

Lemma reachesTakeLoad_not_load g U :
  reachesTakeLoad g U →
  ∀ h sb, (g = true → h = true) → (isAddressForLoad U sb h).1.1 = false.
Proof.
  induction 1 as [p Inst us op Hk | g p Inst us U Hproj Hin _ IH]; intros h sb Hh.
  - rewrite isAddressForLoad_unfold; simpl. rewrite Hk, (Hh eq_refl).
    by rewrite bool_decide_eq_true_2.
  - rewrite isAddressForLoad_unfold; simpl.
    assert (Hgo : (isAddressForLoad_users us sb
                     (if isFieldProjection (kind Inst) then true else h)).1.1 = false).
    { eapply isAddressForLoad_users_false; [exact Hin|exact IH|].
      destruct (isFieldProjection (kind Inst)); auto. }
    destruct (kind Inst); simpl in *; try done.
Qed.

Lemma isCaptured_loop_captured ASI uses :
  ∀ U singleBlock, U ∈ uses → reachesTakeLoad false U →
    isCaptured_loop ASI uses singleBlock = None.
Proof.
  induction uses as [|U0 r IH]; intros U sb Hin HU; [by apply elem_of_nil in Hin|].
  simpl. destruct (isCaptured_user ASI U0 sb) as [sb'|] eqn:E; [|done].
  apply elem_of_cons in Hin as [->|Hin]; [|by eapply IH].
  exfalso. unfold isCaptured_user in E.
  pose proof (reachesTakeLoad_not_load _ _ HU false
                (checkSingleBlock (useParent U0) sb) (λ H, H)) as Hn.
  destruct (isAddressForLoad U0 _ false) as [[res sb1] h1]; simpl in Hn; subst res.
  inversion HU as [|g p Inst us U' Hproj _ _]; subst; simpl in *.
  destruct (kind Inst); simpl in *; done.
Qed.

(** C4.  When a [load [take]] is reached from a user of the allocation
    through address projections of which at least one is a
    [struct_element_addr] or [tuple_element_addr], [isCaptured] answers
    that the allocation is captured (leaving [inSingleBlock] as it was),
    and [promoteSingleAllocation] returns false without touching the
    function. *)
Theorem C4_take_through_field_projection_captures
    hasOwnership getOwnershipKind (F : SILFunction) (Dt : DominanceInfo)
    (Levels : gmap nat nat) (alloc : AllocStack) (U : UseTree) :
  U ∈ allocUses alloc →
  reachesTakeLoad false U →
  (∀ inSingleBlock, isCaptured alloc inSingleBlock = (true, inSingleBlock)) ∧
  promoteSingleAllocation hasOwnership getOwnershipKind F Dt alloc Levels = Some (F, false).
Proof.
  intros Hin HU.
  assert (Hc : ∀ b, isCaptured alloc b = (true, b)).
  { intros b. unfold isCaptured. by rewrite (isCaptured_loop_captured _ _ U _ Hin HU). }
  split; [exact Hc|].
  unfold promoteSingleAllocation. by rewrite Hc.
Qed.

(** ** The single-block output of the capture analysis *)

Lemma checkBlocks_None l : checkBlocks l None = None.
Proof. induction l as [|p l IH]; [done|]. exact IH. Qed.

Lemma checkBlocks_Some l b :
  checkBlocks l (Some b) ≠ None ↔ ∀ p, p ∈ l → p = b.
Proof.
  induction l as [|p l IH]; simpl.
  - split; [intros _ q Hq; by apply elem_of_nil in Hq|done].
  - unfold checkBlocks; simpl. unfold checkSingleBlock at 2.
    destruct (decide (Some p = Some b)) as [[= ->]|Hne].
    + fold (checkBlocks l (Some b)). rewrite IH. split.
      * intros H q Hq. apply elem_of_cons in Hq as [->|Hq]; auto.
      * intros H q Hq. apply H. by apply list_elem_of_further.
    + fold (checkBlocks l None). rewrite checkBlocks_None. split; [done|].
      intros H. exfalso. apply Hne. f_equal. apply H. apply list_elem_of_here.
Qed.

Lemma checkBlocks_app l1 l2 sb :
  checkBlocks (l1 ++ l2) sb = checkBlocks l2 (checkBlocks l1 sb).
Proof. apply fold_left_app. Qed.

Lemma isAddressForLoad_singleBlock U :
  ∀ sb g sb' g',
    isAddressForLoad U sb g = (true, sb', g') →
    sb' = checkBlocks (tail (visitedBlocks U)) sb.
Proof.
  induction U as [p Inst us IH] using UseTree_nested_ind; intros sb g sb' g'.
  rewrite isAddressForLoad_unfold; simpl.
  assert (Hus : ∀ sb g sb' g',
             isAddressForLoad_users us sb g = (true, sb', g') →
             sb' = checkBlocks (flat_map visitedBlocks us) sb).
  { clear sb g sb' g'.
    induction IH as [|U' r HU' _ IHr]; intros sb g sb' g'; simpl.
    - by intros [= <- _].
    - destruct (isAddressForLoad U' (checkSingleBlock (useParent U') sb) g)
        as [[res sb1] g1] eqn:E.
      destruct res; [|done]. intros Hr.
      rewrite checkBlocks_app. apply IHr in Hr as ->. f_equal.
      apply HU' in E as ->. by destruct U'. }
  destruct (kind Inst) eqn:Hk; simpl; try done;
    try (destruct (_ && _); [done|by intros [= <- _]]);
    apply Hus.
Qed.

Lemma isCaptured_user_singleBlock ASI U sb sb' :
  isCaptured_user ASI U sb = Some sb' → sb' = checkBlocks (visitedBlocks U) sb.
Proof.
  unfold isCaptured_user.
  destruct (isAddressForLoad U (checkSingleBlock (useParent U) sb) false)
    as [[res sb1] g1] eqn:E.
  destruct res.
  - intros [= <-]. apply isAddressForLoad_singleBlock in E as ->. by destruct U.
  - rewrite isAddressForLoad_unfold in E. destruct U as [p Inst us]; simpl in *.
    destruct (kind Inst); simpl in *; try done;
      injection E as <- _; try (by intros [= <-]);
      intros H; repeat case_match; by simplify_eq.
Qed.

Lemma isCaptured_loop_singleBlock ASI uses :
  ∀ sb sb', isCaptured_loop ASI uses sb = Some sb' →
            sb' = checkBlocks (flat_map visitedBlocks uses) sb.
Proof.
  induction uses as [|U r IH]; intros sb sb'; simpl; [by intros [= <-]|].
  destruct (isCaptured_user ASI U sb) as [sb1|] eqn:E; [|done].
  intros H. rewrite checkBlocks_app. apply IH in H as ->.
  by apply isCaptured_user_singleBlock in E as ->.
Qed.

(** C8 (amended).  For an allocation that is not captured, the output
    [inSingleBlock] is true exactly when every user of the allocation,
    and every user reached from one through address projections, lies in
    the block of the allocation itself. *)
Theorem C8_inSingleBlock_iff_uses_in_alloc_block (alloc : AllocStack) (b : bool) :
  (isCaptured alloc b).1 = false →
  ((isCaptured alloc b).2 = true ↔
   ∀ U p, U ∈ allocUses alloc → p ∈ visitedBlocks U → p = allocParent alloc).
Proof.
  unfold isCaptured.
  destruct (isCaptured_loop alloc (allocUses alloc) (Some (allocParent alloc)))
    as [sb|] eqn:E; simpl; [intros _|done].
  apply isCaptured_loop_singleBlock in E as ->.
  rewrite bool_decide_eq_true, checkBlocks_Some. split.
  - intros H U p HU Hp. apply H. apply list_elem_of_In, in_flat_map.
    exists U. split; by apply list_elem_of_In.
  - intros H p Hp. apply list_elem_of_In, in_flat_map in Hp as (U & HU & Hp).
    apply (H U); by apply list_elem_of_In.
Qed.

(** ** Placement of phi blocks *)

Lemma findDealloc_spec uses :
  (∀ D0, findDealloc uses (Some D0) =
         match List.filter isDeallocUse uses with [] => Some D0 | _ => None end) ∧
  findDealloc uses None =
    match List.filter isDeallocUse uses with [D] => Some D | _ => None end.
Proof.
  induction uses as [|U r [IH1 IH2]]; [done|]. unfold isDeallocUse in *.
  split; [intros D0|]; simpl; destruct (kind (useInst U)); simpl; auto.
  all: try (rewrite IH1; by destruct (List.filter _ r)).
Qed.

Section Placement.
Variable F : SILFunction.
Variable P : StackAllocationPromoter.
Hypothesis Hnodes : nodesNamedByBlock (DT P).

Lemma visitSuccessor_inv Node RootLevel st Succ st' :
  placementInv P st →
  visitSuccessor P Node RootLevel st Succ = Some st' →
  placementInv P st'.
Proof.
  intros Hinv. unfold visitSuccessor.
  destruct (getNode (DT P) Succ) as [SuccNode|] eqn:HN; simpl; [|done].
  apply Hnodes in HN.
  destruct (match getIDom SuccNode with Some d => sameNode d Node | None => false end);
    [by intros [= <-]|].
  destruct (RootLevel <? _); [by intros [= <-]|].
  destruct (bool_decide (getBlock SuccNode ∈ Visited st)); [by intros [= <-]|].
  destruct (dominates (DT P) (allocParent (ASI P)) (getBlock SuccNode)) eqn:Hdom;
    simpl; [|by intros [= <-]].
  destruct (match DSI P with
            | Some D => properlyDominates (DT P) (useParent D) (getBlock SuccNode)
            | None => false
            end) eqn:Hpd; [by intros [= <-]|].
  unfold insertBlock; simpl. case_bool_decide; simpl; [by intros [= <-]|].
  intros [= <-] b; simpl. rewrite elem_of_app, list_elem_of_singleton.
  intros [Hb| ->]; [by apply Hinv|].
  rewrite HN in Hdom, Hpd. split; [done|]. intros D HD. by rewrite HD in Hpd.
Qed.

Lemma visitSuccessors_inv Node RootLevel Succs :
  ∀ st st', placementInv P st →
    visitSuccessors P Node RootLevel st Succs = Some st' → placementInv P st'.
Proof.
  induction Succs as [|Succ r IH]; intros st st' Hinv; simpl; [by intros [= <-]|].
  destruct (visitSuccessor P Node RootLevel st Succ) as [st1|] eqn:E; simpl; [|done].
  apply IH. by eapply visitSuccessor_inv.
Qed.

Lemma walkSubtree_inv fuel RootLevel :
  ∀ Worklist st st', placementInv P st →
    walkSubtree fuel F P RootLevel Worklist st = Some st' → placementInv P st'.
Proof.
  induction fuel as [|n IH]; intros [|Node Worklist] st st' Hinv; simpl;
    try (by intros [= <-]); try done.
  destruct (visitSuccessors P Node RootLevel st _) as [st1|] eqn:E; simpl; [|done].
  apply IH. by eapply visitSuccessors_inv.
Qed.

Lemma placePhis_inv fuel :
  ∀ st st', placementInv P st → placePhis fuel F P st = Some st' → placementInv P st'.
Proof.
  induction fuel as [|n IH]; intros st st' Hinv; cbn [placePhis];
    destruct (popTop (PQ st)) as [[RootPair rest]|]; try (by intros [= <-]); try done.
  destruct (walkSubtree (S (length (blocks F))) F P RootPair.2 [RootPair.1]
              (mkPlacement rest (Visited st) (PhiBlocks st))) as [st1|] eqn:E;
    cbn [mbind option_bind]; [|done].
  apply IH. eapply walkSubtree_inv; [|exact E]. exact Hinv.
Qed.

End Placement.

(** C1.  Every block that the placement loop of [promoteAllocationToPhi]
    accepts as a phi block is dominated by the block of the allocation
    and is not properly dominated by the block of the allocation's
    deallocation, when the allocation has exactly one deallocation among
    its users.  With two or more deallocations the promoter records none
    ([DSI] is null), and the second condition asks nothing. *)
Theorem C1_phi_blocks_dominated_and_not_past_dealloc
    (fuel : nat) (F : SILFunction) (Asi : AllocStack) (Di : DominanceInfo)
    (Levels : gmap nat nat) (uses : list UseTree) (Blocks : list nat) :
  nodesNamedByBlock Di →
  computePhiBlocks fuel F (newStackAllocationPromoter Asi Di Levels) uses = Some Blocks →
  (∀ b, b ∈ Blocks → dominates Di (allocParent Asi) b = true) ∧
  (∀ D b, deallocUses Asi = [D] → b ∈ Blocks →
          properlyDominates Di (useParent D) b = false) ∧
  (1 < length (deallocUses Asi) →
   DSI (newStackAllocationPromoter Asi Di Levels) = None).
Proof.
  intros Hnodes. set (P := newStackAllocationPromoter Asi Di Levels).
  unfold computePhiBlocks.
  destruct (placePhis fuel F P _) as [st|] eqn:E; simpl; [|done]. intros [= <-].
  assert (Hinv : placementInv P st).
  { eapply (placePhis_inv F P Hnodes); [|exact E].
    intros b Hb. by apply elem_of_nil in Hb. }
  assert (HDSI : DSI P = match deallocUses Asi with [D] => Some D | _ => None end).
  { apply findDealloc_spec. }
  split; [|split].
  - intros b Hb. by apply Hinv.
  - intros D b HD Hb. rewrite HD in HDSI. exact (proj2 (Hinv b Hb) D HDSI).
  - intros Hlen. etrans; [exact HDSI|].
    by destruct (deallocUses Asi) as [|? [|? ?]]; simpl in *; try lia.
Qed.

(** ** Live-in and live-out values *)

Lemma getLiveOutValue_from_unfold F LSB Phi N :
  getLiveOutValue_from F LSB Phi N =
  match recordedStoreSrc F LSB (getBlock N) with
  | Some src => Some src
  | None =>
      if bool_decide (getBlock N ∈ Phi) then getLastArgument F (getBlock N)
      else match getIDom N with
           | Some D => getLiveOutValue_from F LSB Phi D
           | None => Some SILUndef
           end
  end.
Proof. by destruct N. Qed.

(** C2 (amended).  Live-in of a block [B] is the last (newly added)
    argument of [B] if [B] is a phi block; else the undefined placeholder
    if [B] has no predecessors or no node in the dominator tree; else
    live-out of the block of its immediate dominator.  Live-out of a
    block [B] that has a node in the dominator tree is the source of the
    store recorded for [B] if there is one; else [B]'s last argument if
    [B] is a phi block; else live-out of the block of its immediate
    dominator, and the undefined placeholder at the root.  Live-out of a
    block outside the dominator tree is the undefined placeholder,
    whatever store or phi the block has. *)
Theorem C2_live_in_live_out
    (F : SILFunction) (P : StackAllocationPromoter)
    (LSB : gmap nat (option nat)) (Phi : list nat) (B : nat) :
  nodesNamedByBlock (DT P) →
  idomCoherent (DT P) →
  (B ∈ Phi → getLiveInValue F P LSB Phi B = getLastArgument F B) ∧
  (B ∉ Phi → pred_empty F B = true ∨ getNode (DT P) B = None →
   getLiveInValue F P LSB Phi B = Some SILUndef) ∧
  (∀ N D, B ∉ Phi → pred_empty F B = false → getNode (DT P) B = Some N →
          getIDom N = Some D →
          getLiveInValue F P LSB Phi B = getLiveOutValue F P LSB Phi (getBlock D)) ∧
  (∀ N, getNode (DT P) B = Some N →
        getLiveOutValue F P LSB Phi B =
        match recordedStoreSrc F LSB B with
        | Some src => Some src
        | None =>
            if bool_decide (B ∈ Phi) then getLastArgument F B
            else match getIDom N with
                 | Some D => getLiveOutValue F P LSB Phi (getBlock D)
                 | None => Some SILUndef
                 end
        end) ∧
  (getNode (DT P) B = None → getLiveOutValue F P LSB Phi B = Some SILUndef).
Proof.
  intros Hnodes Hidom. unfold getLiveInValue, getLiveOutValue.
  split; [|split; [|split; [|split]]].
  - intros HB. by rewrite bool_decide_eq_true_2.
  - intros HB Hor. rewrite bool_decide_eq_false_2 by done.
    destruct (getNode (DT P) B) as [N|]; [|done].
    by destruct Hor as [->|?].
  - intros N D HB Hpred HN HD. rewrite bool_decide_eq_false_2 by done.
    by rewrite HN, Hpred, HD.
  - intros N HN. rewrite HN, getLiveOutValue_from_unfold.
    rewrite (Hnodes _ _ HN).
    destruct (getIDom N) as [D|] eqn:HD; [|done].
    by rewrite (Hidom _ _ _ HN HD).
  - by intros ->.
Qed.

(** ** The scan of a block *)

Lemma findInst_id F id p Inst : findInst F id = Some (p, Inst) → instID Inst = id.
Proof.
  unfold findInst. intros H. apply find_some in H as [_ H]. simpl in H.
  by apply Nat.eqb_eq in H.
Qed.

Lemma isProjectionOf_self fuel F a : isProjectionOf fuel F a a = true.
Proof. destruct fuel; simpl; by rewrite decide_True. Qed.

Lemma forEachInst_cons {S : Type} (body : S → nat → option (S * bool)) st id rest :
  forEachInst body st (id :: rest) =
  match body st id with
  | Some (st', stop) => if stop : bool then Some st' else forEachInst body st' rest
  | None => None
  end.
Proof. simpl. by destruct (body st id) as [[? []]|]. Qed.

Lemma forEachInst_break {S : Type} (body : S → nat → option (S * bool)) st id rest st' :
  body st id = Some (st', true) → forEachInst body st (id :: rest) = Some st'.
Proof. intros H. simpl. by rewrite H. Qed.

Lemma findInst_erase F id : findInst (eraseFromParent F id) id = None.
Proof.
  unfold findInst.
  destruct (find _ _) as [[b Inst]|] eqn:E; [exfalso|done].
  apply find_some in E as [Hin E]; simpl in E. apply Nat.eqb_eq in E.
  unfold allInsts, eraseFromParent, mapBlocks in Hin; simpl in Hin.
  apply in_flat_map in Hin as (B & HB & Hin).
  apply in_map_iff in HB as (B0 & <- & _). simpl in Hin.
  apply in_map_iff in Hin as (I0 & [= _ ->] & Hin).
  apply filter_In in Hin as [_ Hin]. apply negb_true_iff, Nat.eqb_neq in Hin. done.
Qed.

(** C3 (amended).  In the scan of [promoteAllocationInBlock], a
    [destroy_value] whose operand is the current running value resets
    [LastStore], the store the scan would return for the block; the
    running value itself is kept as it is, and so is the function.  A
    [destroy_value] of any other operand changes nothing. *)
Theorem C3_destroy_value_resets_last_store
    hasOwnership getOwnershipKind (alloc : AllocStack) (st : BlockScan)
    (id p : nat) (Inst : SILInstruction) (op : SILValue) :
  findInst (scanF st) id = Some (p, Inst) →
  kind Inst = DestroyValueInst op →
  promoteAllocationInBlock_body hasOwnership getOwnershipKind alloc st id =
    if bool_decide (Some op = RunningVal st)
    then Some (mkScan (scanF st) (RunningVal st) None, false)
    else Some (st, false).
Proof.
  intros Hfind Hk. unfold promoteAllocationInBlock_body.
  rewrite Hfind. unfold isLoadFromStack. by rewrite Hk.
Qed.

(** C7 (amended).  When the scan of [removeSingleBlockAllocation] meets
    the deallocation of the allocation, it erases it and stops: the
    instructions after it are not visited.  When the scan of
    [promoteAllocationInBlock] meets it, it stops as well, but leaves the
    deallocation in the block and the function as it is. *)
Theorem C7_scans_stop_at_dealloc
    hasOwnership getOwnershipKind (alloc : AllocStack) (F : SILFunction)
    (id p : nat) (Inst : SILInstruction) (rest : list nat) :
  findInst F id = Some (p, Inst) →
  kind Inst = DeallocStackInst (allocValue alloc) →
  (∀ RV,
     forEachInst (removeSingleBlockAllocation_body hasOwnership getOwnershipKind alloc)
                 (F, RV) (id :: rest) = Some (eraseFromParent F id, RV) ∧
     findInst (eraseFromParent F id) id = None) ∧
  (∀ RV LS,
     forEachInst (promoteAllocationInBlock_body hasOwnership getOwnershipKind alloc)
                 (mkScan F RV LS) (id :: rest) = Some (mkScan F RV LS)).
Proof.
  intros Hfind Hk. split.
  - intros RV. split; [|apply findInst_erase].
    apply forEachInst_break. unfold removeSingleBlockAllocation_body.
    rewrite Hfind. unfold isLoadFromStack. rewrite Hk.
    by rewrite bool_decide_eq_true_2.
  - intros RV LS. apply forEachInst_break. unfold promoteAllocationInBlock_body.
    simpl. rewrite Hfind. unfold isLoadFromStack. rewrite Hk.
    by rewrite bool_decide_eq_true_2.
Qed.

(** ** Loads that copy *)

Lemma replaceLoad_direct hasOwnership getOwnershipKind F LI qual val a :
  kind LI = LoadInst a qual →
  replaceLoad hasOwnership getOwnershipKind F LI val a =
    if bool_decide (qual = LoadCopy)
    then Some (eraseFromParent
                 (replaceAllUsesWith (createBefore F (instID LI) (CopyValueInst val)).1
                                     (asValue LI) (ValueOf (nextID F)))
                 (instID LI))
    else
      _ ← assert (negb hasOwnership
                  || bool_decide (getOwnershipKind F val ≠ OwnershipGuaranteed));
      Some (eraseFromParent (replaceAllUsesWith F (asValue LI) val) (instID LI)).
Proof.
  intros Hk. unfold replaceLoad. rewrite Hk.
  assert (Hc : ∀ n, collectProjections n F a a = Some []).
  { intros []; simpl; by rewrite decide_True. }
  assert (He : ∀ n G, eraseDeadProjections n G a a = Some G).
  { intros [] G; simpl; by rewrite bool_decide_eq_false_2 by (intros H; by apply H). }
  rewrite Hc. simpl.
  destruct (bool_decide (qual = LoadCopy)); simpl; [by rewrite He|].
  destruct (assert _) as [[]|]; simpl; [by rewrite He|done].
Qed.

(** C10.  In the scan of [promoteAllocationInBlock], a load directly from
    the allocation met while the running value is unknown becomes the
    running value exactly when its qualifier is not [copy]; a
    [load [copy]] leaves the scan state, and with it the function,
    unchanged.  When the use-fixing phase later replaces such a
    [load [copy]] by the live-in value of its block, the users of the load
    receive a new [copy_value] of that value, not the value itself. *)
Theorem C10_load_copy_not_adopted
    hasOwnership getOwnershipKind (alloc : AllocStack) (F : SILFunction)
    (id p : nat) (Inst : SILInstruction) (qual : LoadOwnershipQualifier) :
  findInst F id = Some (p, Inst) →
  kind Inst = LoadInst (allocValue alloc) qual →
  (∀ LS,
     promoteAllocationInBlock_body hasOwnership getOwnershipKind alloc
       (mkScan F None LS) id =
     if bool_decide (qual ≠ LoadCopy)
     then Some (mkScan F (Some (asValue Inst)) LS, false)
     else Some (mkScan F None LS, false)) ∧
  (qual = LoadCopy →
   ∀ P LSB Phi, ASI P = alloc →
     fixUse hasOwnership getOwnershipKind P LSB Phi F id =
       Def ← getLiveInValue F P LSB Phi p;
       Some (eraseFromParent
               (replaceAllUsesWith (createBefore F id (CopyValueInst Def)).1
                                   (ValueOf id) (ValueOf (nextID F)))
               id)).
Proof.
  intros Hfind Hk. pose proof (findInst_id _ _ _ _ Hfind) as Hid. split.
  - intros LS. unfold promoteAllocationInBlock_body. simpl. rewrite Hfind.
    unfold isLoadFromStack. rewrite Hk, isProjectionOf_self.
    rewrite bool_decide_eq_true_2 by done. simpl.
    by destruct (bool_decide (qual ≠ LoadCopy)).
  - intros -> P LSB Phi HP. unfold fixUse. rewrite Hfind. simpl. rewrite Hk. simpl.
    unfold getParent. rewrite Hid, Hfind. simpl.
    destruct (getLiveInValue F P LSB Phi p) as [Def|]; simpl; [|done].
    rewrite HP.
    rewrite (replaceLoad_direct _ _ _ _ LoadCopy _ _ Hk).
    rewrite bool_decide_eq_true_2 by done. simpl.
    unfold asValue. by rewrite Hid.
Qed.

(** ** The allocation instruction survives the rewriting *)

Lemma findInst_blocks Bs n id :
  findInst (mkFunction Bs n) id =
  match Bs with
  | [] => None
  | B :: r =>
      match findIn id (insts B) with
      | Some Inst => Some (blockID B, Inst)
      | None => findInst (mkFunction r n) id
      end
  end.
Proof.
  destruct Bs as [|B r]; [done|]. unfold findInst, allInsts; simpl.
  generalize (flat_map (λ B0, map (λ Inst, (blockID B0, Inst)) (insts B0)) r) as tl.
  intros tl. induction (insts B) as [|Inst l IH]; simpl; [done|].
  unfold findIn; simpl. destruct (instID Inst =? id); [done|]. exact IH.
Qed.

(** A rewriting of the instruction lists, block by block, that does not
    disturb the search for [id]. *)
Lemma findInst_mapLists (h : list SILInstruction → list SILInstruction)
    (g : SILInstruction → SILInstruction) F n' id :
  (∀ l, findIn id (h l) = g <$> findIn id l) →
  findInst (mkFunction (map (λ B, mkBlock (blockID B) (arguments B) (h (insts B)))
                            (blocks F)) n') id
  = (λ p, (p.1, g p.2)) <$> findInst F id.
Proof.
  intros Hh. destruct F as [Bs n]; simpl.
  induction Bs as [|B r IH]; [done|].
  rewrite (findInst_blocks (B :: r)). simpl map. rewrite findInst_blocks; simpl.
  rewrite Hh. destruct (findIn id (insts B)); simpl; [done|]. exact IH.
Qed.

Lemma findIn_filter_ne x id l :
  x ≠ id →
  findIn id (List.filter (λ Inst, negb (instID Inst =? x)) l) = findIn id l.
Proof.
  intros Hne. induction l as [|Inst l IH]; [done|]. unfold findIn in *; simpl.
  destruct (instID Inst =? x) eqn:Ex; simpl.
  - apply Nat.eqb_eq in Ex. rewrite (proj2 (Nat.eqb_neq _ _)) by congruence. exact IH.
  - destruct (instID Inst =? id); [done|exact IH].
Qed.

Lemma findIn_insertBefore_ne pos new id l :
  instID new ≠ id → findIn id (insertBeforeIn pos new l) = findIn id l.
Proof.
  intros Hne. induction l as [|Inst l IH]; [done|]. unfold findIn in *; simpl.
  destruct (instID Inst =? pos); simpl.
  - by rewrite (proj2 (Nat.eqb_neq _ _) Hne).
  - destruct (instID Inst =? id); [done|exact IH].
Qed.

Lemma findIn_map g id l :
  (∀ Inst, instID (g Inst) = instID Inst) →
  findIn id (map g l) = g <$> findIn id l.
Proof.
  intros Hg. induction l as [|Inst l IH]; [done|]. unfold findIn in *; simpl.
  rewrite Hg. destruct (instID Inst =? id); [done|exact IH].
Qed.

Lemma findInst_erase_ne F x id :
  x ≠ id → findInst (eraseFromParent F x) id = findInst F id.
Proof.
  intros Hne. unfold eraseFromParent, mapBlocks.
  rewrite (findInst_mapLists _ (λ i, i) F (nextID F) id);
    [|intros l; rewrite findIn_filter_ne by done; by destruct (findIn id l)].
  by destruct (findInst F id) as [[]|].
Qed.

Lemma findInst_createBefore_ne F pos k id :
  id ≠ nextID F → findInst (createBefore F pos k).1 id = findInst F id.
Proof.
  intros Hne. unfold createBefore; simpl.
  rewrite (findInst_mapLists _ (λ i, i) F (S (nextID F)) id);
    [|intros l; rewrite findIn_insertBefore_ne by (simpl; congruence);
      by destruct (findIn id l)].
  by destruct (findInst F id) as [[]|].
Qed.

Lemma findInst_replaceAllUsesWith F old new id :
  findInst (replaceAllUsesWith F old new) id =
  (λ p, (p.1, mkInst (instID p.2) (mapOperands (substValue old new) (kind p.2))))
    <$> findInst F id.
Proof.
  unfold replaceAllUsesWith, mapInsts, mapBlocks.
  apply (findInst_mapLists
           (map (λ Inst, mkInst (instID Inst)
                           (mapOperands (substValue old new) (kind Inst))))
           (λ Inst, mkInst (instID Inst) (mapOperands (substValue old new) (kind Inst)))
           F (nextID F) id).
  intros l. by apply findIn_map.
Qed.

Section AllocPresent.
Variables (hasOwnership : bool) (getOwnershipKind : SILFunction → SILValue → OwnershipKind).
Variables (a p : nat) (ty : SILType).
#[local] Abbreviation present := (allocPresent a p ty).

Lemma present_erase F x : present F → x ≠ a → present (eraseFromParent F x).
Proof. intros [H1 H2] Hx. split; [by rewrite findInst_erase_ne|done]. Qed.

Lemma present_createBefore F pos k : present F → present (createBefore F pos k).1.
Proof.
  intros [H1 H2]. split; [rewrite findInst_createBefore_ne by lia; done|simpl; lia].
Qed.

Lemma present_replaceAllUsesWith F old new :
  present F → present (replaceAllUsesWith F old new).
Proof. intros [H1 H2]. split; [by rewrite findInst_replaceAllUsesWith, H1|done]. Qed.

(** An instruction found under its number that is not an [alloc_stack]
    is not the allocation. *)
Lemma present_other F id q Inst :
  present F → findInst F id = Some (q, Inst) →
  (∀ ty', kind Inst ≠ AllocStackInst ty') → id ≠ a.
Proof. intros [H1 _] Hf Hk ->. rewrite H1 in Hf. injection Hf as _ <-. by eapply Hk. Qed.

Lemma present_defining F v D :
  present F → definingInst F v = Some D →
  (∀ ty', kind D ≠ AllocStackInst ty') → instID D ≠ a.
Proof.
  intros HF HD Hk. destruct v as [|id]; simpl in HD; [done|].
  destruct (findInst F id) as [[q Inst]|] eqn:E; simpl in HD; [|done].
  injection HD as ->. rewrite (findInst_id _ _ _ _ E). by eapply present_other.
Qed.

Lemma present_emitBeginBorrow F pos v :
  present F → present (emitBeginBorrowOperation hasOwnership getOwnershipKind F pos v).1.
Proof.
  intros HF. unfold emitBeginBorrowOperation.
  destruct (_ || _); [done|by apply present_createBefore].
Qed.

Lemma present_createObjectProjection F pos proj v :
  present F → present (createObjectProjection F pos proj v).1.
Proof. intros HF. destruct proj; simpl; by apply present_createBefore. Qed.

Lemma present_projectValue pos projections :
  ∀ F val borrowed, present F →
    present (projectValue hasOwnership getOwnershipKind F pos projections val borrowed).1.1.
Proof.
  induction projections as [|proj r IH]; intros F val borrowed HF; simpl; [done|].
  destruct (isFieldProjection (kind proj)).
  - pose proof (present_emitBeginBorrow F pos val HF) as HB.
    destruct (emitBeginBorrowOperation _ _ F pos val) as [F1 opVal]; simpl in HB.
    destruct (bool_decide (opVal ≠ val)).
    + pose proof (present_createObjectProjection F1 pos (kind proj) opVal HB) as HC.
      destruct (createObjectProjection F1 pos (kind proj) opVal) as [F2 v2].
      by apply IH.
    + pose proof (present_createObjectProjection F1 pos (kind proj) val HB) as HC.
      destruct (createObjectProjection F1 pos (kind proj) val) as [F2 v2].
      by apply IH.
  - pose proof (present_createObjectProjection F pos (kind proj) val HF) as HC.
    destruct (createObjectProjection F pos (kind proj) val) as [F2 v2].
    by apply IH.
Qed.

Lemma isAddrProjection_not_alloc k ty' :
  isAddrProjection k = true → k ≠ AllocStackInst ty'.
Proof. by intros H ->. Qed.

Lemma present_eraseDeadProjections fuel :
  ∀ F op F', present F →
    eraseDeadProjections fuel F (ValueOf a) op = Some F' → present F'.
Proof.
  induction fuel as [|n IH]; intros F op F' HF; simpl;
    destruct (_ && _); try done; try (by intros [= <-]).
  destruct (definingInst F op) as [D|] eqn:HD; simpl; [|done].
  destruct (isAddrProjection (kind D)) eqn:Hp; simpl; [|done].
  destruct (getOperand0 (kind D)) as [next|]; simpl; [|done].
  apply IH. apply present_erase; [done|].
  eapply present_defining; [done..|]. intros ty'. by apply isAddrProjection_not_alloc.
Qed.

Lemma present_fold_endBorrow pos borrowed :
  ∀ F, present F →
    present (fold_left (λ F b, (createBefore F pos (EndBorrowInst b)).1) borrowed F).
Proof.
  induction borrowed as [|b r IH]; intros F HF; simpl; [done|].
  apply IH. by apply present_createBefore.
Qed.

Lemma present_replaceLoad F LI val F' :
  present F → instID LI ≠ a →
  replaceLoad hasOwnership getOwnershipKind F LI val (ValueOf a) = Some F' →
  present F'.
Proof.
  intros HF HLI. unfold replaceLoad.
  destruct (kind LI) as [|op qual| | | | | | | | | | | | | | | | | |]; try done.
  destruct (collectProjections _ F (ValueOf a) op) as [projections|]; simpl; [|done].
  pose proof (present_projectValue (instID LI) (rev projections) F val [] HF) as HP.
  destruct (projectValue _ _ F (instID LI) (rev projections) val [])
    as [[F1 val1] borrowed]; simpl in HP.
  destruct (if bool_decide (qual = LoadCopy) then _ else _) as [F2|] eqn:E2;
    simpl; [|done].
  assert (H2 : present F2).
  { destruct (bool_decide (qual = LoadCopy)).
    - simpl in E2. injection E2 as <-. apply present_replaceAllUsesWith.
      exact (present_createBefore F1 (instID LI) (CopyValueInst val1) HP).
    - destruct (assert _); simpl in E2; [|done]. injection E2 as <-.
      by apply present_replaceAllUsesWith. }
  apply present_eraseDeadProjections.
  apply present_erase; [|done]. by apply present_fold_endBorrow.
Qed.

Lemma present_replaceDestroy F DAI Ty NewValue F' :
  present F → instID DAI ≠ a →
  replaceDestroy F DAI Ty NewValue = Some F' → present F'.
Proof.
  intros HF HD. unfold replaceDestroy.
  destruct (assert (isLoadable Ty)); simpl; [|done].
  destruct (assert (_ || _)); simpl; [|done]. intros [= <-].
  apply present_erase; [|done]. destruct NewValue; [|done].
  by apply present_createBefore.
Qed.

Lemma present_promoteDebugValueAddr F DVAI Ty Value F' :
  present F → instID DVAI ≠ a →
  promoteDebugValueAddr F DVAI Ty Value = Some F' → present F'.
Proof.
  intros HF HD. unfold promoteDebugValueAddr.
  destruct (assert (isLoadable Ty)); simpl; [|done].
  destruct (kind DVAI); try done.
  destruct (existsb _ _); intros [= <-]; apply present_erase; try done.
  by apply present_createBefore.
Qed.

End AllocPresent.

Section AllocPresentScan.
Variables (hasOwnership : bool) (getOwnershipKind : SILFunction → SILValue → OwnershipKind).
Variables (a p : nat) (ty : SILType).
#[local] Abbreviation present' := (allocPresent a p ty).

Lemma present_createValueForEmptyTuple Ty pos :
  ∀ F F' v, present' F → createValueForEmptyTuple F Ty pos = Some (F', v) → present' F'.
Proof.
  induction Ty as [elts IH|l] using SILType_nested_ind; intros F F' v HF; simpl; [|done].
  destruct ((fix each (F : SILFunction) (l : list SILType) {struct l} := _) F elts)
    as [[F1 elements]|] eqn:E; simpl; [|done].
  intros [= <- _]. apply (present_createBefore a p ty).
  clear v. revert F F1 elements HF E.
  induction IH as [|t r Ht _ IHr]; intros F F1 elements HF; simpl; [by intros [= <- _]|].
  destruct (createValueForEmptyTuple F t pos) as [[F2 v]|] eqn:E2; simpl; [|done].
  destruct ((fix each (F : SILFunction) (l : list SILType) {struct l} := _) F2 r)
    as [[F3 vs]|] eqn:E3; simpl; [|done].
  intros [= <- _]. eapply IHr; [|exact E3]. by eapply Ht.
Qed.

Lemma present_eraseDeadAddrInsts fuel :
  ∀ F addrInst,
    present' F →
    match addrInst with
    | Some Inst => ∃ q, findInst F (instID Inst) = Some (q, Inst)
    | None => True
    end →
    present' (eraseDeadAddrInsts fuel F addrInst).
Proof.
  induction fuel as [|n IH]; intros F [Inst|] HF Hfound; simpl; try done.
  destruct (use_empty F (asValue Inst) && isAddrProjection (kind Inst)) eqn:E; [|done].
  apply andb_true_iff in E as [_ Hproj]. destruct Hfound as [q Hq].
  assert (HF' : present' (eraseFromParent F (instID Inst))).
  { apply present_erase; [done|]. eapply (present_other a p ty); [exact HF|exact Hq|].
    intros ty'. by apply isAddrProjection_not_alloc. }
  apply IH; [done|].
  destruct (getOperand0 (kind Inst)) as [[|id]|]; simpl; try done.
  destruct (findInst (eraseFromParent F (instID Inst)) id) as [[q' D]|] eqn:ED;
    simpl; [|done].
  exists q'. by rewrite (findInst_id _ _ _ _ ED).
Qed.

Lemma present_removeSingleBlockAllocation_body alloc st id st' stop :
  allocID alloc = a →
  present' st.1 →
  removeSingleBlockAllocation_body hasOwnership getOwnershipKind alloc st id
    = Some (st', stop) →
  present' st'.1.
Proof.
  intros Ha HF. unfold removeSingleBlockAllocation_body.
  destruct st as [F RV]; simpl in HF.
  destruct (findInst F id) as [[q Inst]|] eqn:Hfind; [|by intros [= <- _]].
  pose proof (findInst_id _ _ _ _ Hfind) as Hid.
  assert (Hfall : present' (eraseDeadAddrInsts (instCount F) F (Some Inst))).
  { apply present_eraseDeadAddrInsts; [done|]. exists q. by rewrite Hid. }
  unfold allocValue. rewrite Ha.
  destruct (isLoadFromStack F Inst (ValueOf a)) eqn:Hload.
  - assert (Hne : instID Inst ≠ a).
    { rewrite Hid. eapply (present_other a p ty); [exact HF|exact Hfind|].
      intros ty' Hk. unfold isLoadFromStack in Hload. by rewrite Hk in Hload. }
    destruct RV as [rv|]; simpl.
    + destruct (replaceLoad _ _ F Inst rv (ValueOf a)) as [F1|] eqn:E; simpl; [|done].
      intros [= <- _]. simpl.
      exact (present_replaceLoad hasOwnership getOwnershipKind a p ty F Inst rv F1 HF Hne E).
    + destruct (createValueForEmptyTuple F (allocElementType alloc) id)
        as [[F1 rv]|] eqn:E1; simpl; [|done].
      destruct (replaceLoad _ _ F1 Inst rv (ValueOf a)) as [F2|] eqn:E; simpl; [|done].
      intros [= <- _]. simpl.
      apply (present_replaceLoad hasOwnership getOwnershipKind a p ty F1 Inst rv F2);
        [|done|exact E].
      exact (present_createValueForEmptyTuple _ _ F F1 rv HF E1).
  - assert (Hne : (∀ ty', kind Inst ≠ AllocStackInst ty') → id ≠ a).
    { intros Hnot. by eapply (present_other a p ty); [exact HF|exact Hfind|]. }
    destruct (kind Inst) eqn:Hk; try (by intros [= <- _]).
    + case_bool_decide; [|by intros [= <- _]].
      destruct (if bool_decide (qual = StoreAssign) then _ else _) as [F1|] eqn:E1;
        simpl; [|done].
      intros [= <- _]. simpl. apply present_erase; [|by apply Hne].
      destruct (bool_decide (qual = StoreAssign)); [|by injection E1 as <-].
      destruct RV as [rv|]; simpl in E1; [|done]. injection E1 as <-.
      by apply present_createBefore.
    + case_bool_decide; [|by intros [= <- _]].
      intros [= <- _]. simpl. apply present_erase; [done|]. by apply Hne.
    + case_bool_decide; [|by intros [= <- _]].
      destruct RV as [rv|].
      * destruct (promoteDebugValueAddr F Inst _ rv) as [F1|] eqn:E1; simpl; [|done].
        intros [= <- _]. simpl.
        apply (present_promoteDebugValueAddr a p ty F Inst (allocElementType alloc) rv F1);
          [done| |exact E1].
        rewrite Hid. by apply Hne.
      * destruct (assert _); simpl; [|done]. intros [= <- _]. simpl.
        apply present_erase; [done|]. by apply Hne.
    + case_bool_decide; [|by intros [= <- _]].
      destruct (replaceDestroy F Inst _ RV) as [F1|] eqn:E1; simpl; [|done].
      intros [= <- _]. simpl.
      apply (present_replaceDestroy a p ty F Inst (allocElementType alloc) RV F1);
        [done| |exact E1].
      rewrite Hid. by apply Hne.
Qed.

Lemma present_removeSingleBlockAllocation F alloc F' :
  allocID alloc = a → present' F →
  removeSingleBlockAllocation hasOwnership getOwnershipKind F alloc = Some F' →
  present' F'.
Proof.
  intros Ha HF. unfold removeSingleBlockAllocation.
  generalize (blockInstIDs F (allocParent alloc)) as ids.
  generalize (@None SILValue) as RV. intros RV ids.
  destruct (forEachInst _ (F, RV) ids) as [st|] eqn:E; simpl; [|done].
  intros [= <-]. revert F RV HF E.
  induction ids as [|id r IH]; intros F RV HF; [by intros [= <-]|].
  rewrite forEachInst_cons.
  destruct (removeSingleBlockAllocation_body hasOwnership getOwnershipKind alloc
              (F, RV) id) as [[[F1 RV1] stop]|] eqn:E1; [|done].
  pose proof (present_removeSingleBlockAllocation_body alloc (F, RV) id (F1, RV1) stop
                Ha HF E1) as H1.
  destruct stop; [by intros [= <-]|]. by apply IH.
Qed.

End AllocPresentScan.

(** ** Leftover uses of a single-block allocation *)

Lemma getAllocStack_present F id alloc :
  getAllocStack F id = Some alloc → id < nextID F →
  allocID alloc = id ∧
  allocPresent id (allocParent alloc) (allocElementType alloc) F.
Proof.
  unfold getAllocStack. intros H Hlt.
  destruct (findInst F id) as [[q Inst]|] eqn:E; simpl in H; [|done].
  pose proof (findInst_id _ _ _ _ E) as Hid.
  destruct Inst as [i k]; simpl in *; subst i.
  destruct k; try done. injection H as <-. simpl. by split.
Qed.

Lemma nextIn_insertAfter id new l Inst :
  findIn id l = Some Inst → nextIn id (insertAfterIn id new l) = Some new.
Proof.
  unfold findIn. induction l as [|Inst0 l IH]; simpl; [done|].
  destruct (instID Inst0 =? id) eqn:E; simpl; rewrite E; [done|exact IH].
Qed.

Lemma existsb_insertAfter id new l :
  instID new ≠ id →
  existsb (λ Inst, instID Inst =? id) (insertAfterIn id new l) =
  match findIn id l with Some _ => true | None => false end.
Proof.
  intros Hne. unfold findIn. induction l as [|Inst0 l IH]; simpl; [done|].
  destruct (instID Inst0 =? id) eqn:E; simpl; rewrite E; [done|exact IH].
Qed.

Lemma nextInst_createAfter F a p ty k :
  allocPresent a p ty F →
  nextInst (createAfter F a k).1 a = Some (mkInst (nextID F) k).
Proof.
  intros [Hfind Hlt]. unfold nextInst, createAfter; simpl.
  destruct F as [Bs n]; simpl in *.
  induction Bs as [|B r IH]; [done|].
  rewrite findInst_blocks in Hfind. simpl.
  rewrite existsb_insertAfter by (simpl; lia).
  destruct (findIn a (insts B)) as [Inst|] eqn:E.
  - by eapply nextIn_insertAfter.
  - by apply IH.
Qed.

(** C9.  For an allocation that is not captured, not write-only and
    confined to its block, whose single-block elimination ran to its end
    and left uses of the allocation behind, [promoteSingleAllocation]
    gives a result, returns true, and the function it leaves is the one
    after the elimination with a new [dealloc_stack] of the allocation
    inserted directly after the [alloc_stack]. *)
Theorem C9_leftover_uses_get_dealloc
    hasOwnership getOwnershipKind (F F1 : SILFunction) (Dt : DominanceInfo)
    (Levels : gmap nat nat) (alloc : AllocStack) :
  getAllocStack F (allocID alloc) = Some alloc →
  allocID alloc < nextID F →
  isCaptured alloc false = (false, true) →
  isWriteOnlyAllocation (isAllocStackValue F) (allocUses alloc) = false →
  removeSingleBlockAllocation hasOwnership getOwnershipKind F alloc = Some F1 →
  use_empty F1 (allocValue alloc) = false →
  ∃ F2,
    promoteSingleAllocation hasOwnership getOwnershipKind F Dt alloc Levels
      = Some (F2, true) ∧
    F2 = (createAfter F1 (allocID alloc) (DeallocStackInst (allocValue alloc))).1 ∧
    nextInst F2 (allocID alloc)
      = Some (mkInst (nextID F1) (DeallocStackInst (allocValue alloc))).
Proof.
  intros Hget Hlt Hcap Hwo Hrem Hleft.
  eexists. split; [|split; [reflexivity|]].
  - unfold promoteSingleAllocation. rewrite Hcap, Hwo, Hrem. simpl. by rewrite Hleft.
  - destruct (getAllocStack_present _ _ _ Hget Hlt) as [_ Hp].
    eapply nextInst_createAfter.
    by eapply (present_removeSingleBlockAllocation hasOwnership getOwnershipKind);
      [reflexivity|exact Hp|exact Hrem].
Qed.

(** ** A second run of the pass *)

Lemma foldM_cons {A S : Type} (body : S → A → option S) st x rest :
  foldM body st (x :: rest) =
  match body st x with Some st' => foldM body st' rest | None => None end.
Proof. done. Qed.





Lemma getAllocStack_in F id alloc :
  getAllocStack F id = Some alloc → id ∈ map (λ p, instID p.2) (allInsts F).
Proof.
  unfold getAllocStack. destruct (findInst F id) as [[q Inst]|] eqn:E; simpl; [|done].
  intros _. pose proof (findInst_id _ _ _ _ E) as <-.
  unfold findInst in E. apply find_some in E as [Hin _].
  apply list_elem_of_In, in_map_iff. by exists (q, Inst).
Qed.


(** ** What a scan leaves in a block *)

(** *** Instructions of a rewritten function *)

Lemma elem_of_allInsts F q Inst :
  (q, Inst) ∈ allInsts F ↔ ∃ B, B ∈ blocks F ∧ blockID B = q ∧ Inst ∈ insts B.
Proof.
  unfold allInsts. rewrite list_elem_of_In, in_flat_map. split.
  - intros (B & HB & Hin). apply in_map_iff in Hin as (I0 & [= <- <-] & Hin).
    exists B. by rewrite !list_elem_of_In.
  - intros (B & HB & <- & Hin). exists B. rewrite <- list_elem_of_In. split; [done|].
    apply in_map_iff. exists Inst. by rewrite <- list_elem_of_In.
Qed.

Lemma elem_of_allInsts_mapLists h n' F q Inst :
  (q, Inst) ∈ allInsts (mapLists h n' F) ↔
  ∃ B, B ∈ blocks F ∧ blockID B = q ∧ Inst ∈ h (insts B).
Proof.
  rewrite elem_of_allInsts. unfold mapLists; simpl. split.
  - intros (B' & HB' & <- & Hin). apply list_elem_of_In, in_map_iff in HB'
      as (B & <- & HB). exists B. by rewrite list_elem_of_In.
  - intros (B & HB & <- & Hin).
    exists (mkBlock (blockID B) (arguments B) (h (insts B))). split; [|done].
    apply list_elem_of_In, in_map_iff. exists B. by rewrite <- list_elem_of_In.
Qed.

Lemma instIDs_mapLists h n' F :
  instIDs (mapLists h n' F) = flat_map (λ B, map instID (h (insts B))) (blocks F).
Proof.
  unfold instIDs, allInsts, mapLists; simpl.
  induction (blocks F) as [|B r IH]; [done|]. simpl.
  rewrite map_app, IH, map_map. done.
Qed.

Lemma instIDs_blocks F :
  instIDs F = flat_map (λ B, map instID (insts B)) (blocks F).
Proof.
  unfold instIDs, allInsts.
  induction (blocks F) as [|B r IH]; [done|]. simpl.
  rewrite map_app, IH, map_map. done.
Qed.

Lemma eraseFromParent_mapLists F x :
  eraseFromParent F x =
  mapLists (List.filter (λ Inst, negb (instID Inst =? x))) (nextID F) F.
Proof. done. Qed.

Lemma createBefore_mapLists F pos k :
  (createBefore F pos k).1 =
  mapLists (insertBeforeIn pos (mkInst (nextID F) k)) (S (nextID F)) F.
Proof. done. Qed.

Lemma mapInsts_mapLists f F : mapInsts f F = mapLists (map f) (nextID F) F.
Proof. done. Qed.

(** *** The view of a slot *)

Lemma mapOperands_compose f g k :
  mapOperands g (mapOperands f k) = mapOperands (g ∘ f) k.
Proof.
  destruct k; simpl; try done; f_equal; rewrite map_map; try done.
  apply map_ext. intros [d args]; simpl. by rewrite map_map.
Qed.

Lemma mapOperands_ext f g k :
  (∀ v, f v = g v) → mapOperands f k = mapOperands g k.
Proof.
  intros H. destruct k; simpl; rewrite ?H; try done; f_equal;
    try (apply map_ext; intros; by rewrite ?H).
  apply map_ext. intros [d args]; simpl. f_equal. by apply map_ext.
Qed.

Lemma slotOperand_slot a v : slotOperand a v = ValueOf a ↔ v = ValueOf a.
Proof. unfold slotOperand. by case_decide. Qed.

Lemma slotOperand_subst a old new v :
  old ≠ ValueOf a → new ≠ ValueOf a →
  slotOperand a (substValue old new v) = slotOperand a v.
Proof.
  intros Ho Hn. unfold slotOperand, substValue.
  repeat case_decide; by simplify_eq.
Qed.

Lemma slotView_subst a old new k :
  old ≠ ValueOf a → new ≠ ValueOf a →
  slotView a (mapOperands (substValue old new) k) = slotView a k.
Proof.
  intros Ho Hn. unfold slotView. rewrite mapOperands_compose.
  by rewrite (mapOperands_ext _ (slotOperand a))
    by (intros v; by apply slotOperand_subst).
Qed.

Lemma isSlotStore_view a k : isSlotStore a (slotView a k) = isSlotStore a k.
Proof.
  destruct k; simpl; try done.
  apply bool_decide_ext, slotOperand_slot.
Qed.

Lemma storesSlotAddress_view a k :
  storesSlotAddress a (slotView a k) = storesSlotAddress a k.
Proof.
  destruct k; simpl; try done.
  apply bool_decide_ext, slotOperand_slot.
Qed.

Lemma isSlotLoad_view a k : isSlotLoad a (slotView a k) = isSlotLoad a k.
Proof.
  destruct k; simpl; try done.
  f_equal. apply bool_decide_ext, slotOperand_slot.
Qed.

Lemma isSlotDealloc_view a k : isSlotDealloc a (slotView a k) = isSlotDealloc a k.
Proof.
  destruct k; simpl; try done.
  apply bool_decide_ext, slotOperand_slot.
Qed.

Lemma isDestroyValue_view a k : isDestroyValue (slotView a k) = isDestroyValue k.
Proof. by destruct k. Qed.

Lemma inert_view a k : inert (slotView a k) = inert k.
Proof. by destruct k. Qed.

(** Two kinds with one view answer alike. *)
Lemma same_view {A} (P : InstKind → A) a k k' :
  (∀ k, P (slotView a k) = P k) →
  slotView a k = slotView a k' → P k = P k'.
Proof. intros HP Hv. by rewrite <- (HP k), Hv, HP. Qed.

Lemma inert_not a k :
  inert k = true →
  isSlotStore a k = false ∧ isSlotLoad a k = false ∧ isSlotDealloc a k = false ∧
  storesSlotAddress a k = false.
Proof. by destruct k. Qed.

(** *** Numbering stays well-formed *)

Lemma allInsts_intro F B q Inst :
  B ∈ blocks F → blockID B = q → In Inst (insts B) → (q, Inst) ∈ allInsts F.
Proof.
  intros HB Hq Hin. apply elem_of_allInsts. exists B.
  split; [done|]. split; [done|]. by apply list_elem_of_In.
Qed.

Lemma filter_flat_map {A B} (f : B → bool) (g : A → list B) l :
  List.filter f (flat_map g l) = flat_map (λ x, List.filter f (g x)) l.
Proof.
  induction l as [|x l IH]; [done|]. simpl. by rewrite List.filter_app, IH.
Qed.

Lemma map_instID_filter x l :
  map instID (List.filter (λ Inst, negb (instID Inst =? x)) l) =
  List.filter (λ i, negb (i =? x)) (map instID l).
Proof.
  induction l as [|Inst l IH]; [done|]. simpl.
  destruct (negb (instID Inst =? x)); simpl; by rewrite IH.
Qed.

Lemma wfIDs_erase F x : wfIDs F → wfIDs (eraseFromParent F x).
Proof.
  intros [Hnd Hlt]. split.
  - rewrite eraseFromParent_mapLists, instIDs_mapLists.
    rewrite (flat_map_ext _ (λ B, List.filter (λ i, negb (i =? x)) (map instID (insts B))))
      by (intros B; apply map_instID_filter).
    rewrite <- filter_flat_map, <- instIDs_blocks.
    apply NoDup_ListNoDup, List.NoDup_filter. by apply NoDup_ListNoDup.
  - intros [q Inst] Hin. rewrite eraseFromParent_mapLists in Hin.
    apply elem_of_allInsts_mapLists in Hin as (B & HB & Hq & Hin).
    apply list_elem_of_In, filter_In in Hin as [Hin _]. simpl.
    apply (Hlt (q, Inst)). by eapply allInsts_intro.
Qed.

Lemma wfIDs_mapInsts f F :
  (∀ Inst, instID (f Inst) = instID Inst) → wfIDs F → wfIDs (mapInsts f F).
Proof.
  intros Hf [Hnd Hlt]. rewrite mapInsts_mapLists. split.
  - rewrite instIDs_mapLists.
    rewrite (flat_map_ext _ (λ B, map instID (insts B))).
    + by rewrite <- instIDs_blocks.
    + intros B. rewrite map_map. apply map_ext. intros Inst. apply Hf.
  - intros [q Inst'] Hin.
    apply elem_of_allInsts_mapLists in Hin as (B & HB & Hq & Hin).
    apply list_elem_of_In, in_map_iff in Hin as (Inst & <- & Hin). simpl.
    rewrite Hf. apply (Hlt (q, Inst)). by eapply allInsts_intro.
Qed.

(** In a list of numbers, [n] put before the first [pos]. *)
Lemma map_instID_insertBefore pos new l :
  instID new ∉ map instID l → NoDup (map instID l) →
  NoDup (map instID (insertBeforeIn pos new l)) ∧
  (∀ i, i ∈ map instID (insertBeforeIn pos new l) → i = instID new ∨ i ∈ map instID l) ∧
  (pos ∉ map instID l → insertBeforeIn pos new l = l).
Proof.
  induction l as [|Inst l IH]; intros Hnew Hnd; simpl.
  - split; [constructor|]. split; [intros i Hi; by apply elem_of_nil in Hi|done].
  - simpl in Hnew, Hnd. apply not_elem_of_cons in Hnew as [Hne Hnew].
    apply NoDup_cons in Hnd as [Hhd Hnd].
    destruct (instID Inst =? pos) eqn:E; simpl.
    + split; [|split].
      * apply NoDup_cons. split.
        -- intros Hin. apply elem_of_cons in Hin as [?|?]; congruence.
        -- by apply NoDup_cons.
      * intros i Hi. apply elem_of_cons in Hi as [->|Hi]; auto.
      * intros Hpos. apply Nat.eqb_eq in E. exfalso. apply Hpos. rewrite E.
        apply list_elem_of_here.
    + destruct (IH Hnew Hnd) as (IH1 & IH2 & IH3). split; [|split].
      * apply NoDup_cons. split; [|done]. intros Hin.
        apply IH2 in Hin as [?|?]; congruence.
      * intros i Hi. apply elem_of_cons in Hi as [->|Hi].
        -- right. apply list_elem_of_here.
        -- apply IH2 in Hi as [?|?]; auto. right. by apply list_elem_of_further.
      * intros Hpos. apply not_elem_of_cons in Hpos as [_ Hpos]. by rewrite IH3.
Qed.

Lemma NoDup_insertBefore_blocks pos new Bs :
  let ids := flat_map (λ B, map instID (insts B)) Bs in
  let ids' := flat_map (λ B, map instID (insertBeforeIn pos new (insts B))) Bs in
  instID new ∉ ids → NoDup ids →
  NoDup ids' ∧ ∀ i, i ∈ ids' → i = instID new ∨ i ∈ ids.
Proof.
  induction Bs as [|B r IH]; simpl; intros Hnew Hnd.
  - split; [constructor|]. intros i Hi. by apply elem_of_nil in Hi.
  - apply not_elem_of_app in Hnew as [Hnew1 Hnew2].
    apply NoDup_app in Hnd as (Hnd1 & Hdisj & Hnd2).
    destruct (map_instID_insertBefore pos new (insts B) Hnew1 Hnd1) as (H1 & H2 & H3).
    destruct (IH Hnew2 Hnd2) as (IH1 & IH2).
    assert (Hsub : ∀ i, i ∈ map instID (insertBeforeIn pos new (insts B)) ++
                        flat_map (λ B, map instID (insertBeforeIn pos new (insts B))) r →
                        i = instID new ∨
                        i ∈ map instID (insts B) ++
                            flat_map (λ B, map instID (insts B)) r).
    { intros i Hi. rewrite elem_of_app. apply elem_of_app in Hi as [Hi|Hi].
      - apply H2 in Hi as [?|?]; auto.
      - apply IH2 in Hi as [?|?]; auto. }
    split; [|exact Hsub].
    destruct (decide (pos ∈ map instID (insts B))) as [Hpos|Hpos].
    + assert (Hr : flat_map (λ B, map instID (insertBeforeIn pos new (insts B))) r =
                   flat_map (λ B, map instID (insts B)) r).
      { specialize (Hdisj pos Hpos). clear -Hdisj.
        induction r as [|B' r IH]; [done|]. simpl in *.
        apply not_elem_of_app in Hdisj as [Hd1 Hd2].
        rewrite IH by done. f_equal. f_equal. clear -Hd1.
        induction (insts B') as [|Inst l IHl]; [done|]. simpl in *.
        apply not_elem_of_cons in Hd1 as [Hne Hd1].
        destruct (instID Inst =? pos) eqn:E; [apply Nat.eqb_eq in E; congruence|].
        by rewrite IHl. }
      rewrite Hr. apply NoDup_app. split; [done|]. split; [|done].
      intros i Hi. apply H2 in Hi as [->|Hi]; [done|by apply Hdisj].
    + rewrite (H3 Hpos). apply NoDup_app. split; [done|]. split; [|done].
      intros i Hi Hi'. apply IH2 in Hi' as [->|Hi'].
      * by apply Hnew1.
      * by apply (Hdisj i).
Qed.

Lemma wfIDs_createBefore F pos k : wfIDs F → wfIDs (createBefore F pos k).1.
Proof.
  intros [Hnd Hlt]. rewrite createBefore_mapLists.
  assert (Hfresh : nextID F ∉ instIDs F).
  { intros Hin. apply list_elem_of_In, in_map_iff in Hin as (p & Hp & Hin).
    apply list_elem_of_In, Hlt in Hin. lia. }
  rewrite instIDs_blocks in Hnd, Hfresh.
  destruct (NoDup_insertBefore_blocks pos (mkInst (nextID F) k) (blocks F) Hfresh Hnd)
    as [H1 H2].
  split; [by rewrite instIDs_mapLists|].
  intros [q Inst] Hin. simpl.
  assert (Hi : instID Inst ∈ instIDs (mapLists (insertBeforeIn pos (mkInst (nextID F) k))
                                         (S (nextID F)) F)).
  { apply list_elem_of_In, in_map_iff. exists (q, Inst). by rewrite <- list_elem_of_In. }
  rewrite instIDs_mapLists in Hi. apply H2 in Hi as [->|Hi]; [simpl; lia|].
  rewrite <- instIDs_blocks in Hi.
  apply list_elem_of_In, in_map_iff in Hi as (p & <- & Hp).
  apply list_elem_of_In, Hlt in Hp. lia.
Qed.

(** *** Rewriting steps evolve the function *)

Section Evolves.
Variable a : nat.
Variable N : nat → InstKind → Prop.

Lemma evolves_refl F : evolves a N F F.
Proof.
  split; [done|]. split; [done|]. intros p Inst' Hin. left. by exists Inst'.
Qed.

Lemma evolves_trans F1 F2 F3 :
  evolves a N F1 F2 → evolves a N F2 F3 → evolves a N F1 F3.
Proof.
  intros (Hn1 & Hw1 & H1) (Hn2 & Hw2 & H2). split; [lia|]. split; [auto|].
  intros p Inst3 Hin. destruct (H2 p Inst3 Hin) as [(Inst2 & Hin2 & Hid & Hv)|[Hge HN]].
  - destruct (H1 p Inst2 Hin2) as [(Inst1 & Hin1 & Hid1 & Hv1)|[Hge HN]].
    + left. exists Inst1. split; [done|]. split; congruence.
    + right. split; [lia|]. by rewrite Hid, Hv.
  - right. split; [lia|done].
Qed.

Lemma evolves_erase F x : evolves a N F (eraseFromParent F x).
Proof.
  split; [done|]. split; [apply wfIDs_erase|].
  intros p Inst' Hin. left. exists Inst'. split; [|done].
  rewrite eraseFromParent_mapLists in Hin.
  apply elem_of_allInsts_mapLists in Hin as (B & HB & Hq & Hin).
  apply list_elem_of_In, filter_In in Hin as [Hin _]. by eapply allInsts_intro.
Qed.

Lemma erased_erase F x : erased x (eraseFromParent F x).
Proof.
  intros q Inst Hin. rewrite eraseFromParent_mapLists in Hin.
  apply elem_of_allInsts_mapLists in Hin as (B & HB & Hq & Hin).
  apply list_elem_of_In, filter_In in Hin as [_ Hin].
  by apply negb_true_iff, Nat.eqb_neq in Hin.
Qed.

Lemma in_insertBefore pos new l x :
  In x (insertBeforeIn pos new l) → x = new ∨ In x l.
Proof.
  induction l as [|Inst l IH]; simpl; [done|].
  destruct (instID Inst =? pos); simpl.
  - intros [<-|[<-|H]]; auto.
  - intros [<-|H]; [auto|]. apply IH in H as [->|H]; auto.
Qed.

Lemma evolves_createBefore F pos k :
  N (nextID F) (slotView a k) → evolves a N F (createBefore F pos k).1.
Proof.
  intros HN. split; [simpl; lia|]. split; [apply wfIDs_createBefore|].
  intros p Inst' Hin. rewrite createBefore_mapLists in Hin.
  apply elem_of_allInsts_mapLists in Hin as (B & HB & Hq & Hin).
  apply list_elem_of_In, in_insertBefore in Hin as [->|Hin].
  - right. by split.
  - left. exists Inst'. split; [|done]. by eapply allInsts_intro.
Qed.

Lemma evolves_mapInsts f F :
  (∀ Inst, instID (f Inst) = instID Inst ∧
           slotView a (kind (f Inst)) = slotView a (kind Inst)) →
  evolves a N F (mapInsts f F).
Proof.
  intros Hf. split; [done|]. split; [apply wfIDs_mapInsts; intros; apply Hf|].
  intros p Inst' Hin. rewrite mapInsts_mapLists in Hin.
  apply elem_of_allInsts_mapLists in Hin as (B & HB & Hq & Hin).
  apply list_elem_of_In, in_map_iff in Hin as (Inst & <- & Hin).
  left. exists Inst. split; [by eapply allInsts_intro|apply Hf].
Qed.

Lemma evolves_replaceAllUsesWith F old new :
  old ≠ ValueOf a → new ≠ ValueOf a → evolves a N F (replaceAllUsesWith F old new).
Proof.
  intros Ho Hn. apply evolves_mapInsts. intros Inst; simpl. split; [done|].
  by apply slotView_subst.
Qed.

Lemma evolves_setOwnershipQualifier F id q :
  evolves a N F (setOwnershipQualifier F id q).
Proof.
  apply evolves_mapInsts. intros [i k]; simpl.
  destruct (i =? id); [|done]. by destruct k.
Qed.

(** An erased number stays erased when only new numbers are added. *)
Lemma erased_evolves F F' x :
  evolves a N F F' → x < nextID F → erased x F → erased x F'.
Proof.
  intros (_ & _ & H) Hlt He q Inst' Hin.
  destruct (H q Inst' Hin) as [(Inst & Hin0 & Hid & _)|[Hge _]]; [|lia].
  rewrite Hid. by eapply He.
Qed.

End Evolves.

Section EvolvesRewrites.
Variables (hasOwnership : bool) (getOwnershipKind : SILFunction → SILValue → OwnershipKind).
Variable a : nat.
#[local] Abbreviation ev := (evolves a inertN).

Lemma fresh_not_slot F : a < nextID F → ValueOf (nextID F) ≠ ValueOf a.
Proof. intros Hlt [= Heq]. lia. Qed.

Lemma evolves_emitBeginBorrow F pos v :
  let r := emitBeginBorrowOperation hasOwnership getOwnershipKind F pos v in
  ev F r.1 ∧ (a < nextID F → v ≠ ValueOf a → r.2 ≠ ValueOf a).
Proof.
  unfold emitBeginBorrowOperation. destruct (_ || _); simpl.
  - split; [apply evolves_refl|auto].
  - split; [by apply (evolves_createBefore a inertN F pos (BeginBorrowInst v))|].
    intros Hlt _. by apply fresh_not_slot.
Qed.

Lemma evolves_createObjectProjection F pos proj v :
  let r := createObjectProjection F pos proj v in
  ev F r.1 ∧ (a < nextID F → r.2 ≠ ValueOf a).
Proof.
  destruct proj; simpl; (split; [|apply fresh_not_slot]);
    match goal with
    | |- evolves _ _ _ (mkFunction _ _) =>
        first [ exact (evolves_createBefore a inertN F pos (StructExtractInst v field)
                         eq_refl)
              | exact (evolves_createBefore a inertN F pos (TupleExtractInst v field)
                         eq_refl)
              | exact (evolves_createBefore a inertN F pos (UncheckedBitwiseCastInst v)
                         eq_refl) ]
    end.
Qed.

Lemma evolves_projectValue pos projections :
  ∀ F val borrowed,
    let r := projectValue hasOwnership getOwnershipKind F pos projections val borrowed in
    ev F r.1.1 ∧ (a < nextID F → val ≠ ValueOf a → r.1.2 ≠ ValueOf a).
Proof.
  induction projections as [|proj rest IH]; intros F val borrowed; simpl.
  - split; [apply evolves_refl|auto].
  - destruct (isFieldProjection (kind proj)).
    + pose proof (evolves_emitBeginBorrow F pos val) as [HB1 HB2]. simpl in HB1, HB2.
      destruct (emitBeginBorrowOperation _ _ F pos val) as [F1 opVal]; simpl in *.
      assert (Hcont : ∀ v b, (a < nextID F → val ≠ ValueOf a → v ≠ ValueOf a) →
                let r := (let '(F2, val2) := createObjectProjection F1 pos (kind proj) v in
                          projectValue hasOwnership getOwnershipKind F2 pos rest val2 b) in
                ev F r.1.1 ∧ (a < nextID F → val ≠ ValueOf a → r.1.2 ≠ ValueOf a)).
      { intros v b Hv.
        pose proof (evolves_createObjectProjection F1 pos (kind proj) v) as [HC1 HC2].
        simpl in HC1, HC2.
        destruct (createObjectProjection F1 pos (kind proj) v) as [F2 val2]; simpl in *.
        destruct (IH F2 val2 b) as [IH1 IH2]. split.
        - eapply evolves_trans; [exact HB1|]. eapply evolves_trans; [exact HC1|exact IH1].
        - intros Hlt Hval. destruct HB1 as (Hn1 & _), HC1 as (Hn2 & _).
          apply IH2; [lia|]. apply HC2. lia. }
      destruct (bool_decide (opVal ≠ val)); apply Hcont; auto.
    + pose proof (evolves_createObjectProjection F pos (kind proj) val) as [HC1 HC2].
      simpl in HC1, HC2.
      destruct (createObjectProjection F pos (kind proj) val) as [F2 val2]; simpl in *.
      destruct (IH F2 val2 borrowed) as [IH1 IH2]. split.
      * eapply evolves_trans; [exact HC1|exact IH1].
      * intros Hlt Hval. destruct HC1 as (Hn2 & _). apply IH2; [lia|]. by apply HC2.
Qed.

Lemma evolves_eraseDeadProjections fuel :
  ∀ F op F', eraseDeadProjections fuel F (ValueOf a) op = Some F' → ev F F'.
Proof.
  induction fuel as [|n IH]; intros F op F'; simpl;
    destruct (_ && _); try done; try (intros [= <-]; apply evolves_refl).
  destruct (definingInst F op) as [D|]; simpl; [|done].
  destruct (assert _); simpl; [|done].
  destruct (getOperand0 (kind D)) as [next|]; simpl; [|done].
  intros H. eapply evolves_trans; [apply evolves_erase|by eapply IH].
Qed.

Lemma evolves_fold_endBorrow pos borrowed :
  ∀ F, ev F (fold_left (λ F b, (createBefore F pos (EndBorrowInst b)).1) borrowed F).
Proof.
  induction borrowed as [|b r IH]; intros F; simpl; [apply evolves_refl|].
  eapply evolves_trans; [|apply IH].
  exact (evolves_createBefore a inertN F pos (EndBorrowInst b) eq_refl).
Qed.

Lemma evolves_replaceLoad F LI val F' :
  a < nextID F → instID LI ≠ a → instID LI < nextID F → val ≠ ValueOf a →
  replaceLoad hasOwnership getOwnershipKind F LI val (ValueOf a) = Some F' →
  ev F F' ∧ erased (instID LI) F'.
Proof.
  intros Hlt HLI HLIlt Hval. unfold replaceLoad.
  destruct (kind LI) as [|op qual| | | | | | | | | | | | | | | | | |]; try done.
  destruct (collectProjections _ F (ValueOf a) op) as [projections|]; simpl; [|done].
  pose proof (evolves_projectValue (instID LI) (rev projections) F val []) as [HP1 HP2].
  simpl in HP1, HP2.
  destruct (projectValue _ _ F (instID LI) (rev projections) val [])
    as [[F1 val1] borrowed]; simpl in *.
  specialize (HP2 Hlt Hval).
  assert (Hn1 : nextID F ≤ nextID F1) by apply HP1.
  assert (Hold : ValueOf (instID LI) ≠ ValueOf a) by congruence.
  destruct (if bool_decide (qual = LoadCopy) then _ else _) as [F2|] eqn:E2;
    simpl; [|done].
  assert (H2 : ev F1 F2).
  { destruct (bool_decide (qual = LoadCopy)).
    - simpl in E2. injection E2 as <-.
      eapply evolves_trans;
        [exact (evolves_createBefore a inertN F1 (instID LI) (CopyValueInst val1) eq_refl)|].
      apply evolves_replaceAllUsesWith; [done|]. apply fresh_not_slot. lia.
    - destruct (assert _); simpl in E2; [|done]. injection E2 as <-.
      by apply evolves_replaceAllUsesWith. }
  assert (H3 : ev F2 (fold_left (λ F b, (createBefore F (instID LI) (EndBorrowInst b)).1)
                        borrowed F2)) by apply evolves_fold_endBorrow.
  set (F3 := fold_left _ borrowed F2) in *.
  intros HE. pose proof (evolves_eraseDeadProjections _ _ _ _ HE) as H4.
  assert (H03 : ev F (eraseFromParent F3 (instID LI))).
  { eapply evolves_trans; [exact HP1|]. eapply evolves_trans; [exact H2|].
    eapply evolves_trans; [exact H3|]. apply evolves_erase. }
  split; [by eapply evolves_trans|].
  eapply erased_evolves; [exact H4| |apply erased_erase].
  destruct H03 as (Hn & _). simpl in *. lia.
Qed.

Lemma evolves_replaceDestroy F DAI Ty NewValue F' :
  replaceDestroy F DAI Ty NewValue = Some F' → ev F F' ∧ erased (instID DAI) F'.
Proof.
  unfold replaceDestroy.
  destruct (assert (isLoadable Ty)); simpl; [|done].
  destruct (assert (_ || _)); simpl; [|done]. intros [= <-].
  split; [|apply erased_erase].
  eapply evolves_trans; [|apply evolves_erase].
  destruct NewValue as [v|]; [|apply evolves_refl].
  exact (evolves_createBefore a inertN F (instID DAI) (DestroyValueInst v) eq_refl).
Qed.

Lemma evolves_promoteDebugValueAddr F DVAI Ty Value F' :
  promoteDebugValueAddr F DVAI Ty Value = Some F' → ev F F' ∧ erased (instID DVAI) F'.
Proof.
  unfold promoteDebugValueAddr.
  destruct (assert (isLoadable Ty)); simpl; [|done].
  destruct (kind DVAI); try done.
  destruct (existsb _ _); intros [= <-]; (split; [|apply erased_erase]).
  - apply evolves_erase.
  - eapply evolves_trans; [|apply evolves_erase].
    exact (evolves_createBefore a inertN F (instID DVAI) (DebugValueInst Value varInfo)
             eq_refl).
Qed.

End EvolvesRewrites.

(** *** The invariant of the scan *)

Lemma inertN_noStoreN a i v : inertN i v → noStoreN a i v.
Proof. intros H. destruct (inert_not a v H) as (? & ? & ? & ?). by repeat split. Qed.

Lemma evolves_weaken a (N N' : nat → InstKind → Prop) F F' :
  (∀ i v, N i v → N' i v) → evolves a N F F' → evolves a N' F F'.
Proof.
  intros HN (Hn & Hw & H). split; [done|]. split; [done|].
  intros p Inst' Hin. destruct (H p Inst' Hin) as [?|[? ?]]; [by left|right; auto].
Qed.

Lemma findInst_in F id q Inst :
  findInst F id = Some (q, Inst) → (q, Inst) ∈ allInsts F ∧ instID Inst = id.
Proof.
  intros H. split; [|by eapply findInst_id].
  unfold findInst in H. apply find_some in H as [H _]. by apply list_elem_of_In.
Qed.

Lemma findInst_None_erased F id : findInst F id = None → erased id F.
Proof.
  intros H q Inst Hin Hid. unfold findInst in H.
  apply list_elem_of_In in Hin.
  pose proof (find_none _ _ H (q, Inst) Hin) as Hn.
  simpl in Hn. apply Nat.eqb_neq in Hn. done.
Qed.

Lemma NoDup_map_eq {A B} (f : A → B) (l : list A) x y :
  NoDup (map f l) → x ∈ l → y ∈ l → f x = f y → x = y.
Proof.
  induction l as [|z l IH]; simpl; intros Hnd Hx Hy Hf; [by apply elem_of_nil in Hx|].
  apply NoDup_cons in Hnd as [Hz Hnd].
  apply elem_of_cons in Hx as [->|Hx]; apply elem_of_cons in Hy as [->|Hy]; auto.
  - exfalso. apply Hz. rewrite Hf. apply list_elem_of_In, in_map. by apply list_elem_of_In.
  - exfalso. apply Hz. rewrite <- Hf. apply list_elem_of_In, in_map.
    by apply list_elem_of_In.
Qed.

Lemma wfIDs_unique F q Inst q' Inst' :
  wfIDs F → (q, Inst) ∈ allInsts F → (q', Inst') ∈ allInsts F →
  instID Inst = instID Inst' → q = q' ∧ Inst = Inst'.
Proof.
  intros [Hnd _] H1 H2 Hid.
  assert ((q, Inst) = (q', Inst')) as [= -> ->]; [|done].
  by eapply (NoDup_map_eq (λ p, instID p.2) (allInsts F)).
Qed.

Section ScanInvariant.
Variables (a p : nat) (ty : SILType) (BB : nat) (ids0 : list nat).

Lemma static_evolves F F' :
  evolves a (noStoreN a) F F' → ScanStatic a BB ids0 F → ScanStatic a BB ids0 F'.
Proof.
  intros (Hn & Hw & H) [Hwf Hsrc Hold Hlabel Hquiet].
  assert (Hfresh : ∀ q Inst', (q, Inst') ∈ allInsts F' → instID Inst' ∈ ids0 →
            ∃ Inst, (q, Inst) ∈ allInsts F ∧ instID Inst' = instID Inst ∧
                    slotView a (kind Inst') = slotView a (kind Inst)).
  { intros q Inst' Hin Hid. destruct (H q Inst' Hin) as [?|[Hge _]]; [done|].
    apply Hold in Hid. lia. }
  split.
  - auto.
  - intros q Inst' Hin. destruct (H q Inst' Hin) as [(Inst & Hin0 & _ & Hv)|[_ HN]].
    + rewrite (same_view (storesSlotAddress a) a _ _ (storesSlotAddress_view a) Hv).
      by eapply Hsrc.
    + rewrite <- storesSlotAddress_view. apply HN.
  - intros id Hid. apply Hold in Hid. lia.
  - intros q Inst' Hin Hid. destruct (Hfresh q Inst' Hin Hid) as (Inst & Hin0 & Heq & _).
    eapply Hlabel; [exact Hin0|]. by rewrite <- Heq.
  - intros D' pre post HD Hdealloc Hsplit Inst' Hin Hpost.
    assert (HDid : instID D' ∈ ids0).
    { rewrite Hsplit. apply elem_of_app. right. apply list_elem_of_here. }
    assert (HIid : instID Inst' ∈ ids0).
    { rewrite Hsplit. apply elem_of_app. right. by apply list_elem_of_further. }
    destruct (Hfresh BB D' HD HDid) as (D & HD0 & HDeq & HDv).
    destruct (Hfresh BB Inst' Hin HIid) as (Inst & Hin0 & Heq & Hv).
    rewrite (same_view (isSlotStore a) a _ _ (isSlotStore_view a) Hv).
    rewrite (same_view (isSlotLoad a) a _ _ (isSlotLoad_view a) Hv).
    eapply (Hquiet D pre post); [done| | |done|].
    + by rewrite <- (same_view (isSlotDealloc a) a _ _ (isSlotDealloc_view a) HDv).
    + by rewrite <- HDeq.
    + by rewrite <- Heq.
Qed.

Lemma store_evolves rest LS F F' :
  evolves a (noStoreN a) F F' → storeInv a BB rest LS F → storeInv a BB rest LS F'.
Proof.
  intros (_ & _ & H) Hst Inst' Hin Hs.
  destruct (H BB Inst' Hin) as [(Inst & Hin0 & Heq & Hv)|[_ (HN & _)]].
  - rewrite Heq. apply Hst; [done|].
    by rewrite <- (same_view (isSlotStore a) a _ _ (isSlotStore_view a) Hv).
  - rewrite isSlotStore_view in HN. congruence.
Qed.

Lemma load_evolves rest FL F F' :
  evolves a inertN F F' → loadInv a BB rest FL F → loadInv a BB rest FL F'.
Proof.
  intros (_ & _ & H) Hld Inst' Hin Hl.
  destruct (H BB Inst' Hin) as [(Inst & Hin0 & Heq & Hv)|[_ HN]].
  - rewrite Heq. apply Hld; [done|].
    by rewrite <- (same_view (isSlotLoad a) a _ _ (isSlotLoad_view a) Hv).
  - unfold inertN in HN. rewrite inert_view in HN.
    destruct (inert_not a _ HN) as (_ & Hnl & _). congruence.
Qed.

(** The invariant moves to a function evolved by inert rewriting. *)
Lemma ScanInv_evolves dvfree st F' pre rest :
  ScanInv a p ty BB ids0 dvfree st pre rest →
  evolves a inertN (scanF st) F' → allocPresent a p ty F' →
  ScanInv a p ty BB ids0 dvfree (mkScan F' (RunningVal st) (LastStore st)) pre rest.
Proof.
  intros [Hsplit Hstatic Halloc Hrv Hls Hdv Hload] Hev Hp.
  assert (Hev' : evolves a (noStoreN a) (scanF st) F').
  { eapply evolves_weaken; [|exact Hev]. apply inertN_noStoreN. }
  split; simpl; try done.
  - by eapply static_evolves.
  - intros Hd. specialize (Hdv Hd). by eapply store_evolves.
  - destruct Hload as (FL & HFL & Hl). exists FL. split; [done|].
    by eapply load_evolves.
Qed.

(** The scan moves on over a number that names no store to the slot and
    no load from it. *)
Lemma ScanInv_next dvfree st pre id rest :
  ScanInv a p ty BB ids0 dvfree st pre (id :: rest) →
  notSlotAt a (scanF st) id →
  ScanInv a p ty BB ids0 dvfree st (pre ++ [id]) rest.
Proof.
  intros [Hsplit Hstatic Halloc Hrv Hls Hdv Hload] Hnot.
  split; try done.
  - by rewrite <- app_assoc.
  - intros Hd Inst Hin Hs. destruct (Hdv Hd Inst Hin Hs) as [Hid|?]; [|by right].
    apply elem_of_cons in Hid as [Hid|Hid]; [|by left].
    destruct (Hnot BB Inst Hin Hid) as [Hn _]. congruence.
  - destruct Hload as (FL & HFL & Hl). exists FL. split; [done|].
    intros Inst Hin Hs. destruct (Hl Inst Hin Hs) as [Hid|?]; [|by right].
    apply elem_of_cons in Hid as [Hid|Hid]; [|by left].
    destruct (Hnot BB Inst Hin Hid) as [_ Hn]. congruence.
Qed.

Lemma erased_notSlotAt F id : erased id F → notSlotAt a F id.
Proof. intros He q Inst Hin Hid. by destruct (He q Inst Hin). Qed.

Lemma current_notSlotAt F id q Inst :
  wfIDs F → findInst F id = Some (q, Inst) →
  isSlotStore a (kind Inst) = false → isSlotLoad a (kind Inst) = false →
  notSlotAt a F id.
Proof.
  intros Hwf Hfind Hs Hl q' Inst' Hin Hid.
  apply findInst_in in Hfind as [Hin0 Hid0].
  destruct (wfIDs_unique F q Inst q' Inst' Hwf Hin0 Hin) as [_ <-]; [congruence|done].
Qed.

End ScanInvariant.

Lemma findInst_mapInsts f F id :
  (∀ Inst, instID (f Inst) = instID Inst) →
  findInst (mapInsts f F) id = (λ p, (p.1, f p.2)) <$> findInst F id.
Proof.
  intros Hf. rewrite mapInsts_mapLists.
  apply (findInst_mapLists (map f) f F (nextID F) id).
  intros l. by apply findIn_map.
Qed.

Lemma present_setOwnershipQualifier a p ty F id q :
  allocPresent a p ty F → allocPresent a p ty (setOwnershipQualifier F id q).
Proof.
  intros [H1 H2]. split; [|done]. unfold setOwnershipQualifier.
  rewrite findInst_mapInsts.
  - rewrite H1. simpl. by destruct (a =? id).
  - intros [i k]; simpl. destruct (i =? id); [|done]. by destruct k.
Qed.

Section ScanStep.
Variables (hasOwnership : bool) (getOwnershipKind : SILFunction → SILValue → OwnershipKind).
Variables (alloc : AllocStack) (p BB : nat) (ids0 : list nat) (dvfree : bool).
#[local] Abbreviation a := (allocID alloc).
#[local] Abbreviation ty := (allocElementType alloc).
#[local] Abbreviation Inv := (ScanInv a p ty BB ids0 dvfree).
#[local] Abbreviation body :=
  (promoteAllocationInBlock_body hasOwnership getOwnershipKind alloc).

(** The store case. *)
Lemma scan_step_store F RV LS pre id rest q Inst src dest qual :
  Inv (mkScan F RV LS) pre (id :: rest) →
  findInst F id = Some (q, Inst) →
  kind Inst = StoreInst src dest qual →
  dest = ValueOf a →
  let Fa :=
    if bool_decide (qual = StoreAssign) then
      setOwnershipQualifier
        match RV with
        | Some rv => (createBefore F id (DestroyValueInst rv)).1
        | None =>
            let '(F1, newLoad) := createBefore F id (LoadInst (ValueOf a) LoadTake) in
            (createBefore F1 id (DestroyValueInst newLoad)).1
        end id StoreInit
    else F in
  let Fb := match LS with Some last => eraseFromParent Fa last | None => Fa end in
  Inv (mkScan Fb (Some src) (Some id)) (pre ++ [id]) rest.
Proof.
  intros [Hsplit Hstatic Halloc Hrv Hls Hdv Hload] Hfind Hk Hdest.
  simpl in Hstatic, Halloc, Hrv, Hls, Hdv, Hload. intros Fa Fb.
  pose proof (static_wf _ _ _ _ Hstatic) as Hwf.
  destruct (findInst_in _ _ _ _ Hfind) as [Hin Hid].
  assert (Hida : id ≠ a).
  { eapply (present_other a p ty); [exact Halloc|exact Hfind|]. by rewrite Hk. }
  assert (Heva : evolves a (storeCaseN a (nextID F) RV) F Fa).
  { subst Fa. destruct (bool_decide (qual = StoreAssign)); [|apply evolves_refl].
    eapply evolves_trans; [|apply evolves_setOwnershipQualifier].
    destruct RV as [rv|].
    - apply (evolves_createBefore a _ F id (DestroyValueInst rv)). by left.
    - eapply evolves_trans.
      + apply (evolves_createBefore a _ F id (LoadInst (ValueOf a) LoadTake)).
        right. split; [done|]. split; [done|].
        unfold slotView; simpl. unfold slotOperand. by rewrite decide_True.
      + refine (evolves_createBefore a _ (createBefore F id (LoadInst (ValueOf a) LoadTake)).1
                  id (DestroyValueInst (ValueOf (nextID F))) _).
        by left. }
  assert (Hevb : evolves a (storeCaseN a (nextID F) RV) F Fb).
  { subst Fb. destruct LS; [|done]. eapply evolves_trans; [exact Heva|apply evolves_erase]. }
  assert (Hpa : allocPresent a p ty Fa).
  { subst Fa. destruct (bool_decide (qual = StoreAssign)); [|done].
    apply present_setOwnershipQualifier. destruct RV as [rv|].
    - by apply present_createBefore.
    - refine (present_createBefore a p ty
                (createBefore F id (LoadInst (ValueOf a) LoadTake)).1 id
                (DestroyValueInst (ValueOf (nextID F))) _).
      by apply (present_createBefore a p ty F id (LoadInst _ _)). }
  assert (Hpb : allocPresent a p ty Fb).
  { subst Fb. destruct LS as [last|]; [|done]. apply present_erase; [done|]. by apply Hls. }
  assert (HN : ∀ i v, storeCaseN a (nextID F) RV i v → noStoreN a i v).
  { intros i v [Hi|(_ & _ & ->)]; [by apply (inertN_noStoreN a i)|done]. }
  assert (Hevn : evolves a (noStoreN a) F Fb) by (eapply evolves_weaken; eauto).
  assert (Herased : ∀ last, LS = Some last → erased last Fb).
  { intros last ->. apply erased_erase. }
  assert (Hcur : ∀ q' Inst', (q', Inst') ∈ allInsts F → instID Inst' = id → Inst' = Inst).
  { intros q' Inst' Hin' Hid'.
    destruct (wfIDs_unique F q Inst q' Inst' Hwf Hin Hin') as [_ <-]; [congruence|done]. }
  split; cbn [scanF RunningVal LastStore].
  - by rewrite <- app_assoc.
  - by eapply static_evolves.
  - done.
  - intros r [= <-]. pose proof (static_src _ _ _ _ Hstatic q Inst Hin) as Hs.
    rewrite Hk in Hs. simpl in Hs. by apply bool_decide_eq_false in Hs.
  - by intros ls [= <-].
  - intros Hd Inst' Hin' Hs'.
    destruct (store_evolves a BB (id :: rest) LS F Fb Hevn (Hdv Hd) Inst' Hin' Hs')
      as [Hi|HLS].
    + apply elem_of_cons in Hi as [->|Hi]; [by right|by left].
    + exfalso. by apply (Herased _ HLS BB Inst' Hin').
  - destruct Hload as (FL & HFL & Hl).
    exists (match RV with Some _ => FL | None => Some (nextID F) end).
    split; [done|]. intros Inst' Hin' Hl'.
    destruct Hevb as (_ & _ & Hev).
    destruct (Hev BB Inst' Hin') as [(Inst0 & Hin0 & Heq & Hv)|[Hge HN']].
    + rewrite (same_view (isSlotLoad a) a _ _ (isSlotLoad_view a) Hv) in Hl'.
      destruct (Hl Inst0 Hin0 Hl') as [Hi|HFL'].
      * apply elem_of_cons in Hi as [Hi|Hi]; [|left; by rewrite Heq].
        rewrite (Hcur BB Inst0 Hin0 Hi), Hk in Hl'. done.
      * destruct RV; [right; by rewrite Heq|]. by rewrite HFL in HFL'.
    + destruct HN' as [Hi|(-> & -> & _)]; [|by right].
      rewrite inert_view in Hi. destruct (inert_not a _ Hi) as (_ & Hnl & _). congruence.
Qed.

End ScanStep.

Ltac same_state :=
  intros [= <- <-]; left; split; [done|];
  match goal with H : ∀ k, _ = k → _ → _ → ScanInv _ _ _ _ _ _ _ _ _ |- _ =>
    apply (H _ eq_refl)
  end.

Section ScanBody.
Variables (hasOwnership : bool) (getOwnershipKind : SILFunction → SILValue → OwnershipKind).
Variables (alloc : AllocStack) (p BB : nat) (ids0 : list nat) (dvfree : bool).
#[local] Abbreviation a' := (allocID alloc).
#[local] Abbreviation ty' := (allocElementType alloc).
#[local] Abbreviation Inv' := (ScanInv a' p ty' BB ids0 dvfree).

(** A step that rewrites by inert instructions and erases the
    instruction it visited. *)
Lemma scan_step_erasing st pre id rest F' :
  Inv' st pre (id :: rest) →
  evolves a' inertN (scanF st) F' → allocPresent a' p ty' F' → erased id F' →
  Inv' (mkScan F' (RunningVal st) (LastStore st)) (pre ++ [id]) rest.
Proof.
  intros HI Hev Hp He. apply ScanInv_next; [by apply ScanInv_evolves|].
  by apply erased_notSlotAt.
Qed.

(** One turn of the loop of [promoteAllocationInBlock] keeps the
    invariant, or stops at a deallocation of the slot without touching
    the state.  The stores are counted as long as no turn forgets the
    retained store. *)
Lemma scan_step st pre id rest st' stop :
  Inv' st pre (id :: rest) →
  (dvfree = true → keepsLastStore st id) →
  promoteAllocationInBlock_body hasOwnership getOwnershipKind alloc st id
    = Some (st', stop) →
  (stop = false ∧ Inv' st' (pre ++ [id]) rest) ∨
  (stop = true ∧ st' = st ∧
   ∃ q Inst, findInst (scanF st) id = Some (q, Inst) ∧
             isSlotDealloc a' (kind Inst) = true).
Proof.
  intros HI Hkeep. pose proof HI as [Hsplit Hstatic Halloc Hrv Hls Hdv Hload].
  destruct st as [F RV LS]. simpl in Hstatic, Halloc, Hrv, Hls, Hdv, Hload.
  unfold keepsLastStore in Hkeep. cbn [scanF RunningVal] in Hkeep.
  pose proof (static_wf _ _ _ _ Hstatic) as Hwf.
  unfold promoteAllocationInBlock_body. cbn [scanF RunningVal LastStore].
  unfold allocValue.
  destruct (findInst F id) as [[q Inst]|] eqn:Hfind.
  2:{ intros [= <- <-]. left. split; [done|]. apply ScanInv_next; [done|].
      by apply erased_notSlotAt, findInst_None_erased. }
  destruct (findInst_in _ _ _ _ Hfind) as [Hin Hid].
  assert (Hida : (∀ ty0, kind Inst ≠ AllocStackInst ty0) → id ≠ a').
  { intros Hk. by eapply (present_other a' p ty'); [exact Halloc|exact Hfind|]. }
  assert (Hidlt : instID Inst < nextID F) by apply (proj2 Hwf (q, Inst) Hin).
  assert (Halt : a' < nextID F) by apply Halloc.
  assert (Hsame : ∀ k, kind Inst = k →
            isSlotStore a' k = false → isSlotLoad a' k = false →
            Inv' (mkScan F RV LS) (pre ++ [id]) rest).
  { intros k Hk Hs Hl. apply ScanInv_next; [done|].
    eapply current_notSlotAt; [done|exact Hfind|by rewrite Hk..]. }
  destruct (isLoadFromStack F Inst (ValueOf a')) eqn:Hload'.
  - (* a load from the slot *)
    unfold isLoadFromStack in Hload'.
    destruct (kind Inst) as [|op qual| | | | | | | | | | | | | | | | | |] eqn:Hk;
      try done.
    destruct RV as [rv|].
    + destruct (replaceLoad _ _ F Inst rv (ValueOf a')) as [F1|] eqn:E; simpl; [|done].
      intros [= <- <-]. left. split; [done|].
      assert (Hne : instID Inst ≠ a') by (rewrite Hid; by apply Hida).
      destruct (evolves_replaceLoad hasOwnership getOwnershipKind a' F Inst rv F1
                  Halt Hne Hidlt (Hrv rv eq_refl) E) as [Hev He].
      rewrite Hid in He.
      apply (scan_step_erasing (mkScan F (Some rv) LS)); try done.
      exact (present_replaceLoad hasOwnership getOwnershipKind a' p ty' F Inst rv F1
               Halloc Hne E).
    + destruct (bool_decide (op = ValueOf a') && bool_decide (qual ≠ LoadCopy)) eqn:Had.
      * intros [= <- <-]. left. split; [done|].
        split; cbn [scanF RunningVal LastStore]; try done.
        -- by rewrite <- app_assoc.
        -- intros r [= <-]. unfold asValue. rewrite Hid. intros [= Heq].
           by apply Hida.
        -- intros Hd Inst' Hin' Hs. destruct (Hdv Hd Inst' Hin' Hs) as [Hi|?]; [|by right].
           apply elem_of_cons in Hi as [Hi|Hi]; [|by left].
           destruct (wfIDs_unique F q Inst BB Inst' Hwf Hin Hin') as [_ <-];
             [congruence|]. by rewrite Hk in Hs.
        -- destruct Hload as (FL & HFL & Hl). exists (Some id). split; [done|].
           intros Inst' Hin' Hs. destruct (Hl Inst' Hin' Hs) as [Hi|HF].
           ++ apply elem_of_cons in Hi as [->|Hi]; [by right|by left].
           ++ by rewrite (HFL eq_refl) in HF.
      * by same_state.
  - (* any other instruction *)
    destruct (kind Inst) eqn:Hk; try (by same_state).
    + (* a load from another address *)
      intros [= <- <-]. left. split; [done|].
      apply (Hsame _ eq_refl); [done|]. simpl.
      unfold isLoadFromStack in Hload'. rewrite Hk in Hload'.
      case_bool_decide; [|done]. subst. by rewrite isProjectionOf_self in Hload'.
    + (* a store *)
      case_bool_decide as Hdest.
      * intros [= <- <-]. left. split; [done|].
        apply (Hsame _ eq_refl); [|done]. simpl. by apply bool_decide_eq_false.
      * intros [= <- <-]. left. split; [done|].
        assert (Hd : dest = ValueOf a') by (by destruct (decide (dest = ValueOf a'))).
        exact (scan_step_store alloc p BB ids0 dvfree F RV LS pre id rest q Inst
                 src dest qual HI Hfind Hk Hd).
    + (* dealloc_stack *)
      intros [= <- <-]. case_bool_decide as Hop.
      * right. split; [done|]. split; [done|]. exists q, Inst. split; [done|].
        rewrite ?Hk. simpl. by apply bool_decide_eq_true.
      * left. split; [done|]. apply ScanInv_next; [done|].
        eapply current_notSlotAt; [done|exact Hfind|by rewrite Hk..].
    + (* debug_value_addr *)
      destruct RV as [rv|]; [|by same_state].
      case_bool_decide; [|by same_state].
      destruct (promoteDebugValueAddr F Inst ty' rv) as [F1|] eqn:E; simpl; [|done].
      intros [= <- <-]. left. split; [done|].
      destruct (evolves_promoteDebugValueAddr a' F Inst ty' rv F1 E) as [Hev He].
      rewrite Hid in He.
      apply (scan_step_erasing (mkScan F (Some rv) LS)); try done.
      apply (present_promoteDebugValueAddr a' p ty' F Inst ty' rv F1); [done| |done].
      rewrite Hid. by apply Hida.
    + (* destroy_addr *)
      destruct RV as [rv|]; [|by same_state].
      case_bool_decide; [|by same_state].
      destruct (replaceDestroy F Inst ty' (Some rv)) as [F1|] eqn:E; simpl; [|done].
      intros [= <- <-]. left. split; [done|].
      destruct (evolves_replaceDestroy a' F Inst ty' (Some rv) F1 E) as [Hev He].
      rewrite Hid in He.
      apply (scan_step_erasing (mkScan F (Some rv) LS)); try done.
      apply (present_replaceDestroy a' p ty' F Inst ty' (Some rv) F1); [done| |done].
      rewrite Hid. by apply Hida.
    + (* destroy_value *)
      case_bool_decide; [|by same_state].
      destruct dvfree eqn:Hdvf.
      * assert (LS = None) as ->.
        { eapply (Hkeep eq_refl); [done|exact Hk|congruence]. }
        by same_state.
      * intros [= <- <-]. left. split; [done|].
        assert (Hnot : notSlotAt a' F id).
        { eapply current_notSlotAt; [done|exact Hfind|by rewrite Hk..]. }
        pose proof (ScanInv_next a' p ty' BB ids0 false _ _ _ _ HI Hnot)
          as [Hsplit' Hstatic' Halloc' Hrv' Hls' Hdv' Hload''].
        split; cbn [scanF RunningVal LastStore] in *; try done.
Qed.

End ScanBody.

(** *** The end of the scan *)

Lemma NoDup_map_filter {A B} (f : A → B) (g : A → bool) l :
  NoDup (map f l) → NoDup (map f (List.filter g l)).
Proof.
  induction l as [|x l IH]; simpl; [done|]. intros Hnd.
  apply NoDup_cons in Hnd as [Hx Hnd]. destruct (g x); simpl; [|by apply IH].
  apply NoDup_cons. split; [|by apply IH]. intros Hin. apply Hx.
  apply list_elem_of_In, in_map_iff in Hin as (y & Hy & Hin).
  apply filter_In in Hin as [Hin _]. apply list_elem_of_In, in_map_iff. by exists y.
Qed.

Lemma filter_length_le_1 (P : SILInstruction → bool) (c : option nat) l :
  NoDup (map instID l) →
  (∀ Inst, Inst ∈ l → P Inst = true → c = Some (instID Inst)) →
  length (List.filter P l) ≤ 1.
Proof.
  intros Hnd Hc.
  assert (Hall : ∀ Inst, Inst ∈ List.filter P l → c = Some (instID Inst)).
  { intros Inst Hin. apply list_elem_of_In, filter_In in Hin as [Hin HP].
    apply Hc; [by apply list_elem_of_In|done]. }
  pose proof (NoDup_map_filter instID P l Hnd) as Hnd'.
  destruct (List.filter P l) as [|x [|y r]]; simpl; [lia..|]. exfalso.
  simpl in Hnd'. apply NoDup_cons in Hnd' as [Hx _]. apply Hx.
  assert (instID x = instID y) as ->; [|apply list_elem_of_here].
  pose proof (Hall x (list_elem_of_here _ _)) as H1.
  pose proof (Hall y (list_elem_of_further _ _ _ (list_elem_of_here _ _))) as H2.
  congruence.
Qed.

Lemma elem_of_instsIn F b Inst : Inst ∈ instsIn F b ↔ (b, Inst) ∈ allInsts F.
Proof.
  unfold instsIn. rewrite !list_elem_of_In, in_map_iff. split.
  - intros ([q Inst'] & <- & Hin). apply filter_In in Hin as [Hin Hq]. simpl in *.
    apply Nat.eqb_eq in Hq. by subst.
  - intros Hin. exists (b, Inst). split; [done|]. apply filter_In. split; [done|].
    simpl. apply Nat.eqb_refl.
Qed.

Lemma NoDup_instsIn F b : wfIDs F → NoDup (map instID (instsIn F b)).
Proof.
  intros [Hnd _]. unfold instsIn. rewrite map_map.
  by apply (NoDup_map_filter (λ p, instID p.2)).
Qed.

Lemma findBlock_in F b B : findBlock F b = Some B → B ∈ blocks F ∧ blockID B = b.
Proof.
  unfold findBlock. intros H. apply find_some in H as [H1 H2].
  split; [by apply list_elem_of_In|by apply Nat.eqb_eq].
Qed.

Lemma instsIn_findBlock F b :
  wfBlocks F →
  instsIn F b = match findBlock F b with Some B => insts B | None => [] end.
Proof.
  unfold wfBlocks, instsIn, allInsts, findBlock. induction (blocks F) as [|B r IH]; [done|].
  simpl. intros Hnd. apply NoDup_cons in Hnd as [HB Hnd].
  rewrite List.filter_app, map_app.
  assert (Hhd : ∀ l, map snd (List.filter (λ p : nat * SILInstruction, p.1 =? b)
                                (map (λ Inst, (blockID B, Inst)) l)) =
                     if blockID B =? b then l else []).
  { induction l as [|x l IHl]; simpl; [by destruct (_ =? _)|].
    destruct (blockID B =? b); simpl; [by rewrite IHl|done]. }
  rewrite Hhd. destruct (blockID B =? b) eqn:E.
  - apply Nat.eqb_eq in E. subst b.
    assert (Htl : List.filter (λ p : nat * SILInstruction, p.1 =? blockID B)
                    (flat_map (λ B0, map (λ Inst, (blockID B0, Inst)) (insts B0)) r) = []).
    { clear -HB. induction r as [|B' r IH]; [done|]. simpl in *.
      apply not_elem_of_cons in HB as [Hne HB].
      rewrite List.filter_app, IH by done. rewrite app_nil_r.
      induction (insts B') as [|x l IHl]; [done|]. simpl.
      by rewrite (proj2 (Nat.eqb_neq _ _)) by congruence. }
    by rewrite Htl, app_nil_r.
  - simpl. by apply IH.
Qed.

(** ** The values a slot may hold *)

Lemma allInsts_createBefore F pos k q Inst :
  (q, Inst) ∈ allInsts (createBefore F pos k).1 →
  (q, Inst) ∈ allInsts F ∨ Inst = mkInst (nextID F) k.
Proof.
  intros Hin. rewrite createBefore_mapLists in Hin.
  apply elem_of_allInsts_mapLists in Hin as (B & HB & Hq & Hin).
  apply list_elem_of_In, in_insertBefore in Hin as [->|Hin]; [by right|].
  left. by eapply allInsts_intro.
Qed.

Lemma allInsts_erase F x q Inst :
  (q, Inst) ∈ allInsts (eraseFromParent F x) → (q, Inst) ∈ allInsts F ∧ instID Inst ≠ x.
Proof.
  rewrite eraseFromParent_mapLists. intros Hin.
  apply elem_of_allInsts_mapLists in Hin as (B & HB & Hq & Hin).
  apply list_elem_of_In, filter_In in Hin as [Hin Hx]. split; [by eapply allInsts_intro|].
  apply negb_true_iff, Nat.eqb_neq in Hx. done.
Qed.

Section HeldStep.
Variables (a : nat) (held : SILValue → bool).
#[local] Abbreviation hs := (heldStep a held).

Lemma heldKinds_refl k : heldKinds a held k k.
Proof.
  split; [done|]. split; [done|]. split.
  - intros x' ->. by exists x'.
  - intros src qual ->. by exists src, qual.
Qed.

Lemma heldKinds_trans k1 k2 k3 :
  heldKinds a held k1 k2 → heldKinds a held k2 k3 → heldKinds a held k1 k3.
Proof.
  intros (L1 & T1 & D1 & S1) (L2 & T2 & D2 & S2).
  split; [auto|]. split; [auto|]. split.
  - intros x3 H3. destruct (D2 x3 H3) as (x2 & H2 & E2).
    destruct (D1 x2 H2) as (x1 & H1 & E1). exists x1. split; [done|].
    intros Hx. pose proof (E1 Hx) as ->. by apply E2.
  - intros s3 q3 H3. destruct (S2 _ _ H3) as (s2 & q2 & H2 & E2).
    destruct (S1 _ _ H2) as (s1 & q1 & H1 & E1). exists s1, q1. auto.
Qed.

Lemma heldStep_refl F : hs F F.
Proof.
  split; [done|]. intros q Inst Hin. right. exists Inst.
  split; [done|]. split; [done|apply heldKinds_refl].
Qed.

Lemma heldStep_trans F1 F2 F3 : hs F1 F2 → hs F2 F3 → hs F1 F3.
Proof.
  intros [Hn1 H1] [Hn2 H2]. split; [lia|]. intros q I3 Hin.
  destruct (H2 q I3 Hin) as [[Hge Hs]|(I2 & Hin2 & Hid2 & Hk2)].
  - left. split; [lia|done].
  - destruct (H1 q I2 Hin2) as [[Hge Hs]|(I1 & Hin1 & Hid1 & Hk1)].
    + left. split; [lia|]. destruct Hk2 as (_ & T2 & _).
      destruct (isStore (kind I3)); [|done]. by rewrite T2 in Hs.
    + right. exists I1. split; [done|]. split; [congruence|].
      by eapply heldKinds_trans.
Qed.

Lemma heldStep_erase F x : hs F (eraseFromParent F x).
Proof.
  split; [done|]. intros q Inst Hin. right. exists Inst.
  apply allInsts_erase in Hin as [Hin _].
  split; [done|]. split; [done|apply heldKinds_refl].
Qed.

Lemma heldStep_createBefore F pos k :
  isStore k = false → hs F (createBefore F pos k).1.
Proof.
  intros Hk. split; [simpl; lia|]. intros q Inst Hin.
  apply allInsts_createBefore in Hin as [Hin| ->].
  - right. exists Inst. split; [done|]. split; [done|apply heldKinds_refl].
  - left. by split.
Qed.

Lemma heldStep_mapInsts f F :
  (∀ Inst, instID (f Inst) = instID Inst ∧
           heldKinds a held (kind Inst) (kind (f Inst))) →
  hs F (mapInsts f F).
Proof.
  intros Hf. split; [done|]. intros q Inst' Hin. rewrite mapInsts_mapLists in Hin.
  apply elem_of_allInsts_mapLists in Hin as (B & HB & Hq & Hin).
  apply list_elem_of_In, in_map_iff in Hin as (Inst & <- & Hin).
  right. exists Inst. split; [by eapply allInsts_intro|]. split; [symmetry|]; apply Hf.
Qed.

Lemma heldKinds_subst old new k :
  old ≠ ValueOf a → new ≠ ValueOf a → held old = true → held new = true →
  heldKinds a held k (mapOperands (substValue old new) k).
Proof.
  intros Ho Hn Hho Hhn.
  assert (Hs : ∀ v, held v = true → held (substValue old new v) = true).
  { intros v Hv. unfold substValue. by case_decide. }
  assert (Hd : ∀ v, held v = false → substValue old new v = v).
  { intros v Hv. unfold substValue. case_decide; [congruence|done]. }
  assert (Ha : ∀ v, substValue old new v = ValueOf a → v = ValueOf a).
  { intros v. unfold substValue. case_decide; [congruence|done]. }
  destruct k; simpl; (split; [done|]); (split; [done|]); split; try done.
  - intros src' qual' [= <- Hdest <-]. apply Ha in Hdest. subst dest.
    exists src, qual. auto.
  - intros x' [= <-]. exists op. auto.
Qed.

Lemma heldStep_replaceAllUsesWith F old new :
  old ≠ ValueOf a → new ≠ ValueOf a → held old = true → held new = true →
  hs F (replaceAllUsesWith F old new).
Proof.
  intros. apply heldStep_mapInsts. intros Inst; simpl. split; [done|].
  by apply heldKinds_subst.
Qed.

Lemma heldStep_setOwnershipQualifier F id q : hs F (setOwnershipQualifier F id q).
Proof.
  apply heldStep_mapInsts. intros [i k]; simpl.
  destruct (i =? id); [|split; [done|apply heldKinds_refl]].
  destruct k; simpl; (split; [done|]); try apply heldKinds_refl.
  split; [done|]. split; [done|]. split; [done|].
  intros src' qual' [= <- <- <-]. by exists src, qual.
Qed.

(** The invariant of the function moves along a step. *)
Lemma HeldFun_step n0 F F' :
  (∀ n, n0 ≤ n → held (ValueOf n) = true) →
  hs F F' → HeldFun a held n0 F → HeldFun a held n0 F'.
Proof.
  intros Hfresh [Hn H] [Hn0 Hl Hs]. split.
  - lia.
  - intros q Inst' Hin Hld. destruct (H q Inst' Hin) as [[Hge _]|(Inst & Hin0 & Hid & Hk)].
    + apply Hfresh. lia.
    + unfold asValue. rewrite <- Hid. apply (Hl q Inst Hin0). by apply Hk.
  - intros q Inst' src' qual' Hin Hk'.
    destruct (H q Inst' Hin) as [[_ Hns]|(Inst & Hin0 & Hid & _ & _ & _ & HS)].
    + by rewrite Hk' in Hns.
    + destruct (HS src' qual' Hk') as (src & qual & Hk & Hh).
      apply Hh. by eapply Hs.
Qed.

(** No [destroy_value] among the old numbers [rest] comes to destroy a
    value in [held]. *)
Lemma destroys_step (rest : list nat) F F' :
  hs F F' → (∀ id, id ∈ rest → id < nextID F) →
  (∀ q Inst, (q, Inst) ∈ allInsts F → instID Inst ∈ rest →
             destroysHeld held (kind Inst) = false) →
  ∀ q Inst, (q, Inst) ∈ allInsts F' → instID Inst ∈ rest →
            destroysHeld held (kind Inst) = false.
Proof.
  intros [_ H] Hold Hdv q Inst' Hin Hid.
  destruct (H q Inst' Hin) as [[Hge _]|(Inst & Hin0 & Hid0 & _ & _ & HD & _)].
  - apply Hold in Hid. lia.
  - destruct (kind Inst') as [| | | | | | | | | |x'| | | | | | | | |] eqn:Hk'; try done.
    destruct (HD x' eq_refl) as (x & Hk & Hx). simpl.
    rewrite <- Hid0 in Hid. pose proof (Hdv q Inst Hin0 Hid) as Hdx.
    rewrite Hk in Hdx. simpl in Hdx. by rewrite (Hx Hdx).
Qed.

End HeldStep.

Section HeldRewrites.
Variables (hasOwnership : bool) (getOwnershipKind : SILFunction → SILValue → OwnershipKind).
Variables (a : nat) (held : SILValue → bool) (n0 : nat).
Hypothesis held_fresh : ∀ n, n0 ≤ n → held (ValueOf n) = true.
#[local] Abbreviation hr := (heldStep a held).

Lemma heldStep_emitBeginBorrow F pos v :
  let r := emitBeginBorrowOperation hasOwnership getOwnershipKind F pos v in
  hr F r.1 ∧ (n0 ≤ nextID F → held v = true → held r.2 = true).
Proof.
  unfold emitBeginBorrowOperation. destruct (_ || _); simpl.
  - split; [apply heldStep_refl|auto].
  - split; [by apply (heldStep_createBefore a held F pos (BeginBorrowInst v))|].
    intros Hn _. by apply held_fresh.
Qed.

Lemma heldStep_createObjectProjection F pos proj v :
  let r := createObjectProjection F pos proj v in
  hr F r.1 ∧ (n0 ≤ nextID F → held r.2 = true).
Proof.
  destruct proj; simpl; (split; [|apply held_fresh]);
    match goal with
    | |- heldStep _ _ _ (mkFunction _ _) =>
        first [ exact (heldStep_createBefore a held F pos (StructExtractInst v field)
                         eq_refl)
              | exact (heldStep_createBefore a held F pos (TupleExtractInst v field)
                         eq_refl)
              | exact (heldStep_createBefore a held F pos (UncheckedBitwiseCastInst v)
                         eq_refl) ]
    end.
Qed.

Lemma heldStep_projectValue pos projections :
  ∀ F val borrowed,
    let r := projectValue hasOwnership getOwnershipKind F pos projections val borrowed in
    hr F r.1.1 ∧ (n0 ≤ nextID F → held val = true → held r.1.2 = true).
Proof.
  induction projections as [|proj rest IH]; intros F val borrowed; simpl.
  - split; [apply heldStep_refl|auto].
  - destruct (isFieldProjection (kind proj)).
    + pose proof (heldStep_emitBeginBorrow F pos val) as [HB1 HB2]. simpl in HB1, HB2.
      destruct (emitBeginBorrowOperation _ _ F pos val) as [F1 opVal]; simpl in *.
      assert (Hcont : ∀ v b,
                let r := (let '(F2, val2) := createObjectProjection F1 pos (kind proj) v in
                          projectValue hasOwnership getOwnershipKind F2 pos rest val2 b) in
                hr F r.1.1 ∧ (n0 ≤ nextID F → held val = true → held r.1.2 = true)).
      { intros v b.
        pose proof (heldStep_createObjectProjection F1 pos (kind proj) v) as [HC1 HC2].
        simpl in HC1, HC2.
        destruct (createObjectProjection F1 pos (kind proj) v) as [F2 val2]; simpl in *.
        destruct (IH F2 val2 b) as [IH1 IH2]. split.
        - eapply heldStep_trans; [exact HB1|]. eapply heldStep_trans; [exact HC1|exact IH1].
        - intros Hn Hval. destruct HB1 as (Hn1 & _), HC1 as (Hn2 & _).
          apply IH2; [lia|]. apply HC2. lia. }
      destruct (bool_decide (opVal ≠ val)); apply Hcont.
    + pose proof (heldStep_createObjectProjection F pos (kind proj) val) as [HC1 HC2].
      simpl in HC1, HC2.
      destruct (createObjectProjection F pos (kind proj) val) as [F2 val2]; simpl in *.
      destruct (IH F2 val2 borrowed) as [IH1 IH2]. split.
      * eapply heldStep_trans; [exact HC1|exact IH1].
      * intros Hn Hval. destruct HC1 as (Hn2 & _). apply IH2; [lia|]. by apply HC2.
Qed.

Lemma heldStep_eraseDeadProjections fuel :
  ∀ F ASI op F', eraseDeadProjections fuel F ASI op = Some F' → hr F F'.
Proof.
  induction fuel as [|n IH]; intros F ASI op F'; simpl;
    destruct (_ && _); try done; try (intros [= <-]; apply heldStep_refl).
  destruct (definingInst F op) as [D|]; simpl; [|done].
  destruct (assert _); simpl; [|done].
  destruct (getOperand0 (kind D)) as [next|]; simpl; [|done].
  intros H. eapply heldStep_trans; [apply heldStep_erase|by eapply IH].
Qed.

Lemma heldStep_fold_endBorrow pos borrowed :
  ∀ F, hr F (fold_left (λ F b, (createBefore F pos (EndBorrowInst b)).1) borrowed F).
Proof.
  induction borrowed as [|b r IH]; intros F; simpl; [apply heldStep_refl|].
  eapply heldStep_trans; [|apply IH].
  exact (heldStep_createBefore a held F pos (EndBorrowInst b) eq_refl).
Qed.

Lemma heldStep_replaceLoad F LI val F' :
  a < nextID F → n0 ≤ nextID F → instID LI ≠ a → val ≠ ValueOf a →
  held (asValue LI) = true → held val = true →
  replaceLoad hasOwnership getOwnershipKind F LI val (ValueOf a) = Some F' →
  hr F F'.
Proof.
  intros Hlt Hn0 HLI Hval HhLI Hhval. unfold replaceLoad.
  destruct (kind LI) as [|op qual| | | | | | | | | | | | | | | | | |]; try done.
  destruct (collectProjections _ F (ValueOf a) op) as [projections|]; simpl; [|done].
  pose proof (heldStep_projectValue (instID LI) (rev projections) F val []) as [HP1 HP2].
  pose proof (evolves_projectValue hasOwnership getOwnershipKind a (instID LI)
                (rev projections) F val []) as [_ HP3].
  simpl in HP1, HP2, HP3.
  destruct (projectValue _ _ F (instID LI) (rev projections) val [])
    as [[F1 val1] borrowed]; simpl in *.
  specialize (HP2 Hn0 Hhval). specialize (HP3 Hlt Hval).
  assert (Hn1 : nextID F ≤ nextID F1) by apply HP1.
  assert (Hold : ValueOf (instID LI) ≠ ValueOf a) by congruence.
  destruct (if bool_decide (qual = LoadCopy) then _ else _) as [F2|] eqn:E2;
    simpl; [|done].
  assert (H2 : hr F1 F2).
  { destruct (bool_decide (qual = LoadCopy)).
    - simpl in E2. injection E2 as <-.
      eapply heldStep_trans;
        [exact (heldStep_createBefore a held F1 (instID LI) (CopyValueInst val1) eq_refl)|].
      apply heldStep_replaceAllUsesWith; [done| |done|].
      + intros [= Heq]. lia.
      + apply held_fresh. lia.
    - destruct (assert _); simpl in E2; [|done]. injection E2 as <-.
      by apply heldStep_replaceAllUsesWith. }
  intros HE. pose proof (heldStep_eraseDeadProjections _ _ _ _ _ HE) as H4.
  eapply heldStep_trans; [exact HP1|]. eapply heldStep_trans; [exact H2|].
  eapply heldStep_trans; [apply heldStep_fold_endBorrow|].
  eapply heldStep_trans; [apply heldStep_erase|exact H4].
Qed.

Lemma heldStep_replaceDestroy F DAI Ty NewValue F' :
  replaceDestroy F DAI Ty NewValue = Some F' → hr F F'.
Proof.
  unfold replaceDestroy.
  destruct (assert (isLoadable Ty)); simpl; [|done].
  destruct (assert (_ || _)); simpl; [|done]. intros [= <-].
  eapply heldStep_trans; [|apply heldStep_erase].
  destruct NewValue as [v|]; [|apply heldStep_refl].
  exact (heldStep_createBefore a held F (instID DAI) (DestroyValueInst v) eq_refl).
Qed.

Lemma heldStep_promoteDebugValueAddr F DVAI Ty Value F' :
  promoteDebugValueAddr F DVAI Ty Value = Some F' → hr F F'.
Proof.
  unfold promoteDebugValueAddr.
  destruct (assert (isLoadable Ty)); simpl; [|done].
  destruct (kind DVAI); try done.
  destruct (existsb _ _); intros [= <-].
  - apply heldStep_erase.
  - eapply heldStep_trans; [|apply heldStep_erase].
    exact (heldStep_createBefore a held F (instID DVAI) (DebugValueInst Value varInfo)
             eq_refl).
Qed.

End HeldRewrites.

(** *** The scan and the values the slot may hold *)

Section HeldScan.
Variables (hasOwnership : bool) (getOwnershipKind : SILFunction → SILValue → OwnershipKind).
Variables (alloc : AllocStack) (p BB : nat) (ids0 : list nat) (dvfree : bool).
Variables (held : SILValue → bool) (n0 : nat) (protected : bool).
Hypothesis held_fresh : ∀ n, n0 ≤ n → held (ValueOf n) = true.
#[local] Abbreviation ha := (allocID alloc).
#[local] Abbreviation hty := (allocElementType alloc).
#[local] Abbreviation HInv := (HeldInv ha held n0 protected).

Lemma HeldInv_move F RV LS id rest F' RV' LS' :
  heldStep ha held F F' →
  HInv (mkScan F RV LS) (id :: rest) →
  (∀ r, RV' = Some r → held r = true) →
  HInv (mkScan F' RV' LS') rest.
Proof.
  intros Hs [Hfun Hold Hrv Hdv] Hrv'. simpl in *. split; simpl.
  - by eapply HeldFun_step.
  - intros i Hi. destruct Hs as [Hn _].
    pose proof (Hold i (list_elem_of_further _ _ _ Hi)). lia.
  - done.
  - intros Hp q Inst Hin Hid.
    eapply (destroys_step ha held (id :: rest) F F'); [done|done|by apply Hdv|exact Hin|].
    by apply list_elem_of_further.
Qed.

(** In a protected block the turn to come is no [destroy_value] of the
    running value. *)
Lemma HeldInv_keeps st id rest :
  HInv st (id :: rest) → protected = true → keepsLastStore st id.
Proof.
  intros [_ _ Hhrv Hdv] Hp q Inst x Hfind Hk HRV. exfalso.
  destruct (findInst_in _ _ _ _ Hfind) as [Hin Hid].
  pose proof (Hdv Hp q Inst Hin) as Hd. rewrite Hid, Hk in Hd.
  specialize (Hd (list_elem_of_here _ _)). simpl in Hd.
  rewrite (Hhrv x HRV) in Hd. done.
Qed.

(** One turn of the loop keeps the invariant, and in a protected block
    it does not forget the retained store. *)
Lemma held_step st pre id rest st' stop :
  ScanInv ha p hty BB ids0 dvfree st pre (id :: rest) →
  HInv st (id :: rest) →
  promoteAllocationInBlock_body hasOwnership getOwnershipKind alloc st id
    = Some (st', stop) →
  (protected = true → keepsLastStore st id) ∧
  HInv st' rest ∧ heldStep ha held (scanF st) (scanF st').
Proof.
  intros [Hsplit Hstatic Halloc Hrv Hls _ _] HH.
  destruct st as [F RV LS]. simpl in Hstatic, Halloc, Hrv, Hls.
  pose proof HH as [Hfun Hold Hhrv Hdv]. simpl in Hfun, Hold, Hhrv, Hdv.
  pose proof (static_wf _ _ _ _ Hstatic) as Hwf.
  assert (Hkeep : protected = true → keepsLastStore (mkScan F RV LS) id).
  { by apply (HeldInv_keeps _ id rest). }
  assert (Hsame : ∀ LS', HInv (mkScan F RV LS') rest ∧ heldStep ha held F F).
  { intros LS'. split; [|apply heldStep_refl].
    eapply HeldInv_move; [apply heldStep_refl|exact HH|done]. }
  intros E. split; [done|]. revert E.
  unfold promoteAllocationInBlock_body. cbn [scanF RunningVal LastStore].
  unfold allocValue.
  destruct (findInst F id) as [[q Inst]|] eqn:Hfind; [|intros [= <- <-]; apply Hsame].
  destruct (findInst_in _ _ _ _ Hfind) as [Hin Hid].
  assert (Hida : (∀ ty0, kind Inst ≠ AllocStackInst ty0) → id ≠ ha).
  { intros Hk. by eapply (present_other ha p hty); [exact Halloc|exact Hfind|]. }
  assert (Halt : ha < nextID F) by apply Halloc.
  assert (Hn0 : n0 ≤ nextID F) by apply Hfun.
  assert (Hmove : ∀ F' LS', heldStep ha held F F' →
            HInv (mkScan F' RV LS') rest ∧ heldStep ha held F F').
  { intros F' LS' Hs. split; [|done]. by eapply HeldInv_move. }
  destruct (isLoadFromStack F Inst (ValueOf ha)) eqn:Hload'.
  - unfold isLoadFromStack in Hload'.
    destruct (kind Inst) as [|op qual| | | | | | | | | | | | | | | | | |] eqn:Hk;
      try done.
    assert (HhI : held (asValue Inst) = true).
    { apply (held_loads _ _ _ _ Hfun q Inst Hin). by rewrite Hk. }
    destruct RV as [rv|].
    + destruct (replaceLoad _ _ F Inst rv (ValueOf ha)) as [F1|] eqn:E; simpl; [|done].
      intros [= <- <-]. apply Hmove.
      assert (Hne : instID Inst ≠ ha) by (rewrite Hid; by apply Hida).
      exact (heldStep_replaceLoad hasOwnership getOwnershipKind ha held n0 held_fresh
               F Inst rv F1 Halt Hn0 Hne (Hrv rv eq_refl) HhI (Hhrv rv eq_refl) E).
    + destruct (bool_decide (op = ValueOf ha) && bool_decide (qual ≠ LoadCopy)).
      * intros [= <- <-]. split; [|apply heldStep_refl].
        eapply HeldInv_move; [apply heldStep_refl|exact HH|]. by intros r [= <-].
      * intros [= <- <-]. apply Hsame.
  - destruct (kind Inst) eqn:Hk; try (intros [= <- <-]; apply Hsame).
    + (* a store *)
      case_bool_decide as Hdest; [intros [= <- <-]; apply Hsame|].
      intros [= <- <-].
      assert (Hd : dest = ValueOf ha) by (by destruct (decide (dest = ValueOf ha))).
      subst dest.
      set (Fa := if bool_decide (qual = StoreAssign) then _ else F).
      assert (Ha : heldStep ha held F Fa).
      { subst Fa. destruct (bool_decide (qual = StoreAssign)); [|apply heldStep_refl].
        eapply heldStep_trans; [|apply heldStep_setOwnershipQualifier].
        destruct RV as [rv|].
        - exact (heldStep_createBefore ha held F id (DestroyValueInst rv) eq_refl).
        - eapply heldStep_trans.
          + exact (heldStep_createBefore ha held F id (LoadInst (ValueOf ha) LoadTake)
                     eq_refl).
          + exact (heldStep_createBefore ha held
                     (createBefore F id (LoadInst (ValueOf ha) LoadTake)).1 id
                     (DestroyValueInst (ValueOf (nextID F))) eq_refl). }
      assert (Hb : heldStep ha held F
                     match LS with Some last => eraseFromParent Fa last | None => Fa end).
      { destruct LS; [|done]. eapply heldStep_trans; [exact Ha|apply heldStep_erase]. }
      split; [|exact Hb]. eapply HeldInv_move; [exact Hb|exact HH|].
      intros r [= <-]. by apply (held_stores _ _ _ _ Hfun q Inst src qual Hin).
    + (* debug_value_addr *)
      destruct RV as [rv|]; [|intros [= <- <-]; apply Hsame].
      case_bool_decide; [|intros [= <- <-]; apply Hsame].
      destruct (promoteDebugValueAddr F Inst hty rv) as [F1|] eqn:E; simpl; [|done].
      intros [= <- <-]. apply Hmove.
      exact (heldStep_promoteDebugValueAddr ha held F Inst hty rv F1 E).
    + (* destroy_addr *)
      destruct RV as [rv|]; [|intros [= <- <-]; apply Hsame].
      case_bool_decide; [|intros [= <- <-]; apply Hsame].
      destruct (replaceDestroy F Inst hty (Some rv)) as [F1|] eqn:E; simpl; [|done].
      intros [= <- <-]. apply Hmove.
      exact (heldStep_replaceDestroy ha held F Inst hty (Some rv) F1 E).
    + (* destroy_value *)
      case_bool_decide; intros [= <- <-]; apply Hsame.
Qed.

End HeldScan.

Section ScanLoop.
Variables (hasOwnership : bool) (getOwnershipKind : SILFunction → SILValue → OwnershipKind).
Variables (alloc : AllocStack) (p BB : nat) (ids0 : list nat) (dvfree : bool).
Variables (held : SILValue → bool) (n0 : nat).
Hypothesis held_fresh : ∀ n, n0 ≤ n → held (ValueOf n) = true.
#[local] Abbreviation a'' := (allocID alloc).
#[local] Abbreviation Inv'' := (ScanInv a'' p (allocElementType alloc) BB ids0 dvfree).

Lemma scan_loop rest :
  ∀ pre st st',
    Inv'' st pre rest →
    HeldInv a'' held n0 dvfree st rest →
    forEachInst (promoteAllocationInBlock_body hasOwnership getOwnershipKind alloc)
                st rest = Some st' →
    wfIDs (scanF st') ∧
    (dvfree = true →
     ∀ Inst, (BB, Inst) ∈ allInsts (scanF st') → isSlotStore a'' (kind Inst) = true →
             LastStore st' = Some (instID Inst)) ∧
    (∃ FL, ∀ Inst, (BB, Inst) ∈ allInsts (scanF st') →
                   isSlotLoad a'' (kind Inst) = true → FL = Some (instID Inst)) ∧
    HeldFun a'' held n0 (scanF st') ∧
    heldStep a'' held (scanF st) (scanF st').
Proof.
  induction rest as [|id rest IH]; intros pre st st' HI HH.
  - intros [= <-]. destruct HI as [Hsplit Hstatic Halloc Hrv Hls Hdv Hload].
    split; [apply Hstatic|]. split; [|split; [|split; [apply HH|apply heldStep_refl]]].
    + intros Hd Inst Hin Hs.
      destruct (Hdv Hd Inst Hin Hs) as [Hi|?]; [by apply elem_of_nil in Hi|done].
    + destruct Hload as (FL & _ & Hl). exists FL. intros Inst Hin Hs.
      destruct (Hl Inst Hin Hs) as [Hi|?]; [by apply elem_of_nil in Hi|done].
  - rewrite forEachInst_cons.
    destruct (promoteAllocationInBlock_body hasOwnership getOwnershipKind alloc st id)
      as [[st1 stop]|] eqn:E; [|done].
    destruct (held_step hasOwnership getOwnershipKind alloc p BB ids0 dvfree held n0
                dvfree held_fresh st pre id rest st1 stop HI HH E)
      as (Hkeep & HH1 & Hstep1).
    destruct (scan_step hasOwnership getOwnershipKind alloc p BB ids0 dvfree
                st pre id rest st1 stop HI Hkeep E)
      as [[-> HI1]|(-> & -> & q & D & Hfind & Hdealloc)].
    + intros Hrest.
      destruct (IH (pre ++ [id]) st1 st' HI1 HH1 Hrest) as (H1 & H2 & H3 & H4 & H5).
      split; [done|]. split; [done|]. split; [done|]. split; [done|].
      by eapply heldStep_trans.
    + intros [= <-]. destruct HI as [Hsplit Hstatic Halloc Hrv Hls Hdv Hload].
      pose proof (static_wf _ _ _ _ Hstatic) as Hwf.
      destruct (findInst_in _ _ _ _ Hfind) as [HinD HidD].
      assert (Hq : q = BB).
      { eapply (static_label _ _ _ _ Hstatic); [exact HinD|].
        rewrite HidD, Hsplit. apply elem_of_app. right. apply list_elem_of_here. }
      subst q.
      assert (Hquiet : ∀ Inst, (BB, Inst) ∈ allInsts (scanF st) →
                instID Inst ∈ id :: rest →
                isSlotStore a'' (kind Inst) = false ∧ isSlotLoad a'' (kind Inst) = false).
      { intros Inst Hin Hi. apply elem_of_cons in Hi as [Hi|Hi].
        - destruct (wfIDs_unique _ BB D BB Inst Hwf HinD Hin) as [_ <-]; [congruence|].
          by destruct (kind D).
        - eapply (static_quiet _ _ _ _ Hstatic D pre rest); try done.
          by rewrite HidD. }
      split; [done|]. split; [|split; [|split; [apply HH|apply heldStep_refl]]].
      * intros Hd Inst Hin Hs.
        destruct (Hdv Hd Inst Hin Hs) as [Hi|?]; [|done].
        destruct (Hquiet Inst Hin Hi). congruence.
      * destruct Hload as (FL & _ & Hl). exists FL. intros Inst Hin Hs.
        destruct (Hl Inst Hin Hs) as [Hi|?]; [|done].
        destruct (Hquiet Inst Hin Hi). congruence.
Qed.

(** In a protected block no turn of the scan forgets a retained
    store. *)
Lemma held_visits rest :
  ∀ pre st st1 id rest1,
    ScanInv a'' p (allocElementType alloc) BB ids0 false st pre rest →
    HeldInv a'' held n0 true st rest →
    scanVisits (promoteAllocationInBlock_body hasOwnership getOwnershipKind alloc)
               st rest st1 id rest1 →
    keepsLastStore st1 id.
Proof.
  intros pre st st1 id rest1 HI HH Hvis. revert pre HI HH.
  induction Hvis as [st id rest|st id rest st1 st' id' rest' E _ IH]; intros pre HI HH.
  - eapply HeldInv_keeps; [exact HH|done].
  - destruct (held_step hasOwnership getOwnershipKind alloc p BB ids0 false held n0
                true held_fresh st pre id rest st1 false HI HH E) as (_ & HH1 & _).
    destruct (scan_step hasOwnership getOwnershipKind alloc p BB ids0 false
                st pre id rest st1 false HI
                (λ H, False_ind _ (Bool.diff_false_true H)) E)
      as [[_ HI1]|(Hstop & _)]; [|done].
    by apply (IH (pre ++ [id])).
Qed.

End ScanLoop.

(** *** Counting the stores *)

Section ScanKept.
Variables (hasOwnership : bool) (getOwnershipKind : SILFunction → SILValue → OwnershipKind).
Variables (alloc : AllocStack) (p BB : nat) (ids0 : list nat).
#[local] Abbreviation ka := (allocID alloc).
#[local] Abbreviation kbody :=
  (promoteAllocationInBlock_body hasOwnership getOwnershipKind alloc).
#[local] Abbreviation KInv := (ScanInv ka p (allocElementType alloc) BB ids0 true).

Lemma destroysRunningVal_dec st id :
  destroysRunningVal st id ∨ ¬ destroysRunningVal st id.
Proof.
  unfold destroysRunningVal.
  destruct (findInst (scanF st) id) as [[q Inst]|] eqn:Hfind;
    [|right; by intros (? & ? & ? & ? & _)].
  destruct (kind Inst) as [| | | | | | | | | |x| | | | | | | | |] eqn:Hk;
    try (right; intros (? & ? & ? & [= <- <-] & ? & _); congruence).
  destruct (decide (RunningVal st = Some x)) as [HRV|HRV].
  - left. by exists q, Inst, x.
  - right. intros (? & ? & ? & [= <- <-] & ? & ?). congruence.
Qed.

Lemma keeps_or_forgets st id : keepsLastStore st id ∨ forgetsLastStore st id.
Proof.
  destruct (destroysRunningVal_dec st id) as [Hd|Hd].
  - destruct (LastStore st) as [last|] eqn:HLS.
    + right. split; [done|by exists last].
    + left. by intros q Inst x _ _ _.
  - left. intros q Inst x Hfind Hk HRV. exfalso. apply Hd. by exists q, Inst, x.
Qed.

(** At a [destroy_value] of the running value the scan clears
    [LastStore] and nothing else. *)
Lemma body_destroys st id :
  destroysRunningVal st id →
  kbody st id = Some (mkScan (scanF st) (RunningVal st) None, false).
Proof.
  intros (q & Inst & x & Hfind & Hk & HRV).
  unfold promoteAllocationInBlock_body. rewrite Hfind.
  unfold isLoadFromStack. rewrite Hk, HRV.
  by rewrite bool_decide_eq_true_2.
Qed.

(** Elsewhere, stores to the slot apart, the scan passes [LastStore] on
    and does not look at it. *)
Lemma body_other LS' st id st1 stop :
  ¬ storesToSlot alloc st id → ¬ destroysRunningVal st id →
  kbody st id = Some (st1, stop) →
  LastStore st1 = LastStore st ∧
  kbody (mkScan (scanF st) (RunningVal st) LS') id
    = Some (mkScan (scanF st1) (RunningVal st1) LS', stop).
Proof.
  intros Hns Hnd. destruct st as [F RV LS].
  unfold promoteAllocationInBlock_body. cbn [scanF RunningVal LastStore].
  destruct (findInst F id) as [[q Inst]|] eqn:Hfind; [|by intros [= <- <-]].
  destruct (isLoadFromStack F Inst (allocValue alloc)).
  - destruct RV as [rv|].
    + destruct (replaceLoad _ _ F Inst rv (allocValue alloc)) as [F1|]; simpl; [|done].
      by intros [= <- <-].
    + destruct (kind Inst); try by intros [= <- <-].
      destruct (_ && _); by intros [= <- <-].
  - destruct (kind Inst) as [| |src dest qual| | | | |op vi| |op|x| | | | | | | | |] eqn:Hk;
      try by intros [= <- <-].
    + case_bool_decide as Hdest; [by intros [= <- <-]|]. exfalso. apply Hns.
      exists q, Inst, src, qual. split; [done|].
      destruct (decide (dest = allocValue alloc)) as [->|Hne]; [done|].
      by destruct Hdest.
    + destruct RV as [rv|]; [|by intros [= <- <-]].
      case_bool_decide; [|by intros [= <- <-]].
      destruct (promoteDebugValueAddr F Inst _ rv) as [F1|]; simpl; [|done].
      by intros [= <- <-].
    + destruct RV as [rv|]; [|by intros [= <- <-]].
      case_bool_decide; [|by intros [= <- <-]].
      destruct (replaceDestroy F Inst _ (Some rv)) as [F1|]; simpl; [|done].
      by intros [= <- <-].
    + case_bool_decide as Hx; [|by intros [= <- <-]]. exfalso. apply Hnd.
      by exists q, Inst, x.
Qed.

(** Once a retained store [ls0] is forgotten and as long as no store to
    the slot is met, [ls0] stays the only store to the slot in the
    block. *)
Lemma scan_loop_sealed rest :
  ∀ pre F RV ls0 st',
    KInv (mkScan F RV (Some ls0)) pre rest →
    (∀ st2 id2 rest2, scanVisits kbody (mkScan F RV None) rest st2 id2 rest2 →
                      ¬ storesToSlot alloc st2 id2) →
    forEachInst kbody (mkScan F RV None) rest = Some st' →
    ∀ Inst, (BB, Inst) ∈ allInsts (scanF st') → isSlotStore ka (kind Inst) = true →
            Some ls0 = Some (instID Inst).
Proof.
  induction rest as [|id rest IH]; intros pre F RV ls0 st' HI Hno.
  - intros [= <-]. destruct HI as [Hsplit Hstatic Halloc Hrv Hls Hdv Hload].
    intros Inst Hin Hs.
    destruct (Hdv eq_refl Inst Hin Hs) as [Hi|?]; [by apply elem_of_nil in Hi|done].
  - rewrite forEachInst_cons.
    destruct (kbody (mkScan F RV None) id) as [[st1 stop]|] eqn:E; [|done].
    pose proof (Hno _ _ _ (visits_here _ (mkScan F RV None) id rest)) as Hns.
    assert (Hlater : ∀ st2 id2 rest2,
              stop = false → scanVisits kbody st1 rest st2 id2 rest2 →
              ¬ storesToSlot alloc st2 id2).
    { intros st2 id2 rest2 -> Hvis. apply (Hno st2 id2 rest2).
      by eapply visits_later. }
    destruct (destroysRunningVal_dec (mkScan F RV None) id) as [Hd|Hd].
    + rewrite (body_destroys _ _ Hd) in E. injection E as <- <-. simpl.
      destruct Hd as (q & Inst0 & x & Hfind & Hk & _). simpl in Hfind.
      apply (IH (pre ++ [id])); [|intros ? ? ?; by apply Hlater].
      apply ScanInv_next; [done|].
      eapply current_notSlotAt; [|exact Hfind|by rewrite Hk..].
      apply (static_wf _ _ _ _ (inv_static _ _ _ _ _ _ _ _ _ HI)).
    + destruct (body_other (Some ls0) _ _ _ _ Hns Hd E) as [HLS E'].
      destruct st1 as [F1 RV1 LS1]. simpl in HLS, E'. subst LS1.
      assert (Hkeep : keepsLastStore (mkScan F RV (Some ls0)) id).
      { intros q Inst0 x Hfind Hk HRV. exfalso. apply Hd. by exists q, Inst0, x. }
      destruct (scan_step hasOwnership getOwnershipKind alloc p BB ids0 true
                  _ pre id rest _ stop HI (λ _, Hkeep) E')
        as [[-> HI1]|(-> & Heq & q & D & Hfind & Hdealloc)].
      * apply (IH (pre ++ [id])); [done|intros ? ? ?; by apply Hlater].
      * injection Heq as -> ->. intros [= <-]. simpl in *.
        destruct HI as [Hsplit Hstatic Halloc Hrv Hls Hdv Hload].
        pose proof (static_wf _ _ _ _ Hstatic) as Hwf.
        destruct (findInst_in _ _ _ _ Hfind) as [HinD HidD].
        assert (Hq : q = BB).
        { eapply (static_label _ _ _ _ Hstatic); [exact HinD|].
          rewrite HidD, Hsplit. apply elem_of_app. right. apply list_elem_of_here. }
        subst q. intros Inst Hin Hs.
        destruct (Hdv eq_refl Inst Hin Hs) as [Hi|?]; [|done]. exfalso.
        apply elem_of_cons in Hi as [Hi|Hi].
        -- destruct (wfIDs_unique _ BB D BB Inst Hwf HinD Hin) as [_ <-]; [congruence|].
           by destruct (kind D).
        -- assert (isSlotStore ka (kind Inst) = false ∧ isSlotLoad ka (kind Inst) = false)
             as [Hno' _].
           { eapply (static_quiet _ _ _ _ Hstatic D pre rest); try done.
             by rewrite HidD. }
           congruence.
Qed.

(** The stores of the scanned block are counted unless a store to the
    slot is met after a retained store was forgotten. *)
Lemma scan_loop_counted rest :
  ∀ pre st st',
    KInv st pre rest →
    (∀ st1 id1 rest1 st1' st2 id2 rest2,
       scanVisits kbody st rest st1 id1 rest1 →
       forgetsLastStore st1 id1 →
       kbody st1 id1 = Some (st1', false) →
       scanVisits kbody st1' rest1 st2 id2 rest2 →
       ¬ storesToSlot alloc st2 id2) →
    forEachInst kbody st rest = Some st' →
    ∃ c, ∀ Inst, (BB, Inst) ∈ allInsts (scanF st') →
                 isSlotStore ka (kind Inst) = true → c = Some (instID Inst).
Proof.
  induction rest as [|id rest IH]; intros pre st st' HI Hno.
  - intros [= <-]. destruct HI as [Hsplit Hstatic Halloc Hrv Hls Hdv Hload].
    exists (LastStore st). intros Inst Hin Hs.
    destruct (Hdv eq_refl Inst Hin Hs) as [Hi|?]; [by apply elem_of_nil in Hi|done].
  - rewrite forEachInst_cons.
    destruct (kbody st id) as [[st1 stop]|] eqn:E; [|done].
    destruct (keeps_or_forgets st id) as [Hkeep|Hforget].
    + destruct (scan_step hasOwnership getOwnershipKind alloc p BB ids0 true
                  st pre id rest st1 stop HI (λ _, Hkeep) E)
        as [[-> HI1]|(-> & -> & q & D & Hfind & Hdealloc)].
      * apply (IH (pre ++ [id]) st1 st' HI1).
        intros s1 i1 r1 s1' s2 i2 r2 Hv1 Hf1 E1 Hv2.
        apply (Hno s1 i1 r1 s1' s2 i2 r2); try done. by eapply visits_later.
      * intros [= <-]. exists (LastStore st).
        destruct HI as [Hsplit Hstatic Halloc Hrv Hls Hdv Hload].
        pose proof (static_wf _ _ _ _ Hstatic) as Hwf.
        destruct (findInst_in _ _ _ _ Hfind) as [HinD HidD].
        assert (Hq : q = BB).
        { eapply (static_label _ _ _ _ Hstatic); [exact HinD|].
          rewrite HidD, Hsplit. apply elem_of_app. right. apply list_elem_of_here. }
        subst q. intros Inst Hin Hs.
        destruct (Hdv eq_refl Inst Hin Hs) as [Hi|?]; [|done]. exfalso.
        apply elem_of_cons in Hi as [Hi|Hi].
        -- destruct (wfIDs_unique _ BB D BB Inst Hwf HinD Hin) as [_ <-]; [congruence|].
           by destruct (kind D).
        -- assert (isSlotStore ka (kind Inst) = false ∧ isSlotLoad ka (kind Inst) = false)
             as [Hno' _].
           { eapply (static_quiet _ _ _ _ Hstatic D pre rest); try done.
             by rewrite HidD. }
           congruence.
    + pose proof Hforget as [Hd [ls0 HLS]].
      pose proof E as E0. rewrite (body_destroys _ _ Hd) in E. injection E as <- <-.
      destruct st as [F RV LS]. simpl in HLS. subst LS. simpl.
      intros Hrest. exists (Some ls0).
      destruct Hd as (q & Inst0 & x & Hfind & Hk & _). simpl in Hfind.
      apply (scan_loop_sealed rest (pre ++ [id]) F RV ls0 st'); [| |done].
      * apply ScanInv_next; [done|].
        eapply current_notSlotAt; [|exact Hfind|by rewrite Hk..].
        apply (static_wf _ _ _ _ (inv_static _ _ _ _ _ _ _ _ _ HI)).
      * intros st2 id2 rest2 Hv2.
        apply (Hno _ id rest _ st2 id2 rest2 (visits_here _ _ id rest) Hforget E0 Hv2).
Qed.

End ScanKept.

(** *** The invariant at the start of the scan *)

Lemma map_instID_split l pre i post :
  map instID l = pre ++ i :: post →
  ∃ l1 D l2, l = l1 ++ D :: l2 ∧ map instID l1 = pre ∧ instID D = i ∧
             map instID l2 = post.
Proof.
  revert pre. induction l as [|x l IH]; intros pre H; simpl in H.
  - by destruct pre.
  - destruct pre as [|y pre]; simpl in H.
    + injection H as <- <-. by exists [], x, l.
    + injection H as <- H. destruct (IH pre H) as (l1 & D & l2 & -> & <- & <- & <-).
      by exists (x :: l1), D, l2.
Qed.

Lemma ScanInv_initial (alloc : AllocStack) (p : nat) (F : SILFunction) (BB : nat)
    (dvfree : bool) :
  allocPresent (allocID alloc) p (allocElementType alloc) F →
  wfIDs F → wfBlocks F →
  (∀ q Inst, (q, Inst) ∈ allInsts F →
             storesSlotAddress (allocID alloc) (kind Inst) = false) →
  quietAfterDealloc (allocID alloc) BB F →
  ScanInv (allocID alloc) p (allocElementType alloc) BB
          (blockInstIDs F BB) dvfree (mkScan F None None) [] (blockInstIDs F BB).
Proof.
  intros Hget Hwf Hwb Hsrc Hquiet.
  assert (Hids : blockInstIDs F BB = map instID (instsIn F BB)).
  { rewrite (instsIn_findBlock F BB Hwb). unfold blockInstIDs.
    by destruct (findBlock F BB). }
  assert (Hlabel : ∀ q Inst, (q, Inst) ∈ allInsts F →
             instID Inst ∈ blockInstIDs F BB → q = BB ∧ Inst ∈ instsIn F BB).
  { intros q Inst Hin Hid. rewrite Hids in Hid.
    apply list_elem_of_In, in_map_iff in Hid as (Inst0 & Heq & Hin0).
    apply list_elem_of_In in Hin0. pose proof Hin0 as Hin0'.
    apply elem_of_instsIn in Hin0.
    destruct (wfIDs_unique F BB Inst0 q Inst Hwf Hin0 Hin Heq) as [<- <-]. done. }
  assert (Hmem : ∀ Inst, (BB, Inst) ∈ allInsts F → instID Inst ∈ blockInstIDs F BB).
  { intros Inst Hin. rewrite Hids. apply list_elem_of_In, in_map.
    by apply list_elem_of_In, elem_of_instsIn. }
  split; simpl; try done.
  - split; try done.
    + intros id Hid. rewrite Hids in Hid.
      apply list_elem_of_In, in_map_iff in Hid as (Inst & <- & Hin).
      apply list_elem_of_In, elem_of_instsIn in Hin. apply (proj2 Hwf _ Hin).
    + intros q Inst Hin Hid. by destruct (Hlabel q Inst Hin Hid).
    + intros D pre post HD Hdealloc Hsplit Inst Hin Hpost.
      rewrite Hids in Hsplit.
      destruct (map_instID_split _ _ _ _ Hsplit) as (l1 & D1 & l2 & Hl & H1 & HD1 & H2).
      assert (D1 = D) as ->.
      { assert (HD1in : (BB, D1) ∈ allInsts F).
        { apply elem_of_instsIn. rewrite Hl. apply elem_of_app. right.
          apply list_elem_of_here. }
        by destruct (wfIDs_unique F BB D1 BB D Hwf HD1in HD HD1). }
      apply (Hquiet l1 D l2 Hl Hdealloc).
      rewrite <- H2 in Hpost.
      apply list_elem_of_In, in_map_iff in Hpost as (Inst2 & Heq & Hin2).
      assert (Hin2' : (BB, Inst2) ∈ allInsts F).
      { apply elem_of_instsIn. rewrite Hl. apply elem_of_app. right.
        apply list_elem_of_further. by apply list_elem_of_In. }
      destruct (wfIDs_unique F BB Inst2 BB Inst Hwf Hin2' Hin Heq) as [_ <-].
      by apply list_elem_of_In.
  - intros Hd Inst Hin _. left. by apply Hmem.
  - exists None. split; [done|]. intros Inst Hin _. left. by apply Hmem.
Qed.


(** ** The other blocks during a scan *)

Section Thinned.
Variable a : nat.

Lemma thinned_refl l : thinned a l l.
Proof. induction l; constructor; auto. Qed.

Lemma thinned_trans l1 l2 l3 : thinned a l1 l2 → thinned a l2 l3 → thinned a l1 l3.
Proof.
  intros H12. revert l3. induction H12 as [|x x' l l' Hid Hv _ IH|x l l' Hx _ IH];
    intros l3 H23.
  - done.
  - inversion H23 as [|y y' m m' Hid' Hv' H' |y m m' Hy H']; subst.
    + apply thinned_keep; [congruence|congruence|by apply IH].
    + apply thinned_drop; [|by apply IH].
      unfold relevant in *.
      by rewrite <- (same_view (isSlotStore a) a _ _ (isSlotStore_view a) Hv),
        <- (same_view (isSlotLoad a) a _ _ (isSlotLoad_view a) Hv),
        <- (same_view (isSlotDealloc a) a _ _ (isSlotDealloc_view a) Hv),
        <- (same_view isDestroyValue a _ _ (isDestroyValue_view a) Hv).
  - apply thinned_drop; [done|by apply IH].
Qed.

Lemma thinned_filter x l :
  (∀ Inst, Inst ∈ l → instID Inst = x → relevant a (kind Inst) = false) →
  thinned a l (List.filter (λ Inst, negb (instID Inst =? x)) l).
Proof.
  induction l as [|y l IH]; intros H; simpl; [constructor|].
  assert (IH' : thinned a l (List.filter (λ Inst, negb (instID Inst =? x)) l)).
  { apply IH. intros Inst Hin. apply H. by apply list_elem_of_further. }
  destruct (instID y =? x) eqn:E; simpl.
  - apply thinned_drop; [|done]. apply H; [apply list_elem_of_here|by apply Nat.eqb_eq].
  - by apply thinned_keep.
Qed.

Lemma thinned_map f l :
  (∀ Inst, instID (f Inst) = instID Inst ∧
           slotView a (kind (f Inst)) = slotView a (kind Inst)) →
  thinned a l (map f l).
Proof.
  intros Hf. induction l as [|y l IH]; simpl; [constructor|].
  apply thinned_keep; [apply Hf..|done].
Qed.

Lemma thinned_in l l' Inst' :
  thinned a l l' → Inst' ∈ l' →
  ∃ Inst, Inst ∈ l ∧ instID Inst' = instID Inst ∧
          slotView a (kind Inst') = slotView a (kind Inst).
Proof.
  induction 1 as [|x x' l l' Hid Hv _ IH|x l l' Hx _ IH]; intros Hin.
  - by apply elem_of_nil in Hin.
  - apply elem_of_cons in Hin as [->|Hin].
    + exists x. split; [apply list_elem_of_here|done].
    + destruct (IH Hin) as (y & Hy & ?). exists y. split; [|done].
      by apply list_elem_of_further.
  - destruct (IH Hin) as (y & Hy & ?). exists y. split; [|done].
    by apply list_elem_of_further.
Qed.

Lemma thinned_split l l' pre' D' post' :
  thinned a l l' → l' = pre' ++ D' :: post' →
  ∃ pre D post, l = pre ++ D :: post ∧
                slotView a (kind D') = slotView a (kind D) ∧
                thinned a post post'.
Proof.
  intros H. revert pre'. induction H as [|x x' l l' Hid Hv H IH|x l l' Hx H IH];
    intros pre' Heq.
  - by destruct pre'.
  - destruct pre' as [|y pre']; simpl in Heq.
    + injection Heq as -> ->. by exists [], x, l.
    + injection Heq as -> Heq. destruct (IH pre' Heq) as (pre & D & post & -> & ? & ?).
      by exists (x :: pre), D, post.
  - destruct (IH pre' Heq) as (pre & D & post & -> & ? & ?).
    by exists (x :: pre), D, post.
Qed.

Lemma thinned_filter_length (P : InstKind → bool) l l' :
  (∀ k, P (slotView a k) = P k) →
  (∀ k, relevant a k = false → P k = false) →
  thinned a l l' →
  length (List.filter (λ Inst, P (kind Inst)) l') =
  length (List.filter (λ Inst, P (kind Inst)) l).
Proof.
  intros Hview Hrel. induction 1 as [|x x' l l' Hid Hv _ IH|x l l' Hx _ IH]; simpl.
  - done.
  - rewrite (same_view P a _ _ Hview Hv). destruct (P (kind x)); simpl; by rewrite IH.
  - by rewrite (Hrel _ Hx).
Qed.

End Thinned.

Lemma relevant_store a k : relevant a k = false → isSlotStore a k = false.
Proof. unfold relevant. by destruct (isSlotStore a k). Qed.

Lemma relevant_load a k : relevant a k = false → isSlotLoad a k = false.
Proof. unfold relevant. destruct (isSlotLoad a k); [by rewrite orb_true_r|done]. Qed.

Lemma relevant_projection a k : isAddrProjection k = true → relevant a k = false.
Proof. by destruct k. Qed.

(** *** Blocks of a rewritten function *)

Lemma findBlock_mapLists h n' F b :
  findBlock (mapLists h n' F) b =
  (λ B, mkBlock (blockID B) (arguments B) (h (insts B))) <$> findBlock F b.
Proof.
  unfold findBlock, mapLists; simpl. induction (blocks F) as [|B r IH]; [done|].
  simpl. destruct (blockID B =? b); [done|exact IH].
Qed.

Lemma wfBlocks_mapLists h n' F : wfBlocks F → wfBlocks (mapLists h n' F).
Proof. unfold wfBlocks, mapLists; simpl. by rewrite map_map. Qed.

Lemma instsIn_mapLists h n' F b :
  wfBlocks F → h [] = [] → instsIn (mapLists h n' F) b = h (instsIn F b).
Proof.
  intros Hwb Hnil.
  rewrite (instsIn_findBlock _ b (wfBlocks_mapLists h n' F Hwb)).
  rewrite (instsIn_findBlock F b Hwb), findBlock_mapLists.
  by destruct (findBlock F b).
Qed.

Lemma insertBeforeIn_absent pos new l :
  (∀ Inst, Inst ∈ l → instID Inst ≠ pos) → insertBeforeIn pos new l = l.
Proof.
  induction l as [|x l IH]; intros H; simpl; [done|].
  rewrite (proj2 (Nat.eqb_neq _ _)) by (apply H, list_elem_of_here).
  rewrite IH; [done|]. intros Inst Hin. apply H. by apply list_elem_of_further.
Qed.

Section ThinsBlock.
Variables (a b : nat).
#[local] Abbreviation thins := (thinsBlock a b).

Lemma thins_refl F : thins F F.
Proof. intros Hwb. split; [done|apply thinned_refl]. Qed.

Lemma thins_trans F1 F2 F3 : thins F1 F2 → thins F2 F3 → thins F1 F3.
Proof.
  intros H12 H23 Hwb. destruct (H12 Hwb) as [Hwb2 Ht12].
  destruct (H23 Hwb2) as [Hwb3 Ht23]. split; [done|by eapply thinned_trans].
Qed.

Lemma thins_erase F x :
  (∀ Inst, (b, Inst) ∈ allInsts F → instID Inst = x → relevant a (kind Inst) = false) →
  thins F (eraseFromParent F x).
Proof.
  intros H Hwb. rewrite eraseFromParent_mapLists.
  split; [by apply wfBlocks_mapLists|].
  rewrite instsIn_mapLists by done. apply thinned_filter.
  intros Inst Hin. apply H. by apply elem_of_instsIn.
Qed.

Lemma thins_createBefore F pos k :
  noIdIn b pos F → thins F (createBefore F pos k).1.
Proof.
  intros H Hwb. rewrite createBefore_mapLists.
  split; [by apply wfBlocks_mapLists|].
  rewrite instsIn_mapLists by done. rewrite insertBeforeIn_absent; [apply thinned_refl|].
  intros Inst Hin. apply H. by apply elem_of_instsIn.
Qed.

Lemma thins_mapInsts f F :
  (∀ Inst, instID (f Inst) = instID Inst ∧
           slotView a (kind (f Inst)) = slotView a (kind Inst)) →
  thins F (mapInsts f F).
Proof.
  intros Hf Hwb. rewrite mapInsts_mapLists. split; [by apply wfBlocks_mapLists|].
  rewrite instsIn_mapLists by done. by apply thinned_map.
Qed.

Lemma thins_replaceAllUsesWith F old new :
  old ≠ ValueOf a → new ≠ ValueOf a → thins F (replaceAllUsesWith F old new).
Proof.
  intros Ho Hn. apply thins_mapInsts. intros Inst; simpl. split; [done|].
  by apply slotView_subst.
Qed.

Lemma thins_setOwnershipQualifier F id q : thins F (setOwnershipQualifier F id q).
Proof.
  apply thins_mapInsts. intros [i k]; simpl.
  destruct (i =? id); [|done]. by destruct k.
Qed.

(** A number that names nothing in block [b] keeps doing so while only
    new numbers are added. *)
Lemma noIdIn_evolves N F F' id :
  evolves a N F F' → id < nextID F → noIdIn b id F → noIdIn b id F'.
Proof.
  intros (_ & _ & H) Hlt Hno Inst' Hin.
  destruct (H b Inst' Hin) as [(Inst & Hin0 & Hid & _)|[Hge _]]; [|lia].
  rewrite Hid. by apply Hno.
Qed.

End ThinsBlock.

Section ThinsRewrites.
Variables (hasOwnership : bool) (getOwnershipKind : SILFunction → SILValue → OwnershipKind).
Variables (a b : nat).
#[local] Abbreviation thins' := (thinsBlock a b).

Lemma outside_evolves N F F' pos :
  evolves a N F F' → outside b pos F → outside b pos F'.
Proof.
  intros Hev [H1 H2]. split; [by eapply noIdIn_evolves|].
  destruct Hev as (Hn & _). lia.
Qed.

(** A builder outside block [b] leaves the block as it is. *)
Lemma thins_create F pos k :
  outside b pos F →
  thins' F (createBefore F pos k).1 ∧ outside b pos (createBefore F pos k).1.
Proof.
  intros Ho. split; [apply thins_createBefore, Ho|].
  eapply (outside_evolves anyN); [|exact Ho]. by apply evolves_createBefore.
Qed.

Lemma thins_emitBeginBorrow F pos v :
  outside b pos F →
  let r := emitBeginBorrowOperation hasOwnership getOwnershipKind F pos v in
  thins' F r.1 ∧ outside b pos r.1.
Proof.
  intros Ho. unfold emitBeginBorrowOperation. destruct (_ || _); simpl.
  - split; [apply thins_refl|done].
  - exact (thins_create F pos (BeginBorrowInst v) Ho).
Qed.

Lemma thins_createObjectProjection F pos proj v :
  outside b pos F →
  let r := createObjectProjection F pos proj v in
  thins' F r.1 ∧ outside b pos r.1.
Proof.
  intros Ho. destruct proj; simpl;
    first [ exact (thins_create F pos (StructExtractInst v field) Ho)
          | exact (thins_create F pos (TupleExtractInst v field) Ho)
          | exact (thins_create F pos (UncheckedBitwiseCastInst v) Ho) ].
Qed.

Lemma thins_projectValue pos projections :
  ∀ F val borrowed,
    outside b pos F →
    let r := projectValue hasOwnership getOwnershipKind F pos projections val borrowed in
    thins' F r.1.1 ∧ outside b pos r.1.1.
Proof.
  induction projections as [|proj rest IH]; intros F val borrowed Ho; simpl.
  - split; [apply thins_refl|done].
  - assert (Hcont : ∀ F1 v bs, thins' F F1 → outside b pos F1 →
              let r := (let '(F2, val2) := createObjectProjection F1 pos (kind proj) v in
                        projectValue hasOwnership getOwnershipKind F2 pos rest val2 bs) in
              thins' F r.1.1 ∧ outside b pos r.1.1).
    { intros F1 v bs Ht1 Ho1.
      pose proof (thins_createObjectProjection F1 pos (kind proj) v Ho1) as [HC1 HC2].
      simpl in HC1, HC2.
      destruct (createObjectProjection F1 pos (kind proj) v) as [F2 val2]; simpl in *.
      destruct (IH F2 val2 bs HC2) as [IH1 IH2]. split; [|done].
      eapply thins_trans; [exact Ht1|]. by eapply thins_trans. }
    destruct (isFieldProjection (kind proj)).
    + pose proof (thins_emitBeginBorrow F pos val Ho) as [HB1 HB2]. simpl in HB1, HB2.
      destruct (emitBeginBorrowOperation _ _ F pos val) as [F1 opVal]; simpl in *.
      destruct (bool_decide (opVal ≠ val)); by apply Hcont.
    + apply Hcont; [apply thins_refl|done].
Qed.

Lemma thins_fold_endBorrow pos borrowed :
  ∀ F, outside b pos F →
    let F' := fold_left (λ F v, (createBefore F pos (EndBorrowInst v)).1) borrowed F in
    thins' F F' ∧ outside b pos F'.
Proof.
  induction borrowed as [|v r IH]; intros F Ho; simpl.
  - split; [apply thins_refl|done].
  - destruct (thins_create F pos (EndBorrowInst v) Ho) as [H1 H2].
    destruct (IH _ H2) as [H3 H4]. split; [by eapply thins_trans|done].
Qed.

Lemma thins_eraseDeadProjections fuel :
  ∀ F op F', wfIDs F →
    eraseDeadProjections fuel F (ValueOf a) op = Some F' → thins' F F'.
Proof.
  induction fuel as [|n IH]; intros F op F' Hwf; simpl;
    destruct (_ && _); try done; try (intros [= <-]; apply thins_refl).
  destruct (definingInst F op) as [D|] eqn:HD; simpl; [|done].
  destruct (isAddrProjection (kind D)) eqn:Hproj; simpl; [|done].
  destruct (getOperand0 (kind D)) as [next|]; simpl; [|done].
  intros H. eapply thins_trans; [|eapply IH; [by apply wfIDs_erase|exact H]].
  apply thins_erase. intros Inst Hin Hid.
  destruct op as [|x]; simpl in HD; [done|].
  destruct (findInst F x) as [[q D0]|] eqn:E; simpl in HD; [|done].
  injection HD as ->. destruct (findInst_in _ _ _ _ E) as [HinD _].
  destruct (wfIDs_unique F q D b Inst Hwf HinD Hin) as [_ <-]; [done|].
  by apply relevant_projection.
Qed.

Lemma thins_replaceLoad F LI val F' :
  wfIDs F → outside b (instID LI) F →
  a < nextID F → instID LI ≠ a → val ≠ ValueOf a →
  replaceLoad hasOwnership getOwnershipKind F LI val (ValueOf a) = Some F' →
  thins' F F'.
Proof.
  intros Hwf Ho Hlt HLI Hval. unfold replaceLoad.
  destruct (kind LI) as [|op qual| | | | | | | | | | | | | | | | | |]; try done.
  destruct (collectProjections _ F (ValueOf a) op) as [projections|]; simpl; [|done].
  pose proof (thins_projectValue (instID LI) (rev projections) F val [] Ho) as [HP1 HP2].
  pose proof (evolves_projectValue hasOwnership getOwnershipKind a (instID LI)
                (rev projections) F val []) as [HE1 HE2].
  simpl in HP1, HP2, HE1, HE2.
  destruct (projectValue _ _ F (instID LI) (rev projections) val [])
    as [[F1 val1] borrowed]; simpl in *.
  specialize (HE2 Hlt Hval).
  assert (Hn1 : nextID F ≤ nextID F1) by apply HE1.
  assert (Hwf1 : wfIDs F1) by (by apply HE1).
  assert (Hold : ValueOf (instID LI) ≠ ValueOf a) by congruence.
  destruct (if bool_decide (qual = LoadCopy) then _ else _) as [F2|] eqn:E2;
    simpl; [|done].
  assert (H2 : thins' F1 F2 ∧ outside b (instID LI) F2 ∧ wfIDs F2).
  { destruct (bool_decide (qual = LoadCopy)).
    - simpl in E2. injection E2 as <-.
      destruct (thins_create F1 (instID LI) (CopyValueInst val1) HP2) as [HC1 HC2].
      assert (Hnew : ValueOf (nextID F1) ≠ ValueOf a) by (apply fresh_not_slot; lia).
      split; [|split].
      + eapply thins_trans; [exact HC1|]. by apply thins_replaceAllUsesWith.
      + eapply (outside_evolves anyN); [|exact HC2].
        by apply evolves_replaceAllUsesWith.
      + apply wfIDs_mapInsts; [done|]. by apply wfIDs_createBefore.
    - destruct (assert _); simpl in E2; [|done]. injection E2 as <-.
      split; [|split].
      + by apply thins_replaceAllUsesWith.
      + eapply (outside_evolves anyN); [|exact HP2].
        by apply evolves_replaceAllUsesWith.
      + by apply wfIDs_mapInsts. }
  destruct H2 as (H2 & Ho2 & Hwf2).
  destruct (thins_fold_endBorrow (instID LI) borrowed F2 Ho2) as [H3 Ho3].
  pose proof (evolves_fold_endBorrow a (instID LI) borrowed F2) as (_ & Hwf3 & _).
  simpl in H3, Ho3. set (F3 := fold_left _ borrowed F2) in *.
  intros HE.
  eapply thins_trans; [exact HP1|]. eapply thins_trans; [exact H2|].
  eapply thins_trans; [exact H3|].
  eapply thins_trans; [|eapply thins_eraseDeadProjections; [|exact HE]].
  - apply thins_erase. intros Inst Hin Hid. by destruct (proj1 Ho3 Inst Hin).
  - apply wfIDs_erase. by apply Hwf3.
Qed.

Lemma thins_replaceDestroy F DAI Ty NewValue F' :
  outside b (instID DAI) F →
  replaceDestroy F DAI Ty NewValue = Some F' → thins' F F'.
Proof.
  intros Ho. unfold replaceDestroy.
  destruct (assert (isLoadable Ty)); simpl; [|done].
  destruct (assert (_ || _)); simpl; [|done]. intros [= <-].
  destruct NewValue as [v|].
  - destruct (thins_create F (instID DAI) (DestroyValueInst v) Ho) as [H1 H2].
    eapply thins_trans; [exact H1|]. apply thins_erase.
    intros Inst Hin Hid. by destruct (proj1 H2 Inst Hin).
  - apply thins_erase. intros Inst Hin Hid. by destruct (proj1 Ho Inst Hin).
Qed.

Lemma thins_promoteDebugValueAddr F DVAI Ty Value F' :
  outside b (instID DVAI) F →
  promoteDebugValueAddr F DVAI Ty Value = Some F' → thins' F F'.
Proof.
  intros Ho. unfold promoteDebugValueAddr.
  destruct (assert (isLoadable Ty)); simpl; [|done].
  destruct (kind DVAI); try done.
  destruct (existsb _ _); intros [= <-].
  - apply thins_erase. intros Inst Hin Hid. by destruct (proj1 Ho Inst Hin).
  - destruct (thins_create F (instID DVAI) (DebugValueInst Value varInfo) Ho)
      as [H1 H2].
    eapply thins_trans; [exact H1|]. apply thins_erase.
    intros Inst Hin Hid. by destruct (proj1 H2 Inst Hin).
Qed.

End ThinsRewrites.

(** *** A scan and the blocks it does not visit *)

Ltac untouched :=
  intros [= <- <-]; split; [intros; apply thins_refl|done].

Section ScanThins.
Variables (hasOwnership : bool) (getOwnershipKind : SILFunction → SILValue → OwnershipKind).
Variables (alloc : AllocStack) (p BB : nat) (ids0 : list nat).
#[local] Abbreviation sa := (allocID alloc).
#[local] Abbreviation sty := (allocElementType alloc).

(** The numbers the scan visits name nothing in another block. *)
Lemma outside_visited F b id :
  b ≠ BB → ScanStatic sa BB ids0 F → id ∈ ids0 → outside b id F.
Proof.
  intros Hb Hs Hid. split; [|by apply (static_old _ _ _ _ Hs)].
  intros Inst Hin Heq. apply Hb.
  apply (static_label _ _ _ _ Hs b Inst Hin). by rewrite Heq.
Qed.

Lemma outside_create F b pos k x :
  outside b x F → outside b x (createBefore F pos k).1.
Proof.
  apply (outside_evolves sa b anyN). by apply evolves_createBefore.
Qed.

(** One turn of the loop thins the other blocks, and [LastStore] stays
    among the numbers the scan visits. *)
Lemma scan_step_thins st pre id rest st' stop :
  ScanInv sa p sty BB ids0 false st pre (id :: rest) →
  (∀ ls, LastStore st = Some ls → ls ∈ ids0) →
  promoteAllocationInBlock_body hasOwnership getOwnershipKind alloc st id
    = Some (st', stop) →
  (∀ b, b ≠ BB → thinsBlock sa b (scanF st) (scanF st')) ∧
  (∀ ls, LastStore st' = Some ls → ls ∈ ids0).
Proof.
  intros HI HLS. pose proof HI as [Hsplit Hstatic Halloc Hrv Hls Hdv Hload].
  destruct st as [F RV LS]. simpl in Hstatic, Halloc, Hrv, Hls, Hdv, Hload, HLS.
  pose proof (static_wf _ _ _ _ Hstatic) as Hwf.
  assert (Hidin : id ∈ ids0).
  { rewrite Hsplit. apply elem_of_app. right. apply list_elem_of_here. }
  assert (Ho : ∀ b, b ≠ BB → outside b id F).
  { intros b Hb. by apply outside_visited. }
  unfold promoteAllocationInBlock_body. cbn [scanF RunningVal LastStore].
  unfold allocValue.
  destruct (findInst F id) as [[q Inst]|] eqn:Hfind; [|by untouched].
  destruct (findInst_in _ _ _ _ Hfind) as [Hin Hid].
  assert (Hida : (∀ ty0, kind Inst ≠ AllocStackInst ty0) → id ≠ sa).
  { intros Hk. by eapply (present_other sa p sty); [exact Halloc|exact Hfind|]. }
  assert (Halt : sa < nextID F) by apply Halloc.
  rewrite <- Hid in Ho.
  destruct (isLoadFromStack F Inst (ValueOf sa)) eqn:Hload'.
  - unfold isLoadFromStack in Hload'.
    destruct (kind Inst) as [|op qual| | | | | | | | | | | | | | | | | |] eqn:Hk;
      try done.
    destruct RV as [rv|].
    + destruct (replaceLoad _ _ F Inst rv (ValueOf sa)) as [F1|] eqn:E; simpl; [|done].
      intros [= <- <-]. split; [intros b Hb|done].
      assert (Hne : instID Inst ≠ sa) by (rewrite Hid; by apply Hida).
      exact (thins_replaceLoad hasOwnership getOwnershipKind sa b F Inst rv F1
               Hwf (Ho b Hb) Halt Hne (Hrv rv eq_refl) E).
    + destruct (bool_decide (op = ValueOf sa) && bool_decide (qual ≠ LoadCopy));
        by untouched.
  - destruct (kind Inst) eqn:Hk; try (by untouched).
    + (* a store *)
      case_bool_decide as Hdest; [by untouched|].
      intros [= <- <-]. split; [intros b Hb|intros ls [= <-]; done].
      specialize (Ho b Hb). rewrite Hid in Ho.
      set (Fa := if bool_decide (qual = StoreAssign) then _ else F).
      assert (Ha : thinsBlock sa b F Fa ∧ ∀ x, outside b x F → outside b x Fa).
      { subst Fa. destruct (bool_decide (qual = StoreAssign));
          [|split; [apply thins_refl|done]].
        destruct RV as [rv|].
        - split.
          + eapply thins_trans; [|apply thins_setOwnershipQualifier].
            apply thins_createBefore, Ho.
          + intros x Hx. eapply (outside_evolves sa b anyN);
              [apply evolves_setOwnershipQualifier|]. by apply outside_create.
        - split.
          + eapply thins_trans; [|apply thins_setOwnershipQualifier].
            eapply thins_trans; [apply (thins_createBefore sa b F id), Ho|].
            refine (thins_createBefore sa b
                      (createBefore F id (LoadInst (ValueOf sa) LoadTake)).1 id
                      (DestroyValueInst (ValueOf (nextID F))) _).
            by apply outside_create.
          + intros x Hx. eapply (outside_evolves sa b anyN);
              [apply evolves_setOwnershipQualifier|].
            refine (outside_create
                      (createBefore F id (LoadInst (ValueOf sa) LoadTake)).1 b id
                      (DestroyValueInst (ValueOf (nextID F))) x _).
            by apply outside_create. }
      destruct Ha as [Ha1 Ha2]. destruct LS as [last|]; [|done].
      eapply thins_trans; [exact Ha1|]. apply thins_erase.
      intros Inst' Hin' Hid'.
      assert (Hol : outside b last Fa).
      { apply Ha2, (outside_visited F b last Hb Hstatic). by apply HLS. }
      by destruct (proj1 Hol Inst' Hin').
    + (* debug_value_addr *)
      destruct RV as [rv|]; [|by untouched].
      case_bool_decide; [|by untouched].
      destruct (promoteDebugValueAddr F Inst sty rv) as [F1|] eqn:E; simpl; [|done].
      intros [= <- <-]. split; [intros b Hb|done].
      exact (thins_promoteDebugValueAddr sa b F Inst sty rv F1 (Ho b Hb) E).
    + (* destroy_addr *)
      destruct RV as [rv|]; [|by untouched].
      case_bool_decide; [|by untouched].
      destruct (replaceDestroy F Inst sty (Some rv)) as [F1|] eqn:E; simpl; [|done].
      intros [= <- <-]. split; [intros b Hb|done].
      exact (thins_replaceDestroy sa b F Inst sty (Some rv) F1 (Ho b Hb) E).
    + (* destroy_value *)
      case_bool_decide; [|by untouched].
      intros [= <- <-]. split; [intros; apply thins_refl|done].
Qed.

(** The whole scan thins the other blocks and keeps what the next scan
    relies on. *)
Lemma scan_loop_thins rest :
  ∀ pre st st',
    ScanInv sa p sty BB ids0 false st pre rest →
    (∀ ls, LastStore st = Some ls → ls ∈ ids0) →
    forEachInst (promoteAllocationInBlock_body hasOwnership getOwnershipKind alloc)
                st rest = Some st' →
    ScanStatic sa BB ids0 (scanF st') ∧
    allocPresent sa p sty (scanF st') ∧
    ∀ b, b ≠ BB → thinsBlock sa b (scanF st) (scanF st').
Proof.
  induction rest as [|id rest IH]; intros pre st st' HI HLS.
  - intros [= <-]. split; [apply HI|]. split; [apply HI|].
    intros; apply thins_refl.
  - rewrite forEachInst_cons.
    destruct (promoteAllocationInBlock_body hasOwnership getOwnershipKind alloc st id)
      as [[st1 stop]|] eqn:E; [|done].
    destruct (scan_step_thins st pre id rest st1 stop HI HLS E) as [Ht HLS1].
    destruct (scan_step hasOwnership getOwnershipKind alloc p BB ids0 false
                st pre id rest st1 stop HI
                (λ H, False_ind _ (Bool.diff_false_true H)) E)
      as [[-> HI1]|(-> & -> & _)].
    + intros Hrest. destruct (IH (pre ++ [id]) st1 st' HI1 HLS1 Hrest) as (H1 & H2 & H3).
      split; [done|]. split; [done|]. intros b Hb.
      eapply thins_trans; [by apply Ht|by apply H3].
    + intros [= <-]. split; [apply HI|]. split; [apply HI|].
      intros; apply thins_refl.
Qed.

End ScanThins.

(** *** What thinning keeps *)

Lemma thinned_quiet a b F F' :
  thinned a (instsIn F b) (instsIn F' b) →
  quietAfterDealloc a b F → quietAfterDealloc a b F'.
Proof.
  intros Ht Hq pre' D' post' Hsplit HD' Inst' Hin'.
  destruct (thinned_split a _ _ _ _ _ Ht Hsplit) as (pre & D & post & Hl & Hv & Hpost).
  destruct (thinned_in a _ _ _ Hpost Hin') as (Inst & Hin & _ & Hv').
  rewrite (same_view (isSlotDealloc a) a _ _ (isSlotDealloc_view a) Hv) in HD'.
  rewrite (same_view (isSlotStore a) a _ _ (isSlotStore_view a) Hv'),
    (same_view (isSlotLoad a) a _ _ (isSlotLoad_view a) Hv').
  by apply (Hq pre D post).
Qed.

(** The [destroy_value]s of a block still to be scanned destroy what
    they destroyed at the start. *)
Lemma thinned_noHeldDestroy a held b F F' :
  wfIDs F → heldStep a held F F' →
  thinned a (instsIn F b) (instsIn F' b) →
  (∀ Inst, Inst ∈ instsIn F b → destroysHeld held (kind Inst) = false) →
  ∀ Inst, Inst ∈ instsIn F' b → destroysHeld held (kind Inst) = false.
Proof.
  intros Hwf [_ Hstep] Ht Hd Inst' Hin'.
  destruct (thinned_in a _ _ _ Ht Hin') as (Inst & Hin & Hid & _).
  apply elem_of_instsIn in Hin, Hin'.
  destruct (Hstep b Inst' Hin') as [[Hge _]|(Inst0 & Hin0 & Hid0 & _ & _ & HD & _)].
  - pose proof (proj2 Hwf _ Hin) as Hlt. simpl in Hlt. lia.
  - destruct (kind Inst') as [| | | | | | | | | |x'| | | | | | | | |] eqn:Hk'; try done.
    destruct (HD x' eq_refl) as (x & Hk & Hx). simpl.
    apply elem_of_instsIn in Hin0. pose proof (Hd Inst0 Hin0) as Hdx.
    rewrite Hk in Hdx. simpl in Hdx. by rewrite (Hx Hdx).
Qed.

Lemma heldBy_fresh a F n : nextID F ≤ n → heldBy a F (ValueOf n) = true.
Proof.
  intros Hn. unfold heldBy. apply orb_true_iff. right. by apply Nat.leb_le.
Qed.

Lemma HeldFun_initial a F : HeldFun a (heldBy a F) (nextID F) F.
Proof.
  split; [done|..].
  - intros q Inst Hin Hl. unfold heldBy. apply orb_true_iff. left.
    apply existsb_exists. exists (q, Inst). split; [by apply list_elem_of_In|]. simpl.
    destruct (kind Inst); try done. by apply bool_decide_eq_true.
  - intros q Inst src qual Hin Hk. unfold heldBy. apply orb_true_iff. left.
    apply existsb_exists. exists (q, Inst). split; [by apply list_elem_of_In|]. simpl.
    rewrite Hk. apply andb_true_iff. split; by apply bool_decide_eq_true.
Qed.

Lemma HeldInv_initial a held n0 protected BB ids0 F :
  ScanStatic a BB ids0 F → HeldFun a held n0 F →
  (protected = true →
   ∀ Inst, Inst ∈ instsIn F BB → destroysHeld held (kind Inst) = false) →
  HeldInv a held n0 protected (mkScan F None None) ids0.
Proof.
  intros Hs Hf Hd. split; simpl; [done| |done|].
  - apply (static_old _ _ _ _ Hs).
  - intros Hp q Inst Hin Hid. apply (Hd Hp).
    pose proof (static_label _ _ _ _ Hs q Inst Hin Hid) as ->.
    by apply elem_of_instsIn.
Qed.

Lemma thinned_slotLoads a b F F' :
  thinned a (instsIn F b) (instsIn F' b) →
  length (slotLoads a F' b) = length (slotLoads a F b).
Proof.
  intros Ht. unfold slotLoads.
  apply (thinned_filter_length a (isSlotLoad a)); [apply isSlotLoad_view| |done].
  apply relevant_load.
Qed.

Lemma thinned_slotStores a b F F' :
  thinned a (instsIn F b) (instsIn F' b) →
  length (slotStores a F' b) = length (slotStores a F b).
Proof.
  intros Ht. unfold slotStores.
  apply (thinned_filter_length a (isSlotStore a)); [apply isSlotStore_view| |done].
  apply relevant_store.
Qed.

(** *** One scan of the phase *)

Section ScanOfPhase.
Variables (hasOwnership : bool) (getOwnershipKind : SILFunction → SILValue → OwnershipKind).
Variables (alloc : AllocStack) (p : nat).
Variables (held : SILValue → bool) (n0 : nat).
Hypothesis held_fresh : ∀ n, n0 ≤ n → held (ValueOf n) = true.
#[local] Abbreviation pa := (allocID alloc).
#[local] Abbreviation pty := (allocElementType alloc).

Lemma promoteAllocationInBlock_scan F BB F' LS :
  allocPresent pa p pty F → wfIDs F → wfBlocks F → noStoredAddress pa F →
  quietAfterDealloc pa BB F → HeldFun pa held n0 F →
  promoteAllocationInBlock hasOwnership getOwnershipKind alloc F BB = Some (F', LS) →
  wfIDs F' ∧ wfBlocks F' ∧ allocPresent pa p pty F' ∧ noStoredAddress pa F' ∧
  HeldFun pa held n0 F' ∧ heldStep pa held F F' ∧
  (∀ b, b ≠ BB → thinned pa (instsIn F b) (instsIn F' b)) ∧
  length (slotLoads pa F' BB) ≤ 1 ∧
  (¬ storeAfterForgetting hasOwnership getOwnershipKind alloc F BB →
   length (slotStores pa F' BB) ≤ 1).
Proof.
  intros Hp Hwf Hwb Hsrc Hquiet Hheld Hscan. unfold promoteAllocationInBlock in Hscan.
  destruct (forEachInst _ (mkScan F None None) (blockInstIDs F BB)) as [st'|] eqn:E;
    simpl in Hscan; [|done].
  injection Hscan as <- <-.
  pose proof (ScanInv_initial alloc p F BB false Hp Hwf Hwb Hsrc Hquiet) as HI.
  pose proof (HeldInv_initial pa held n0 false BB _ F (inv_static _ _ _ _ _ _ _ _ _ HI)
                Hheld (λ H, False_ind _ (Bool.diff_false_true H))) as HH.
  destruct (scan_loop_thins hasOwnership getOwnershipKind alloc p BB _ _ [] _ st'
              HI (λ ls (H : None = Some ls), False_ind _ (eq_ind None
                 (λ o, match o with None => True | Some _ => False end) Logic.I _ H)) E)
    as (Hstatic & Hp' & Hthin).
  simpl in Hthin.
  destruct (Hthin (S BB) (Nat.neq_succ_diag_l BB) Hwb) as [Hwb' _].
  destruct (scan_loop hasOwnership getOwnershipKind alloc p BB _ false held n0 held_fresh
              _ [] _ st' HI HH E) as (Hwf' & _ & (FL & Hl) & Hheld' & Hstep).
  split; [apply Hstatic|]. split; [done|]. split; [done|].
  split; [exact (static_src _ _ _ _ Hstatic)|].
  split; [done|]. split; [done|]. split; [|split].
  - intros b Hb. by destruct (Hthin b Hb Hwb).
  - apply (filter_length_le_1 _ FL); [by apply NoDup_instsIn|].
    intros Inst Hin. apply Hl. by apply elem_of_instsIn.
  - intros Hkept.
    pose proof (ScanInv_initial alloc p F BB true Hp Hwf Hwb Hsrc Hquiet) as HI'.
    destruct (scan_loop_counted hasOwnership getOwnershipKind alloc p BB _ _ [] _ st'
                HI') as [c Hs]; [|exact E|].
    { intros st1 id1 rest1 st1' st2 id2 rest2 Hv1 Hf E1 Hv2 Hst. apply Hkept.
      by exists st1, id1, rest1, st1', st2, id2, rest2. }
    apply (filter_length_le_1 _ c); [by apply NoDup_instsIn|].
    intros Inst Hin. apply Hs. by apply elem_of_instsIn.
Qed.

(** A scan that never forgets a retained store does not come to a store
    after forgetting one. *)
Lemma lastStoreKept_no_store F BB :
  lastStoreKept hasOwnership getOwnershipKind alloc F BB →
  ¬ storeAfterForgetting hasOwnership getOwnershipKind alloc F BB.
Proof.
  intros Hkept (st1 & id1 & rest1 & st1' & st2 & id2 & rest2 & Hv1 & Hf & _).
  destruct Hf as [(q & Inst & x & Hfind & Hk & HRV) [last HLS]].
  pose proof (Hkept st1 id1 rest1 Hv1 q Inst x Hfind Hk HRV). congruence.
Qed.

(** A block without a [destroy_value] of a value in [held] is scanned
    without forgetting a retained store. *)
Lemma noHeldDestroy_kept F BB :
  allocPresent pa p pty F → wfIDs F → wfBlocks F → noStoredAddress pa F →
  quietAfterDealloc pa BB F → HeldFun pa held n0 F →
  (∀ Inst, Inst ∈ instsIn F BB → destroysHeld held (kind Inst) = false) →
  lastStoreKept hasOwnership getOwnershipKind alloc F BB.
Proof.
  intros Hp Hwf Hwb Hsrc Hquiet Hheld Hnodv st id rest Hvis.
  pose proof (ScanInv_initial alloc p F BB false Hp Hwf Hwb Hsrc Hquiet) as HI.
  pose proof (HeldInv_initial pa held n0 true BB _ F (inv_static _ _ _ _ _ _ _ _ _ HI)
                Hheld (λ _, Hnodv)) as HH.
  exact (held_visits hasOwnership getOwnershipKind alloc p BB _ held n0 held_fresh
           _ [] _ st id rest HI HH Hvis).
Qed.

End ScanOfPhase.

Section LoopOfPhase.
Variables (hasOwnership : bool) (getOwnershipKind : SILFunction → SILValue → OwnershipKind).
Variables (alloc : AllocStack) (p : nat).
#[local] Abbreviation pa := (allocID alloc).
#[local] Abbreviation pty := (allocElementType alloc).

(** A scan of a block not yet scanned keeps the state of the phase. *)
Lemma PhaseInv_scan F0 kept scanned F BB F' LS :
  wfIDs F0 → (∀ b, quietAfterDealloc pa b F0) →
  PhaseInv pa p pty F0 kept scanned F → BB ∉ scanned →
  (kept BB → ¬ storeAfterForgetting hasOwnership getOwnershipKind alloc F BB) →
  promoteAllocationInBlock hasOwnership getOwnershipKind alloc F BB = Some (F', LS) →
  PhaseInv pa p pty F0 kept (scanned ++ [BB]) F'.
Proof.
  intros Hwf0 Hq0 [Hwf Hwb Hp Hsrc Hheld Hstep0 Htodo Hdone] HBB Hkept Hscan.
  pose proof (Htodo BB HBB) as HtBB.
  destruct (promoteAllocationInBlock_scan hasOwnership getOwnershipKind alloc p
              (heldBy pa F0) (nextID F0) (heldBy_fresh pa F0)
              F BB F' LS Hp Hwf Hwb Hsrc
              (thinned_quiet pa BB F0 F HtBB (Hq0 BB)) Hheld Hscan)
    as (Hwf' & Hwb' & Hp' & Hsrc' & Hheld' & Hstep & Hthin & Hloads & Hstores).
  split; try done.
  - by apply (heldStep_trans pa (heldBy pa F0) F0 F F').
  - intros b Hb. apply not_elem_of_app in Hb as [Hb1 Hb2].
    apply not_elem_of_cons in Hb2 as [Hb2 _].
    eapply thinned_trans; [by apply Htodo|by apply Hthin].
  - intros b Hb. apply elem_of_app in Hb as [Hb|Hb].
    + assert (Hne : b ≠ BB) by (intros ->; done).
      destruct (Hdone b Hb) as [H1 H2]. split.
      * rewrite (thinned_slotLoads pa b F F'); [done|by apply Hthin].
      * intros Hd. rewrite (thinned_slotStores pa b F F'); [by apply H2|by apply Hthin].
    + apply list_elem_of_singleton in Hb as ->. split; [done|].
      intros Hd. by apply Hstores, Hkept.
Qed.

(** The loop of [pruneAllocStackUsage]. *)
Lemma PhaseInv_loop F0 kept Blocks :
  wfIDs F0 → (∀ b, quietAfterDealloc pa b F0) →
  ∀ scanned F LSB F' LSB',
    NoDup (scanned ++ Blocks) →
    PhaseInv pa p pty F0 kept scanned F →
    (∀ pre b post Fb LSBb,
       Blocks = pre ++ b :: post →
       foldM (λ (st : SILFunction * gmap nat (option nat)) Block,
                '(F, SI) ← promoteAllocationInBlock hasOwnership getOwnershipKind
                             alloc st.1 Block;
                Some (F, <[Block := SI]> st.2))
             (F, LSB) pre = Some (Fb, LSBb) →
       kept b → ¬ storeAfterForgetting hasOwnership getOwnershipKind alloc Fb b) →
    foldM (λ (st : SILFunction * gmap nat (option nat)) Block,
             '(F, SI) ← promoteAllocationInBlock hasOwnership getOwnershipKind
                          alloc st.1 Block;
             Some (F, <[Block := SI]> st.2))
          (F, LSB) Blocks = Some (F', LSB') →
    PhaseInv pa p pty F0 kept (scanned ++ Blocks) F'.
Proof.
  intros Hwf0 Hq0.
  induction Blocks as [|BB Blocks IH]; intros scanned F LSB F' LSB' Hnd HI Hlink.
  - intros [= <- <-]. by rewrite app_nil_r.
  - rewrite foldM_cons. cbn [fst snd].
    destruct (promoteAllocationInBlock hasOwnership getOwnershipKind alloc F BB)
      as [[F1 SI]|] eqn:E; simpl; [|done].
    intros Hrest.
    assert (HBB : BB ∉ scanned).
    { apply NoDup_app in Hnd as (_ & Hd & _). intros Hin. apply (Hd BB Hin).
      apply list_elem_of_here. }
    pose proof (PhaseInv_scan F0 kept scanned F BB F1 SI Hwf0 Hq0 HI HBB
                  (Hlink [] BB Blocks F LSB eq_refl eq_refl) E) as HI1.
    replace (scanned ++ BB :: Blocks) with ((scanned ++ [BB]) ++ Blocks)
      by (by rewrite <- app_assoc).
    eapply IH; [|exact HI1| |exact Hrest]; [by rewrite <- app_assoc|].
    intros pre b post Fb LSBb -> Hpre. apply (Hlink (BB :: pre) b post Fb LSBb eq_refl).
    rewrite foldM_cons. cbn [fst snd]. rewrite E. exact Hpre.
Qed.

End LoopOfPhase.

(** *** The blocks the phase scans *)

Lemma insertBlock_fold_NoDup (l : list (nat * SILInstruction)) :
  ∀ acc, NoDup acc →
    NoDup (fold_left (λ Blocks p, (insertBlock Blocks p.1).1) l acc).
Proof.
  induction l as [|x l IH]; intros acc Hnd; simpl; [done|]. apply IH.
  unfold insertBlock. case_bool_decide; simpl; [done|].
  apply NoDup_app. split; [done|]. split; [|apply NoDup_singleton].
  intros y Hy Hy'. apply list_elem_of_singleton in Hy'. by subst.
Qed.

Lemma insertBlock_fold_in (l : list (nat * SILInstruction)) x :
  ∀ acc, x ∈ acc ∨ x ∈ map fst l →
    x ∈ fold_left (λ Blocks p, (insertBlock Blocks p.1).1) l acc.
Proof.
  induction l as [|y l IH]; intros acc H; simpl.
  - destruct H as [H|H]; [done|by apply elem_of_nil in H].
  - apply IH. unfold insertBlock. simpl in H.
    destruct H as [H|H].
    + left. case_bool_decide; simpl; [done|]. apply elem_of_app. by left.
    + apply elem_of_cons in H as [->|H]; [|by right]. left.
      case_bool_decide; simpl; [done|]. apply elem_of_app. right.
      apply list_elem_of_here.
Qed.

(** An instruction with the slot among its operands is a user of it. *)
Lemma getUsers_intro F a q Inst :
  (q, Inst) ∈ allInsts F → ValueOf a ∈ getOperands (kind Inst) →
  (q, Inst) ∈ getUsers F (ValueOf a).
Proof.
  intros Hin Hop. unfold getUsers. apply list_elem_of_In, in_flat_map.
  exists (q, Inst). split; [by apply list_elem_of_In|]. simpl.
  apply in_map_iff. exists (ValueOf a). split; [done|]. apply filter_In.
  split; [by apply list_elem_of_In|]. unfold valueEqb. by apply bool_decide_eq_true.
Qed.

(** The blocks of the loads from and the stores to the slot are
    scanned. *)
Lemma accesses_scanned F a q Inst :
  (q, Inst) ∈ allInsts F →
  isSlotLoad a (kind Inst) = true ∨ isSlotStore a (kind Inst) = true →
  q ∈ fold_left (λ Blocks p, (insertBlock Blocks p.1).1) (getUsers F (ValueOf a)) [].
Proof.
  intros Hin Hk. apply insertBlock_fold_in. right.
  apply list_elem_of_In, in_map_iff. exists (q, Inst). split; [done|].
  apply list_elem_of_In, getUsers_intro; [done|].
  destruct (kind Inst); destruct Hk as [Hk|Hk]; simpl in Hk; try done.
  - apply andb_true_iff in Hk as [Hk _]. apply bool_decide_eq_true in Hk as ->.
    apply list_elem_of_here.
  - apply bool_decide_eq_true in Hk as ->.
    apply list_elem_of_further, list_elem_of_here.
Qed.

Lemma filter_nil_length {A} (P : A → bool) (l : list A) :
  (∀ x, x ∈ l → P x = false) → length (List.filter P l) = 0.
Proof.
  induction l as [|y l IH]; intros H; simpl; [done|].
  rewrite (H y (list_elem_of_here _ _)). apply IH.
  intros x Hx. apply H. by apply list_elem_of_further.
Qed.

(** *** The phase from its start *)

Section PhaseFromStart.
Variables (hasOwnership : bool) (getOwnershipKind : SILFunction → SILValue → OwnershipKind).
Variables (P : StackAllocationPromoter) (F : SILFunction).
#[local] Abbreviation sa := (allocID (ASI P)).
Hypothesis Hget : getAllocStack F sa = Some (ASI P).
Hypothesis Hwf : wfIDs F.
Hypothesis Hwb : wfBlocks F.
Hypothesis Hsrc : noStoredAddress sa F.
Hypothesis Hquiet : ∀ b, quietAfterDealloc sa b F.

Lemma PhaseInv_initial kept :
  PhaseInv sa (allocParent (ASI P)) (allocElementType (ASI P)) F kept [] F.
Proof.
  assert (Hlt : sa < nextID F).
  { unfold getAllocStack in Hget.
    destruct (findInst F sa) as [[q Inst]|] eqn:E; [|done].
    destruct (findInst_in _ _ _ _ E) as [Hin Hid].
    rewrite <- Hid. apply (proj2 Hwf (q, Inst) Hin). }
  destruct (getAllocStack_present F sa (ASI P) Hget Hlt) as [_ Hp].
  split; [done|done|done|done|apply HeldFun_initial|apply heldStep_refl|
          intros; apply thinned_refl|].
  intros b Hb. by apply elem_of_nil in Hb.
Qed.

(** A block that has, at the start of the phase, no [destroy_value] of a
    value the slot may hold is scanned without forgetting a retained
    store. *)
Lemma noHeldDestroy_never_forgets b :
  noHeldDestroy sa F b → ¬ storesAfterForgetting hasOwnership getOwnershipKind F P b.
Proof.
  intros Hnd (Fb & (pre & post & LSB & Hsplit & Hfold) & Hbad). revert Hbad.
  apply lastStoreKept_no_store.
  assert (Hnodup : NoDup (pre ++ b :: post)).
  { rewrite <- Hsplit. apply insertBlock_fold_NoDup, NoDup_nil_2. }
  apply NoDup_app in Hnodup as (Hpre & Hdisj & _).
  assert (Hb : b ∉ pre).
  { intros Hin. apply (Hdisj b Hin), list_elem_of_here. }
  pose proof (PhaseInv_loop hasOwnership getOwnershipKind (ASI P)
                (allocParent (ASI P)) F (λ _, False) pre Hwf Hquiet [] F ∅ Fb LSB
                Hpre (PhaseInv_initial _)
                (λ _ _ _ _ _ _ _ (H : False), False_ind _ H) Hfold)
    as [Hwf' Hwb' Hp' Hsrc' Hheld Hstep Htodo _].
  simpl in Htodo. pose proof (Htodo b Hb) as Ht.
  apply (noHeldDestroy_kept hasOwnership getOwnershipKind (ASI P) (allocParent (ASI P))
           (heldBy sa F) (nextID F) (heldBy_fresh sa F) Fb b); try done.
  - by apply (thinned_quiet sa b F Fb).
  - by apply (thinned_noHeldDestroy sa (heldBy sa F) b F Fb).
Qed.

End PhaseFromStart.

(** C6 (amended).  In the scan of [promoteAllocationInBlock], a store to
    the slot met while [LastStore] holds an earlier store erases that
    store and becomes [LastStore] itself.  In a function whose
    instructions and blocks are numbered apart, in which the address of
    the slot is never stored as a value and no block loads from or
    stores to the slot after a deallocation of it,
    [pruneAllocStackUsage] leaves in every block at most one load
    directly from the slot that is not a [load [copy]], and at most one
    store directly to the slot in every block, unless the scan of the
    block meets a store to the slot after a [destroy_value] of the
    running value has made it forget a retained store. *)
Theorem C6_pruning_phase_leaves_one_load_one_store
    hasOwnership getOwnershipKind (P : StackAllocationPromoter) (F F' : SILFunction)
    (LastStoreInBlock : gmap nat (option nat)) :
  getAllocStack F (allocID (ASI P)) = Some (ASI P) →
  wfIDs F → wfBlocks F →
  noStoredAddress (allocID (ASI P)) F →
  (∀ b, quietAfterDealloc (allocID (ASI P)) b F) →
  pruneAllocStackUsage hasOwnership getOwnershipKind F P = Some (F', LastStoreInBlock) →
  (∀ st id q Inst src qual last,
     findInst (scanF st) id = Some (q, Inst) →
     kind Inst = StoreInst src (allocValue (ASI P)) qual →
     LastStore st = Some last →
     ∃ G, promoteAllocationInBlock_body hasOwnership getOwnershipKind (ASI P) st id
            = Some (mkScan G (Some src) (Some id), false) ∧
          findInst G last = None) ∧
  ∀ b, length (slotLoads (allocID (ASI P)) F' b) ≤ 1 ∧
       (¬ storesAfterForgetting hasOwnership getOwnershipKind F P b →
        length (slotStores (allocID (ASI P)) F' b) ≤ 1).
Proof.
  intros Hget Hwf Hwb Hsrc Hquiet Hprune. split.
  - intros st id q Inst src qual last Hfind Hk HLS.
    unfold promoteAllocationInBlock_body. rewrite Hfind.
    unfold isLoadFromStack. rewrite Hk, HLS.
    rewrite bool_decide_eq_false_2 by (intros H; by apply H).
    eexists. split; [reflexivity|]. apply findInst_erase.
  - unfold pruneAllocStackUsage in Hprune.
    set (a := allocID (ASI P)) in *.
    pose proof (PhaseInv_initial P F Hget Hwf Hwb Hsrc
                  (λ b, ¬ storesAfterForgetting hasOwnership getOwnershipKind F P b))
      as HI0.
    fold a in HI0.
    set (Blocks := fold_left _ (getUsers F (allocValue (ASI P))) []) in Hprune.
    assert (Hnd : NoDup ([] ++ Blocks)).
    { simpl. apply insertBlock_fold_NoDup, NoDup_nil_2. }
    assert (Hlink : ∀ pre b post Fb LSBb,
              Blocks = pre ++ b :: post →
              foldM (λ (st : SILFunction * gmap nat (option nat)) Block,
                       '(F, SI) ← promoteAllocationInBlock hasOwnership getOwnershipKind
                                    (ASI P) st.1 Block;
                       Some (F, <[Block := SI]> st.2))
                    (F, ∅) pre = Some (Fb, LSBb) →
              ¬ storesAfterForgetting hasOwnership getOwnershipKind F P b →
              ¬ storeAfterForgetting hasOwnership getOwnershipKind (ASI P) Fb b).
    { intros pre b post Fb LSBb Hsplit Hpre Hkept Hbad. apply Hkept.
      exists Fb. split; [|done]. by exists pre, post, LSBb. }
    pose proof (PhaseInv_loop hasOwnership getOwnershipKind (ASI P)
                  (allocParent (ASI P)) F _ Blocks Hwf Hquiet [] F ∅ F' LastStoreInBlock
                  Hnd HI0 Hlink Hprune) as [_ _ _ _ _ _ Htodo Hdone].
    simpl in Htodo, Hdone. intros b.
    destruct (decide (b ∈ Blocks)) as [Hb|Hb]; [by apply Hdone|].
    pose proof (Htodo b Hb) as Ht. split.
    + rewrite (thinned_slotLoads a b F F' Ht). unfold slotLoads.
      rewrite filter_nil_length; [lia|]. intros Inst Hin.
      destruct (isSlotLoad a (kind Inst)) eqn:E; [|done]. exfalso. apply Hb.
      apply (accesses_scanned F a b Inst); [by apply elem_of_instsIn|by left].
    + intros _. rewrite (thinned_slotStores a b F F' Ht). unfold slotStores.
      rewrite filter_nil_length; [lia|]. intros Inst Hin.
      destruct (isSlotStore a (kind Inst)) eqn:E; [|done]. exfalso. apply Hb.
      apply (accesses_scanned F a b Inst); [by apply elem_of_instsIn|by right].
Qed.

(** * The properties on the example functions *)

Lemma diamondDT_nodesNamedByBlock : nodesNamedByBlock diamondDT.
Proof.
  intros b N. destruct b as [|[|[|[|b]]]]; cbn; intros H; simplify_eq; reflexivity.
Qed.

Lemma diamondDT_idomCoherent : idomCoherent diamondDT.
Proof.
  intros b N D. destruct b as [|[|[|[|b]]]]; cbn; intros H H'; simplify_eq;
    cbn in H'; simplify_eq; reflexivity.
Qed.

(** The diamond gets block 3 as its only phi block; block 3 is dominated
    by block 0, the block of the allocation, and the deallocation, being
    in block 3 itself, does not properly dominate it. *)
Lemma C1_witness :
  (∀ b, b ∈ [3] → dominates diamondDT (allocParent diamondAlloc) b = true) ∧
  (∀ D b, deallocUses diamondAlloc = [D] → b ∈ [3] →
          properlyDominates diamondDT (useParent D) b = false) ∧
  (1 < length (deallocUses diamondAlloc) → DSI diamondPromoter = None).
Proof.
  apply (C1_phi_blocks_dominated_and_not_past_dealloc
           10 diamond diamondAlloc diamondDT (computeDomTreeLevels 5 diamondDT)
           (getUses diamond (ValueOf 20)) [3]).
  - exact diamondDT_nodesNamedByBlock.
  - vm_compute. reflexivity.
Defined.

(** A block outside the dominator tree with a recorded store: its
    live-out value is the undefined placeholder, not the stored [%12]. *)
Lemma C2_counterexample :
  getNode (DT unreachablePromoter) 4 = None ∧
  pruneAllocStackUsage false noOwnership diamondUnreachable unreachablePromoter
    = Some (diamondUnreachable, unreachableLastStores) ∧
  recordedStoreSrc diamondUnreachable unreachableLastStores 4 = Some (ValueOf 12) ∧
  getLiveOutValue diamondUnreachable unreachablePromoter unreachableLastStores [3] 4
    = Some SILUndef.
Proof. repeat split; vm_compute; reflexivity. Qed.

Lemma C2_witness :
  getLiveOutValue diamondUnreachable unreachablePromoter unreachableLastStores [3] 1
    = Some (ValueOf 10) ∧
  getLiveInValue diamondUnreachable unreachablePromoter unreachableLastStores [] 3
    = getLiveOutValue diamondUnreachable unreachablePromoter unreachableLastStores []
        (getBlock node0).
Proof.
  split.
  - apply (proj1 (proj2 (proj2 (proj2
             (C2_live_in_live_out diamondUnreachable unreachablePromoter
                unreachableLastStores [3] 1
                diamondDT_nodesNamedByBlock diamondDT_idomCoherent)))) node1).
    reflexivity.
  - apply (proj1 (proj2 (proj2
             (C2_live_in_live_out diamondUnreachable unreachablePromoter
                unreachableLastStores [] 3
                diamondDT_nodesNamedByBlock diamondDT_idomCoherent))) node3 node0).
    + apply not_elem_of_nil.
    + vm_compute. reflexivity.
    + reflexivity.
    + reflexivity.
Defined.

(** After [destroy_value %10] the running value is still [%10]: the load
    that follows in the block is replaced by [%10]. *)
Lemma C3_counterexample :
  promoteAllocationInBlock_body false noOwnership destroyThenLoadAlloc
    (mkScan (eraseFromParent
               (replaceAllUsesWith destroyThenLoad (ValueOf 23) (ValueOf 10)) 23)
            (Some (ValueOf 10)) (Some 22)) 24
  = Some (mkScan (eraseFromParent
                    (replaceAllUsesWith destroyThenLoad (ValueOf 23) (ValueOf 10)) 23)
                 (Some (ValueOf 10)) None, false) ∧
  promoteAllocationInBlock false noOwnership destroyThenLoadAlloc destroyThenLoad 1
  = Some (destroyThenLoadScanned, None).
Proof. split; vm_compute; reflexivity. Qed.

Lemma C3_witness :
  promoteAllocationInBlock_body false noOwnership destroyThenLoadAlloc
    (mkScan destroyThenLoad (Some (ValueOf 23)) (Some 22)) 24
  = if bool_decide (Some (ValueOf 23) = Some (ValueOf 23))
    then Some (mkScan destroyThenLoad (Some (ValueOf 23)) None, false)
    else Some (mkScan destroyThenLoad (Some (ValueOf 23)) (Some 22), false).
Proof.
  apply (C3_destroy_value_resets_last_store false noOwnership destroyThenLoadAlloc
           (mkScan destroyThenLoad (Some (ValueOf 23)) (Some 22)) 24 1
           (mkInst 24 (DestroyValueInst (ValueOf 23))) (ValueOf 23)).
  - vm_compute. reflexivity.
  - reflexivity.
Defined.

Lemma C4_witness :
  (∀ inSingleBlock, isCaptured takeFieldAlloc inSingleBlock = (true, inSingleBlock)) ∧
  promoteSingleAllocation false noOwnership takeField diamondDT takeFieldAlloc ∅
    = Some (takeField, false).
Proof.
  apply (C4_take_through_field_projection_captures false noOwnership takeField
           diamondDT ∅ takeFieldAlloc takeFieldUse).
  - vm_compute. apply list_elem_of_further, list_elem_of_here.
  - eapply reach_proj; [reflexivity|apply list_elem_of_here|].
    simpl. by eapply reach_load.
Defined.



(** The pruning scan stops at the deallocation in block 3 of the diamond
    and leaves it where it is. *)
Lemma C7_counterexample :
  promoteAllocationInBlock false noOwnership diamondAlloc diamond 3
    = Some (diamond, None) ∧
  findInst diamond 28 = Some (3, mkInst 28 (DeallocStackInst (ValueOf 20))).
Proof. split; vm_compute; reflexivity. Qed.

Lemma C7_witness :
  (∀ RV,
     forEachInst (removeSingleBlockAllocation_body false noOwnership diamondAlloc)
                 (diamond, RV) [28; 29] = Some (eraseFromParent diamond 28, RV) ∧
     findInst (eraseFromParent diamond 28) 28 = None) ∧
  (∀ RV LS,
     forEachInst (promoteAllocationInBlock_body false noOwnership diamondAlloc)
                 (mkScan diamond RV LS) [28; 29] = Some (mkScan diamond RV LS)).
Proof.
  apply (C7_scans_stop_at_dealloc false noOwnership diamondAlloc diamond 28 3
           (mkInst 28 (DeallocStackInst (ValueOf 20))) [29]).
  - vm_compute. reflexivity.
  - reflexivity.
Defined.

(** Every use of the slot of [usedElsewhere] lies in block 1, one common
    block, and the slot is not captured, yet [inSingleBlock] is false:
    block 1 is not the block of the allocation. *)
Lemma C8_counterexample :
  (∀ U p, U ∈ allocUses usedElsewhereAlloc → p ∈ visitedBlocks U → p = 1) ∧
  isCaptured usedElsewhereAlloc false = (false, false).
Proof.
  split; [|vm_compute; reflexivity].
  intros U p HU Hp. vm_compute in HU.
  repeat (apply elem_of_cons in HU as [->|HU];
          [simpl in Hp; by apply list_elem_of_singleton in Hp|]).
  by apply elem_of_nil in HU.
Qed.

Lemma C8_witness :
  (isCaptured usedElsewhereAlloc false).2 = true ↔
  ∀ U p, U ∈ allocUses usedElsewhereAlloc → p ∈ visitedBlocks U →
         p = allocParent usedElsewhereAlloc.
Proof.
  apply (C8_inSingleBlock_iff_uses_in_alloc_block usedElsewhereAlloc false).
  vm_compute. reflexivity.
Defined.

Lemma C9_witness :
  ∃ F2,
    promoteSingleAllocation false noOwnership loadAfterDealloc diamondDT
      loadAfterDeallocAlloc ∅ = Some (F2, true) ∧
    F2 = (createAfter loadAfterDeallocEliminated 20 (DeallocStackInst (ValueOf 20))).1 ∧
    nextInst F2 20 = Some (mkInst 30 (DeallocStackInst (ValueOf 20))).
Proof.
  apply (C9_leftover_uses_get_dealloc false noOwnership loadAfterDealloc
           loadAfterDeallocEliminated diamondDT ∅ loadAfterDeallocAlloc).
  - vm_compute. reflexivity.
  - simpl. lia.
  - vm_compute. reflexivity.
  - vm_compute. reflexivity.
  - vm_compute. reflexivity.
  - vm_compute. reflexivity.
Defined.

Lemma C10_witness :
  (∀ LS,
     promoteAllocationInBlock_body false noOwnership diamondAlloc
       (mkScan diamond None LS) 26 =
     if bool_decide (LoadCopy ≠ LoadCopy)
     then Some (mkScan diamond (Some (ValueOf 26)) LS, false)
     else Some (mkScan diamond None LS, false)) ∧
  (LoadCopy = LoadCopy →
   ∀ P LSB Phi, ASI P = diamondAlloc →
     fixUse false noOwnership P LSB Phi diamond 26 =
       Def ← getLiveInValue diamond P LSB Phi 3;
       Some (eraseFromParent
               (replaceAllUsesWith (createBefore diamond 26 (CopyValueInst Def)).1
                                   (ValueOf 26) (ValueOf (nextID diamond)))
               26)).
Proof.
  apply (C10_load_copy_not_adopted false noOwnership diamondAlloc diamond 26 3
           (mkInst 26 (LoadInst (ValueOf 20) LoadCopy)) LoadCopy).
  - vm_compute. reflexivity.
  - reflexivity.
Defined.

(** After pruning, block 1 of [copiesAndStores] still holds its two
    loads directly from the slot: a [load [copy]] met while the running
    value is unknown is left for [fixBranchesAndUses]. *)
Lemma C6_counterexample :
  pruneAllocStackUsage false noOwnership copiesAndStores copiesAndStoresPromoter
    = Some (copiesAndStoresPruned, <[2 := Some 32]> (<[1 := None]> (<[0 := Some 21]> ∅))) ∧
  length (directLoads 20 copiesAndStoresPruned 1) = 2.
Proof. repeat split; vm_compute; reflexivity. Qed.

(** Block 2 of [copiesAndStores] has a [destroy_value] of the running
    value between its two stores.  The scan forgets the first store
    there and comes to the second: the second does not erase the first
    and both are left in the block, where the comment in
    [promoteAllocationToPhi] expects at most one store per block. *)
Lemma copiesAndStores_keeps_two_stores :
  pruneAllocStackUsage false noOwnership copiesAndStores copiesAndStoresPromoter
    = Some (copiesAndStoresPruned, <[2 := Some 32]> (<[1 := None]> (<[0 := Some 21]> ∅))) ∧
  storesAfterForgetting false noOwnership copiesAndStores copiesAndStoresPromoter 2 ∧
  length (slotStores 20 copiesAndStoresPruned 2) = 2.
Proof.
  split; [vm_compute; reflexivity|]. split; [|vm_compute; reflexivity].
  exists copiesAndStores. split.
  { exists [0; 1], [], (<[1 := None]> (<[0 := Some 21]> ∅)).
    split; vm_compute; reflexivity. }
  unfold storeAfterForgetting.
  change (blockInstIDs copiesAndStores 2) with [27; 28; 29; 30; 31; 32; 33; 34].
  do 7 eexists. split; [|split; [|split; [|split]]].
  - do 4 (eapply visits_later; [vm_compute; reflexivity|]).
    apply visits_here.
  - split.
    + exists 2, (mkInst 31 (DestroyValueInst (ValueOf 10))), (ValueOf 10).
      split; [vm_compute; reflexivity|]. split; reflexivity.
    + by exists 29.
  - vm_compute. reflexivity.
  - apply visits_here.
  - exists 2, (mkInst 32 (StoreInst (ValueOf 11) (ValueOf 20) StoreInit)),
      (ValueOf 11), StoreInit.
    split; vm_compute; reflexivity.
Qed.

Lemma quietAfterDealloc_no_dealloc a b F :
  (∀ Inst, Inst ∈ instsIn F b → isSlotDealloc a (kind Inst) = false) →
  quietAfterDealloc a b F.
Proof.
  intros H pre D post Hsplit HD. exfalso.
  assert (Hin : D ∈ instsIn F b).
  { rewrite Hsplit. apply elem_of_app. right. apply list_elem_of_here. }
  rewrite (H D Hin) in HD. done.
Qed.

Lemma twoStores_wfIDs : wfIDs twoStores.
Proof.
  split.
  - apply (bool_decide_unpack _). vm_compute. reflexivity.
  - apply Forall_forall. apply (bool_decide_unpack _). vm_compute. reflexivity.
Qed.

Lemma quietAfterDealloc_no_access a b F :
  (∀ Inst, Inst ∈ instsIn F b →
           isSlotStore a (kind Inst) = false ∧ isSlotLoad a (kind Inst) = false) →
  quietAfterDealloc a b F.
Proof.
  intros H pre D post Hsplit HD Inst Hin. apply H. rewrite Hsplit.
  apply elem_of_app. right. by apply list_elem_of_further.
Qed.

Lemma storesAroundDestroy_wfIDs : wfIDs storesAroundDestroy.
Proof.
  split.
  - apply (bool_decide_unpack _). vm_compute. reflexivity.
  - apply Forall_forall. apply (bool_decide_unpack _). vm_compute. reflexivity.
Qed.

Lemma storesAroundDestroy_quiet b : quietAfterDealloc 20 b storesAroundDestroy.
Proof.
  destruct b as [|[|[|b]]].
  - apply quietAfterDealloc_no_dealloc.
    apply Forall_forall. apply (bool_decide_unpack _). vm_compute. reflexivity.
  - apply quietAfterDealloc_no_dealloc.
    apply Forall_forall. apply (bool_decide_unpack _). vm_compute. reflexivity.
  - apply quietAfterDealloc_no_access.
    apply Forall_forall. apply (bool_decide_unpack _). vm_compute. reflexivity.
  - apply quietAfterDealloc_no_dealloc. intros Inst Hin.
    change (Inst ∈ []) in Hin. by apply elem_of_nil in Hin.
Qed.

(** Block 1 of [storesAroundDestroy] has a [destroy_value], but of a
    value the slot never holds. *)
Lemma storesAroundDestroy_noHeldDestroy b :
  noHeldDestroy 20 storesAroundDestroy b.
Proof.
  unfold noHeldDestroy. apply Forall_forall.
  destruct b as [|[|[|b]]]; [..|by apply Forall_nil];
    apply (bool_decide_unpack _); vm_compute; reflexivity.
Qed.

Lemma storesAroundDestroy_noStoredAddress : noStoredAddress 20 storesAroundDestroy.
Proof.
  assert (H : Forall (λ p, storesSlotAddress 20 (kind p.2) = false)
                (allInsts storesAroundDestroy)).
  { apply (bool_decide_unpack _). vm_compute. reflexivity. }
  intros q Inst Hin. by apply (proj1 (Forall_forall _ _) H (q, Inst)).
Qed.

Lemma storesAroundDestroy_wfBlocks : wfBlocks storesAroundDestroy.
Proof. apply (bool_decide_unpack _). vm_compute. reflexivity. Qed.

(** The scan of block 1 of [storesAroundDestroy] meets a
    [destroy_value], which is not of the running value: one store is
    left. *)
Lemma C6_witness :
  (∀ st id q Inst src qual last,
     findInst (scanF st) id = Some (q, Inst) →
     kind Inst = StoreInst src (allocValue (ASI storesAroundDestroyPromoter)) qual →
     LastStore st = Some last →
     ∃ G, promoteAllocationInBlock_body false noOwnership
            (ASI storesAroundDestroyPromoter) st id
            = Some (mkScan G (Some src) (Some id), false) ∧
          findInst G last = None) ∧
  ∀ b, length (slotLoads (allocID (ASI storesAroundDestroyPromoter))
                 storesAroundDestroyPruned b) ≤ 1 ∧
       length (slotStores (allocID (ASI storesAroundDestroyPromoter))
                 storesAroundDestroyPruned b) ≤ 1.
Proof.
  destruct (C6_pruning_phase_leaves_one_load_one_store false noOwnership
              storesAroundDestroyPromoter storesAroundDestroy storesAroundDestroyPruned
              (<[2 := None]> (<[1 := Some 24]> ∅))) as [Hstep Hblocks].
  - vm_compute. reflexivity.
  - exact storesAroundDestroy_wfIDs.
  - exact storesAroundDestroy_wfBlocks.
  - exact storesAroundDestroy_noStoredAddress.
  - exact storesAroundDestroy_quiet.
  - vm_compute. reflexivity.
  - split; [exact Hstep|]. intros b. destruct (Hblocks b) as [Hloads Hstores].
    split; [exact Hloads|]. apply Hstores.
    apply noHeldDestroy_never_forgets.
    + vm_compute. reflexivity.
    + exact storesAroundDestroy_wfIDs.
    + exact storesAroundDestroy_wfBlocks.
    + exact storesAroundDestroy_noStoredAddress.
    + exact storesAroundDestroy_quiet.
    + exact (storesAroundDestroy_noHeldDestroy b).
Defined.

Lemma wfIDs_by_computation F :
  bool_decide (NoDup (instIDs F)) = true →
  bool_decide (Forall (λ p : nat * SILInstruction, instID p.2 < nextID F) (allInsts F)) = true →
  wfIDs F.
Proof.
  intros H1 H2. split; [by apply bool_decide_eq_true in H1|].
  apply Forall_forall. by apply bool_decide_eq_true in H2.
Qed.


(** * Further properties of the pass *)

(** ** Use trees *)

Lemma isDeadAddrProjection_unfold U :
  isDeadAddrProjection U =
  isAddrProjection (kind (useInst U)) && forallb isDeadAddrProjection (useUsers U).
Proof.
  destruct U as [p Inst us]; simpl.
  destruct (isAddrProjection (kind Inst)); simpl; [|done].
  induction us as [|U' r IH]; simpl; [done|].
  destruct (isDeadAddrProjection U'); simpl; [exact IH|done].
Qed.

Lemma collectLoads_unfold U :
  collectLoads U =
  if isLoad (kind (useInst U)) then [useInst U]
  else if isAddrProjection (kind (useInst U)) then flat_map collectLoads (useUsers U)
  else [].
Proof.
  destruct U as [p Inst us]; simpl.
  assert (Hloop :
    (fix loop (us : list UseTree) : list SILInstruction :=
       match us with
       | [] => []
       | II :: rest => collectLoads II ++ loop rest
       end) us = flat_map collectLoads us).
  { induction us as [|U' r IH]; simpl; [done|]. by rewrite IH. }
  destruct (kind Inst); simpl; rewrite ?Hloop; done.
Qed.

Lemma isAddrProjection_not_load k : isAddrProjection k = true → isLoad k = false.
Proof. by destruct k. Qed.

(** The result of [isAddressForLoad] on the users of a dead
    projection. *)
Lemma isAddressForLoad_users_dead us :
  Forall (λ U, isDeadAddrProjection U = true →
               ∀ sb g, (isAddressForLoad U sb g).1.1 = true) us →
  forallb isDeadAddrProjection us = true →
  ∀ sb g, (isAddressForLoad_users us sb g).1.1 = true.
Proof.
  induction 1 as [|U r HU _ IH]; intros Hall sb g; simpl; [done|].
  simpl in Hall. apply andb_true_iff in Hall as [HdU Hr].
  specialize (HU HdU (checkSingleBlock (useParent U) sb) g).
  destruct (isAddressForLoad U _ g) as [[res sb'] g']; simpl in HU; subst res.
  by apply IH.
Qed.

Lemma dead_projection_no_loads (U : UseTree) :
  isDeadAddrProjection U = true →
  collectLoads U = [] ∧ ∀ sb g, (isAddressForLoad U sb g).1.1 = true.
Proof.
  induction U as [p Inst us IH] using UseTree_nested_ind.
  rewrite isDeadAddrProjection_unfold. cbn [useInst useUsers]. intros Hd.
  apply andb_true_iff in Hd as [Hproj Hus]. split.
  - rewrite collectLoads_unfold. cbn [useInst useUsers].
    rewrite (isAddrProjection_not_load _ Hproj), Hproj.
    induction IH as [|U' r HU' _ IHr]; simpl; [done|].
    simpl in Hus. apply andb_true_iff in Hus as [HdU Hr].
    rewrite (proj1 (HU' HdU)). by apply IHr.
  - intros sb g. rewrite isAddressForLoad_unfold. cbn [useInst useUsers].
    assert (Hgo : ∀ h, (isAddressForLoad_users us sb h).1.1 = true).
    { intros h. apply isAddressForLoad_users_dead; [|done].
      eapply Forall_impl; [exact IH|]. intros U' HU' HdU. by apply HU'. }
    destruct (kind Inst); simpl in *; try done; apply Hgo.
Qed.

(** X1.  An address projection that [isDeadAddrProjection] finds dead
    has no load below it for [collectLoads] to collect, and
    [isAddressForLoad] accepts it as an address for loads, whatever the
    block and the ownership flag it is called with. *)
Theorem X1_dead_projection_has_no_loads (U : UseTree) :
  isDeadAddrProjection U = true →
  collectLoads U = [] ∧ ∀ sb g, (isAddressForLoad U sb g).1.1 = true.
Proof. exact (dead_projection_no_loads U). Qed.

Lemma isWriteOnlyAllocation_cons isAllocStack U0 r :
  isWriteOnlyAllocation isAllocStack (U0 :: r) = true →
  collectLoads U0 = [] ∧ isWriteOnlyAllocation isAllocStack r = true.
Proof.
  cbn [isWriteOnlyAllocation]. intros Hw.
  destruct (isDeadAddrProjection U0) eqn:Hd.
  - split; [by apply dead_projection_no_loads|].
    destruct (kind (useInst U0)); try done; by destruct (negb (isAllocStack _)).
  - rewrite collectLoads_unfold.
    destruct (kind (useInst U0)); simpl in *; try done.
    by destruct (negb (isAllocStack _)).
Qed.

(** X2.  When [isWriteOnlyAllocation] answers true, no load reads the
    allocation, neither directly nor through address projections: for
    every user, [collectLoads] collects nothing. *)
Theorem X2_write_only_has_no_loads
    (isAllocStack : SILValue → bool) (uses : list UseTree) (U : UseTree) :
  isWriteOnlyAllocation isAllocStack uses = true →
  U ∈ uses →
  collectLoads U = [].
Proof.
  induction uses as [|U0 r IH]; intros Hw Hin; [by apply elem_of_nil in Hin|].
  destruct (isWriteOnlyAllocation_cons _ _ _ Hw) as [H0 Hr].
  apply elem_of_cons in Hin as [->|Hin]; [done|by apply IH].
Qed.




(** ** The walk from a load to the allocation *)

Lemma isProjectionOf_collectProjections F ASI fuel :
  ∀ op, isProjectionOf fuel F ASI op = true ↔
        ∃ projections, collectProjections fuel F ASI op = Some projections.
Proof.
  induction fuel as [|n IH]; intros op; simpl.
  - destruct (decide (op = ASI)); [split; eauto|]. split; [done|by intros [? ?]].
  - destruct (decide (op = ASI)); [split; eauto|].
    destruct (definingInst F op) as [D|]; simpl; [|split; [done|by intros [? ?]]].
    destruct (isAddrProjection (kind D)); simpl; [|split; [done|by intros [? ?]]].
    destruct (getOperand0 (kind D)) as [next|]; simpl; [|split; [done|by intros [? ?]]].
    rewrite IH. split.
    + intros [projs ->]. simpl. eauto.
    + intros [projs H]. destruct (collectProjections n F ASI next); [eauto|done].
Qed.

Lemma collectProjections_projections F ASI fuel :
  ∀ op projections, collectProjections fuel F ASI op = Some projections →
    Forall (λ D, isAddrProjection (kind D) = true) projections.
Proof.
  induction fuel as [|n IH]; intros op projs; simpl.
  - destruct (decide (op = ASI)); [|done]. intros [= <-]. constructor.
  - destruct (decide (op = ASI)); [intros [= <-]; constructor|].
    destruct (definingInst F op) as [D|]; simpl; [|done].
    destruct (isAddrProjection (kind D)) eqn:Hp; simpl; [|done].
    destruct (getOperand0 (kind D)) as [next|]; simpl; [|done].
    destruct (collectProjections n F ASI next) as [rest|] eqn:E; simpl; [|done].
    intros [= <-]. constructor; [done|by eapply IH].
Qed.

(** X4.  [isLoadFromStack] accepts an instruction exactly when it is a
    load for which the first loop of [replaceLoad] reaches the
    allocation without failing its assertion; what that loop collects
    are address projections. *)
Theorem X4_load_from_stack_iff_projection_walk_succeeds
    (F : SILFunction) (LI : SILInstruction) (ASI : SILValue) :
  (isLoadFromStack F LI ASI = true ↔
   ∃ op qual projections,
     kind LI = LoadInst op qual ∧
     collectProjections (instCount F) F ASI op = Some projections) ∧
  (∀ op projections,
     collectProjections (instCount F) F ASI op = Some projections →
     Forall (λ D, isAddrProjection (kind D) = true) projections).
Proof.
  split; [|apply collectProjections_projections].
  unfold isLoadFromStack. destruct (kind LI) eqn:Hk;
    try (split; [done|by intros (? & ? & ? & ? & ?)]).
  rewrite isProjectionOf_collectProjections. split.
  - intros [projs H]. eauto.
  - intros (op' & qual' & projs & [= <- <-] & H). eauto.
Qed.

(** ** The deallocation the promoter records *)

(** X5.  The constructor of [StackAllocationPromoter] records in [DSI]
    the deallocation among the users of the allocation when there is
    exactly one, and nothing when there is none or more than one. *)
Theorem X5_promoter_records_the_only_dealloc
    (Asi : AllocStack) (Di : DominanceInfo) (Levels : gmap nat nat) :
  DSI (newStackAllocationPromoter Asi Di Levels) =
  match deallocUses Asi with
  | [D] => Some D
  | _ => None
  end.
Proof. unfold newStackAllocationPromoter, deallocUses; simpl. apply findDealloc_spec. Qed.

(** ** Capture *)

Lemma isAddressForLoad_block_indep (U : UseTree) :
  ∀ sb sb' g,
    (isAddressForLoad U sb g).1.1 = (isAddressForLoad U sb' g).1.1 ∧
    (isAddressForLoad U sb g).2 = (isAddressForLoad U sb' g).2.
Proof.
  induction U as [p Inst us IH] using UseTree_nested_ind. intros sb sb' g.
  rewrite !isAddressForLoad_unfold. cbn [useInst useUsers].
  assert (Hus : ∀ sb sb' h,
            (isAddressForLoad_users us sb h).1.1 = (isAddressForLoad_users us sb' h).1.1 ∧
            (isAddressForLoad_users us sb h).2 = (isAddressForLoad_users us sb' h).2).
  { clear sb sb' g. induction IH as [|U' r HU' _ IHr]; intros sb sb' h; simpl; [done|].
    destruct (HU' (checkSingleBlock (useParent U') sb)
                  (checkSingleBlock (useParent U') sb') h) as [H1 H2].
    destruct (isAddressForLoad U' (checkSingleBlock (useParent U') sb) h)
      as [[res1 sb1] h1].
    destruct (isAddressForLoad U' (checkSingleBlock (useParent U') sb') h)
      as [[res2 sb2] h2].
    simpl in H1, H2. subst res2 h2. destruct res1; [apply IHr|done]. }
  destruct (kind Inst); simpl; try done;
    try (by destruct (g && bool_decide _)); apply Hus.
Qed.

Lemma isCaptured_user_None alloc U sb :
  isCaptured_user alloc U sb = None ↔
  (isAddressForLoad U None false).1.1 = false ∧
  capturingKind alloc (kind (useInst U)) = true.
Proof.
  unfold isCaptured_user.
  destruct (isAddressForLoad_block_indep U (checkSingleBlock (useParent U) sb) None false)
    as [H _].
  destruct (isAddressForLoad U (checkSingleBlock (useParent U) sb) false)
    as [[res sb1] h1]. simpl in H. rewrite <- H.
  destruct res; [split; [done|by intros [? _]]|].
  unfold capturingKind. destruct (kind (useInst U)); try (split; [done|by intros [_ ?]]);
    try (split; done).
  - case_bool_decide as Hd.
    + rewrite bool_decide_eq_false_2 by (intros Hn; by apply Hn). split; [done|by intros [_ ?]].
    + by rewrite bool_decide_eq_true_2.
  - destruct (isLoadable _); split; try done. by intros [_ ?].
Qed.

Lemma isCaptured_loop_None alloc uses :
  ∀ sb, isCaptured_loop alloc uses sb = None ↔
        ∃ U, U ∈ uses ∧ (isAddressForLoad U None false).1.1 = false ∧
             capturingKind alloc (kind (useInst U)) = true.
Proof.
  induction uses as [|U0 r IH]; intros sb; simpl.
  - split; [done|]. intros (U & HU & _). by apply elem_of_nil in HU.
  - destruct (isCaptured_user alloc U0 sb) as [sb'|] eqn:E.
    + rewrite IH. split.
      * intros (U & HU & H). exists U. split; [by apply list_elem_of_further|done].
      * intros (U & HU & H). apply elem_of_cons in HU as [->|HU]; [|by exists U].
        apply (isCaptured_user_None alloc U0 sb) in H. congruence.
    + split; [|done]. intros _. exists U0. split; [apply list_elem_of_here|].
      by apply (isCaptured_user_None alloc U0 sb).
Qed.

(** X6.  [isCaptured] answers that the allocation is captured exactly
    when one of its users is neither an address for loads nor one of the
    tolerated users: a store into the allocation, a deallocation, a
    [debug_value_addr], or a [destroy_addr] of a loadable type.  A store
    of the address of the allocation to another place, a [destroy_addr]
    of an address-only type and any other instruction capture it,
    wherever they stand in the use list. *)
Theorem X6_captured_iff_some_user_captures (alloc : AllocStack) (b : bool) :
  (isCaptured alloc b).1 = true ↔
  ∃ U, U ∈ allocUses alloc ∧
       (isAddressForLoad U None false).1.1 = false ∧
       capturingKind alloc (kind (useInst U)) = true.
Proof.
  rewrite <- (isCaptured_loop_None alloc (allocUses alloc) (Some (allocParent alloc))).
  unfold isCaptured. by destruct (isCaptured_loop _ _ _).
Qed.

(** ** The phi blocks *)

Section PlacementShape.
Variable F : SILFunction.
Variable P : StackAllocationPromoter.

Lemma visitSuccessor_shape Node RootLevel st Succ st' pred :
  Succ ∈ getSuccessors F pred →
  placementShape F P (PhiBlocks st) →
  visitSuccessor P Node RootLevel st Succ = Some st' →
  placementShape F P (PhiBlocks st').
Proof.
  intros Hsucc Hinv. unfold visitSuccessor.
  destruct (getNode (DT P) Succ) as [SuccNode|] eqn:HN; simpl; [|done].
  destruct (match getIDom SuccNode with Some d => sameNode d Node | None => false end);
    [by intros [= <-]|].
  destruct (RootLevel <? _); [by intros [= <-]|].
  destruct (bool_decide (getBlock SuccNode ∈ Visited st)); [by intros [= <-]|].
  destruct (negb (dominates (DT P) (allocParent (ASI P)) (getBlock SuccNode)));
    [by intros [= <-]|].
  destruct (match DSI P with
            | Some D => properlyDominates (DT P) (useParent D) (getBlock SuccNode)
            | None => false
            end); [by intros [= <-]|].
  unfold insertBlock; simpl. case_bool_decide as Hin; simpl; [by intros [= <-]|].
  intros [= <-]; simpl. destruct Hinv as [Hnd Hall]. split.
  - apply NoDup_app. split; [done|]. split; [|apply NoDup_singleton].
    intros x Hx Hx'. apply list_elem_of_singleton in Hx'. by subst.
  - intros b Hb. apply elem_of_app in Hb as [Hb|Hb]; [by apply Hall|].
    apply list_elem_of_singleton in Hb as ->. split; [by rewrite HN|by exists pred].
Qed.

Lemma visitSuccessors_shape Node RootLevel pred Succs :
  (∀ s, s ∈ Succs → s ∈ getSuccessors F pred) →
  ∀ st st', placementShape F P (PhiBlocks st) →
    visitSuccessors P Node RootLevel st Succs = Some st' →
    placementShape F P (PhiBlocks st').
Proof.
  induction Succs as [|Succ r IH]; intros Hsub st st' Hinv; simpl; [by intros [= <-]|].
  destruct (visitSuccessor P Node RootLevel st Succ) as [st1|] eqn:E; simpl; [|done].
  apply IH.
  - intros s Hs. apply Hsub. by apply list_elem_of_further.
  - eapply visitSuccessor_shape; [|exact Hinv|exact E]. apply Hsub, list_elem_of_here.
Qed.

Lemma walkSubtree_shape fuel RootLevel :
  ∀ Worklist st st', placementShape F P (PhiBlocks st) →
    walkSubtree fuel F P RootLevel Worklist st = Some st' →
    placementShape F P (PhiBlocks st').
Proof.
  induction fuel as [|n IH]; intros [|Node Worklist] st st' Hinv; simpl;
    try (by intros [= <-]); try done.
  destruct (visitSuccessors P Node RootLevel st _) as [st1|] eqn:E; simpl; [|done].
  apply IH. eapply (visitSuccessors_shape Node RootLevel (getBlock Node));
    [|exact Hinv|exact E]. done.
Qed.

Lemma placePhis_shape fuel :
  ∀ st st', placementShape F P (PhiBlocks st) →
    placePhis fuel F P st = Some st' → placementShape F P (PhiBlocks st').
Proof.
  induction fuel as [|n IH]; intros st st' Hinv; cbn [placePhis];
    destruct (popTop (PQ st)) as [[RootPair rest]|]; try (by intros [= <-]); try done.
  destruct (walkSubtree (S (length (blocks F))) F P RootPair.2 [RootPair.1]
              (mkPlacement rest (Visited st) (PhiBlocks st))) as [st1|] eqn:E;
    cbn [mbind option_bind]; [|done].
  apply IH. eapply walkSubtree_shape; [|exact E]. exact Hinv.
Qed.

Lemma seedQueue_no_stores uses :
  (∀ U, U ∈ uses → isStore (kind (useInst U)) = true →
        getNode (DT P) (useParent U) = None) →
  ∀ Q, seedQueue P uses Q = Q.
Proof.
  induction uses as [|U r IH]; intros H Q; simpl; [done|].
  assert (Hr : ∀ Q', seedQueue P r Q' = Q').
  { apply IH. intros U' HU'. apply H. by apply list_elem_of_further. }
  pose proof (H U (list_elem_of_here _ _)) as HU.
  destruct (kind (useInst U)); try apply Hr.
  rewrite (HU eq_refl). apply Hr.
Qed.

End PlacementShape.

(** X8.  The phi blocks that the placement loop of
    [promoteAllocationToPhi] computes are listed once each; each has a
    node in the dominator tree and is a successor of a block of the
    function. *)
Theorem X8_phi_blocks_are_distinct_join_points
    (fuel : nat) (F : SILFunction) (P : StackAllocationPromoter)
    (uses : list UseTree) (Blocks : list nat) :
  computePhiBlocks fuel F P uses = Some Blocks →
  NoDup Blocks ∧
  ∀ b, b ∈ Blocks →
    is_Some (getNode (DT P) b) ∧ ∃ pred, b ∈ getSuccessors F pred.
Proof.
  unfold computePhiBlocks.
  destruct (placePhis fuel F P _) as [st|] eqn:E; simpl; [|done]. intros [= <-].
  eapply (placePhis_shape F P); [|exact E]. simpl. split; [apply NoDup_nil_2|].
  intros b Hb. by apply elem_of_nil in Hb.
Qed.

(** X9.  When no store among the users of the allocation sits in a block
    of the dominator tree, in particular when there is no store at all,
    the placement loop has nothing to start from: it ends with no phi
    block, whatever bound is put on its length. *)
Theorem X9_no_reachable_store_no_phi_block
    (fuel : nat) (F : SILFunction) (P : StackAllocationPromoter) (uses : list UseTree) :
  (∀ U, U ∈ uses → isStore (kind (useInst U)) = true →
        getNode (DT P) (useParent U) = None) →
  computePhiBlocks fuel F P uses = Some [].
Proof.
  intros H. unfold computePhiBlocks. rewrite (seedQueue_no_stores P uses H).
  by destruct fuel.
Qed.

(** ** The new block arguments *)

Lemma findBlock_createPhiArgument F b0 b :
  findBlock (createPhiArgument F b0) b =
  (λ B, if blockID B =? b0
        then mkBlock (blockID B) (arguments B ++ [nextID F]) (insts B) else B)
    <$> findBlock F b.
Proof.
  unfold findBlock, createPhiArgument; simpl. generalize (nextID F) as n. intros n.
  induction (blocks F) as [|B r IH]; [done|]. simpl.
  destruct (blockID B =? b0) eqn:E0; simpl; destruct (blockID B =? b) eqn:Eb; simpl;
    try done; by rewrite ?E0.
Qed.

Lemma allInsts_createPhiArgument F b0 : allInsts (createPhiArgument F b0) = allInsts F.
Proof.
  unfold allInsts, createPhiArgument; simpl. generalize (nextID F) as n. intros n.
  induction (blocks F) as [|B r IH]; [done|]. simpl. rewrite IH.
  by destruct (blockID B =? b0).
Qed.

Lemma getLastArgument_createPhiArgument F b0 b :
  getLastArgument (createPhiArgument F b0) b =
  if b =? b0
  then match findBlock F b with Some _ => Some (ValueOf (nextID F)) | None => None end
  else getLastArgument F b.
Proof.
  unfold getLastArgument. rewrite findBlock_createPhiArgument.
  destruct (findBlock F b) as [B|] eqn:E; simpl; [|by destruct (b =? b0)].
  apply findBlock_in in E as [_ <-].
  destruct (blockID B =? b0); simpl; [|done]. by rewrite last_snoc.
Qed.

Lemma addBlockArguments_spec Phi :
  ∀ F,
    allInsts (addBlockArguments F Phi) = allInsts F ∧
    nextID (addBlockArguments F Phi) = nextID F + length Phi ∧
    (∀ b, is_Some (findBlock (addBlockArguments F Phi) b) ↔ is_Some (findBlock F b)) ∧
    (∀ b, b ∉ Phi →
          getLastArgument (addBlockArguments F Phi) b = getLastArgument F b) ∧
    (NoDup Phi → ∀ i b, Phi !! i = Some b → is_Some (findBlock F b) →
       getLastArgument (addBlockArguments F Phi) b = Some (ValueOf (nextID F + i))).
Proof.
  unfold addBlockArguments.
  induction Phi as [|b0 r IH]; intros F; simpl.
  - split; [done|]. split; [lia|]. split; [done|]. split; [done|]. by intros _ [|i] b.
  - destruct (IH (createPhiArgument F b0)) as (H1 & H2 & H3 & H4 & H5).
    assert (Hsome : ∀ b, is_Some (findBlock (createPhiArgument F b0) b) ↔
                         is_Some (findBlock F b)).
    { intros b. rewrite findBlock_createPhiArgument. apply fmap_is_Some. }
    split; [by rewrite H1, allInsts_createPhiArgument|].
    split; [rewrite H2; simpl; lia|].
    split; [intros b; by rewrite H3|]. split.
    + intros b Hb. apply not_elem_of_cons in Hb as [Hne Hb].
      rewrite (H4 b Hb), getLastArgument_createPhiArgument.
      by rewrite (proj2 (Nat.eqb_neq _ _) Hne).
    + intros Hnd i b Hi Hb. apply NoDup_cons in Hnd as [Hb0 Hnd].
      destruct i as [|i]; simpl in Hi.
      * injection Hi as ->. rewrite (H4 b Hb0), getLastArgument_createPhiArgument.
        rewrite Nat.eqb_refl, Nat.add_0_r. by destruct Hb as [B ->].
      * rewrite (H5 Hnd i b Hi (proj2 (Hsome b) Hb)). simpl. f_equal. f_equal. lia.
Qed.

(** X10.  [addBlockArguments] leaves the instructions as they are and
    gives each phi block one new last argument: the block listed at
    position [i] gets the value numbered [nextID F + i], so the new
    arguments are fresh and differ from block to block.  The last
    argument of any other block is what it was. *)
Theorem X10_one_fresh_argument_per_phi_block (F : SILFunction) (Phi : list nat) :
  allInsts (addBlockArguments F Phi) = allInsts F ∧
  nextID (addBlockArguments F Phi) = nextID F + length Phi ∧
  (∀ b, b ∉ Phi → getLastArgument (addBlockArguments F Phi) b = getLastArgument F b) ∧
  (NoDup Phi → ∀ i b, Phi !! i = Some b → is_Some (findBlock F b) →
     getLastArgument (addBlockArguments F Phi) b = Some (ValueOf (nextID F + i))).
Proof.
  destruct (addBlockArguments_spec Phi F) as (H1 & H2 & _ & H4 & H5). done.
Qed.

(** ** Live-out values after the arguments were added *)

Lemma getLiveOutValue_from_defined F LSB Phi :
  (∀ b, b ∈ Phi → is_Some (getLastArgument F b)) →
  ∀ N, is_Some (getLiveOutValue_from F LSB Phi N).
Proof.
  intros Hphi. fix IH 1. intros [BB IDom]. simpl.
  destruct (recordedStoreSrc F LSB BB); [done|].
  case_bool_decide as Hin; [by apply Hphi|].
  destruct IDom as [Next|]; [apply IH|done].
Qed.

(** X11.  Once [addBlockArguments] has run for phi blocks that are
    blocks of the function, [getLiveOutValue] has a value for every
    block, so [fixPhiPredBlock] finds the value to pass on every edge:
    the lookup of the last argument of a phi block cannot fail. *)
Theorem X11_live_out_defined_after_arguments
    (F : SILFunction) (P : StackAllocationPromoter)
    (LastStoreInBlock : gmap nat (option nat)) (Phi : list nat) :
  NoDup Phi →
  (∀ b, b ∈ Phi → is_Some (findBlock F b)) →
  ∀ B Dest,
    is_Some (getLiveOutValue (addBlockArguments F Phi) P LastStoreInBlock Phi B) ∧
    is_Some (fixPhiPredBlock (addBlockArguments F Phi) P LastStoreInBlock Phi Dest B).
Proof.
  intros Hnd Hblocks B Dest.
  assert (Hout : is_Some (getLiveOutValue (addBlockArguments F Phi) P
                            LastStoreInBlock Phi B)).
  { unfold getLiveOutValue. destruct (getNode (DT P) B) as [N|]; [|done].
    apply getLiveOutValue_from_defined. intros b Hb.
    destruct (addBlockArguments_spec Phi F) as (_ & _ & _ & _ & H5).
    apply list_elem_of_lookup in Hb as Hi. destruct Hi as [i Hi].
    by rewrite (H5 Hnd i b Hi (Hblocks b Hb)). }
  split; [done|]. unfold fixPhiPredBlock. by destruct Hout as [v ->].
Qed.

(** ** Values of empty tuples *)

Lemma createValueForEmptyTuple_unfold F elts pos :
  createValueForEmptyTuple F (TupleType elts) pos =
  '(F, elements) ← createValuesForEmptyTuples F elts pos;
  Some (createBefore F pos (TupleInst elements)).
Proof.
  simpl.
  assert (Hloop : ∀ F,
    (fix each (F : SILFunction) (l : list SILType) {struct l}
       : option (SILFunction * list SILValue) :=
       match l with
       | [] => Some (F, [])
       | elementTy :: r =>
           '(F, v) ← createValueForEmptyTuple F elementTy pos;
           '(F, vs) ← each F r;
           Some (F, v :: vs)
       end) F elts = createValuesForEmptyTuples F elts pos).
  { induction elts as [|t r IH]; intros F0; simpl; [done|].
    destruct (createValueForEmptyTuple F0 t pos) as [[F1 v]|]; simpl; [|done].
    by rewrite IH. }
  by rewrite Hloop.
Qed.

Lemma newTuples_trans F1 F2 F3 :
  nextID F1 ≤ nextID F2 → newTuples F1 F2 → newTuples F2 F3 → newTuples F1 F3.
Proof.
  intros Hn H12 H23 q Inst Hin. destruct (H23 q Inst Hin) as [H|[H1 H2]].
  - by apply H12.
  - right. split; [lia|done].
Qed.

Lemma createValueForEmptyTuple_spec pos (ty : SILType) :
  ∀ F,
    match createValueForEmptyTuple F ty pos with
    | Some (F', v) =>
        onlyTuples ty = true ∧ nextID F < nextID F' ∧
        v = ValueOf (pred (nextID F')) ∧ newTuples F F'
    | None => onlyTuples ty = false
    end.
Proof.
  induction ty as [elts IH|l] using SILType_nested_ind; intros F; [|done].
  rewrite createValueForEmptyTuple_unfold. cbn [onlyTuples].
  assert (Heach : ∀ F,
            match createValuesForEmptyTuples F elts pos with
            | Some (F1, vs) =>
                forallb onlyTuples elts = true ∧ nextID F ≤ nextID F1 ∧ newTuples F F1
            | None => forallb onlyTuples elts = false
            end).
  { clear F. induction IH as [|t r Ht _ IHr]; intros F; simpl.
    - split; [done|]. split; [done|]. intros q Inst Hin. by left.
    - specialize (Ht F).
      destruct (createValueForEmptyTuple F t pos) as [[F1 v]|]; simpl;
        [|by rewrite Ht].
      destruct Ht as (Ht1 & Ht2 & _ & Ht4). rewrite Ht1. simpl.
      specialize (IHr F1).
      destruct (createValuesForEmptyTuples F1 r pos) as [[F2 vs]|]; simpl; [|done].
      destruct IHr as (Hr1 & Hr2 & Hr3). split; [done|]. split; [lia|].
      eapply newTuples_trans; [|exact Ht4|exact Hr3]. lia. }
  specialize (Heach F).
  destruct (createValuesForEmptyTuples F elts pos) as [[F1 vs]|]; simpl; [|done].
  destruct Heach as (H1 & H2 & H3). split; [done|]. split; [lia|]. split; [done|].
  intros q Inst Hin.
  apply (allInsts_createBefore F1 pos (TupleInst vs)) in Hin as [Hin| ->].
  - by apply H3.
  - right. by split.
Qed.

(** X12.  [createValueForEmptyTuple] gives a value exactly for the types
    built from tuples alone, the empty tuple and tuples of such; for any
    other type its cast to a tuple type fails.  The value it gives is the
    last one created, and what it adds to the function are [tuple]
    instructions only. *)
Theorem X12_empty_tuple_value_only_for_tuples_of_tuples
    (F : SILFunction) (ty : SILType) (insertionPoint : nat) :
  (is_Some (createValueForEmptyTuple F ty insertionPoint) ↔ onlyTuples ty = true) ∧
  (∀ F' v, createValueForEmptyTuple F ty insertionPoint = Some (F', v) →
           nextID F < nextID F' ∧ v = ValueOf (pred (nextID F')) ∧ newTuples F F').
Proof.
  pose proof (createValueForEmptyTuple_spec insertionPoint ty F) as H. split.
  - destruct (createValueForEmptyTuple F ty insertionPoint) as [[F' v]|].
    + split; [intros _; apply H|done].
    + rewrite H. split; [by intros [? ?]|done].
  - intros F' v E. rewrite E in H. tauto.
Qed.

(** ** Runs that change nothing *)

Lemma run_loop_all_captured hasOwnership getOwnershipKind Dt Levels F ids :
  (∀ id alloc, id ∈ ids → getAllocStack F id = Some alloc →
               (isCaptured alloc false).1 = true) →
  foldM (run_body hasOwnership getOwnershipKind Dt Levels) (F, false) ids
    = Some (F, false).
Proof.
  induction ids as [|id r IH]; intros H; [done|]. rewrite foldM_cons.
  assert (Hbody : run_body hasOwnership getOwnershipKind Dt Levels (F, false) id
                  = Some (F, false)).
  { unfold run_body. destruct (getAllocStack F id) as [alloc|] eqn:E; [|done].
    pose proof (H id alloc (list_elem_of_here _ _) E) as Hc.
    unfold promoteSingleAllocation.
    destruct (isCaptured alloc false) as [captured sb]. simpl in Hc. by subst. }
  rewrite Hbody. apply IH. intros id' alloc Hin. apply H. by apply list_elem_of_further.
Qed.

(** X13.  On a function in which every [alloc_stack] is captured, and so
    on a function without any, [MemoryToRegisters::run] gives a result:
    the function as it was, and [Changed = false]. *)
Theorem X13_run_leaves_captured_allocations_alone
    hasOwnership getOwnershipKind (F : SILFunction) (Dt : DominanceInfo) :
  (∀ id alloc, getAllocStack F id = Some alloc → (isCaptured alloc false).1 = true) →
  run hasOwnership getOwnershipKind F Dt = Some (F, false).
Proof.
  intros H. unfold run. apply run_loop_all_captured. intros id alloc _. apply H.
Qed.

(** ** The record of the last stores *)

Lemma insertBlock_fold_elem (l : list (nat * SILInstruction)) x :
  ∀ acc, x ∈ fold_left (λ Blocks p, (insertBlock Blocks p.1).1) l acc ↔
         x ∈ acc ∨ x ∈ map fst l.
Proof.
  induction l as [|y l IH]; intros acc; simpl.
  - split; [by left|]. intros [H|H]; [done|by apply elem_of_nil in H].
  - rewrite IH. unfold insertBlock. rewrite elem_of_cons.
    case_bool_decide as Hy; simpl.
    + split; [tauto|]. intros [H|[->|H]]; tauto.
    + rewrite elem_of_app, list_elem_of_singleton. tauto.
Qed.

Lemma pruning_loop_domain hasOwnership getOwnershipKind alloc Blocks :
  ∀ (st st' : SILFunction * gmap nat (option nat)),
    foldM (λ (st : SILFunction * gmap nat (option nat)) Block,
             '(F, SI) ← promoteAllocationInBlock hasOwnership getOwnershipKind
                          alloc st.1 Block;
             Some (F, <[Block := SI]> st.2))
          st Blocks = Some st' →
    ∀ b, is_Some (st'.2 !! b) ↔ is_Some (st.2 !! b) ∨ b ∈ Blocks.
Proof.
  induction Blocks as [|BB r IH]; intros st st'.
  - intros [= <-] b. split; [by left|]. intros [H|H]; [done|by apply elem_of_nil in H].
  - rewrite foldM_cons.
    destruct (promoteAllocationInBlock hasOwnership getOwnershipKind alloc st.1 BB)
      as [[F1 SI]|]; simpl; [|done].
    intros Hrest b. rewrite (IH _ _ Hrest b). simpl. rewrite elem_of_cons.
    destruct (decide (b = BB)) as [->|Hne].
    + rewrite lookup_insert_eq. split; [intros _; right; by left|intros _; left; done].
    + rewrite lookup_insert_ne by done. split; [tauto|]. intros [H|[H|H]]; tauto.
Qed.

(** X14.  After [pruneAllocStackUsage], [LastStoreInBlock] has an entry
    for exactly the blocks that held a user of the allocation before the
    pruning. *)
Theorem X14_last_store_recorded_for_blocks_of_users
    hasOwnership getOwnershipKind (F F' : SILFunction) (P : StackAllocationPromoter)
    (LastStoreInBlock : gmap nat (option nat)) :
  pruneAllocStackUsage hasOwnership getOwnershipKind F P = Some (F', LastStoreInBlock) →
  ∀ b, is_Some (LastStoreInBlock !! b) ↔
       ∃ p, p ∈ getUsers F (allocValue (ASI P)) ∧ p.1 = b.
Proof.
  unfold pruneAllocStackUsage. intros H b.
  rewrite (pruning_loop_domain _ _ _ _ _ _ H b). simpl.
  rewrite lookup_empty, insertBlock_fold_elem. split.
  - intros [[? [=]]|[Hb|Hb]]; [by apply elem_of_nil in Hb|].
    apply list_elem_of_In, in_map_iff in Hb as (p & <- & Hp).
    exists p. split; [by apply list_elem_of_In|done].
  - intros (p & Hp & <-). right. right. apply list_elem_of_In, in_map.
    by apply list_elem_of_In.
Qed.

(** ** Instructions that the rewriting keeps *)

Lemma mapOperands_id k : mapOperands (λ v, v) k = k.
Proof.
  destruct k; simpl; try done; f_equal; try apply map_id.
  induction edges as [|[d args] r IH]; simpl; [done|]. by rewrite map_id, IH.
Qed.

Lemma sameUpToOperands_refl a k : sameUpToOperands a k k.
Proof. exists (λ v, v). split; [done|]. by rewrite mapOperands_id. Qed.

Lemma sameUpToOperands_trans a k1 k2 k3 :
  sameUpToOperands a k1 k2 → sameUpToOperands a k2 k3 → sameUpToOperands a k1 k3.
Proof.
  intros (f & Hf & ->) (g & Hg & ->). exists (g ∘ f). split.
  - simpl. by rewrite Hf.
  - by rewrite mapOperands_compose.
Qed.

Lemma sameUpToOperands_subst a old new k :
  old ≠ ValueOf a → sameUpToOperands a k (mapOperands (substValue old new) k).
Proof.
  intros Hold. exists (substValue old new). split; [|done].
  unfold substValue. by rewrite decide_False by congruence.
Qed.

Lemma sameUpToOperands_projection a k k' :
  sameUpToOperands a k k' → isAddrProjection k' = isAddrProjection k.
Proof. intros (f & _ & ->). by destruct k. Qed.

Lemma isAllocKind_closed a k k' :
  isAllocKind k → sameUpToOperands a k k' → isAllocKind k'.
Proof. intros [ty ->] (f & _ & ->). by exists ty. Qed.

Lemma isInitStoreTo_closed a k k' :
  isInitStoreTo a k → sameUpToOperands a k k' → isInitStoreTo a k'.
Proof.
  intros (src & qual & -> & Hq) (f & Hf & ->). exists (f src), qual. simpl.
  by rewrite Hf.
Qed.

Lemma findInst_bound F x q Inst :
  wfIDs F → findInst F x = Some (q, Inst) → x < nextID F.
Proof.
  intros [_ Hlt] H. destruct (findInst_in _ _ _ _ H) as [Hin <-].
  apply (Hlt (q, Inst) Hin).
Qed.

Section Keeps.
Variables (hasOwnership : bool) (getOwnershipKind : SILFunction → SILValue → OwnershipKind).
Variable a : nat.
Variable C : InstKind → Prop.
Variable x : nat.
Hypothesis C_closed : ∀ k k', C k → sameUpToOperands a k k' → C k'.
#[local] Abbreviation kp := (keeps a C x).

Lemma comesFrom_refl F : comesFrom F F.
Proof. intros q Inst Hin. left. by exists Inst. Qed.

Lemma isCreatedKind_opcode k k' :
  opcode k = opcode k' → isCreatedKind k = isCreatedKind k'.
Proof.
  destruct k as [| ? [] | | | | | | | | | | | | | | | | | |];
    destruct k' as [| ? [] | | | | | | | | | | | | | | | | | |]; by simpl.
Qed.

Lemma comesFrom_trans F1 F2 F3 :
  nextID F1 ≤ nextID F2 → comesFrom F1 F2 → comesFrom F2 F3 → comesFrom F1 F3.
Proof.
  intros Hn H12 H23 q I3 Hin. destruct (H23 q I3 Hin) as [(I2 & Hin2 & Hid & Ho)|[Hge Hk]].
  - destruct (H12 q I2 Hin2) as [(I1 & Hin1 & Hid1 & Ho1)|[Hge Hk]].
    + left. exists I1. split; [done|]. split; congruence.
    + right. split; [lia|]. by rewrite (isCreatedKind_opcode _ _ Ho).
  - right. split; [lia|done].
Qed.

Lemma keeps_refl F : kp F F.
Proof.
  split; [done|]. split; [apply comesFrom_refl|]. intros Hwf. split; [done|].
  intros q k _ H. exists k. split; [done|apply sameUpToOperands_refl].
Qed.

Lemma keeps_trans F1 F2 F3 : kp F1 F2 → kp F2 F3 → kp F1 F3.
Proof.
  intros (Hn1 & Ho1 & H1) (Hn2 & Ho2 & H2). split; [lia|].
  split; [by eapply comesFrom_trans|]. intros Hwf.
  destruct (H1 Hwf) as [Hwf2 K1]. destruct (H2 Hwf2) as [Hwf3 K2].
  split; [done|]. intros q k HC Hf.
  destruct (K1 q k HC Hf) as (k2 & Hf2 & Hs2).
  destruct (K2 q k2 (C_closed _ _ HC Hs2) Hf2) as (k3 & Hf3 & Hs3).
  exists k3. split; [done|by eapply sameUpToOperands_trans].
Qed.

Lemma comesFrom_erase F y : comesFrom F (eraseFromParent F y).
Proof.
  intros q Inst Hin. left. exists Inst. split; [|done].
  rewrite eraseFromParent_mapLists in Hin.
  apply elem_of_allInsts_mapLists in Hin as (B & HB & Hq & Hin).
  apply list_elem_of_In, filter_In in Hin as [Hin _]. by eapply allInsts_intro.
Qed.

(** Erasing an instruction that is found under its number and is not of
    the class. *)
Lemma keeps_erase F y :
  (∀ q Inst, findInst F y = Some (q, Inst) → ¬ C (kind Inst)) →
  kp F (eraseFromParent F y).
Proof.
  intros Hy. split; [done|]. split; [apply comesFrom_erase|].
  intros Hwf. split; [by apply wfIDs_erase|].
  intros q k HC Hf. exists k. split; [|apply sameUpToOperands_refl].
  rewrite findInst_erase_ne; [done|]. intros ->. by apply (Hy q _ Hf).
Qed.

Lemma keeps_erase_ne F y : y ≠ x → kp F (eraseFromParent F y).
Proof.
  intros Hne. split; [done|]. split; [apply comesFrom_erase|].
  intros Hwf. split; [by apply wfIDs_erase|].
  intros q k HC Hf. exists k. split; [|apply sameUpToOperands_refl].
  by rewrite findInst_erase_ne.
Qed.

Lemma keeps_createBefore F pos k0 :
  isCreatedKind k0 = true → kp F (createBefore F pos k0).1.
Proof.
  intros Hk0. split; [simpl; lia|]. split.
  - intros q Inst Hin. apply allInsts_createBefore in Hin as [Hin| ->].
    + left. by exists Inst.
    + right. by split.
  - intros Hwf. split; [by apply wfIDs_createBefore|].
    intros q k HC Hf. exists k. split; [|apply sameUpToOperands_refl].
    rewrite findInst_createBefore_ne; [done|].
    pose proof (findInst_bound F x q _ Hwf Hf). lia.
Qed.

Lemma keeps_mapInsts f F :
  (∀ Inst, instID (f Inst) = instID Inst ∧ opcode (kind (f Inst)) = opcode (kind Inst)) →
  (∀ Inst, instID Inst = x → C (kind Inst) →
           sameUpToOperands a (kind Inst) (kind (f Inst))) →
  kp F (mapInsts f F).
Proof.
  intros Hid Hk. split; [done|]. split.
  - intros q Inst' Hin. rewrite mapInsts_mapLists in Hin.
    apply elem_of_allInsts_mapLists in Hin as (B & HB & Hq & Hin).
    apply list_elem_of_In, in_map_iff in Hin as (Inst & <- & Hin).
    left. exists Inst. split; [by eapply allInsts_intro|apply Hid].
  - intros Hwf. split; [apply wfIDs_mapInsts; [intros; apply Hid|done]|].
    intros q k HC Hf.
    rewrite (findInst_mapInsts f F x (λ Inst, proj1 (Hid Inst))), Hf. simpl.
    exists (kind (f (mkInst x k))). split.
    + destruct (Hid (mkInst x k)) as [Hi _].
      destruct (f (mkInst x k)) as [i k']; simpl in *. by subst.
    + by apply (Hk (mkInst x k)).
Qed.

Lemma opcode_mapOperands f k : opcode (mapOperands f k) = opcode k.
Proof. by destruct k. Qed.

Lemma keeps_replaceAllUsesWith F old new :
  old ≠ ValueOf a → kp F (replaceAllUsesWith F old new).
Proof.
  intros Hold. apply keeps_mapInsts.
  - intros Inst. simpl. split; [done|apply opcode_mapOperands].
  - intros Inst _ _. simpl. by apply sameUpToOperands_subst.
Qed.

Lemma keeps_setOwnershipQualifier F id q :
  id ≠ x → kp F (setOwnershipQualifier F id q).
Proof.
  intros Hne. apply keeps_mapInsts.
  - intros [i k]; simpl. destruct (i =? id); [|done]. by destruct k.
  - intros Inst Hx _. rewrite (proj2 (Nat.eqb_neq _ _)) by congruence.
    apply sameUpToOperands_refl.
Qed.

Lemma keeps_emitBeginBorrow F pos v :
  kp F (emitBeginBorrowOperation hasOwnership getOwnershipKind F pos v).1.
Proof.
  unfold emitBeginBorrowOperation. destruct (_ || _); [apply keeps_refl|].
  by apply keeps_createBefore.
Qed.

Lemma keeps_createObjectProjection F pos proj v :
  kp F (createObjectProjection F pos proj v).1.
Proof. destruct proj; simpl; by apply keeps_createBefore. Qed.

Lemma keeps_projectValue pos projections :
  ∀ F val borrowed,
    kp F (projectValue hasOwnership getOwnershipKind F pos projections val borrowed).1.1.
Proof.
  induction projections as [|proj r IH]; intros F val borrowed; simpl;
    [apply keeps_refl|].
  destruct (isFieldProjection (kind proj)).
  - pose proof (keeps_emitBeginBorrow F pos val) as HB.
    destruct (emitBeginBorrowOperation _ _ F pos val) as [F1 opVal]; simpl in HB.
    destruct (bool_decide (opVal ≠ val)).
    + pose proof (keeps_createObjectProjection F1 pos (kind proj) opVal) as HC.
      destruct (createObjectProjection F1 pos (kind proj) opVal) as [F2 v2].
      eapply keeps_trans; [exact HB|]. eapply keeps_trans; [exact HC|apply IH].
    + pose proof (keeps_createObjectProjection F1 pos (kind proj) val) as HC.
      destruct (createObjectProjection F1 pos (kind proj) val) as [F2 v2].
      eapply keeps_trans; [exact HB|]. eapply keeps_trans; [exact HC|apply IH].
  - pose proof (keeps_createObjectProjection F pos (kind proj) val) as HC.
    destruct (createObjectProjection F pos (kind proj) val) as [F2 v2].
    eapply keeps_trans; [exact HC|apply IH].
Qed.

Lemma keeps_fold_endBorrow pos borrowed :
  ∀ F, kp F (fold_left (λ F b, (createBefore F pos (EndBorrowInst b)).1) borrowed F).
Proof.
  induction borrowed as [|b r IH]; intros F; simpl; [apply keeps_refl|].
  eapply keeps_trans; [|apply IH].
  exact (keeps_createBefore F pos (EndBorrowInst b) eq_refl).
Qed.

Hypothesis C_no_projection : ∀ k, C k → isAddrProjection k = false.

Lemma keeps_eraseDeadProjections fuel :
  ∀ F ASI op F', eraseDeadProjections fuel F ASI op = Some F' → kp F F'.
Proof.
  induction fuel as [|n IH]; intros F ASI op F'; simpl;
    destruct (_ && _); try done; try (intros [= <-]; apply keeps_refl).
  destruct (definingInst F op) as [D|] eqn:HD; simpl; [|done].
  destruct (isAddrProjection (kind D)) eqn:Hp; simpl; [|done].
  destruct (getOperand0 (kind D)) as [next|]; simpl; [|done].
  intros H. eapply keeps_trans; [|by eapply IH]. apply keeps_erase.
  intros q Inst Hf HC. destruct op as [|i]; simpl in HD; [done|].
  destruct (findInst F i) as [[q' D']|] eqn:E; simpl in HD; [|done].
  injection HD as ->. rewrite (findInst_id _ _ _ _ E) in Hf. rewrite E in Hf.
  injection Hf as _ <-. apply C_no_projection in HC. congruence.
Qed.

Lemma keeps_replaceLoad F LI val F' :
  instID LI ≠ a → instID LI ≠ x →
  replaceLoad hasOwnership getOwnershipKind F LI val (ValueOf a) = Some F' →
  kp F F'.
Proof.
  intros HLa HLx. unfold replaceLoad.
  destruct (kind LI) as [|op qual| | | | | | | | | | | | | | | | | |]; try done.
  destruct (collectProjections _ F (ValueOf a) op) as [projections|]; simpl; [|done].
  pose proof (keeps_projectValue (instID LI) (rev projections) F val []) as HP.
  destruct (projectValue _ _ F (instID LI) (rev projections) val [])
    as [[F1 val1] borrowed]; simpl in HP.
  assert (Hold : asValue LI ≠ ValueOf a) by (unfold asValue; congruence).
  destruct (if bool_decide (qual = LoadCopy) then _ else _) as [F2|] eqn:E2;
    simpl; [|done].
  assert (H2 : kp F1 F2).
  { destruct (bool_decide (qual = LoadCopy)).
    - simpl in E2. injection E2 as <-.
      eapply keeps_trans;
        [exact (keeps_createBefore F1 (instID LI) (CopyValueInst val1) eq_refl)|].
      by apply keeps_replaceAllUsesWith.
    - destruct (assert _); simpl in E2; [|done]. injection E2 as <-.
      by apply keeps_replaceAllUsesWith. }
  intros HE. eapply keeps_trans; [exact HP|]. eapply keeps_trans; [exact H2|].
  eapply keeps_trans; [apply keeps_fold_endBorrow|].
  eapply keeps_trans; [apply keeps_erase_ne; exact HLx|].
  exact (keeps_eraseDeadProjections _ _ _ _ _ HE).
Qed.

Lemma keeps_replaceDestroy F DAI Ty NewValue F' :
  instID DAI ≠ x → replaceDestroy F DAI Ty NewValue = Some F' → kp F F'.
Proof.
  intros HD. unfold replaceDestroy.
  destruct (assert (isLoadable Ty)); simpl; [|done].
  destruct (assert (_ || _)); simpl; [|done]. intros [= <-].
  eapply keeps_trans; [|apply keeps_erase_ne; exact HD].
  destruct NewValue as [v|]; [|apply keeps_refl].
  exact (keeps_createBefore F (instID DAI) (DestroyValueInst v) eq_refl).
Qed.

Lemma keeps_promoteDebugValueAddr F DVAI Ty Value F' :
  instID DVAI ≠ x → promoteDebugValueAddr F DVAI Ty Value = Some F' → kp F F'.
Proof.
  intros HD. unfold promoteDebugValueAddr.
  destruct (assert (isLoadable Ty)); simpl; [|done].
  destruct (kind DVAI); try done.
  destruct (existsb _ _); intros [= <-].
  - by apply keeps_erase_ne.
  - eapply keeps_trans; [|by apply keeps_erase_ne].
    exact (keeps_createBefore F (instID DVAI) (DebugValueInst Value varInfo) eq_refl).
Qed.

End Keeps.

(** *** The allocation and the retained store during a scan *)

Lemma isAllocKind_no_projection k : isAllocKind k → isAddrProjection k = false.
Proof. by intros [ty ->]. Qed.

Lemma isInitStoreTo_no_projection a k : isInitStoreTo a k → isAddrProjection k = false.
Proof. by intros (src & qual & -> & _). Qed.

Lemma keeps_alloc a p ty F F' :
  keeps a isAllocKind a F F' → wfIDs F → allocPresent a p ty F →
  wfIDs F' ∧ allocPresent a p ty F'.
Proof.
  intros (Hn & _ & H) Hwf [Hf Hlt]. destruct (H Hwf) as [Hwf' K]. split; [done|].
  destruct (K p (AllocStackInst ty) (ex_intro _ ty eq_refl) Hf) as (k' & Hf' & f & _ & ->).
  split; [done|lia].
Qed.

Lemma keeps_store a x F F' :
  keeps a (isInitStoreTo a) x F F' → wfIDs F →
  (∃ q k, findInst F x = Some (q, mkInst x k) ∧ isInitStoreTo a k) →
  ∃ q k, findInst F' x = Some (q, mkInst x k) ∧ isInitStoreTo a k.
Proof.
  intros (Hn & _ & H) Hwf (q & k & Hf & Hk). destruct (H Hwf) as [_ K].
  destruct (K q k Hk Hf) as (k' & Hf' & Hs). exists q, k'. split; [done|].
  by eapply isInitStoreTo_closed.
Qed.

Lemma findInst_eta F x q Inst :
  findInst F x = Some (q, Inst) → findInst F x = Some (q, mkInst x (kind Inst)).
Proof.
  intros H. rewrite H. pose proof (findInst_id _ _ _ _ H) as <-. by destruct Inst.
Qed.

Section ScanKeeps.
Variables (hasOwnership : bool) (getOwnershipKind : SILFunction → SILValue → OwnershipKind).
Variables (alloc : AllocStack) (p : nat).
#[local] Abbreviation ka := (allocID alloc).
#[local] Abbreviation kty := (allocElementType alloc).

(** A rewriting that keeps every instruction other than the one
    visited keeps the invariant. *)
Lemma lastStoreInv_keeps F RV LS pre id F' RV' :
  lastStoreInv ka p kty (mkScan F RV LS) pre →
  id ∉ pre → id ≠ ka →
  (∀ C x, (∀ k k', C k → sameUpToOperands ka k k' → C k') →
          (∀ k, C k → isAddrProjection k = false) →
          x ≠ id → keeps ka C x F F') →
  lastStoreInv ka p kty (mkScan F' RV' LS) (pre ++ [id]).
Proof.
  intros [Hwf Hp Hls] Hid Hida Hk. simpl in *.
  destruct (keeps_alloc ka p kty F F') as [Hwf' Hp']; [|done|done|].
  { apply Hk; [apply isAllocKind_closed|apply isAllocKind_no_projection|done]. }
  split; simpl; [done|done|]. intros ls HLS. destruct (Hls ls HLS) as [Hin Hst].
  split; [apply elem_of_app; by left|].
  apply (keeps_store ka ls F F'); [|done|done].
  apply Hk; [apply isInitStoreTo_closed|apply isInitStoreTo_no_projection|].
  intros ->. done.
Qed.

Lemma lastStoreInv_same F RV RV' LS pre id :
  lastStoreInv ka p kty (mkScan F RV LS) pre →
  lastStoreInv ka p kty (mkScan F RV' LS) (pre ++ [id]).
Proof.
  intros [Hwf Hp Hls]. split; [done|done|]. intros ls HLS.
  destruct (Hls ls HLS) as [Hin Hst]. split; [apply elem_of_app; by left|done].
Qed.

Ltac unchanged :=
  intros [= <- <-]; by eapply lastStoreInv_same.

(** The store case. *)
Lemma lastStoreInv_store F RV LS pre id q Inst src qual :
  lastStoreInv ka p kty (mkScan F RV LS) pre →
  id ∉ pre →
  findInst F id = Some (q, Inst) →
  kind Inst = StoreInst src (ValueOf ka) qual →
  let Fa :=
    if bool_decide (qual = StoreAssign) then
      setOwnershipQualifier
        match RV with
        | Some rv => (createBefore F id (DestroyValueInst rv)).1
        | None =>
            (createBefore (createBefore F id (LoadInst (ValueOf ka) LoadTake)).1 id
               (DestroyValueInst (ValueOf (nextID F)))).1
        end id StoreInit
    else F in
  let Fb := match LS with Some last => eraseFromParent Fa last | None => Fa end in
  lastStoreInv ka p kty (mkScan Fb (Some src) (Some id)) (pre ++ [id]).
Proof.
  intros [Hwf Hp Hls] Hid Hfind Hk Fa Fb. simpl in Hwf, Hp, Hls.
  pose proof (findInst_id _ _ _ _ Hfind) as Hii.
  assert (Hne : id ≠ ka).
  { eapply (present_other ka p kty); [exact Hp|exact Hfind|]. by rewrite Hk. }
  assert (Hlt : id < nextID F) by (by eapply findInst_bound).
  assert (Ha1 : ∀ C x, (∀ k k', C k → sameUpToOperands ka k k' → C k') →
                       x ≠ id → keeps ka C x F Fa).
  { intros C x HC Hx. subst Fa. case_bool_decide as Hq; [|apply keeps_refl].
    eapply keeps_trans; [done| |by apply keeps_setOwnershipQualifier].
    destruct RV as [rv|];
      [exact (keeps_createBefore ka C x F id (DestroyValueInst rv) eq_refl)|].
    eapply keeps_trans; [done| |].
    - exact (keeps_createBefore ka C x F id (LoadInst (ValueOf ka) LoadTake) eq_refl).
    - exact (keeps_createBefore ka C x
               (createBefore F id (LoadInst (ValueOf ka) LoadTake)).1 id
               (DestroyValueInst (ValueOf (nextID F))) eq_refl). }
  assert (Ha2 : ∃ qual', findInst Fa id
                         = Some (q, mkInst id (StoreInst src (ValueOf ka) qual')) ∧
                         qual' ≠ StoreAssign).
  { subst Fa. case_bool_decide as Hq.
    - exists StoreInit. split; [|done]. unfold setOwnershipQualifier.
      rewrite findInst_mapInsts
        by (intros [i k]; simpl; destruct (i =? id); [by destruct k|done]).
      destruct RV as [rv|].
      + rewrite findInst_createBefore_ne by lia. rewrite Hfind. simpl.
        by rewrite Hii, Nat.eqb_refl, Hk.
      + rewrite findInst_createBefore_ne by (simpl; lia).
        rewrite findInst_createBefore_ne by lia. rewrite Hfind. simpl.
        by rewrite Hii, Nat.eqb_refl, Hk.
    - exists qual. split; [|done]. rewrite (findInst_eta _ _ _ _ Hfind). by rewrite Hk. }
  destruct Ha2 as (qual' & Ha2 & Hq').
  assert (Hlast : ∀ last, LS = Some last → last ≠ id ∧ last ≠ ka).
  { intros last HLS. destruct (Hls last HLS) as [Hin (q' & k' & Hf' & Hk')].
    split; [intros ->; done|]. intros ->. destruct Hp as [Hpa _].
    rewrite Hpa in Hf'. injection Hf' as _ <-.
    by destruct Hk' as (? & ? & ? & _). }
  destruct (keeps_alloc ka p kty F Fa) as [Hwfa Hpa]; [|done|done|].
  { apply Ha1; [apply isAllocKind_closed|done]. }
  split; cbn [scanF RunningVal LastStore].
  - subst Fb. destruct LS as [last|]; [by apply wfIDs_erase|done].
  - subst Fb. destruct LS as [last|]; [|done]. apply present_erase; [done|].
    by apply (Hlast last).
  - intros ls [= <-]. split; [apply elem_of_app; right; apply list_elem_of_here|].
    exists q, (StoreInst src (ValueOf ka) qual'). split; [|by exists src, qual'].
    subst Fb. destruct LS as [last|]; [|done]. rewrite findInst_erase_ne; [done|].
    by apply (Hlast last).
Qed.

(** One turn of the loop of [promoteAllocationInBlock]. *)
Lemma lastStoreInv_step st pre id st' stop :
  lastStoreInv ka p kty st pre →
  id ∉ pre →
  promoteAllocationInBlock_body hasOwnership getOwnershipKind alloc st id
    = Some (st', stop) →
  lastStoreInv ka p kty st' (pre ++ [id]).
Proof.
  intros HI Hid. pose proof HI as [Hwf Hp Hls]. destruct st as [F RV LS].
  simpl in Hwf, Hp, Hls.
  unfold promoteAllocationInBlock_body. cbn [scanF RunningVal LastStore].
  unfold allocValue.
  destruct (findInst F id) as [[q Inst]|] eqn:Hfind; [|by unchanged].
  pose proof (findInst_id _ _ _ _ Hfind) as Hii.
  assert (Hida : (∀ ty0, kind Inst ≠ AllocStackInst ty0) → id ≠ ka).
  { intros Hk. by eapply (present_other ka p kty); [exact Hp|exact Hfind|]. }
  destruct (isLoadFromStack F Inst (ValueOf ka)) eqn:Hload'.
  - unfold isLoadFromStack in Hload'.
    destruct (kind Inst) as [|op qual| | | | | | | | | | | | | | | | | |] eqn:Hk;
      try done.
    destruct RV as [rv|].
    + destruct (replaceLoad _ _ F Inst rv (ValueOf ka)) as [F1|] eqn:E; simpl; [|done].
      intros [= <- <-].
      apply (lastStoreInv_keeps F (Some rv) LS pre id F1 (Some rv) HI Hid);
        [by apply Hida|].
      intros C x HC1 HC2 Hx.
      apply (keeps_replaceLoad hasOwnership getOwnershipKind ka C x HC1 HC2 F Inst rv F1);
        [rewrite Hii; by apply Hida|by rewrite Hii|done].
    + destruct (bool_decide (op = ValueOf ka) && bool_decide (qual ≠ LoadCopy)).
      * intros [= <- <-]. by apply (lastStoreInv_same F None).
      * by unchanged.
  - destruct (kind Inst) eqn:Hk; try (by unchanged).
    + (* a store *)
      case_bool_decide as Hdest; [by unchanged|].
      assert (Hd : dest = ValueOf ka) by (by destruct (decide (dest = ValueOf ka))).
      subst dest. intros [= <- <-].
      exact (lastStoreInv_store F RV LS pre id q Inst src qual HI Hid Hfind Hk).
    + (* debug_value_addr *)
      destruct RV as [rv|]; [|by unchanged].
      case_bool_decide; [|by unchanged].
      destruct (promoteDebugValueAddr F Inst kty rv) as [F1|] eqn:E; simpl; [|done].
      intros [= <- <-].
      apply (lastStoreInv_keeps F (Some rv) LS pre id F1 (Some rv) HI Hid);
        [by apply Hida|].
      intros C x HC1 HC2 Hx.
      apply (keeps_promoteDebugValueAddr ka C x HC1 F Inst kty rv F1);
        [by rewrite Hii|done].
    + (* destroy_addr *)
      destruct RV as [rv|]; [|by unchanged].
      case_bool_decide; [|by unchanged].
      destruct (replaceDestroy F Inst kty (Some rv)) as [F1|] eqn:E; simpl; [|done].
      intros [= <- <-].
      apply (lastStoreInv_keeps F (Some rv) LS pre id F1 (Some rv) HI Hid);
        [by apply Hida|].
      intros C x HC1 HC2 Hx.
      apply (keeps_replaceDestroy ka C x HC1 F Inst kty (Some rv) F1);
        [by rewrite Hii|done].
    + (* destroy_value *)
      case_bool_decide; [|by unchanged].
      intros [= <- <-]. split; [done|done|]. by intros ls.
Qed.

End ScanKeeps.

Lemma NoDup_flat_map_elem {A B} (f : A → list B) (l : list A) (y : A) :
  NoDup (flat_map f l) → y ∈ l → NoDup (f y).
Proof.
  induction l as [|z l IH]; intros Hnd Hy; [by apply elem_of_nil in Hy|].
  simpl in Hnd. apply NoDup_app in Hnd as (H1 & _ & H2).
  apply elem_of_cons in Hy as [->|Hy]; [done|by apply IH].
Qed.

Lemma NoDup_blockInstIDs F b : wfIDs F → NoDup (blockInstIDs F b).
Proof.
  intros [Hnd _]. unfold blockInstIDs.
  destruct (findBlock F b) as [B|] eqn:E; [|apply NoDup_nil_2].
  apply findBlock_in in E as [HB _]. rewrite instIDs_blocks in Hnd.
  by apply (NoDup_flat_map_elem (λ B, map instID (insts B)) (blocks F) B).
Qed.

Section ScanKeepsLoop.
Variables (hasOwnership : bool) (getOwnershipKind : SILFunction → SILValue → OwnershipKind).
Variables (alloc : AllocStack) (p : nat).

Lemma lastStoreInv_mono st visited visited' :
  (∀ i, i ∈ visited → i ∈ visited') →
  lastStoreInv (allocID alloc) p (allocElementType alloc) st visited →
  lastStoreInv (allocID alloc) p (allocElementType alloc) st visited'.
Proof.
  intros Hsub [Hwf Hp Hls]. split; [done|done|]. intros ls HLS.
  destruct (Hls ls HLS) as [Hin Hst]. split; [by apply Hsub|done].
Qed.

Lemma lastStoreInv_loop rest :
  ∀ pre st st',
    NoDup (pre ++ rest) →
    lastStoreInv (allocID alloc) p (allocElementType alloc) st pre →
    forEachInst (promoteAllocationInBlock_body hasOwnership getOwnershipKind alloc)
                st rest = Some st' →
    lastStoreInv (allocID alloc) p (allocElementType alloc) st' (pre ++ rest).
Proof.
  induction rest as [|id rest IH]; intros pre st st' Hnd HI.
  - intros [= <-]. by rewrite app_nil_r.
  - rewrite forEachInst_cons.
    destruct (promoteAllocationInBlock_body hasOwnership getOwnershipKind alloc st id)
      as [[st1 stop]|] eqn:E; [|done].
    assert (Hid : id ∉ pre).
    { apply NoDup_app in Hnd as (_ & Hd & _). intros Hin. apply (Hd id Hin).
      apply list_elem_of_here. }
    pose proof (lastStoreInv_step hasOwnership getOwnershipKind alloc p st pre id st1 stop
                  HI Hid E) as HI1.
    destruct stop.
    + intros [= <-]. eapply lastStoreInv_mono; [|exact HI1].
      intros i Hi. apply elem_of_app in Hi as [Hi|Hi]; apply elem_of_app; [by left|].
      apply list_elem_of_singleton in Hi as ->. right. apply list_elem_of_here.
    + intros Hrest. replace (pre ++ id :: rest) with ((pre ++ [id]) ++ rest)
        by (by rewrite <- app_assoc).
      eapply IH; [|exact HI1|exact Hrest]. by rewrite <- app_assoc.
Qed.

End ScanKeepsLoop.

Lemma promoteAllocationInBlock_lastStore
    hasOwnership getOwnershipKind (alloc : AllocStack) (p : nat) (F F' : SILFunction)
    (BB : nat) (LS : option nat) :
  wfIDs F →
  allocPresent (allocID alloc) p (allocElementType alloc) F →
  promoteAllocationInBlock hasOwnership getOwnershipKind alloc F BB = Some (F', LS) →
  wfIDs F' ∧
  allocPresent (allocID alloc) p (allocElementType alloc) F' ∧
  ∀ ls, LS = Some ls →
    ls ∈ blockInstIDs F BB ∧
    ∃ q src qual,
      findInst F' ls = Some (q, mkInst ls (StoreInst src (allocValue alloc) qual)) ∧
      qual ≠ StoreAssign ∧
      ∀ LastStoreInBlock,
        recordedStoreSrc F' (<[BB := Some ls]> LastStoreInBlock) BB = Some src.
Proof.
  intros Hwf Hp. unfold promoteAllocationInBlock.
  destruct (forEachInst _ (mkScan F None None) (blockInstIDs F BB)) as [st'|] eqn:E;
    simpl; [|done].
  intros [= <- <-].
  assert (HI0 : lastStoreInv (allocID alloc) p (allocElementType alloc)
                  (mkScan F None None) []).
  { split; [done|done|]. by intros ls. }
  pose proof (lastStoreInv_loop hasOwnership getOwnershipKind alloc p _ [] _ st'
                (NoDup_blockInstIDs F BB Hwf) HI0 E) as [Hwf' Hp' Hls].
  split; [done|]. split; [done|]. intros ls HLS.
  destruct (Hls ls HLS) as [Hin (q & k & Hf & src & qual & -> & Hq)].
  split; [done|]. exists q, src, qual. split; [done|]. split; [done|].
  intros LSB. unfold recordedStoreSrc. by rewrite lookup_insert_eq, Hf.
Qed.

(** X15.  In a function whose instructions are numbered apart, the store
    that [promoteAllocationInBlock] returns as the last store of the
    block is an instruction of the scanned block that is still in the
    function after the scan, stores into the allocation, and is not a
    [store [assign]]: the assertion of the source on [LastStore] holds,
    and [getLiveOutValue] finds the source of the recorded store.  The
    scan keeps the numbering and the allocation. *)
Theorem X15_returned_last_store_is_a_live_init_store
    hasOwnership getOwnershipKind (alloc : AllocStack) (p : nat) (F F' : SILFunction)
    (BB : nat) (LS : option nat) :
  wfIDs F →
  allocPresent (allocID alloc) p (allocElementType alloc) F →
  promoteAllocationInBlock hasOwnership getOwnershipKind alloc F BB = Some (F', LS) →
  wfIDs F' ∧
  allocPresent (allocID alloc) p (allocElementType alloc) F' ∧
  ∀ ls, LS = Some ls →
    ls ∈ blockInstIDs F BB ∧
    ∃ q src qual,
      findInst F' ls = Some (q, mkInst ls (StoreInst src (allocValue alloc) qual)) ∧
      qual ≠ StoreAssign ∧
      ∀ LastStoreInBlock,
        recordedStoreSrc F' (<[BB := Some ls]> LastStoreInBlock) BB = Some src.
Proof.
  exact (promoteAllocationInBlock_lastStore hasOwnership getOwnershipKind alloc p F F'
           BB LS).
Qed.

(** *** What a scan keeps *)

Section ScanKeepsOther.
Variables (hasOwnership : bool) (getOwnershipKind : SILFunction → SILValue → OwnershipKind).
Variables (alloc : AllocStack) (p : nat).
Variable C : InstKind → Prop.
Variable x : nat.
Hypothesis C_closed : ∀ k k', C k → sameUpToOperands (allocID alloc) k k' → C k'.
Hypothesis C_no_projection : ∀ k, C k → isAddrProjection k = false.
#[local] Abbreviation oa := (allocID alloc).
#[local] Abbreviation oty := (allocElementType alloc).

Lemma keeps_store_case F RV LS id qual :
  x ≠ id → (∀ last, LS = Some last → last ≠ x) →
  let Fa :=
    if bool_decide (qual = StoreAssign) then
      setOwnershipQualifier
        match RV with
        | Some rv => (createBefore F id (DestroyValueInst rv)).1
        | None =>
            (createBefore (createBefore F id (LoadInst (ValueOf oa) LoadTake)).1 id
               (DestroyValueInst (ValueOf (nextID F)))).1
        end id StoreInit
    else F in
  let Fb := match LS with Some last => eraseFromParent Fa last | None => Fa end in
  keeps oa C x F Fb.
Proof.
  intros Hx Hlast Fa Fb.
  assert (Ha : keeps oa C x F Fa).
  { subst Fa. case_bool_decide as Hq; [|apply keeps_refl].
    eapply keeps_trans; [done| |by apply keeps_setOwnershipQualifier].
    destruct RV as [rv|];
      [exact (keeps_createBefore oa C x F id (DestroyValueInst rv) eq_refl)|].
    eapply keeps_trans; [done| |].
    - exact (keeps_createBefore oa C x F id (LoadInst (ValueOf oa) LoadTake) eq_refl).
    - exact (keeps_createBefore oa C x
               (createBefore F id (LoadInst (ValueOf oa) LoadTake)).1 id
               (DestroyValueInst (ValueOf (nextID F))) eq_refl). }
  subst Fb. destruct LS as [last|]; [|done].
  eapply keeps_trans; [done|exact Ha|]. apply keeps_erase_ne. by apply Hlast.
Qed.

Ltac kept_as_is := intros [= <- <-]; apply keeps_refl.

Lemma scan_step_keeps st pre id st' stop :
  lastStoreInv oa p oty st pre →
  x ≠ id → x ∉ pre →
  promoteAllocationInBlock_body hasOwnership getOwnershipKind alloc st id
    = Some (st', stop) →
  keeps oa C x (scanF st) (scanF st').
Proof.
  intros [Hwf Hp Hls] Hx Hxpre. destruct st as [F RV LS]. simpl in Hwf, Hp, Hls.
  unfold promoteAllocationInBlock_body. cbn [scanF RunningVal LastStore].
  unfold allocValue.
  destruct (findInst F id) as [[q Inst]|] eqn:Hfind; [|by kept_as_is].
  pose proof (findInst_id _ _ _ _ Hfind) as Hii.
  assert (Hida : (∀ ty0, kind Inst ≠ AllocStackInst ty0) → id ≠ oa).
  { intros Hk. by eapply (present_other oa p oty); [exact Hp|exact Hfind|]. }
  destruct (isLoadFromStack F Inst (ValueOf oa)) eqn:Hload'.
  - unfold isLoadFromStack in Hload'.
    destruct (kind Inst) as [|op qual| | | | | | | | | | | | | | | | | |] eqn:Hk;
      try done.
    destruct RV as [rv|].
    + destruct (replaceLoad _ _ F Inst rv (ValueOf oa)) as [F1|] eqn:E; simpl; [|done].
      intros [= <- <-].
      apply (keeps_replaceLoad hasOwnership getOwnershipKind oa C x C_closed
               C_no_projection F Inst rv F1);
        [rewrite Hii; by apply Hida|rewrite Hii; congruence|done].
    + destruct (bool_decide (op = ValueOf oa) && bool_decide (qual ≠ LoadCopy));
        by kept_as_is.
  - destruct (kind Inst) eqn:Hk; try (by kept_as_is).
    + case_bool_decide as Hdest; [by kept_as_is|].
      intros [= <- <-].
      apply (keeps_store_case F RV LS id qual); [done|].
      intros last HLS ->. by destruct (Hls _ HLS).
    + destruct RV as [rv|]; [|by kept_as_is].
      case_bool_decide; [|by kept_as_is].
      destruct (promoteDebugValueAddr F Inst oty rv) as [F1|] eqn:E; simpl; [|done].
      intros [= <- <-].
      apply (keeps_promoteDebugValueAddr oa C x C_closed F Inst oty rv F1);
        [rewrite Hii; congruence|done].
    + destruct RV as [rv|]; [|by kept_as_is].
      case_bool_decide; [|by kept_as_is].
      destruct (replaceDestroy F Inst oty (Some rv)) as [F1|] eqn:E; simpl; [|done].
      intros [= <- <-].
      apply (keeps_replaceDestroy oa C x C_closed F Inst oty (Some rv) F1);
        [rewrite Hii; congruence|done].
    + case_bool_decide; [|by kept_as_is]. intros [= <- <-]. apply keeps_refl.
Qed.

Lemma scan_loop_keeps rest :
  ∀ pre st st',
    NoDup (pre ++ rest) →
    lastStoreInv oa p oty st pre →
    x ∉ pre ++ rest →
    forEachInst (promoteAllocationInBlock_body hasOwnership getOwnershipKind alloc)
                st rest = Some st' →
    keeps oa C x (scanF st) (scanF st').
Proof.
  induction rest as [|id rest IH]; intros pre st st' Hnd HI Hx.
  - intros [= <-]. apply keeps_refl.
  - rewrite forEachInst_cons.
    destruct (promoteAllocationInBlock_body hasOwnership getOwnershipKind alloc st id)
      as [[st1 stop]|] eqn:E; [|done].
    assert (Hid : id ∉ pre).
    { apply NoDup_app in Hnd as (_ & Hd & _). intros Hin. apply (Hd id Hin).
      apply list_elem_of_here. }
    apply not_elem_of_app in Hx as [Hx1 Hx2].
    apply not_elem_of_cons in Hx2 as [Hx2 Hx3].
    pose proof (scan_step_keeps st pre id st1 stop HI Hx2 Hx1 E) as Hk1.
    pose proof (lastStoreInv_step hasOwnership getOwnershipKind alloc p st pre id st1 stop
                  HI Hid E) as HI1.
    destruct stop; [by intros [= <-]|].
    intros Hrest. eapply keeps_trans; [done|exact Hk1|].
    eapply (IH (pre ++ [id])); [by rewrite <- app_assoc|exact HI1| |exact Hrest].
    rewrite <- app_assoc. simpl. apply not_elem_of_app. split; [done|].
    by apply not_elem_of_cons.
Qed.

Lemma promoteAllocationInBlock_keeps F BB F' LS :
  wfIDs F → allocPresent oa p oty F →
  x ∉ blockInstIDs F BB →
  promoteAllocationInBlock hasOwnership getOwnershipKind alloc F BB = Some (F', LS) →
  keeps oa C x F F'.
Proof.
  intros Hwf Hp Hx. unfold promoteAllocationInBlock.
  destruct (forEachInst _ (mkScan F None None) (blockInstIDs F BB)) as [st'|] eqn:E;
    simpl; [|done].
  intros [= <- <-].
  assert (HI0 : lastStoreInv oa p oty (mkScan F None None) []).
  { split; [done|done|]. by intros ls. }
  exact (scan_loop_keeps _ [] _ st' (NoDup_blockInstIDs F BB Hwf) HI0 Hx E).
Qed.

End ScanKeepsOther.

(** *** The recorded stores during the pruning phase *)

Lemma blockInstIDs_elem F BB i :
  i ∈ blockInstIDs F BB → ∃ Inst, (BB, Inst) ∈ allInsts F ∧ instID Inst = i.
Proof.
  unfold blockInstIDs. destruct (findBlock F BB) as [B|] eqn:E;
    [|intros H; by apply elem_of_nil in H].
  apply findBlock_in in E as [HB Hid]. intros Hi.
  apply list_elem_of_In, in_map_iff in Hi as (Inst & <- & Hin).
  exists Inst. split; [|done]. by eapply allInsts_intro.
Qed.

Lemma blockInstIDs_bound F BB i : wfIDs F → i ∈ blockInstIDs F BB → i < nextID F.
Proof.
  intros [_ Hlt] Hi. destruct (blockInstIDs_elem F BB i Hi) as (Inst & Hin & <-).
  apply (Hlt (BB, Inst) Hin).
Qed.

Lemma findInst_block F x q Inst q' Inst' :
  wfIDs F → findInst F x = Some (q, Inst) → (q', Inst') ∈ allInsts F →
  instID Inst' = x → q' = q.
Proof.
  intros Hwf Hf Hin Hid. destruct (findInst_in _ _ _ _ Hf) as [Hin0 Hid0].
  destruct (wfIDs_unique F q Inst q' Inst' Hwf Hin0 Hin) as [-> _]; [congruence|done].
Qed.

Section PruneInv.
Variables (hasOwnership : bool) (getOwnershipKind : SILFunction → SILValue → OwnershipKind).
Variables (alloc : AllocStack) (p : nat).
#[local] Abbreviation qa := (allocID alloc).
#[local] Abbreviation qty := (allocElementType alloc).

Lemma noKind_closed k k' : noKind k → sameUpToOperands qa k k' → noKind k'.
Proof. done. Qed.

Lemma noKind_no_projection k : noKind k → isAddrProjection k = false.
Proof. done. Qed.

Lemma pruneInv_scan F0 F LSB BB F' SI :
  pruneInv qa p qty F0 F LSB →
  promoteAllocationInBlock hasOwnership getOwnershipKind alloc F BB = Some (F', SI) →
  pruneInv qa p qty F0 F' (<[BB := SI]> LSB).
Proof.
  intros [Hwf Hp Hn Hfrom Hst] Hscan.
  destruct (promoteAllocationInBlock_lastStore hasOwnership getOwnershipKind alloc p
              F F' BB SI Hwf Hp Hscan) as (Hwf' & Hp' & Hls).
  assert (Hfresh : nextID F ∉ blockInstIDs F BB).
  { intros Hin. pose proof (blockInstIDs_bound F BB _ Hwf Hin). lia. }
  destruct (promoteAllocationInBlock_keeps hasOwnership getOwnershipKind alloc p
              noKind (nextID F) noKind_closed noKind_no_projection F BB F' SI
              Hwf Hp Hfresh Hscan) as (Hn' & Hfrom' & _).
  split; [done|done|lia|by eapply comesFrom_trans|].
  intros b ls Hb. destruct (decide (b = BB)) as [->|Hne].
  - rewrite lookup_insert_eq in Hb. injection Hb as ->.
    destruct (Hls ls eq_refl) as (Hin & q & src & qual & Hf & Hq & _).
    exists (StoreInst src (ValueOf qa) qual). split; [|by exists src, qual].
    assert (q = BB) as ->; [|done].
    destruct (blockInstIDs_elem F BB ls Hin) as (I0 & Hin0 & Hid0).
    destruct (findInst_in _ _ _ _ Hf) as [Hin' _].
    destruct (Hfrom' q _ Hin') as [(I1 & Hin1 & Hid1 & _)|[Hge _]].
    + simpl in Hid1.
      destruct (wfIDs_unique F BB I0 q I1 Hwf Hin0 Hin1) as [<- _]; [congruence|done].
    + simpl in Hge. pose proof (blockInstIDs_bound F BB ls Hwf Hin). lia.
  - rewrite lookup_insert_ne in Hb by done.
    destruct (Hst b ls Hb) as (k & Hf & Hk).
    assert (Hout : ls ∉ blockInstIDs F BB).
    { intros Hin. destruct (blockInstIDs_elem F BB ls Hin) as (I0 & Hin0 & Hid0).
      apply Hne. symmetry. by eapply (findInst_block F ls b). }
    destruct (promoteAllocationInBlock_keeps hasOwnership getOwnershipKind alloc p
                (isInitStoreTo qa) ls (isInitStoreTo_closed qa)
                (isInitStoreTo_no_projection qa) F BB F' SI Hwf Hp Hout Hscan)
      as (_ & _ & K).
    destruct (K Hwf) as [_ K'].
    destruct (K' b k Hk Hf) as (k' & Hf' & Hs). exists k'. split; [done|].
    by eapply isInitStoreTo_closed.
Qed.

Lemma pruneInv_loop F0 Blocks :
  ∀ (st st' : SILFunction * gmap nat (option nat)),
    pruneInv qa p qty F0 st.1 st.2 →
    foldM (λ (st : SILFunction * gmap nat (option nat)) Block,
             '(F, SI) ← promoteAllocationInBlock hasOwnership getOwnershipKind
                          alloc st.1 Block;
             Some (F, <[Block := SI]> st.2))
          st Blocks = Some st' →
    pruneInv qa p qty F0 st'.1 st'.2.
Proof.
  induction Blocks as [|BB r IH]; intros st st' HI; [by intros [= <-]|].
  rewrite foldM_cons.
  destruct (promoteAllocationInBlock hasOwnership getOwnershipKind alloc st.1 BB)
    as [[F1 SI]|] eqn:E; simpl; [|done].
  apply IH. simpl. by eapply pruneInv_scan.
Qed.

End PruneInv.

Lemma pruneAllocStackUsage_inv hasOwnership getOwnershipKind (P : StackAllocationPromoter)
    (p : nat) (F F' : SILFunction) (LSB : gmap nat (option nat)) :
  wfIDs F →
  allocPresent (allocID (ASI P)) p (allocElementType (ASI P)) F →
  pruneAllocStackUsage hasOwnership getOwnershipKind F P = Some (F', LSB) →
  pruneInv (allocID (ASI P)) p (allocElementType (ASI P)) F F' LSB.
Proof.
  intros Hwf Hp Hprune. unfold pruneAllocStackUsage in Hprune.
  refine (pruneInv_loop hasOwnership getOwnershipKind (ASI P) p F _ (F, ∅) (F', LSB)
            _ Hprune).
  split; simpl; [done|done|done|apply comesFrom_refl|]. intros b ls Hb.
  by rewrite lookup_empty in Hb.
Qed.

(** X16.  In a function whose instructions are numbered apart,
    [pruneAllocStackUsage] leaves no dangling record: every store in
    [LastStoreInBlock] is still in the function afterwards, in the block
    it is recorded for, and is a store into the allocation that is not a
    [store [assign]], whatever the scans of the other blocks erased; so
    [getLiveOutValue] finds the source of each recorded store.  The
    pruning keeps the numbering and the allocation, and every
    instruction it leaves is one of the function it started from, in
    its block and with its operation, or a new one of the kinds the pass
    creates. *)
Theorem X16_recorded_stores_survive_the_pruning
    hasOwnership getOwnershipKind (P : StackAllocationPromoter) (p : nat)
    (F F' : SILFunction) (LastStoreInBlock : gmap nat (option nat)) :
  wfIDs F →
  allocPresent (allocID (ASI P)) p (allocElementType (ASI P)) F →
  pruneAllocStackUsage hasOwnership getOwnershipKind F P = Some (F', LastStoreInBlock) →
  wfIDs F' ∧
  allocPresent (allocID (ASI P)) p (allocElementType (ASI P)) F' ∧
  comesFrom F F' ∧
  ∀ b ls, LastStoreInBlock !! b = Some (Some ls) →
    ∃ src qual,
      findInst F' ls = Some (b, mkInst ls (StoreInst src (allocValue (ASI P)) qual)) ∧
      qual ≠ StoreAssign ∧
      recordedStoreSrc F' LastStoreInBlock b = Some src.
Proof.
  intros Hwf Hp Hprune.
  destruct (pruneAllocStackUsage_inv hasOwnership getOwnershipKind P p F F'
              LastStoreInBlock Hwf Hp Hprune) as [Hwf' Hp' _ Hfrom Hst].
  split; [done|]. split; [done|]. split; [done|]. intros b ls Hb.
  destruct (Hst b ls Hb) as (k & Hf & src & qual & -> & Hq).
  exists src, qual. split; [done|]. split; [done|].
  unfold recordedStoreSrc. by rewrite Hb, Hf.
Qed.

(** ** The allocation through a promotion *)



Section KeepsBlocks.
Variable a : nat.
Variable C : InstKind → Prop.
Variable x : nat.



Hypothesis C_no_term : ∀ edges, ¬ C (TermInst edges).




Hypothesis C_closed : ∀ k k', C k → sameUpToOperands a k k' → C k'.


End KeepsBlocks.




Section FixKeeps.
Variables (hasOwnership : bool) (getOwnershipKind : SILFunction → SILValue → OwnershipKind).
Variables (P : StackAllocationPromoter) (p : nat).
Variables (LSB : gmap nat (option nat)) (Phi : list nat).
#[local] Abbreviation fa := (allocID (ASI P)).
#[local] Abbreviation fty := (allocElementType (ASI P)).
#[local] Abbreviation ak := (keeps fa isAllocKind fa).





End FixKeeps.

(** *** An instruction put after another *)









(** *** The steps of [promoteSingleAllocation] *)



Section EraseUses.
Variables (a p : nat) (ty : SILType).


End EraseUses.

Section SingleBlockKeeps.
Variables (hasOwnership : bool) (getOwnershipKind : SILFunction → SILValue → OwnershipKind).
Variables (alloc : AllocStack) (p : nat).
#[local] Abbreviation sba := (allocID alloc).
#[local] Abbreviation sbty := (allocElementType alloc).
#[local] Abbreviation sk := (keeps sba isAllocKind sba).






End SingleBlockKeeps.

Section PromotionPreserved.
Variables (hasOwnership : bool) (getOwnershipKind : SILFunction → SILValue → OwnershipKind).




End PromotionPreserved.




Section RunPreserved.
Variables (hasOwnership : bool) (getOwnershipKind : SILFunction → SILValue → OwnershipKind).
Variables (Dt : DominanceInfo) (Levels : gmap nat nat).



End RunPreserved.


(** ** The load that [replaceLoad] replaces *)

Lemma use_empty_noUseOf F v : noUseOf v F → use_empty F v = true.
Proof.
  intros H. unfold use_empty, getUsers.
  assert (Hnil : ∀ l : list (nat * SILInstruction),
            (∀ q Inst, (q, Inst) ∈ l → v ∉ getOperands (kind Inst)) →
            flat_map (λ p : nat * SILInstruction,
                        map (λ _, p) (List.filter (valueEqb v) (getOperands (kind p.2)))) l
            = []).
  { induction l as [|[q Inst] l IH]; intros Hl; simpl; [done|].
    rewrite IH by (intros q' Inst' Hin; apply (Hl q' Inst'); by apply list_elem_of_further).
    pose proof (Hl q Inst (list_elem_of_here _ _)) as Hv.
    assert (Hf : List.filter (valueEqb v) (getOperands (kind Inst)) = []).
    { induction (getOperands (kind Inst)) as [|o os IHo]; simpl; [done|].
      unfold valueEqb at 1. rewrite bool_decide_eq_false_2.
      - apply IHo. intros Hin. apply Hv. by apply list_elem_of_further.
      - intros ->. apply Hv. apply list_elem_of_here. }
    by rewrite Hf. }
  by rewrite (Hnil _ H).
Qed.

Lemma getOperands_mapOperands f k :
  getOperands (mapOperands f k) = map f (getOperands k).
Proof.
  destruct k; simpl; try done.
  induction edges as [|e r IH]; simpl; [done|]. by rewrite IH, map_app.
Qed.

Lemma noUseOf_replaceAllUsesWith F old new :
  new ≠ old → noUseOf old (replaceAllUsesWith F old new).
Proof.
  intros Hne q Inst Hin. unfold replaceAllUsesWith in Hin.
  rewrite mapInsts_mapLists in Hin.
  apply elem_of_allInsts_mapLists in Hin as (B & _ & _ & Hin).
  apply list_elem_of_In, in_map_iff in Hin as (Inst0 & <- & _). simpl.
  rewrite getOperands_mapOperands. intros Hold.
  apply list_elem_of_In, in_map_iff in Hold as (o & Ho & _).
  unfold substValue in Ho. destruct (decide (o = old)); congruence.
Qed.

Lemma noUseOf_createBefore F pos k v :
  noUseOf v F → v ∉ getOperands k → noUseOf v (createBefore F pos k).1.
Proof.
  intros HF Hk q Inst Hin.
  apply allInsts_createBefore in Hin as [Hin| ->]; [by eapply HF|done].
Qed.

Lemma eraseDeadProjections_subset fuel :
  ∀ F ASI op F', eraseDeadProjections fuel F ASI op = Some F' →
    ∀ q Inst, (q, Inst) ∈ allInsts F' → (q, Inst) ∈ allInsts F.
Proof.
  induction fuel as [|n IH]; intros F ASI op F'; simpl;
    destruct (_ && _); try done; try (by intros [= <-]).
  destruct (definingInst F op) as [D|]; simpl; [|done].
  destruct (assert _); simpl; [|done].
  destruct (getOperand0 (kind D)) as [next|]; simpl; [|done].
  intros E q Inst Hin. apply (IH _ _ _ _ E) in Hin. by apply allInsts_erase in Hin as [? _].
Qed.

Section ProjectedValue.
Variables (hasOwnership : bool) (getOwnershipKind : SILFunction → SILValue → OwnershipKind).

Lemma projectValue_defined pos projections :
  ∀ F val bvs,
    nextID F ≤ nextID (projectValue hasOwnership getOwnershipKind F pos projections val bvs).1.1 ∧
    ((projectValue hasOwnership getOwnershipKind F pos projections val bvs).1.2 = val ∨
     definedFrom (nextID F)
       (projectValue hasOwnership getOwnershipKind F pos projections val bvs).1.2) ∧
    ∀ bv, bv ∈ (projectValue hasOwnership getOwnershipKind F pos projections val bvs).2 →
          bv ∈ bvs ∨ definedFrom (nextID F) bv.
Proof.
  induction projections as [|proj rest IH]; intros F val bvs; simpl.
  - split; [done|]. split; [by left|]. intros bv Hbv. by left.
  - set (st1 := if isFieldProjection (kind proj) then _ else _).
    assert (H1 : nextID F ≤ nextID st1.1.1 ∧
                 (st1.1.2 = val ∨ definedFrom (nextID F) st1.1.2) ∧
                 ∀ bv, bv ∈ st1.2 → bv ∈ bvs ∨ definedFrom (nextID F) bv).
    { subst st1. destruct (isFieldProjection (kind proj)); [|by auto].
      unfold emitBeginBorrowOperation.
      destruct (_ || _); simpl.
      - rewrite bool_decide_eq_false_2 by (by intros H; apply H). simpl. by auto.
      - case_bool_decide; simpl.
        + split; [lia|]. split; [right; by eexists|].
          intros bv Hbv. apply elem_of_app in Hbv as [Hbv|Hbv]; [by left|].
          apply list_elem_of_singleton in Hbv as ->. right. by eexists.
        + split; [lia|]. by auto. }
    destruct st1 as [[F1 val1] bvs1]. simpl in H1. destruct H1 as (Hn1 & Hv1 & Hb1).
    assert (H2 : nextID F1 < nextID (createObjectProjection F1 pos (kind proj) val1).1 ∧
                 definedFrom (nextID F1) (createObjectProjection F1 pos (kind proj) val1).2).
    { unfold createObjectProjection. destruct (kind proj); simpl; (split; [lia|by eexists]). }
    destruct (createObjectProjection F1 pos (kind proj) val1) as [F2 val2]. simpl in H2.
    destruct H2 as [Hn2 (m & -> & Hm)].
    destruct (IH F2 (ValueOf m) bvs1) as (Hn3 & Hv3 & Hb3).
    split; [lia|]. split.
    + right. destruct Hv3 as [->|(m' & -> & Hm')]; eexists; (split; [done|lia]).
    + intros bv Hbv. destruct (Hb3 bv Hbv) as [Hin|(m' & -> & Hm')].
      * destruct (Hb1 bv Hin) as [?|?]; [by left|by right].
      * right. eexists. split; [done|lia].
Qed.

Lemma noUseOf_endBorrows pos v bvs :
  ∀ F, noUseOf v F → v ∉ bvs →
    noUseOf v (fold_left (λ F borrowedVal,
                            (createBefore F pos (EndBorrowInst borrowedVal)).1) bvs F).
Proof.
  induction bvs as [|bv r IH]; intros F HF Hv; simpl; [done|].
  apply IH.
  - apply noUseOf_createBefore; [done|]. simpl. intros H.
    apply list_elem_of_singleton in H as ->. apply Hv, list_elem_of_here.
  - intros H. apply Hv. by apply list_elem_of_further.
Qed.

Lemma replaceLoad_erases F LI val ASI F' :
  instID LI < nextID F → val ≠ asValue LI →
  replaceLoad hasOwnership getOwnershipKind F LI val ASI = Some F' →
  findInst F' (instID LI) = None ∧ use_empty F' (asValue LI) = true.
Proof.
  intros Hlt Hval. unfold replaceLoad.
  destruct (kind LI) as [|op qual| | | | | | | | | | | | | | | | | |]; try done.
  destruct (collectProjections _ F ASI op) as [projections|]; simpl; [|done].
  destruct (projectValue_defined (instID LI) (rev projections) F val [])
    as (Hn1 & Hv1 & Hb1).
  destruct (projectValue hasOwnership getOwnershipKind F (instID LI) (rev projections) val [])
    as [[F1 val1] bvs]; simpl in *.
  assert (Hval1 : val1 ≠ asValue LI).
  { destruct Hv1 as [->|(m & -> & Hm)]; [done|]. unfold asValue. intros [= Heq]. lia. }
  assert (Hbvs : asValue LI ∉ bvs).
  { intros Hin. destruct (Hb1 _ Hin) as [H|(m & Heq & Hm)]; [by apply elem_of_nil in H|].
    unfold asValue in Heq. injection Heq as Heq. lia. }
  destruct (if bool_decide (qual = LoadCopy) then _ else _) as [F2|] eqn:E2; simpl; [|done].
  assert (H2 : noUseOf (asValue LI) F2).
  { case_bool_decide.
    - injection E2 as <-. apply noUseOf_replaceAllUsesWith. simpl.
      unfold asValue. intros [= Heq]. lia.
    - destruct (assert _); simpl in E2; [|done]. injection E2 as <-.
      by apply noUseOf_replaceAllUsesWith. }
  intros E3.
  pose proof (noUseOf_endBorrows (instID LI) _ bvs F2 H2 Hbvs) as H3.
  set (F3 := fold_left _ bvs F2) in *.
  pose proof (eraseDeadProjections_subset _ _ _ _ _ E3) as Hsub. split.
  - destruct (findInst F' (instID LI)) as [[q Inst]|] eqn:Hf; [|done]. exfalso.
    destruct (findInst_in _ _ _ _ Hf) as [Hin Hid].
    apply Hsub, allInsts_erase in Hin as [_ Hne]. done.
  - apply use_empty_noUseOf. intros q Inst Hin.
    apply Hsub, allInsts_erase in Hin as [Hin _]. by eapply H3.
Qed.

End ProjectedValue.

(** X19.  When [replaceLoad] replaces a load by a value other than the
    load's own result, the load is gone afterwards and nothing uses its
    result any more: every use was redirected before the load was
    erased, and none of the instructions created on the way refers to
    it. *)
Theorem X19_replaced_load_is_gone_and_unused
    hasOwnership getOwnershipKind (F F' : SILFunction) (LI : SILInstruction)
    (val ASI : SILValue) :
  instID LI < nextID F →
  val ≠ asValue LI →
  replaceLoad hasOwnership getOwnershipKind F LI val ASI = Some F' →
  findInst F' (instID LI) = None ∧ use_empty F' (asValue LI) = true.
Proof. exact (replaceLoad_erases hasOwnership getOwnershipKind F LI val ASI F'). Qed.

(** ** The debug value that [promoteDebugValueAddr] leaves *)

Lemma allInsts_erase_filter F x :
  allInsts (eraseFromParent F x) =
  List.filter (λ p : nat * SILInstruction, negb (instID p.2 =? x)) (allInsts F).
Proof.
  rewrite eraseFromParent_mapLists. unfold mapLists, allInsts. simpl.
  induction (blocks F) as [|B r IH]; simpl; [done|].
  rewrite List.filter_app, IH. f_equal.
  induction (insts B) as [|Inst l IHl]; simpl; [done|].
  destruct (negb (instID Inst =? x)); simpl; by rewrite IHl.
Qed.

Lemma insertBeforeIn_without pos new l :
  pos ∉ map instID l → insertBeforeIn pos new l = l.
Proof.
  induction l as [|Inst l IH]; simpl; [done|]. intros H.
  apply not_elem_of_cons in H as [Hne H].
  destruct (instID Inst =? pos) eqn:E; [apply Nat.eqb_eq in E; congruence|].
  by rewrite IH.
Qed.

Lemma insertBeforeIn_keeps pos new l Inst :
  Inst ∈ l → Inst ∈ insertBeforeIn pos new l.
Proof.
  induction l as [|Inst0 l IH]; simpl; [done|]. intros H.
  destruct (instID Inst0 =? pos).
  - by apply list_elem_of_further.
  - apply elem_of_cons in H as [->|H]; [apply list_elem_of_here|].
    by apply list_elem_of_further, IH.
Qed.

Section CountCreated.
Variable f : InstKind → bool.
#[local] Abbreviation cnt :=
  (λ l : list (nat * SILInstruction), length (List.filter (λ p, f (kind p.2)) l)).

Lemma count_insertBefore (b pos : nat) new l :
  pos ∈ map instID l →
  cnt (map (λ Inst, (b, Inst)) (insertBeforeIn pos new l)) =
  (if f (kind new) then 1 else 0) + cnt (map (λ Inst, (b, Inst)) l).
Proof.
  induction l as [|Inst l IH]; simpl; intros H; [by apply elem_of_nil in H|].
  destruct (instID Inst =? pos) eqn:E; simpl.
  - destruct (f (kind new)); simpl; destruct (f (kind Inst)); simpl; lia.
  - apply elem_of_cons in H as [H|H]; [apply Nat.eqb_neq in E; congruence|].
    specialize (IH H). destruct (f (kind Inst)); simpl; lia.
Qed.

Lemma count_insertBefore_blocks pos new Bs :
  NoDup (flat_map (λ B, map instID (insts B)) Bs) →
  pos ∈ flat_map (λ B, map instID (insts B)) Bs →
  cnt (flat_map (λ B, map (λ Inst, (blockID B, Inst)) (insertBeforeIn pos new (insts B))) Bs) =
  (if f (kind new) then 1 else 0) +
  cnt (flat_map (λ B, map (λ Inst, (blockID B, Inst)) (insts B)) Bs).
Proof.
  induction Bs as [|B r IH]; simpl; intros Hnd Hpos; [by apply elem_of_nil in Hpos|].
  apply NoDup_app in Hnd as (Hnd1 & Hdisj & Hnd2).
  rewrite !List.filter_app, !length_app.
  destruct (decide (pos ∈ map instID (insts B))) as [HB|HB].
  - rewrite (count_insertBefore _ _ _ _ HB).
    assert (Hr : flat_map (λ B, map (λ Inst, (blockID B, Inst))
                                    (insertBeforeIn pos new (insts B))) r =
                 flat_map (λ B, map (λ Inst, (blockID B, Inst)) (insts B)) r).
    { specialize (Hdisj pos HB). clear -Hdisj.
      induction r as [|B' r IH]; [done|]. simpl in *.
      apply not_elem_of_app in Hdisj as [Hd1 Hd2].
      by rewrite IH, insertBeforeIn_without. }
    rewrite Hr. lia.
  - rewrite (insertBeforeIn_without _ _ _ HB).
    apply elem_of_app in Hpos as [Hpos|Hpos]; [done|].
    rewrite (IH Hnd2 Hpos). lia.
Qed.

Lemma count_createBefore F pos k :
  wfIDs F → pos ∈ instIDs F →
  cnt (allInsts (createBefore F pos k).1) = (if f k then 1 else 0) + cnt (allInsts F).
Proof.
  intros [Hnd _] Hpos. rewrite instIDs_blocks in Hnd, Hpos.
  pose proof (count_insertBefore_blocks pos (mkInst (nextID F) k) (blocks F) Hnd Hpos) as H.
  simpl in H. change (allInsts F) with
    (flat_map (λ B, map (λ Inst, (blockID B, Inst)) (insts B)) (blocks F)).
  rewrite <- H. f_equal. f_equal.
  rewrite createBefore_mapLists. unfold mapLists, allInsts. simpl. clear.
  induction (blocks F) as [|B r IH]; simpl; [done|]. by rewrite IH.
Qed.

Lemma count_erase F x :
  (∀ q Inst, (q, Inst) ∈ allInsts F → instID Inst = x → f (kind Inst) = false) →
  cnt (allInsts (eraseFromParent F x)) = cnt (allInsts F).
Proof.
  rewrite allInsts_erase_filter. intros H.
  induction (allInsts F) as [|[q Inst] l IH]; simpl; [done|].
  assert (Hl : ∀ q Inst, (q, Inst) ∈ l → instID Inst = x → f (kind Inst) = false).
  { intros q' Inst' Hin. apply (H q' Inst'). by apply list_elem_of_further. }
  specialize (IH Hl).
  destruct (instID Inst =? x) eqn:E; simpl.
  - apply Nat.eqb_eq in E. rewrite (H q Inst (list_elem_of_here _ _) E). exact IH.
  - destruct (f (kind Inst)); simpl; lia.
Qed.

End CountCreated.

Lemma debugValue_user_found F Value varInfo :
  existsb (λ p : nat * SILInstruction,
             match kind p.2 with
             | DebugValueInst _ v => v =? varInfo
             | _ => false
             end) (getUsers F Value) = true ↔
  debugValuesOf F Value varInfo ≠ [].
Proof.
  unfold debugValuesOf, getUsers. split.
  - intros H. apply existsb_exists in H as (p0 & Hin & Hk).
    apply in_flat_map in Hin as (p & Hp & Hin).
    apply in_map_iff in Hin as (o & Hpp & Ho). subst p0.
    apply filter_In in Ho as [Ho Heq].
    unfold valueEqb in Heq. apply bool_decide_eq_true in Heq. subst o.
    intros Hnil.
    assert (Hin : In p (List.filter (λ p, isDebugValueOf Value varInfo (kind p.2))
                                    (allInsts F))).
    { apply filter_In. split; [done|]. simpl in *.
      destruct (kind p.2); try done. simpl in Ho. destruct Ho as [->|[]]. simpl.
      by rewrite bool_decide_eq_true_2. }
    by rewrite Hnil in Hin.
  - intros H.
    destruct (List.filter _ (allInsts F)) as [|p l] eqn:E; [done|].
    assert (Hin : In p (List.filter (λ p, isDebugValueOf Value varInfo (kind p.2))
                                    (allInsts F))) by (rewrite E; by left).
    apply filter_In in Hin as [Hin Hk].
    apply existsb_exists. exists p. split.
    + apply in_flat_map. exists p. split; [done|].
      destruct (kind p.2); try done. simpl in Hk. apply andb_true_iff in Hk as [Hop _].
      apply bool_decide_eq_true in Hop. subst op. simpl. unfold valueEqb.
      rewrite bool_decide_eq_true_2 by done. by left.
    + destruct (kind p.2); try done. simpl in Hk. by apply andb_true_iff in Hk as [_ ?].
Qed.

Lemma promoteDebugValueAddr_once F DVAI q op varInfo Ty Value F' :
  wfIDs F →
  findInst F (instID DVAI) = Some (q, DVAI) →
  kind DVAI = DebugValueAddrInst op varInfo →
  promoteDebugValueAddr F DVAI Ty Value = Some F' →
  findInst F' (instID DVAI) = None ∧
  length (debugValuesOf F' Value varInfo) = 1 `max` length (debugValuesOf F Value varInfo).
Proof.
  intros Hwf Hf Hk. unfold promoteDebugValueAddr.
  destruct (assert _); cbn -[createBefore eraseFromParent getUsers]; [|done]. rewrite Hk.
  destruct (findInst_in _ _ _ _ Hf) as [Hin _].
  assert (Hnot : ∀ G, wfIDs G → (q, DVAI) ∈ allInsts G →
            ∀ q' Inst, (q', Inst) ∈ allInsts G → instID Inst = instID DVAI →
              isDebugValueOf Value varInfo (kind Inst) = false).
  { intros G HG HinG q' Inst Hin' Hid.
    destruct (wfIDs_unique G q' Inst q DVAI HG Hin' HinG Hid) as [_ ->]. by rewrite Hk. }
  destruct (existsb _ (getUsers F Value)) eqn:Hex; intros E;
    apply (inj Some) in E; subst F'.
  - split; [apply findInst_erase|]. unfold debugValuesOf.
    rewrite (count_erase _ F (instID DVAI) (Hnot F Hwf Hin)).
    apply debugValue_user_found in Hex. unfold debugValuesOf in Hex.
    destruct (List.filter _ (allInsts F)); [done|]. simpl. lia.
  - split; [apply findInst_erase|]. unfold debugValuesOf.
    assert (Hin1 : (q, DVAI) ∈ allInsts (createBefore F (instID DVAI)
                                           (DebugValueInst Value varInfo)).1).
    { rewrite createBefore_mapLists. pose proof Hin as Hin0.
      apply elem_of_allInsts in Hin0 as (B & HB & Hq & HI).
      apply elem_of_allInsts_mapLists. exists B. split; [done|]. split; [done|].
      by apply insertBeforeIn_keeps. }
    rewrite (count_erase _ _ (instID DVAI)
               (Hnot _ (wfIDs_createBefore _ _ _ Hwf) Hin1)).
    rewrite count_createBefore; [|done|].
    + assert (Hnil : debugValuesOf F Value varInfo = []).
      { destruct (debugValuesOf F Value varInfo) eqn:E; [done|].
        assert (Hne : debugValuesOf F Value varInfo ≠ []) by (by rewrite E).
        apply debugValue_user_found in Hne. congruence. }
      unfold debugValuesOf in Hnil. rewrite Hnil. simpl.
      by rewrite bool_decide_eq_true_2, Nat.eqb_refl.
    + apply list_elem_of_In, in_map_iff. exists (q, DVAI). split; [done|].
      by apply list_elem_of_In.
Qed.

(** X20.  [promoteDebugValueAddr] does not insert the same [debug_value]
    twice.  For a [debug_value_addr] of a function whose instructions are
    numbered apart, it removes the [debug_value_addr]; if the value had
    no [debug_value] for the variable, it has exactly one afterwards, and
    if it had some, it has as many as before. *)
Theorem X20_debug_value_is_not_inserted_twice
    (F F' : SILFunction) (DVAI : SILInstruction) (q : nat) (op : SILValue)
    (varInfo : nat) (Ty : SILType) (Value : SILValue) :
  wfIDs F →
  findInst F (instID DVAI) = Some (q, DVAI) →
  kind DVAI = DebugValueAddrInst op varInfo →
  promoteDebugValueAddr F DVAI Ty Value = Some F' →
  findInst F' (instID DVAI) = None ∧
  length (debugValuesOf F' Value varInfo) = 1 `max` length (debugValuesOf F Value varInfo).
Proof. exact (promoteDebugValueAddr_once F DVAI q op varInfo Ty Value F'). Qed.

(** * A second run *)

(** ** What [eraseUsesOfInstruction] leaves *)







(** ** One visit of the run *)

Section SecondRun.
Variables (hasOwnership : bool) (getOwnershipKind : SILFunction → SILValue → OwnershipKind).
Variables (Dt : DominanceInfo) (Levels : gmap nat nat).




End SecondRun.




(** * The further properties on the example functions *)

Lemma X1_witness :
  collectLoads deadField = [] ∧ ∀ sb g, (isAddressForLoad deadField sb g).1.1 = true.
Proof. apply (X1_dead_projection_has_no_loads deadField). reflexivity. Defined.

Lemma X2_witness : collectLoads deadField = [].
Proof.
  apply (X2_write_only_has_no_loads (isAllocStackValue writeOnly)
           (getUses writeOnly (ValueOf 20)) deadField).
  - vm_compute. reflexivity.
  - vm_compute. apply list_elem_of_further, list_elem_of_here.
Defined.

Lemma X8_witness :
  NoDup [3] ∧
  ∀ b, b ∈ [3] →
    is_Some (getNode (DT diamondPromoter) b) ∧ ∃ pred, b ∈ getSuccessors diamond pred.
Proof.
  apply (X8_phi_blocks_are_distinct_join_points 10 diamond diamondPromoter
           (getUses diamond (ValueOf 20)) [3]).
  vm_compute. reflexivity.
Defined.

Lemma X9_witness :
  computePhiBlocks 10 neverStored neverStoredPromoter (getUses neverStored (ValueOf 20))
  = Some [].
Proof.
  apply (X9_no_reachable_store_no_phi_block 10 neverStored neverStoredPromoter
           (getUses neverStored (ValueOf 20))).
  intros U HU. vm_compute in HU.
  repeat (apply elem_of_cons in HU as [->|HU]; [by intros [=]|]).
  by apply elem_of_nil in HU.
Defined.

Lemma X11_witness :
  is_Some (getLiveOutValue (addBlockArguments diamond [3]) diamondPromoter
             copiesAndStoresLastStores [3] 1) ∧
  is_Some (fixPhiPredBlock (addBlockArguments diamond [3]) diamondPromoter
             copiesAndStoresLastStores [3] 3 1).
Proof.
  apply (X11_live_out_defined_after_arguments diamond diamondPromoter
           copiesAndStoresLastStores [3]).
  - apply NoDup_singleton.
  - intros b Hb. apply list_elem_of_singleton in Hb as ->. vm_compute. by eexists.
Defined.

Lemma X13_witness :
  run false noOwnership takeField diamondDT = Some (takeField, false).
Proof.
  apply (X13_run_leaves_captured_allocations_alone false noOwnership takeField diamondDT).
  intros id alloc H. pose proof (getAllocStack_in _ _ _ H) as Hin. vm_compute in Hin.
  repeat (apply elem_of_cons in Hin as [->|Hin];
          [vm_compute in H; simplify_eq; vm_compute; reflexivity|]).
  by apply elem_of_nil in Hin.
Defined.

Lemma X14_witness :
  is_Some (copiesAndStoresLastStores !! 1) ↔
  ∃ p, p ∈ getUsers copiesAndStores (allocValue (ASI copiesAndStoresPromoter)) ∧
       p.1 = 1.
Proof.
  apply (X14_last_store_recorded_for_blocks_of_users false noOwnership copiesAndStores
           copiesAndStoresPruned copiesAndStoresPromoter copiesAndStoresLastStores).
  vm_compute. reflexivity.
Defined.

Lemma X15_witness :
  wfIDs twoStoresScanned ∧
  allocPresent (allocID twoStoresAlloc) 0 (allocElementType twoStoresAlloc)
    twoStoresScanned ∧
  ∀ ls, Some 25 = Some ls →
    ls ∈ blockInstIDs twoStores 1 ∧
    ∃ q src qual,
      findInst twoStoresScanned ls
        = Some (q, mkInst ls (StoreInst src (allocValue twoStoresAlloc) qual)) ∧
      qual ≠ StoreAssign ∧
      ∀ LSB, recordedStoreSrc twoStoresScanned (<[1 := Some ls]> LSB) 1 = Some src.
Proof.
  apply (X15_returned_last_store_is_a_live_init_store false noOwnership twoStoresAlloc 0
           twoStores twoStoresScanned 1 (Some 25)).
  - exact twoStores_wfIDs.
  - split; [vm_compute; reflexivity|simpl; lia].
  - vm_compute. reflexivity.
Defined.

Lemma X16_witness :
  wfIDs twoStoresScanned ∧
  allocPresent (allocID (ASI twoStoresPromoter)) 0
    (allocElementType (ASI twoStoresPromoter)) twoStoresScanned ∧
  comesFrom twoStores twoStoresScanned ∧
  ∀ b ls, twoStoresLastStores !! b = Some (Some ls) →
    ∃ src qual,
      findInst twoStoresScanned ls
        = Some (b, mkInst ls (StoreInst src (allocValue (ASI twoStoresPromoter)) qual)) ∧
      qual ≠ StoreAssign ∧
      recordedStoreSrc twoStoresScanned twoStoresLastStores b = Some src.
Proof.
  apply (X16_recorded_stores_survive_the_pruning false noOwnership twoStoresPromoter 0
           twoStores twoStoresScanned twoStoresLastStores).
  - exact twoStores_wfIDs.
  - split; [vm_compute; reflexivity|simpl; lia].
  - vm_compute. reflexivity.
Defined.



Lemma X19_witness :
  findInst fieldReadReplaced (instID (mkInst 23 (LoadInst (ValueOf 22) LoadTake))) = None ∧
  use_empty fieldReadReplaced (asValue (mkInst 23 (LoadInst (ValueOf 22) LoadTake))) = true.
Proof.
  apply (X19_replaced_load_is_gone_and_unused false noOwnership fieldRead fieldReadReplaced
           (mkInst 23 (LoadInst (ValueOf 22) LoadTake)) (ValueOf 10) (ValueOf 20)).
  - simpl. lia.
  - done.
  - vm_compute. reflexivity.
Defined.

Lemma X20_witness :
  findInst debuggedPromoted (instID (mkInst 22 (DebugValueAddrInst (ValueOf 20) 7))) = None ∧
  length (debugValuesOf debuggedPromoted (ValueOf 10) 7) =
    1 `max` length (debugValuesOf debugged (ValueOf 10) 7).
Proof.
  apply (X20_debug_value_is_not_inserted_twice debugged debuggedPromoted
           (mkInst 22 (DebugValueAddrInst (ValueOf 20) 7)) 0 (ValueOf 20) 7 loadableTy
           (ValueOf 10)).
  - apply wfIDs_by_computation; vm_compute; reflexivity.
  - vm_compute. reflexivity.
  - reflexivity.
  - vm_compute. reflexivity.
Defined.
